(** * vsh (Vanguard Shell): a shallow embedding of the interpreter core

    The development follows the C sources module by module:
    - [Arena]   : arena.c, the page based bump allocator;
    - [CStr]    : the <ctype.h> predicates and C string helpers the sources use;
    - [Lex]     : lexer.c;
    - [Parse]   : parser.c;
    - [Env]     : env.c (variable table and the dollar expansion engine);
    - [Exec]    : executor.c (dispatcher, simple commands, redirections);
    - [Alias]   : the alias expansion of shell.c.

    Conventions.  A C [int] or [size_t] is a [Z]; [size_t] arithmetic is
    wrapped modulo 2^64 where the source can overflow.  A C string is a
    [string] without NUL; a NULL-able pointer is an [option].  A singly
    linked list is a [list] whose first element is the head of the chain.
    Heap allocation is assumed to succeed unless a function takes an explicit
    allocator outcome. *)

From Stdlib Require Import ZArith List String Ascii Bool Lia Arith.
From Stdlib Require Import DecimalString Decimal.
Import ListNotations.

(* ===================================================================== *)
(** ** arena.c *)
(* ===================================================================== *)

Module Arena.
Local Open Scope Z_scope.

(** arena.h: [ARENA_PAGE_SIZE], [ARENA_ALIGNMENT]. *)
Definition ARENA_PAGE_SIZE : Z := 4096.
Definition ARENA_ALIGNMENT : Z := 8.

(** [size_t] is 64 bits wide; every [size_t] operation wraps. *)
Definition size_wrap (z : Z) : Z := z mod 2 ^ 64.

(** [struct ArenaPage] without its [next] field: the chain of pages is the
    list [pages] of the arena, head first. *)
Record ArenaPage : Type := mkPage {
  size : Z;
  used : Z
}.

(** [struct Arena].  [pages] is the chain starting at [arena->head] (never
    empty: [head] followed by [rest]); [current] is the index in that chain of
    the page [arena->current] points to. *)
Record Arena : Type := mkArena {
  head : ArenaPage;
  rest : list ArenaPage;
  current : nat;
  page_size : Z;
  total_allocated : Z;
  total_pages : Z
}.

Definition pages (a : Arena) : list ArenaPage := head a :: rest a.

(** A pointer returned by the allocator: page index in the chain and byte
    offset inside the page's [data]. *)
Definition Ptr : Type := (nat * Z)%type.

(** [align_up]: [(size + (ARENA_ALIGNMENT - 1)) & ~(ARENA_ALIGNMENT - 1)]. *)
Definition align_up (sz : Z) : Z :=
  Z.land (size_wrap (sz + (ARENA_ALIGNMENT - 1)))
         (size_wrap (Z.lnot (ARENA_ALIGNMENT - 1))).

(** [page_new]; [malloc_ok] is the outcome of the underlying [malloc]. *)
Definition page_new (malloc_ok : bool) (min_size : Z) : option ArenaPage :=
  if malloc_ok then Some (mkPage min_size 0) else None.

Definition arena_create_sized (malloc_ok : bool) (psz : Z) : option Arena :=
  match page_new malloc_ok psz with
  | None => None
  | Some page => Some (mkArena page [] 0 psz 0 1)
  end.

Definition arena_create (malloc_ok : bool) : option Arena :=
  arena_create_sized malloc_ok ARENA_PAGE_SIZE.

(** Replace the page at index [i] of a chain. *)
Fixpoint set_page (i : nat) (p : ArenaPage) (l : list ArenaPage) : list ArenaPage :=
  match l, i with
  | [], _ => []
  | _ :: t, O => p :: t
  | h :: t, S j => h :: set_page j p t
  end.

(** Link [p] right after the page at index [i] ([new->next = page->next;
    page->next = new]). *)
Fixpoint link_after (i : nat) (p : ArenaPage) (l : list ArenaPage) : list ArenaPage :=
  match l, i with
  | [], _ => [p]
  | h :: t, O => h :: p :: t
  | h :: t, S j => h :: link_after j p t
  end.

(** Rebuild an arena from a non-empty chain (the head is never replaced by a
    different page, only updated in place). *)
Definition with_pages (a : Arena) (l : list ArenaPage) (cur : nat)
    (alloc pgs : Z) : Arena :=
  match l with
  | [] => a
  | h :: t => mkArena h t cur (page_size a) alloc pgs
  end.

(** [arena_alloc].  The result is the pointer (or NULL) and the arena after
    the call. *)
Definition arena_alloc (malloc_ok : bool) (a : Arena) (sz : Z)
    : option Ptr * Arena :=
  if sz =? 0 then (None, a) else
  let aligned := align_up sz in
  let page := nth (current a) (pages a) (head a) in
  if size_wrap (used page + aligned) <=? size page then
    let page' := mkPage (size page) (size_wrap (used page + aligned)) in
    (Some (current a, used page),
     with_pages a (set_page (current a) page' (pages a)) (current a)
       (size_wrap (total_allocated a + aligned)) (total_pages a))
  else
    let new_size := if page_size a <? aligned then aligned else page_size a in
    match page_new malloc_ok new_size with
    | None => (None, a)
    | Some new_page =>
      let new_page' := mkPage (size new_page) aligned in
      (Some (S (current a), 0),
       with_pages a (link_after (current a) new_page' (pages a)) (S (current a))
         (size_wrap (total_allocated a + aligned))
         (size_wrap (total_pages a + 1)))
    end.

(** [arena_reset]: the arena after the call, and the pages handed to [free]
    in the order the loop frees them. *)
Definition arena_reset (a : Arena) : Arena * list ArenaPage :=
  (mkArena (mkPage (size (head a)) 0) [] 0 (page_size a) 0 1, rest a).

(** [arena_bytes_used]: the sum of [used] over the chain. *)
Definition arena_bytes_used (a : Arena) : Z :=
  fold_left (fun total p => size_wrap (total + used p)) (pages a) 0.

(** The pointer argument of the public functions may be NULL. *)
Definition arena_reset_ptr (a : option Arena) : option Arena :=
  option_map (fun x => fst (arena_reset x)) a.

Definition arena_bytes_used_ptr (a : option Arena) : Z :=
  match a with None => 0 | Some x => arena_bytes_used x end.

(** A run of allocation requests, each with the outcome of the [malloc] it
    may trigger. *)
Fixpoint arena_allocs (a : Arena) (reqs : list (Z * bool)) : Arena :=
  match reqs with
  | [] => a
  | (sz, ok) :: more => arena_allocs (snd (arena_alloc ok a sz)) more
  end.

(** *** Properties *)

Lemma arena_alloc_head_size (ok : bool) (a : Arena) (sz : Z) :
  size (head (snd (arena_alloc ok a sz))) = size (head a).
Proof.
  unfold arena_alloc.
  destruct (sz =? 0); [reflexivity|].
  destruct (_ <=? _).
  - simpl. unfold pages. destruct (current a); reflexivity.
  - unfold page_new. destruct ok; [|reflexivity].
    simpl. unfold pages. destruct (current a); reflexivity.
Qed.

Lemma arena_allocs_head_size (reqs : list (Z * bool)) :
  forall a, size (head (arena_allocs a reqs)) = size (head a).
Proof.
  induction reqs as [|[sz ok] more IH]; intros a; simpl; [reflexivity|].
  rewrite IH. apply arena_alloc_head_size.
Qed.

(** C9.  Whatever allocations preceded it, [arena_reset] keeps exactly the
    first page of the chain (emptied), hands every later page to [free], and
    [arena_bytes_used] is 0 right afterwards. *)
Theorem arena_reset_keeps_first_page_and_zeroes_usage :
  forall (a : Arena) (reqs : list (Z * bool)),
    let a1 := arena_allocs a reqs in
    let a2 := fst (arena_reset a1) in
    pages a2 = [mkPage (size (head a)) 0]
    /\ snd (arena_reset a1) = rest a1
    /\ current a2 = 0%nat
    /\ arena_bytes_used a2 = 0
    /\ arena_bytes_used_ptr (arena_reset_ptr (Some a1)) = 0.
Proof.
  intros a reqs a1 a2. subst a2. unfold arena_reset; simpl.
  unfold pages; simpl. subst a1. rewrite arena_allocs_head_size.
  repeat split; reflexivity.
Qed.

(** *** Alignment *)

Lemma land_align_mask (x : Z) :
  0 <= x < 2 ^ 64 -> Z.land x (2 ^ 64 - 8) = 8 * (x / 8).
Proof.
  intros Hx.
  replace (2 ^ 64 - 8) with (Z.shiftl (Z.ones 61) 3) by reflexivity.
  replace (8 * (x / 8)) with (Z.shiftl (Z.shiftr x 3) 3)
    by (rewrite Z.shiftl_mul_pow2, Z.shiftr_div_pow2 by lia;
        change (2 ^ 3) with 8; lia).
  apply Z.bits_inj'. intros n Hn. rewrite Z.land_spec.
  destruct (Z.ltb_spec n 3) as [Hlt|Hge].
  - rewrite !Z.shiftl_spec_low by lia. apply andb_false_r.
  - rewrite !Z.shiftl_spec by lia. rewrite Z.shiftr_spec by lia.
    replace (n - 3 + 3) with n by lia.
    destruct (Z.ltb_spec (n - 3) 61) as [Hin|Hout].
    + rewrite Z.ones_spec_low by lia. apply andb_true_r.
    + rewrite Z.ones_spec_high by lia. rewrite andb_false_r. symmetry.
      destruct (Z.eq_dec x 0) as [->|Hnz]; [apply Z.bits_0|].
      apply Z.bits_above_log2; [lia|].
      assert (Z.log2 x < 64) by (apply Z.log2_lt_pow2; lia). lia.
Qed.

Lemma align_up_eq (sz : Z) :
  align_up sz = 8 * (((sz + 7) mod 2 ^ 64) / 8).
Proof.
  unfold align_up, size_wrap, ARENA_ALIGNMENT.
  change ((Z.lnot (8 - 1)) mod 2 ^ 64) with (2 ^ 64 - 8).
  change (8 - 1) with 7.
  apply land_align_mask. apply Z.mod_pos_bound. reflexivity.
Qed.

Lemma align_up_range (sz : Z) : 0 <= align_up sz < 2 ^ 64.
Proof.
  rewrite align_up_eq.
  pose proof (Z.mod_pos_bound (sz + 7) (2 ^ 64) eq_refl) as Hm.
  pose proof (Z.div_mod ((sz + 7) mod 2 ^ 64) 8 ltac:(lia)) as Hd.
  pose proof (Z.mod_pos_bound ((sz + 7) mod 2 ^ 64) 8 eq_refl) as Hr.
  lia.
Qed.

(** [align_up] rounds a request up to the next multiple of the alignment;
    a request within 7 bytes of [SIZE_MAX] wraps around to 0. *)
Theorem align_up_rounds_up_to_a_multiple_of_8 :
  forall sz : Z,
    0 <= sz < 2 ^ 64 ->
    align_up sz mod 8 = 0
    /\ (sz <= 2 ^ 64 - 8 -> sz <= align_up sz < sz + 8)
    /\ (2 ^ 64 - 8 < sz -> align_up sz = 0).
Proof.
  intros sz Hsz. rewrite align_up_eq. split; [|split].
  - rewrite Z.mul_comm. apply Z.mod_mul. lia.
  - intros Hle. rewrite Z.mod_small by lia.
    pose proof (Z.div_mod (sz + 7) 8 ltac:(lia)) as Hd.
    pose proof (Z.mod_pos_bound (sz + 7) 8 eq_refl) as Hr. lia.
  - intros Hgt.
    replace ((sz + 7) mod 2 ^ 64) with (sz + 7 - 2 ^ 64).
    + rewrite Z.div_small by lia. reflexivity.
    + apply Z.mod_unique with (q := 1); lia.
Qed.

Lemma align_up_rounds_up_to_a_multiple_of_8_witness :
  0 <= 13 < 2 ^ 64
  /\ align_up 13 mod 8 = 0
  /\ (13 <= 2 ^ 64 - 8 -> 13 <= align_up 13 < 13 + 8)
  /\ (2 ^ 64 - 8 < 13 -> align_up 13 = 0).
Proof.
  split; [lia|].
  apply (align_up_rounds_up_to_a_multiple_of_8 13). lia.
Defined.

Lemma align_up_in_range (sz : Z) :
  0 <= sz <= 2 ^ 64 - 8 ->
  align_up sz mod 8 = 0 /\ sz <= align_up sz /\ align_up sz < sz + 8.
Proof.
  intros Hsz. rewrite align_up_eq.
  rewrite (Z.mod_small (sz + 7) (2 ^ 64)) by lia. split.
  - rewrite Z.mul_comm. apply Z.mod_mul. lia.
  - pose proof (Z.div_mod (sz + 7) 8 ltac:(lia)) as Hd.
    pose proof (Z.mod_pos_bound (sz + 7) 8 eq_refl) as Hr. lia.
Qed.

(** *** The chain of pages *)

Lemma set_page_length (i : nat) (p : ArenaPage) (l : list ArenaPage) :
  List.length (set_page i p l) = List.length l.
Proof.
  revert i. induction l as [|h t IH]; intros [|j]; simpl; auto.
Qed.

Lemma set_page_nth (i : nat) (p d : ArenaPage) (l : list ArenaPage) :
  (i < List.length l)%nat -> nth i (set_page i p l) d = p.
Proof.
  revert i. induction l as [|h t IH]; intros [|j] H; simpl in *;
    try lia; auto. apply IH. lia.
Qed.

Lemma set_page_Forall (P : ArenaPage -> Prop) (i : nat) (p : ArenaPage)
    (l : list ArenaPage) :
  Forall P l -> P p -> Forall P (set_page i p l).
Proof.
  intros Hl Hp. revert i.
  induction Hl as [|h t Hh Ht IH]; intros [|j]; simpl; auto.
Qed.

Lemma link_after_length (i : nat) (p : ArenaPage) (l : list ArenaPage) :
  List.length (link_after i p l) = S (List.length l).
Proof.
  revert i. induction l as [|h t IH]; intros [|j]; simpl; auto.
Qed.

Lemma link_after_nth (i : nat) (p d : ArenaPage) (l : list ArenaPage) :
  (i < List.length l)%nat -> nth (S i) (link_after i p l) d = p.
Proof.
  revert i. induction l as [|h t IH]; intros [|j] H; simpl in *;
    try lia; auto. apply IH. lia.
Qed.

Lemma link_after_Forall (P : ArenaPage -> Prop) (i : nat) (p : ArenaPage)
    (l : list ArenaPage) :
  Forall P l -> P p -> Forall P (link_after i p l).
Proof.
  intros Hl Hp. revert i.
  induction Hl as [|h t Hh Ht IH]; intros [|j]; simpl; auto.
Qed.

Lemma with_pages_pages (a : Arena) (l : list ArenaPage) (cur : nat)
    (alloc pgs : Z) :
  l <> [] -> pages (with_pages a l cur alloc pgs) = l.
Proof. destruct l; [congruence | reflexivity]. Qed.

Lemma with_pages_fields (a : Arena) (l : list ArenaPage) (cur : nat)
    (alloc pgs : Z) :
  l <> [] ->
  current (with_pages a l cur alloc pgs) = cur
  /\ page_size (with_pages a l cur alloc pgs) = page_size a
  /\ total_allocated (with_pages a l cur alloc pgs) = alloc
  /\ total_pages (with_pages a l cur alloc pgs) = pgs.
Proof. destruct l; [congruence | auto]. Qed.

Lemma set_page_not_nil (i : nat) (p : ArenaPage) (l : list ArenaPage) :
  l <> [] -> set_page i p l <> [].
Proof. destruct l, i; simpl; congruence. Qed.

Lemma link_after_not_nil (i : nat) (p : ArenaPage) (l : list ArenaPage) :
  link_after i p l <> [].
Proof. destruct l, i; simpl; congruence. Qed.

(** *** Blocks stay inside their page *)

(** A page whose fill level is within its size and a multiple of the
    alignment, with a size far from overflow. *)
Definition page_ok (p : ArenaPage) : Prop :=
  0 <= used p <= size p /\ size p < 2 ^ 63 /\ used p mod 8 = 0.

(** An arena whose pages are all in that state and whose current page is a
    page of the chain. *)
Definition arena_ok (a : Arena) : Prop :=
  Forall page_ok (pages a)
  /\ (current a < List.length (pages a))%nat
  /\ 0 <= page_size a < 2 ^ 63.

Lemma arena_ok_current (a : Arena) :
  arena_ok a -> page_ok (nth (current a) (pages a) (head a)).
Proof.
  intros (Hall & Hcur & _).
  apply (proj1 (Forall_forall page_ok (pages a)) Hall).
  apply nth_In. exact Hcur.
Qed.

(** An allocation of a sensible size from a well-formed arena keeps the
    arena well formed.  When it returns a block, the block is in the current
    page, starts at an aligned offset and lies within what the page counts
    as used, which is within the page; the allocator returns NULL only when
    [malloc] failed, and then leaves the arena as it was. *)
Theorem arena_alloc_block_lies_within_its_page :
  forall (malloc_ok : bool) (a : Arena) (sz : Z),
    arena_ok a ->
    0 < sz < 2 ^ 63 - 8 ->
    match arena_alloc malloc_ok a sz with
    | (Some (i, off), a') =>
      arena_ok a'
      /\ i = current a'
      /\ off mod 8 = 0
      /\ 0 <= off
      /\ off + sz <= used (nth i (pages a') (head a'))
      /\ used (nth i (pages a') (head a')) <= size (nth i (pages a') (head a'))
      /\ total_allocated a' = size_wrap (total_allocated a + align_up sz)
    | (None, a') => a' = a /\ malloc_ok = false
    end.
Proof.
  intros malloc_ok a sz Hok Hsz.
  pose proof (arena_ok_current a Hok) as ((Hu0 & Hus) & Hsize & Hmod).
  destruct Hok as (Hall & Hcur & Hps).
  destruct (align_up_in_range sz ltac:(lia))
    as (Ha8 & Hale & Halt).
  unfold arena_alloc.
  destruct (sz =? 0) eqn:Ez; [apply Z.eqb_eq in Ez; lia|].
  set (page := nth (current a) (pages a) (head a)) in *.
  assert (Hne : pages a <> []) by (unfold pages; congruence).
  assert (Hw : size_wrap (used page + align_up sz) = used page + align_up sz)
    by (unfold size_wrap; apply Z.mod_small; lia).
  rewrite Hw.
  destruct (used page + align_up sz <=? size page) eqn:Efit.
  - apply Z.leb_le in Efit.
    set (page' := mkPage (size page) (used page + align_up sz)).
    set (l' := set_page (current a) page' (pages a)).
    assert (Hl' : l' <> []) by (apply set_page_not_nil; exact Hne).
    set (a' := with_pages a l' (current a) _ _).
    destruct (with_pages_fields a l' (current a)
                (size_wrap (total_allocated a + align_up sz))
                (total_pages a) Hl') as (Hc & Hp & Ht & _).
    fold a' in Hc, Hp, Ht.
    assert (Hpg : pages a' = l') by (apply with_pages_pages; exact Hl').
    assert (Hnth : nth (current a) (pages a') (head a') = page').
    { rewrite Hpg. apply set_page_nth. exact Hcur. }
    assert (Hpok : page_ok page').
    { unfold page_ok, page'. cbn [used size].
      repeat split; try lia;
        rewrite Z.add_mod by lia; rewrite Hmod, Ha8; reflexivity. }
    split.
    { unfold arena_ok. rewrite Hpg, Hc, Hp. split; [|split].
      - apply set_page_Forall; assumption.
      - unfold l'. rewrite set_page_length. exact Hcur.
      - exact Hps. }
    rewrite Hc, Hnth. unfold page'. cbn [used size].
    repeat split; try assumption; try lia.
  - apply Z.leb_gt in Efit. unfold page_new.
    destruct malloc_ok; [|split; reflexivity].
    set (new_size := if page_size a <? align_up sz then align_up sz
                     else page_size a).
    cbn [size].
    set (page' := mkPage new_size (align_up sz)).
    set (l' := link_after (current a) page' (pages a)).
    assert (Hl' : l' <> []) by apply link_after_not_nil.
    set (a' := with_pages a l' (S (current a)) _ _).
    destruct (with_pages_fields a l' (S (current a))
                (size_wrap (total_allocated a + align_up sz))
                (size_wrap (total_pages a + 1)) Hl') as (Hc & Hp & Ht & _).
    fold a' in Hc, Hp, Ht.
    assert (Hpg : pages a' = l') by (apply with_pages_pages; exact Hl').
    assert (Hnth : nth (S (current a)) (pages a') (head a') = page').
    { rewrite Hpg. apply link_after_nth. exact Hcur. }
    assert (Hns : align_up sz <= new_size < 2 ^ 63).
    { unfold new_size. destruct (page_size a <? align_up sz) eqn:E.
      - lia.
      - apply Z.ltb_ge in E. lia. }
    assert (Hpok : page_ok page').
    { unfold page_ok, page'. cbn [used size].
      repeat split; try lia; exact Ha8. }
    split.
    { unfold arena_ok. rewrite Hpg, Hc, Hp. split; [|split].
      - apply link_after_Forall; assumption.
      - unfold l'. rewrite link_after_length. lia.
      - exact Hps. }
    rewrite Hc, Hnth. unfold page'. cbn [used size].
    repeat split; try assumption; try lia.
Qed.

(** A freshly created arena is well formed. *)
Lemma arena_create_sized_ok (psz : Z) (a : Arena) :
  0 <= psz < 2 ^ 63 ->
  arena_create_sized true psz = Some a ->
  arena_ok a.
Proof.
  intros Hp H. injection H as <-. unfold arena_ok, pages, page_ok. simpl.
  repeat split; try lia. constructor; [|constructor].
  simpl. repeat split; lia.
Qed.

Lemma arena_alloc_block_lies_within_its_page_witness :
  exists a,
    arena_create true = Some a
    /\ arena_ok a
    /\ 0 < 13 < 2 ^ 63 - 8
    /\ match arena_alloc true a 13 with
       | (Some (i, off), a') =>
         arena_ok a'
         /\ i = current a'
         /\ off mod 8 = 0
         /\ 0 <= off
         /\ off + 13 <= used (nth i (pages a') (head a'))
         /\ used (nth i (pages a') (head a'))
            <= size (nth i (pages a') (head a'))
         /\ total_allocated a' = size_wrap (total_allocated a + align_up 13)
       | (None, a') => a' = a /\ true = false
       end.
Proof.
  eexists. split; [reflexivity|].
  assert (Hok : arena_ok (mkArena (mkPage ARENA_PAGE_SIZE 0) [] 0
                            ARENA_PAGE_SIZE 0 1)).
  { apply (arena_create_sized_ok ARENA_PAGE_SIZE);
      [unfold ARENA_PAGE_SIZE; lia | reflexivity]. }
  split; [exact Hok|]. split; [lia|].
  apply (arena_alloc_block_lies_within_its_page true _ 13 Hok). lia.
Defined.

(** *** Accounting *)

(** The sum of the fill levels of a chain. *)
Definition sum_used (l : list ArenaPage) : Z :=
  fold_right (fun p total => used p + total) 0 l.

Lemma bytes_used_fold (l : list ArenaPage) :
  forall init,
    fold_left (fun total p => size_wrap (total + used p)) l (init mod 2 ^ 64)
    = (init + sum_used l) mod 2 ^ 64.
Proof.
  induction l as [|p l IH]; intros init; simpl.
  - now rewrite Z.add_0_r.
  - unfold size_wrap at 2. rewrite Z.add_mod_idemp_l by lia.
    rewrite IH. f_equal. lia.
Qed.

Lemma arena_bytes_used_sum (a : Arena) :
  arena_bytes_used a = sum_used (pages a) mod 2 ^ 64.
Proof.
  unfold arena_bytes_used.
  change 0 with (0 mod 2 ^ 64) at 1. now rewrite bytes_used_fold.
Qed.

Lemma sum_used_set_page (i : nat) (p d : ArenaPage) (l : list ArenaPage) :
  (i < List.length l)%nat ->
  sum_used (set_page i p l) = sum_used l - used (nth i l d) + used p.
Proof.
  revert i. induction l as [|h t IH]; intros [|j] H; simpl in *; try lia.
  rewrite IH by lia. lia.
Qed.

Lemma sum_used_link_after (i : nat) (p : ArenaPage) (l : list ArenaPage) :
  sum_used (link_after i p l) = sum_used l + used p.
Proof.
  revert i. induction l as [|h t IH]; intros [|j]; simpl; try lia;
    rewrite IH; lia.
Qed.

(** The state in which the counter of the arena agrees with its pages. *)
Definition accounted (a : Arena) : Prop :=
  (current a < List.length (pages a))%nat
  /\ total_allocated a = sum_used (pages a) mod 2 ^ 64.

Lemma arena_alloc_accounted (malloc_ok : bool) (a : Arena) (sz : Z) :
  accounted a -> accounted (snd (arena_alloc malloc_ok a sz)).
Proof.
  intros (Hcur & Htot). unfold arena_alloc.
  destruct (sz =? 0); [split; assumption|].
  assert (Hne : pages a <> []) by (unfold pages; congruence).
  set (page := nth (current a) (pages a) (head a)).
  destruct (_ <=? _).
  - cbn [snd].
    set (page' := mkPage (size page) (size_wrap (used page + align_up sz))).
    set (l' := set_page (current a) page' (pages a)).
    assert (Hl' : l' <> []) by (apply set_page_not_nil; exact Hne).
    destruct (with_pages_fields a l' (current a)
                (size_wrap (total_allocated a + align_up sz))
                (total_pages a) Hl') as (Hc & _ & Ht & _).
    unfold accounted. rewrite Hc, Ht, (with_pages_pages a l' _ _ _ Hl').
    split; [unfold l'; rewrite set_page_length; exact Hcur|].
    unfold l'. rewrite (sum_used_set_page _ _ (head a) _ Hcur).
    fold page. unfold page'. cbn [used]. unfold size_wrap. rewrite Htot.
    rewrite Z.add_mod_idemp_l by lia.
    rewrite Z.add_mod_idemp_r by lia. f_equal. lia.
  - unfold page_new. destruct malloc_ok; [|split; assumption]. cbn [snd size].
    set (page' := mkPage _ (align_up sz)).
    set (l' := link_after (current a) page' (pages a)).
    assert (Hl' : l' <> []) by apply link_after_not_nil.
    destruct (with_pages_fields a l' (S (current a))
                (size_wrap (total_allocated a + align_up sz))
                (size_wrap (total_pages a + 1)) Hl') as (Hc & _ & Ht & _).
    unfold accounted. rewrite Hc, Ht, (with_pages_pages a l' _ _ _ Hl').
    split; [unfold l'; rewrite link_after_length; lia|].
    unfold l'. rewrite sum_used_link_after. unfold page'. cbn [used].
    unfold size_wrap. rewrite Htot. now rewrite Z.add_mod_idemp_l by lia.
Qed.

Lemma arena_allocs_accounted (reqs : list (Z * bool)) :
  forall a, accounted a -> accounted (arena_allocs a reqs).
Proof.
  induction reqs as [|[sz ok] more IH]; intros a H; simpl; [exact H|].
  apply IH. apply arena_alloc_accounted. exact H.
Qed.

(** From the creation of an arena on, whatever requests are made of it and
    whichever of them fail, [arena_bytes_used] returns the counter
    [total_allocated]. *)
Theorem arena_bytes_used_is_total_allocated :
  forall (psz : Z) (a0 : Arena) (reqs : list (Z * bool)),
    arena_create_sized true psz = Some a0 ->
    arena_bytes_used (arena_allocs a0 reqs)
    = total_allocated (arena_allocs a0 reqs).
Proof.
  intros psz a0 reqs H. injection H as <-.
  rewrite arena_bytes_used_sum. symmetry.
  apply arena_allocs_accounted. split; simpl; [lia | reflexivity].
Qed.

Lemma arena_bytes_used_is_total_allocated_witness :
  exists a0,
    arena_create_sized true 64 = Some a0
    /\ arena_bytes_used (arena_allocs a0 [(13, true); (100, false); (100, true)])
       = total_allocated
           (arena_allocs a0 [(13, true); (100, false); (100, true)]).
Proof.
  eexists. split; [reflexivity|].
  apply (arena_bytes_used_is_total_allocated 64). reflexivity.
Defined.

End Arena.

(* ===================================================================== *)
(** ** C characters and strings *)
(* ===================================================================== *)

Module CStr.
Local Open Scope string_scope.

Definition NUL : ascii := Ascii.zero.
Definition c_newline : ascii := "010"%char.
Definition c_tab : ascii := "009"%char.
Definition c_space : ascii := " "%char.
Definition c_squote : ascii := "'"%char.
Definition c_dquote : ascii := "034"%char.
Definition c_bslash : ascii := "092"%char.
Definition c_backtick : ascii := "096"%char.
Definition c_dollar : ascii := "$"%char.

(** <ctype.h> in the C locale. *)
Definition isdigit (c : ascii) : bool :=
  let n := nat_of_ascii c in (48 <=? n)%nat && (n <=? 57)%nat.

Definition isspace (c : ascii) : bool :=
  let n := nat_of_ascii c in (n =? 32)%nat || ((9 <=? n)%nat && (n <=? 13)%nat).

Definition isalpha (c : ascii) : bool :=
  let n := nat_of_ascii c in
  ((65 <=? n)%nat && (n <=? 90)%nat) || ((97 <=? n)%nat && (n <=? 122)%nat).

Definition isalnum (c : ascii) : bool := isalpha c || isdigit c.

(** The C string stored in a buffer: the bytes before the first NUL. *)
Fixpoint c_str (s : string) : string :=
  match s with
  | "" => ""
  | String c r => if Ascii.eqb c NUL then "" else String c (c_str r)
  end.

(** [s] holds no NUL byte. *)
Fixpoint no_nul (s : string) : bool :=
  match s with
  | "" => true
  | String c r => negb (Ascii.eqb c NUL) && no_nul r
  end.

(** Membership of a character in a string. *)
Fixpoint has_char (c : ascii) (s : string) : bool :=
  match s with
  | "" => false
  | String d r => Ascii.eqb d c || has_char c r
  end.

(** [printf("%d", z)]. *)
Definition string_of_int (z : Z) : string := NilZero.string_of_int (Z.to_int z).

(** [snprintf(buf, n, ...)] keeps at most [n - 1] bytes of the formatted text. *)
Definition snprintf (n : nat) (formatted : string) : string :=
  substring 0 (n - 1) formatted.

(** [arena_strdup] and [strdup] copy the C string of their argument. *)
Definition strdup (s : string) : string := c_str s.

(** Last character of a string, NUL on the empty string. *)
Fixpoint last_char (s : string) : ascii :=
  match s with
  | "" => NUL
  | String c "" => c
  | String _ r => last_char r
  end.

Lemma append_nil_r (s : string) : s ++ "" = s.
Proof. induction s; simpl; congruence. Qed.

Lemma append_assoc (a b c : string) : (a ++ b) ++ c = a ++ (b ++ c).
Proof. induction a; simpl; congruence. Qed.

Lemma length_append (a b : string) : length (a ++ b) = (length a + length b)%nat.
Proof. induction a; simpl; congruence. Qed.

Lemma c_str_no_nul (s : string) : no_nul s = true -> c_str s = s.
Proof.
  induction s as [|c r IH]; simpl; [reflexivity|].
  destruct (Ascii.eqb c NUL); simpl; [discriminate|].
  intros H. now rewrite IH.
Qed.

Lemma no_nul_append (a b : string) :
  no_nul (a ++ b) = no_nul a && no_nul b.
Proof.
  induction a as [|c r IH]; simpl; [reflexivity|].
  rewrite IH. now rewrite andb_assoc.
Qed.

Lemma no_nul_c_str (s : string) : no_nul (c_str s) = true.
Proof.
  induction s as [|c r IH]; simpl; [reflexivity|].
  destruct (Ascii.eqb c NUL) eqn:E; simpl; [reflexivity|].
  now rewrite E.
Qed.

End CStr.

(* ===================================================================== *)
(** ** lexer.c *)
(* ===================================================================== *)

Module Lex.
Import CStr.
Local Open Scope string_scope.
Local Open Scope Z_scope.

(** lexer.h: [enum TokenType]. *)
Inductive TokenType : Type :=
| TOK_WORD | TOK_PIPE | TOK_AND | TOK_OR | TOK_SEMI | TOK_AMP
| TOK_REDIR_IN | TOK_REDIR_OUT | TOK_REDIR_APPEND | TOK_REDIR_HEREDOC
| TOK_REDIR_DUP | TOK_LPAREN | TOK_RPAREN | TOK_NEWLINE
| TOK_IF | TOK_THEN | TOK_ELIF | TOK_ELSE | TOK_FI | TOK_WHILE | TOK_FOR
| TOK_DO | TOK_DONE | TOK_IN | TOK_FUNCTION | TOK_RETURN | TOK_LOCAL
| TOK_LBRACE | TOK_RBRACE | TOK_BANG | TOK_EOF.

Definition TokenType_eq_dec (a b : TokenType) : {a = b} + {a <> b}.
Proof. decide equality. Defined.

Definition tok_eqb (a b : TokenType) : bool :=
  if TokenType_eq_dec a b then true else false.

(** [struct Token]; [tok_value] is NULL for the EOF token. *)
Record Token : Type := mkToken {
  tok_type : TokenType;
  tok_value : option string;
  tok_redir_fd : Z;
  tok_line : Z;
  tok_col : Z
}.

(** [struct TokenList]: the [count] tokens of the array, in order. *)
Definition TokenList : Type := list Token.

(** [struct Lexer].  The pair ([input], [pos]) with [len] is kept as the
    unread text [input + pos], of length [len - pos]. *)
Record Lexer : Type := mkLexer {
  lex_input : string;
  lex_line : Z;
  lex_col : Z;
  lex_error_msg : option string
}.

Definition lex_cur (lex : Lexer) : ascii :=
  match lex_input lex with
  | "" => NUL
  | String c _ => c
  end.

(** [lex_peek(lex, n)] for [n >= 0]. *)
Definition lex_peek (lex : Lexer) (n : nat) : ascii :=
  match String.get n (lex_input lex) with
  | Some c => c
  | None => NUL
  end.

Definition lex_advance (lex : Lexer) : Lexer :=
  match lex_input lex with
  | "" => lex
  | String c r =>
    if Ascii.eqb c c_newline
    then mkLexer r (lex_line lex + 1) 1 (lex_error_msg lex)
    else mkLexer r (lex_line lex) (lex_col lex + 1) (lex_error_msg lex)
  end.

Definition make_token (type : TokenType) (value : option string)
    (line col : Z) : Token :=
  mkToken type value (-1) line col.

(** [lex_error]: only the first message is kept. *)
Definition lex_error (lex : Lexer) (msg : string) : Lexer :=
  match lex_error_msg lex with
  | Some _ => lex
  | None =>
    mkLexer (lex_input lex) (lex_line lex) (lex_col lex)
      (Some (strdup (snprintf 256
         ("lexer error at " ++ string_of_int (lex_line lex) ++ ":"
          ++ string_of_int (lex_col lex) ++ ": " ++ msg))))
  end.

(** The message [lex_error] records for an error met at [line]:[col]. *)
Definition lexer_error_text (line col : Z) (msg : string) : string :=
  strdup (snprintf 256
            ("lexer error at " ++ string_of_int line ++ ":"
             ++ string_of_int col ++ ": " ++ msg)).

(** The scanning loops of the file share one shape,
    [while (pos < len && !stop(cur)) { append cur; lex_advance }]:
    [scan_until stop lex buf] runs it and returns the lexer and the buffer
    at the exit of the loop.  The recursion is on the unread text. *)
Fixpoint scan_text (stop : ascii -> bool) (s : string) (line col : Z)
    (buf : string) : (string * Z * Z) * string :=
  match s with
  | "" => (("", line, col), buf)
  | String c r =>
    if stop c then ((s, line, col), buf)
    else if Ascii.eqb c c_newline
         then scan_text stop r (line + 1) 1 (buf ++ String c "")
         else scan_text stop r line (col + 1) (buf ++ String c "")
  end.

Definition scan_until (stop : ascii -> bool) (lex : Lexer) (buf : string)
    : Lexer * string :=
  let '((s, line, col), buf') :=
    scan_text stop (lex_input lex) (lex_line lex) (lex_col lex) buf in
  (mkLexer s line col (lex_error_msg lex), buf').

(** [skip_whitespace]: spaces and tabs only. *)
Definition skip_whitespace (lex : Lexer) : Lexer :=
  fst (scan_until
         (fun c => negb (Ascii.eqb c c_space || Ascii.eqb c c_tab)) lex "").

(** [skip_comment]: up to, not including, the newline. *)
Definition skip_comment (lex : Lexer) : Lexer :=
  fst (scan_until (fun c => Ascii.eqb c c_newline) lex "").

(** The keyword table. *)
Definition keywords : list (string * TokenType) :=
  [ ("if", TOK_IF); ("then", TOK_THEN); ("elif", TOK_ELIF);
    ("else", TOK_ELSE); ("fi", TOK_FI); ("while", TOK_WHILE);
    ("for", TOK_FOR); ("do", TOK_DO); ("done", TOK_DONE); ("in", TOK_IN);
    ("function", TOK_FUNCTION); ("return", TOK_RETURN);
    ("local", TOK_LOCAL) ].

Fixpoint check_keyword_in (kws : list (string * TokenType)) (word : string)
    : TokenType :=
  match kws with
  | [] => TOK_WORD
  | (name, type) :: more =>
    if String.eqb word name then type else check_keyword_in more word
  end.

Definition check_keyword (word : string) : TokenType :=
  check_keyword_in keywords word.

(** [toklist_add]: append at index [count]. *)
Definition toklist_add (list : TokenList) (tok : Token) : TokenList :=
  (list ++ [tok])%list.

(** The body of a double-quoted section, from just after the opening quote
    to the closing quote (not consumed) or the end of input. *)
Definition dq_escapable (next : ascii) : bool :=
  Ascii.eqb next c_dollar || Ascii.eqb next c_backtick
  || Ascii.eqb next c_dquote || Ascii.eqb next c_bslash
  || Ascii.eqb next c_newline.

Fixpoint scan_dquote (s : string) (line col : Z) (buf : string)
    : (string * Z * Z) * string :=
  match s with
  | "" => (("", line, col), buf)
  | String dc r =>
    if Ascii.eqb dc c_dquote then ((s, line, col), buf)
    else if Ascii.eqb dc c_bslash then
      match r with
      | String next r' =>
        if dq_escapable next then
          (* the backslash is consumed (it is no newline), then [next] *)
          if Ascii.eqb next c_newline
          then scan_dquote r' (line + 1) 1 buf
          else scan_dquote r' line (col + 1 + 1) (buf ++ String next "")
        else scan_dquote r line (col + 1) (buf ++ String c_bslash "")
      | "" => scan_dquote r line (col + 1) (buf ++ String c_bslash "")
      end
    else if Ascii.eqb dc c_newline
         then scan_dquote r (line + 1) 1 (buf ++ String dc "")
         else scan_dquote r line (col + 1) (buf ++ String dc "")
  end.

Definition word_break (c : ascii) : bool :=
  has_char c (String c_space (String c_tab (String c_newline "|&;><(){}#"))).

(** The main loop of [build_word].  [fuel] bounds the iterations; [None]
    stands for an exhausted bound. *)
Fixpoint build_word_loop (fuel : nat) (lex : Lexer) (buf : string)
    : option (Lexer * string) :=
  match fuel with
  | O => None
  | S fuel' =>
    match lex_input lex with
    | "" => Some (lex, buf)
    | String c _ =>
      if Ascii.eqb c c_squote then
        let lex1 := lex_advance lex in
        let '(lex2, buf2) :=
          scan_until (fun x => Ascii.eqb x c_squote) lex1 buf in
        match lex_input lex2 with
        | "" => Some (lex_error lex2 "unterminated single quote", buf2)
        | _ => build_word_loop fuel' (lex_advance lex2) buf2
        end
      else if Ascii.eqb c c_dquote then
        let lex1 := lex_advance lex in
        let '((s, line, col), buf2) :=
          scan_dquote (lex_input lex1) (lex_line lex1) (lex_col lex1) buf in
        let lex2 := mkLexer s line col (lex_error_msg lex1) in
        match s with
        | "" => Some (lex_error lex2 "unterminated double quote", buf2)
        | _ => build_word_loop fuel' (lex_advance lex2) buf2
        end
      else if Ascii.eqb c c_bslash then
        let next := lex_peek lex 1 in
        if Ascii.eqb next c_newline then
          build_word_loop fuel' (lex_advance (lex_advance lex)) buf
        else if Ascii.eqb next NUL then
          Some (lex_advance lex, buf ++ String c_bslash "")
        else
          let lex1 := lex_advance lex in
          build_word_loop fuel' (lex_advance lex1)
            (buf ++ String (lex_cur lex1) "")
      else if word_break c then Some (lex, buf)
      else build_word_loop fuel' (lex_advance lex) (buf ++ String c "")
    end
  end.

(** [build_word].  [buf_ok] is the outcome of [sstr_new(SSTR_INIT_CAP)]:
    [false] when it returns NULL, in which case the error is recorded and an
    EOF token without text is returned. *)
Definition build_word (buf_ok : bool) (fuel : nat) (lex : Lexer)
    : option (Token * Lexer) :=
  let start_line := lex_line lex in
  let start_col := lex_col lex in
  if buf_ok then
    match build_word_loop fuel lex "" with
    | None => None
    | Some (lex', buf) =>
      let value := strdup buf in
      Some (make_token (check_keyword value) (Some value) start_line start_col,
            lex')
    end
  else
    Some (make_token TOK_EOF None start_line start_col,
          lex_error lex "out of memory").

(** [lexer_init]; [strlen] stops at the first NUL of [input]. *)
Definition lexer_init (input : string) : Lexer :=
  mkLexer (c_str input) 1 1 None.

Definition with_redir_fd (tok : Token) (fd : Z) : Token :=
  mkToken (tok_type tok) (tok_value tok) fd (tok_line tok) (tok_col tok).

(** Consume [n] characters and emit an operator token. *)
Fixpoint lex_advance_n (n : nat) (lex : Lexer) : Lexer :=
  match n with
  | O => lex
  | S k => lex_advance_n k (lex_advance lex)
  end.

Definition operator (n : nat) (type : TokenType) (text : string)
    (line col : Z) (lex : Lexer) : option (Token * Lexer) :=
  Some (make_token type (Some (strdup text)) line col, lex_advance_n n lex).

(** Where the scan of the target of [N>&] stops. *)
Definition dup_stop (c : ascii) : bool :=
  isspace c || Ascii.eqb c "|" || Ascii.eqb c "&" || Ascii.eqb c ";"
  || Ascii.eqb c c_newline.

(** [lexer_next].  [fuel] bounds the recursion after a comment and the loop
    of [build_word]; [buf_ok] is the outcome of the allocation of the word
    buffer, should the call reach [build_word]. *)
Fixpoint lexer_next_fuel (buf_ok : bool) (fuel : nat) (lex0 : Lexer)
    : option (Token * Lexer) :=
  match fuel with
  | O => None
  | S fuel' =>
    let lex := skip_whitespace lex0 in
    let tok_line := lex_line lex in
    let tok_col := lex_col lex in
    match lex_input lex with
    | "" => Some (make_token TOK_EOF None tok_line tok_col, lex)
    | String c _ =>
      let next := lex_peek lex 1 in
      if Ascii.eqb c "#" then lexer_next_fuel buf_ok fuel' (skip_comment lex)
      else if Ascii.eqb c c_newline then
        operator 1 TOK_NEWLINE (String c_newline "") tok_line tok_col lex
      else if isdigit c && (Ascii.eqb next ">" || Ascii.eqb next "<") then
        let fd := Z.of_nat (nat_of_ascii c) - 48 in
        let lex1 := lex_advance lex in
        let tok_col := lex_col lex1 in
        let op := lex_cur lex1 in
        let result :=
          if Ascii.eqb op ">" then
            if Ascii.eqb (lex_peek lex1 1) ">" then
              operator 2 TOK_REDIR_APPEND ">>" tok_line tok_col lex1
            else if Ascii.eqb (lex_peek lex1 1) "&" then
              let '(lex2, dup_val) :=
                scan_until dup_stop (lex_advance_n 2 lex1) "" in
              Some (make_token TOK_REDIR_DUP (Some (strdup dup_val))
                      tok_line tok_col, lex2)
            else operator 1 TOK_REDIR_OUT ">" tok_line tok_col lex1
          else
            if Ascii.eqb (lex_peek lex1 1) "<" then
              operator 2 TOK_REDIR_HEREDOC "<<" tok_line tok_col lex1
            else operator 1 TOK_REDIR_IN "<" tok_line tok_col lex1 in
        match result with
        | Some (tok, lex') => Some (with_redir_fd tok fd, lex')
        | None => None
        end
      else if Ascii.eqb c "|" && Ascii.eqb next "|" then
        operator 2 TOK_OR "||" tok_line tok_col lex
      else if Ascii.eqb c "&" && Ascii.eqb next "&" then
        operator 2 TOK_AND "&&" tok_line tok_col lex
      else if Ascii.eqb c ">" && Ascii.eqb next ">" then
        operator 2 TOK_REDIR_APPEND ">>" tok_line tok_col lex
      else if Ascii.eqb c "<" && Ascii.eqb next "<" then
        operator 2 TOK_REDIR_HEREDOC "<<" tok_line tok_col lex
      else if Ascii.eqb c "|" then operator 1 TOK_PIPE "|" tok_line tok_col lex
      else if Ascii.eqb c "&" then operator 1 TOK_AMP "&" tok_line tok_col lex
      else if Ascii.eqb c ";" then operator 1 TOK_SEMI ";" tok_line tok_col lex
      else if Ascii.eqb c ">" then
        operator 1 TOK_REDIR_OUT ">" tok_line tok_col lex
      else if Ascii.eqb c "<" then
        operator 1 TOK_REDIR_IN "<" tok_line tok_col lex
      else if Ascii.eqb c "(" then
        operator 1 TOK_LPAREN "(" tok_line tok_col lex
      else if Ascii.eqb c ")" then
        operator 1 TOK_RPAREN ")" tok_line tok_col lex
      else if Ascii.eqb c "{" then
        operator 1 TOK_LBRACE "{" tok_line tok_col lex
      else if Ascii.eqb c "}" then
        operator 1 TOK_RBRACE "}" tok_line tok_col lex
      else if Ascii.eqb c "!" then operator 1 TOK_BANG "!" tok_line tok_col lex
      else build_word buf_ok fuel' lex
    end
  end.

(** [lexer_next]: the bound covers one comment, and one iteration of the
    loop of [build_word] per unread character plus its exit test. *)
Definition lexer_next (buf_ok : bool) (lex : Lexer) : option (Token * Lexer) :=
  lexer_next_fuel buf_ok (String.length (lex_input lex) + 3) lex.

(** The loop of [lexer_tokenize].  [sstr_new_ok i] is the outcome of the
    allocation of the word buffer in the call of [lexer_next] that yields the
    token of index [i], the value of [list->count] at that call. *)
Fixpoint tokenize_loop (sstr_new_ok : nat -> bool) (fuel : nat) (lex : Lexer)
    (list : TokenList) : option (TokenList * Lexer) :=
  match fuel with
  | O => None
  | S fuel' =>
    match lexer_next (sstr_new_ok (List.length list)) lex with
    | None => None
    | Some (tok, lex') =>
      let list' := toklist_add list tok in
      if tok_eqb (tok_type tok) TOK_EOF then Some (list', lex')
      else match lex_error_msg lex' with
           | Some _ => Some (list', lex')
           | None => tokenize_loop sstr_new_ok fuel' lex' list'
           end
    end
  end.

(** [lexer_tokenize]: every iteration but the last consumes a character. *)
Definition lexer_tokenize (sstr_new_ok : nat -> bool) (lex : Lexer)
    : option (TokenList * Lexer) :=
  tokenize_loop sstr_new_ok (String.length (lex_input lex) + 1) lex [].

(** A heap that serves every request for a word buffer. *)
Definition heap_serves_all : nat -> bool := fun _ => true.

(** [lex(L)]: initialise and tokenize, on a heap that serves every
    request. *)
Definition lex_line_tokens (input : string) : option (TokenList * Lexer) :=
  lexer_tokenize heap_serves_all (lexer_init input).

(** *** Termination and progress of the scanner *)

Definition remaining (lex : Lexer) : nat := String.length (lex_input lex).

Lemma lex_advance_remaining (lex : Lexer) :
  remaining (lex_advance lex) = pred (remaining lex).
Proof.
  unfold lex_advance, remaining.
  destruct (lex_input lex) as [|c r] eqn:E; [now rewrite E|].
  destruct (Ascii.eqb c c_newline); reflexivity.
Qed.

Lemma lex_advance_error (lex : Lexer) :
  lex_error_msg (lex_advance lex) = lex_error_msg lex.
Proof.
  unfold lex_advance.
  destruct (lex_input lex) as [|c r]; [reflexivity|].
  destruct (Ascii.eqb c c_newline); reflexivity.
Qed.

Lemma lex_advance_n_remaining (n : nat) :
  forall lex, remaining (lex_advance_n n lex) = (remaining lex - n)%nat.
Proof.
  induction n as [|n IH]; intros lex; simpl; [lia|].
  rewrite IH, lex_advance_remaining. lia.
Qed.

Lemma lex_advance_n_error (n : nat) :
  forall lex, lex_error_msg (lex_advance_n n lex) = lex_error_msg lex.
Proof.
  induction n as [|n IH]; intros lex; simpl; [reflexivity|].
  now rewrite IH, lex_advance_error.
Qed.

Lemma lex_error_remaining (lex : Lexer) (msg : string) :
  remaining (lex_error lex msg) = remaining lex.
Proof. unfold lex_error. destruct (lex_error_msg lex); reflexivity. Qed.

Lemma scan_text_length (stop : ascii -> bool) (s : string) :
  forall line col buf,
    (String.length (fst (fst (fst (scan_text stop s line col buf))))
     <= String.length s)%nat.
Proof.
  induction s as [|c r IH]; intros line col buf; simpl; [lia|].
  destruct (stop c); simpl; [lia|].
  destruct (Ascii.eqb c c_newline); eapply Nat.le_trans; try apply IH; lia.
Qed.

Lemma scan_until_remaining (stop : ascii -> bool) (lex : Lexer) (buf : string) :
  (remaining (fst (scan_until stop lex buf)) <= remaining lex)%nat.
Proof.
  unfold scan_until, remaining.
  pose proof (scan_text_length stop (lex_input lex) (lex_line lex)
                (lex_col lex) buf) as H.
  destruct (scan_text _ _ _ _ _) as [[[s l] c] b]. simpl in *. exact H.
Qed.

Lemma scan_until_error (stop : ascii -> bool) (lex : Lexer) (buf : string) :
  lex_error_msg (fst (scan_until stop lex buf)) = lex_error_msg lex.
Proof.
  unfold scan_until.
  destruct (scan_text _ _ _ _ _) as [[[s l] c] b]. reflexivity.
Qed.

Lemma scan_dquote_length (s : string) :
  forall line col buf,
    (String.length (fst (fst (fst (scan_dquote s line col buf))))
     <= String.length s)%nat.
Proof.
  induction s as [s IH] using (well_founded_induction
     (Wf_nat.well_founded_ltof _ String.length)).
  intros line col buf.
  destruct s as [|dc r]; simpl; [lia|].
  destruct (Ascii.eqb dc c_dquote); simpl; [lia|].
  destruct (Ascii.eqb dc c_bslash).
  - destruct r as [|next r2].
    + simpl. lia.
    + destruct (dq_escapable next).
      * destruct (Ascii.eqb next c_newline);
          (eapply Nat.le_trans; [apply IH; unfold Wf_nat.ltof; simpl; lia|]);
          simpl; lia.
      * eapply Nat.le_trans; [apply IH; unfold Wf_nat.ltof; simpl; lia|].
        simpl; lia.
  - destruct (Ascii.eqb dc c_newline);
      (eapply Nat.le_trans; [apply IH; unfold Wf_nat.ltof; simpl; lia|]);
      simpl; lia.
Qed.

Ltac rem_lia :=
  repeat rewrite ?lex_advance_remaining, ?lex_error_remaining,
                 ?lex_advance_n_remaining in *;
  unfold remaining in *; simpl in *; lia.

Lemma build_word_loop_total (fuel : nat) :
  forall lex buf,
    (remaining lex < fuel)%nat ->
    exists lex' buf',
      build_word_loop fuel lex buf = Some (lex', buf')
      /\ (remaining lex' <= remaining lex)%nat
      /\ (forall c r, lex_input lex = String c r -> word_break c = false ->
          (remaining lex' < remaining lex)%nat).
Proof.
  induction fuel as [|fuel IH]; intros lex buf Hf; [lia|].
  simpl.
  destruct (lex_input lex) as [|c r] eqn:Ein.
  - exists lex, buf. repeat split; [lia | intros; discriminate].
  - assert (Hrem : remaining lex = S (String.length r))
      by (unfold remaining; now rewrite Ein).
    destruct (Ascii.eqb c c_squote) eqn:Esq.
    { pose proof (scan_until_remaining (fun x => Ascii.eqb x c_squote)
                    (lex_advance lex) buf) as Hs.
      destruct (scan_until _ (lex_advance lex) buf) as [lex2 buf2].
      simpl in Hs.
      destruct (lex_input lex2) as [|c2 r2] eqn:E2.
      - eexists _, _. split; [reflexivity|]. split; [rem_lia | intros; rem_lia].
      - destruct (IH (lex_advance lex2) buf2) as (lex' & buf' & Heq & Hle & _);
          [rem_lia|].
        exists lex', buf'. split; [exact Heq|].
        split; [rem_lia | intros; rem_lia]. }
    destruct (Ascii.eqb c c_dquote) eqn:Edq.
    { pose proof (scan_dquote_length (lex_input (lex_advance lex))
                    (lex_line (lex_advance lex)) (lex_col (lex_advance lex))
                    buf) as Hs.
      pose proof (lex_advance_remaining lex) as Ha. unfold remaining in Ha.
      destruct (scan_dquote _ _ _ buf) as [[[s line] col] buf2].
      simpl in Hs.
      destruct s as [|c2 r2].
      - eexists _, _. split; [reflexivity|].
        split; [rem_lia | intros; rem_lia].
      - destruct (IH (lex_advance (mkLexer (String c2 r2) line col
                        (lex_error_msg (lex_advance lex)))) buf2)
          as (lex' & buf' & Heq & Hle & _); [rem_lia|].
        exists lex', buf'. split; [exact Heq|].
        split; [rem_lia | intros; rem_lia]. }
    destruct (Ascii.eqb c c_bslash) eqn:Ebs.
    { destruct (Ascii.eqb (lex_peek lex 1) c_newline).
      - destruct (IH (lex_advance (lex_advance lex)) buf)
          as (lex' & buf' & Heq & Hle & _); [rem_lia|].
        exists lex', buf'. split; [exact Heq|].
        split; [rem_lia | intros; rem_lia].
      - destruct (Ascii.eqb (lex_peek lex 1) NUL).
        + eexists _, _. split; [reflexivity|].
          split; [rem_lia | intros; rem_lia].
        + destruct (IH (lex_advance (lex_advance lex))
                      (buf ++ String (lex_cur (lex_advance lex)) ""))
            as (lex' & buf' & Heq & Hle & _); [rem_lia|].
          exists lex', buf'. split; [exact Heq|].
          split; [rem_lia | intros; rem_lia]. }
    destruct (word_break c) eqn:Ebr.
    { exists lex, buf. split; [reflexivity|]. split; [lia|].
      intros c0 r0 Hc Hb. injection Hc as -> ->. congruence. }
    destruct (IH (lex_advance lex) (buf ++ String c ""))
      as (lex' & buf' & Heq & Hle & _); [rem_lia|].
    exists lex', buf'. split; [exact Heq|].
    split; [rem_lia | intros; rem_lia].
Qed.

Lemma scan_text_stops (stop : ascii -> bool) (s : string) :
  forall line col buf x r,
    fst (fst (fst (scan_text stop s line col buf))) = String x r ->
    stop x = true.
Proof.
  induction s as [|c t IH]; intros line col buf x r; simpl; [discriminate|].
  destruct (stop c) eqn:Es; simpl.
  - intros H. injection H as -> _. exact Es.
  - destruct (Ascii.eqb c c_newline); apply IH.
Qed.

Lemma scan_text_progress (stop : ascii -> bool) (c : ascii) (t : string) :
  forall line col buf,
    stop c = false ->
    (String.length (fst (fst (fst (scan_text stop (String c t) line col buf))))
     <= String.length t)%nat.
Proof.
  intros line col buf Hs. simpl. rewrite Hs.
  destruct (Ascii.eqb c c_newline); apply scan_text_length.
Qed.

Lemma skip_whitespace_remaining (lex : Lexer) :
  (remaining (skip_whitespace lex) <= remaining lex)%nat.
Proof. apply scan_until_remaining. Qed.

Lemma skip_whitespace_error (lex : Lexer) :
  lex_error_msg (skip_whitespace lex) = lex_error_msg lex.
Proof. apply scan_until_error. Qed.

Lemma skip_whitespace_head (lex : Lexer) (c : ascii) (r : string) :
  lex_input (skip_whitespace lex) = String c r ->
  Ascii.eqb c c_space = false /\ Ascii.eqb c c_tab = false.
Proof.
  unfold skip_whitespace, scan_until.
  pose proof (scan_text_stops
    (fun c => negb (Ascii.eqb c c_space || Ascii.eqb c c_tab))
    (lex_input lex) (lex_line lex) (lex_col lex) "") as H.
  destruct (scan_text _ _ _ _ _) as [[[s l] k] b]. simpl in *.
  intros E. specialize (H c r E).
  apply negb_true_iff, orb_false_iff in H. exact H.
Qed.

Lemma skip_comment_progress (lex : Lexer) (c : ascii) (r : string) :
  lex_input lex = String c r ->
  Ascii.eqb c c_newline = false ->
  (remaining (skip_comment lex) < remaining lex)%nat.
Proof.
  intros E Hc. unfold skip_comment, scan_until, remaining. rewrite E.
  pose proof (scan_text_progress (fun c => Ascii.eqb c c_newline) c r
                (lex_line lex) (lex_col lex) "" Hc) as H.
  destruct (scan_text _ _ _ _ _) as [[[s l] k] b]. simpl in *. lia.
Qed.

Lemma skip_comment_error (lex : Lexer) :
  lex_error_msg (skip_comment lex) = lex_error_msg lex.
Proof. apply scan_until_error. Qed.

Lemma word_break_spec (c : ascii) :
  word_break c =
  (Ascii.eqb c c_space || (Ascii.eqb c c_tab || (Ascii.eqb c c_newline ||
   (Ascii.eqb c "|" || (Ascii.eqb c "&" || (Ascii.eqb c ";" ||
   (Ascii.eqb c ">" || (Ascii.eqb c "<" || (Ascii.eqb c "(" ||
   (Ascii.eqb c ")" || (Ascii.eqb c "{" || (Ascii.eqb c "}" ||
    Ascii.eqb c "#")))))))))))).
Proof.
  unfold word_break. simpl. rewrite orb_false_r.
  repeat rewrite (Ascii.eqb_sym _ c). reflexivity.
Qed.

Lemma check_keyword_not_eof (word : string) : check_keyword word <> TOK_EOF.
Proof.
  unfold check_keyword, keywords. simpl.
  repeat match goal with
         | |- context [if ?b then _ else _] => destruct b
         end; discriminate.
Qed.

(** A token made by [build_word] from a buffer: it carries a text, and its
    kind is the one the keyword table gives for that text. *)
Definition word_token (tok : Token) : Prop :=
  exists w, tok_value tok = Some w /\ tok_type tok = check_keyword w.

(** A token and a lexer state that a call of [build_word], on a lexer
    without error and with its buffer allocated, returned: the word that was
    being scanned, and the lexer where the scan left it. *)
Definition scanned_word (tok : Token) (lex' : Lexer) : Prop :=
  exists fuel lexw,
    lex_error_msg lexw = None /\ build_word true fuel lexw = Some (tok, lex').

(** The state of a lexer that met the end of the input inside a quote: the
    input is used up and the error names the open quote, at the position
    where the input ends. *)
Definition unterminated_quote (lex : Lexer) : Prop :=
  lex_input lex = ""
  /\ exists msg,
       (msg = "unterminated single quote" \/ msg = "unterminated double quote")
       /\ lex_error_msg lex
          = Some (lexer_error_text (lex_line lex) (lex_col lex) msg).

(** The state of a lexer that could not allocate a word buffer. *)
Definition out_of_memory (lex : Lexer) : Prop :=
  lex_error_msg lex
  = Some (lexer_error_text (lex_line lex) (lex_col lex) "out of memory").

Lemma lex_error_fresh (lex : Lexer) (msg : string) :
  lex_error_msg lex = None ->
  lex_error lex msg
  = mkLexer (lex_input lex) (lex_line lex) (lex_col lex)
      (Some (lexer_error_text (lex_line lex) (lex_col lex) msg)).
Proof. intros H. unfold lex_error. now rewrite H. Qed.

Lemma lex_error_unterminated (lex : Lexer) (msg : string) :
  lex_error_msg lex = None ->
  lex_input lex = "" ->
  msg = "unterminated single quote" \/ msg = "unterminated double quote" ->
  unterminated_quote (lex_error lex msg).
Proof.
  intros He Hin Hm. rewrite (lex_error_fresh lex msg He).
  split; [exact Hin|]. exists msg. split; [exact Hm | reflexivity].
Qed.

(** The loop of [build_word] leaves the error state as it was, unless the
    input ends inside a quote. *)
Lemma build_word_loop_error (fuel : nat) :
  forall lex buf lex' buf',
    lex_error_msg lex = None ->
    build_word_loop fuel lex buf = Some (lex', buf') ->
    lex_error_msg lex' = None \/ unterminated_quote lex'.
Proof.
  induction fuel as [|fuel IH]; intros lex buf lex' buf' Herr H;
    [discriminate|].
  cbn [build_word_loop] in H.
  destruct (lex_input lex) as [|c r] eqn:Ein.
  { injection H as <- _. now left. }
  destruct (Ascii.eqb c c_squote).
  { pose proof (scan_until_error (fun x => Ascii.eqb x c_squote)
                  (lex_advance lex) buf) as Hs.
    destruct (scan_until _ (lex_advance lex) buf) as [lex2 buf2].
    cbn [fst] in Hs. rewrite lex_advance_error, Herr in Hs.
    destruct (lex_input lex2) as [|c2 r2] eqn:E2.
    - injection H as <- _. right.
      apply lex_error_unterminated; auto.
    - apply IH in H; [exact H|]. now rewrite lex_advance_error. }
  destruct (Ascii.eqb c c_dquote).
  { destruct (scan_dquote _ _ _ buf) as [[[s line] col] buf2].
    destruct s as [|c2 r2].
    - injection H as <- _. right.
      apply lex_error_unterminated; cbn [lex_error_msg lex_input]; auto.
      now rewrite lex_advance_error.
    - apply IH in H; [exact H|]. rewrite lex_advance_error.
      cbn [lex_error_msg]. now rewrite lex_advance_error. }
  destruct (Ascii.eqb c c_bslash).
  { destruct (Ascii.eqb (lex_peek lex 1) c_newline).
    - apply IH in H; [exact H|]. now rewrite !lex_advance_error.
    - destruct (Ascii.eqb (lex_peek lex 1) NUL).
      + injection H as <- _. left. now rewrite lex_advance_error.
      + apply IH in H; [exact H|]. now rewrite !lex_advance_error. }
  destruct (word_break c).
  { injection H as <- _. now left. }
  apply IH in H; [exact H|]. now rewrite lex_advance_error.
Qed.

Lemma build_word_spec (fuel : nat) (lex : Lexer) (c : ascii) (r : string) :
  (remaining lex < fuel)%nat ->
  lex_input lex = String c r ->
  word_break c = false ->
  lex_error_msg lex = None ->
  exists tok lex',
    build_word true fuel lex = Some (tok, lex')
    /\ word_token tok
    /\ tok_type tok <> TOK_EOF
    /\ (remaining lex' < remaining lex)%nat
    /\ (lex_error_msg lex' = None \/ unterminated_quote lex').
Proof.
  intros Hf Hin Hb Herr. unfold build_word.
  destruct (build_word_loop_total fuel lex "" Hf) as (lex' & buf' & Heq & _ & Hlt).
  rewrite Heq. eexists _, _. split; [reflexivity|].
  split; [eexists; split; reflexivity|].
  split; [apply check_keyword_not_eof|].
  split; [eapply Hlt; eauto|].
  exact (build_word_loop_error fuel lex "" lex' buf' Herr Heq).
Qed.

(** What one call of [lexer_next] achieves on a lexer without error: the EOF
    token at the end of the text; or another token and progress; or the
    word that the end of the input cut short inside a quote; or, when the
    word buffer cannot be allocated, an EOF token and the error. *)
Definition next_ok (buf_ok : bool) (lex0 : Lexer) (tok : Token) (lex' : Lexer)
    : Prop :=
  (tok_type tok = TOK_EOF /\ tok_value tok = None /\ lex_error_msg lex' = None)
  \/ (tok_type tok <> TOK_EOF /\ (remaining lex' < remaining lex0)%nat
      /\ lex_error_msg lex' = None)
  \/ (buf_ok = true /\ scanned_word tok lex' /\ word_token tok
      /\ tok_type tok <> TOK_EOF /\ unterminated_quote lex')
  \/ (buf_ok = false /\ tok_type tok = TOK_EOF /\ tok_value tok = None
      /\ out_of_memory lex').

Local Arguments skip_whitespace : simpl never.
Local Arguments skip_comment : simpl never.
Local Arguments scan_until : simpl never.
Local Arguments build_word : simpl never.
Local Arguments lex_advance : simpl never.
Local Arguments lex_advance_n : simpl never.
Local Arguments lex_peek : simpl never.
Local Arguments lex_cur : simpl never.
Local Arguments isdigit : simpl never.
Local Arguments nat_of_ascii : simpl never.
Local Arguments Ascii.eqb : simpl never.
Local Arguments strdup : simpl never.

Ltac op_leaf :=
  unfold operator; simpl; eexists _, _;
  split; [reflexivity
         | right; left; split; [simpl; discriminate|];
           split; [rem_lia
                  | rewrite ?lex_advance_n_error, ?lex_advance_error;
                    assumption]].

Lemma lexer_next_fuel_spec (buf_ok : bool) (fuel : nat) :
  forall lex0,
    (remaining lex0 + 3 <= fuel)%nat ->
    lex_error_msg lex0 = None ->
    exists tok lex',
      lexer_next_fuel buf_ok fuel lex0 = Some (tok, lex')
      /\ next_ok buf_ok lex0 tok lex'.
Proof.
  induction fuel as [|fuel IH]; intros lex0 Hf Herr0; [lia|].
  cbn [lexer_next_fuel].
  pose proof (skip_whitespace_remaining lex0) as Hws.
  pose proof (skip_whitespace_error lex0) as Hwe.
  pose proof (skip_whitespace_head lex0) as Hwh.
  set (lex := skip_whitespace lex0) in *.
  assert (Herr : lex_error_msg lex = None) by congruence.
  destruct (lex_input lex) as [|c r] eqn:Ein.
  { eexists _, _. split; [reflexivity|]. left. simpl. auto. }
  destruct (Hwh c r eq_refl) as [Hsp Htab]. clear Hwh.
  assert (Hrem : remaining lex = S (String.length r))
    by (unfold remaining; now rewrite Ein).
  destruct (Ascii.eqb c "#") eqn:Ehash.
  { assert (Hnl : Ascii.eqb c c_newline = false).
    { apply Ascii.eqb_eq in Ehash. subst c. reflexivity. }
    pose proof (skip_comment_progress lex c r Ein Hnl) as Hsc.
    destruct (IH (skip_comment lex)) as (tok & lex' & Heq & Hok);
      [lia | now rewrite skip_comment_error |].
    exists tok, lex'. split; [exact Heq|].
    destruct Hok as [H|[(Ht & Hl & He)|H]]; [now left | | now right; right].
    right; left. split; [exact Ht|]. split; [lia | exact He]. }
  destruct (Ascii.eqb c c_newline) eqn:Enl; [op_leaf|].
  destruct (isdigit c && (Ascii.eqb (lex_peek lex 1) ">"
                          || Ascii.eqb (lex_peek lex 1) "<")) eqn:Edig.
  { destruct (Ascii.eqb (lex_cur (lex_advance lex)) ">").
    - destruct (Ascii.eqb (lex_peek (lex_advance lex) 1) ">"); [op_leaf|].
      destruct (Ascii.eqb (lex_peek (lex_advance lex) 1) "&"); [|op_leaf].
      pose proof (scan_until_remaining dup_stop
                    (lex_advance_n 2 (lex_advance lex)) "") as Hs.
      pose proof (scan_until_error dup_stop
                    (lex_advance_n 2 (lex_advance lex)) "") as He.
      destruct (scan_until dup_stop _ "") as [lex2 dup_val]. simpl in Hs, He.
      eexists _, _. split; [reflexivity|]. right; left.
      split; [simpl; discriminate|]. split; [rem_lia|].
      now rewrite He, lex_advance_n_error, lex_advance_error.
    - destruct (Ascii.eqb (lex_peek (lex_advance lex) 1) "<"); op_leaf. }
  repeat match goal with
         | |- context [if ?b then _ else _] =>
           lazymatch b with
           | word_break _ => fail
           | _ => destruct b eqn:?; [op_leaf|]
           end
         end.
  destruct buf_ok.
  - destruct (build_word_spec fuel lex c r)
      as (tok & lex' & Heq & Hw & Ht & Hl & He);
      [lia | exact Ein | | exact Herr | ].
    { rewrite word_break_spec.
      repeat match goal with
             | H : Ascii.eqb c _ = false |- _ => rewrite H; clear H
             end.
      reflexivity. }
    exists tok, lex'. split; [exact Heq|].
    destruct He as [He|He].
    + right; left. split; [exact Ht|]. split; [lia | exact He].
    + right; right; left. split; [reflexivity|].
      split; [exists fuel, lex; auto | auto].
  - unfold build_word. eexists _, _. split; [reflexivity|].
    right; right; right. split; [reflexivity|]. split; [reflexivity|].
    split; [reflexivity|]. unfold out_of_memory.
    now rewrite (lex_error_fresh lex _ Herr).
Qed.

Lemma lexer_next_spec (buf_ok : bool) (lex : Lexer) :
  lex_error_msg lex = None ->
  exists tok lex',
    lexer_next buf_ok lex = Some (tok, lex') /\ next_ok buf_ok lex tok lex'.
Proof. apply lexer_next_fuel_spec. unfold remaining. lia. Qed.

Lemma tok_eqb_eof (tok : Token) :
  tok_eqb (tok_type tok) TOK_EOF = true <-> tok_type tok = TOK_EOF.
Proof.
  unfold tok_eqb. destruct (TokenType_eq_dec (tok_type tok) TOK_EOF);
    split; congruence.
Qed.

Lemma heap_serves_all_at (i : nat) : heap_serves_all i = true.
Proof. reflexivity. Qed.

(** How a run of [lexer_tokenize] ends: with the last token [tok], of index
    [i], and the lexer [lex']. *)
Definition tokenize_end (sstr_new_ok : nat -> bool) (i : nat) (tok : Token)
    (lex' : Lexer) : Prop :=
  (lex_error_msg lex' = None /\ tok_type tok = TOK_EOF /\ tok_value tok = None)
  \/ (unterminated_quote lex' /\ sstr_new_ok i = true
      /\ scanned_word tok lex' /\ word_token tok /\ tok_type tok <> TOK_EOF)
  \/ (out_of_memory lex' /\ sstr_new_ok i = false /\ tok_type tok = TOK_EOF
      /\ tok_value tok = None).

Lemma tokenize_loop_spec (sstr_new_ok : nat -> bool) (fuel : nat) :
  forall lex list,
    (remaining lex < fuel)%nat ->
    lex_error_msg lex = None ->
    exists pre tok lex',
      tokenize_loop sstr_new_ok fuel lex list
      = Some ((list ++ pre ++ [tok])%list, lex')
      /\ Forall (fun t => tok_type t <> TOK_EOF) pre
      /\ tokenize_end sstr_new_ok (List.length (list ++ pre)) tok lex'.
Proof.
  induction fuel as [|fuel IH]; intros lex list Hf Herr; [lia|].
  cbn [tokenize_loop].
  destruct (lexer_next_spec (sstr_new_ok (List.length list)) lex Herr)
    as (tok & lex' & Heq & Hok).
  rewrite Heq. unfold toklist_add.
  destruct Hok as [(Ht & Hv & He)|[(Ht & Hl & He)|[(Hb & Hs & Hw & Ht & Hq)
                                                  |(Hb & Ht & Hv & Hm)]]].
  - apply tok_eqb_eof in Ht as Hb. rewrite Hb.
    exists [], tok, lex'. split; [reflexivity|]. split; [constructor|].
    left. auto.
  - destruct (tok_eqb (tok_type tok) TOK_EOF) eqn:Hb;
      [apply tok_eqb_eof in Hb; contradiction|].
    rewrite He.
    destruct (IH lex' (list ++ [tok])%list) as (pre & tk & lex2 & Hr & Hp & Hi);
      [lia | exact He |].
    exists (tok :: pre), tk, lex2. rewrite Hr.
    split; [now rewrite <- app_assoc|]. split; [now constructor|].
    replace (list ++ tok :: pre)%list with ((list ++ [tok]) ++ pre)%list
      by (now rewrite <- app_assoc).
    exact Hi.
  - destruct (tok_eqb (tok_type tok) TOK_EOF) eqn:Hbq;
      [apply tok_eqb_eof in Hbq; contradiction|].
    destruct Hq as (Hin & msg & Hmsg & He). rewrite He.
    exists [], tok, lex'. split; [reflexivity|]. split; [constructor|].
    right; left. rewrite app_nil_r.
    split; [split; [exact Hin | eauto]|]. auto.
  - apply tok_eqb_eof in Ht as Hbq. rewrite Hbq.
    exists [], tok, lex'. split; [reflexivity|]. split; [constructor|].
    right; right. rewrite app_nil_r. auto.
Qed.

(** A line lexed without error gives a token list whose last token is
    EOF. *)
Lemma lex_line_tokens_last (L : string) (toks : TokenList) (lex' : Lexer) :
  lex_line_tokens L = Some (toks, lex') ->
  lex_error_msg lex' = None ->
  exists pre tok, toks = (pre ++ [tok])%list /\ tok_type tok = TOK_EOF.
Proof.
  intros Hlex Herr. unfold lex_line_tokens, lexer_tokenize in Hlex.
  destruct (tokenize_loop_spec heap_serves_all
              (String.length (lex_input (lexer_init L)) + 1) (lexer_init L) [])
    as (pre & tok & lx & Heq & _ & Hi); [unfold remaining; lia | reflexivity |].
  rewrite Hlex in Heq. injection Heq as -> ->.
  exists pre, tok. split; [reflexivity|].
  destruct Hi as [(_ & Ht & _)|[((_ & msg & _ & He) & _)|(He & _)]];
    [exact Ht | congruence | unfold out_of_memory in He; congruence].
Qed.



(** When the buffer of the first word cannot be allocated, the list is the
    EOF token alone and the error is recorded where the word starts. *)
Lemma lexer_tokenize_out_of_memory_ends_with_eof :
  exists lex',
    lexer_tokenize (fun _ => false) (lexer_init "  ls -l")
    = Some ([mkToken TOK_EOF None (-1) 1 3], lex')
    /\ lex_error_msg lex' = Some "lexer error at 1:3: out of memory".
Proof. eexists. split; vm_compute; reflexivity. Qed.

(** With the second buffer missing, the first word is followed by EOF. *)
Lemma lexer_tokenize_out_of_memory_after_a_word :
  exists lex',
    lexer_tokenize (fun i => Nat.eqb i 0) (lexer_init "ls -l")
    = Some ([mkToken TOK_WORD (Some "ls") (-1) 1 1;
             mkToken TOK_EOF None (-1) 1 4], lex')
    /\ lex_error_msg lex' = Some "lexer error at 1:4: out of memory".
Proof. eexists. split; vm_compute; reflexivity. Qed.

(** *** Words, quotes and fd-prefixed operators *)

Lemma scan_text_to_char (q : ascii) (X : string) :
  forall line col buf rest,
    has_char q X = false ->
    exists line' col',
      scan_text (fun x => Ascii.eqb x q) (X ++ String q rest) line col buf
      = ((String q rest, line', col'), buf ++ X).
Proof.
  induction X as [|c X IH]; intros line col buf rest Hq; simpl in *.
  - rewrite Ascii.eqb_refl. exists line, col. now rewrite append_nil_r.
  - apply orb_false_iff in Hq as [Hc Hq]. rewrite Hc.
    destruct (Ascii.eqb c c_newline).
    + destruct (IH (line + 1) 1 (buf ++ String c "") rest Hq) as (l & k & E).
      exists l, k. rewrite E, append_assoc. reflexivity.
    + destruct (IH line (col + 1) (buf ++ String c "") rest Hq) as (l & k & E).
      exists l, k. rewrite E, append_assoc. reflexivity.
Qed.

Lemma skip_whitespace_id (lex : Lexer) :
  match lex_input lex with
  | "" => True
  | String c _ => Ascii.eqb c c_space = false /\ Ascii.eqb c c_tab = false
  end ->
  skip_whitespace lex = lex.
Proof.
  unfold skip_whitespace, scan_until. destruct lex as [s l k e]. simpl.
  destruct s as [|c r]; simpl; [reflexivity|].
  intros [-> ->]. reflexivity.
Qed.

(** The characters that make [lexer_next] hand over to [build_word]. *)
Definition starts_word (c : ascii) : bool :=
  negb (Ascii.eqb c c_space || Ascii.eqb c c_tab || Ascii.eqb c "#"
        || Ascii.eqb c c_newline || isdigit c
        || Ascii.eqb c "|" || Ascii.eqb c "&" || Ascii.eqb c ";"
        || Ascii.eqb c ">" || Ascii.eqb c "<" || Ascii.eqb c "("
        || Ascii.eqb c ")" || Ascii.eqb c "{" || Ascii.eqb c "}"
        || Ascii.eqb c "!").

Lemma lexer_next_fuel_word (fuel : nat) (lex : Lexer) (c : ascii) (r : string) :
  lex_input lex = String c r ->
  starts_word c = true ->
  lexer_next_fuel true (S fuel) lex = build_word true fuel lex.
Proof.
  intros Ein Hw. unfold starts_word in Hw. apply negb_true_iff in Hw.
  repeat match type of Hw with
         | _ || _ = false => apply orb_false_iff in Hw; destruct Hw as [Hw ?]
         end.
  cbn [lexer_next_fuel].
  rewrite skip_whitespace_id by (rewrite Ein; auto).
  rewrite Ein.
  repeat match goal with
         | H : _ = false |- _ => rewrite H; clear H
         end.
  reflexivity.
Qed.

Lemma lexer_next_empty (lex : Lexer) :
  lex_input lex = "" ->
  lexer_next true lex
  = Some (make_token TOK_EOF None (lex_line lex) (lex_col lex), lex).
Proof.
  intros E. unfold lexer_next. rewrite E. cbn [String.length Nat.add lexer_next_fuel].
  rewrite skip_whitespace_id by now rewrite E.
  now rewrite E.
Qed.

Lemma lexer_next_squoted (lex : Lexer) (X : string) :
  lex_input lex = String c_squote (X ++ String c_squote "") ->
  has_char c_squote X = false ->
  no_nul X = true ->
  lex_error_msg lex = None ->
  exists lex',
    lexer_next true lex
    = Some (mkToken (check_keyword X) (Some X) (-1) (lex_line lex) (lex_col lex),
            lex')
    /\ lex_input lex' = "" /\ lex_error_msg lex' = None.
Proof.
  intros Ein Hq Hn Herr. unfold lexer_next. rewrite Ein.
  replace (String.length (String c_squote (X ++ String c_squote "")) + 3)%nat
    with (S (S (S (String.length (String c_squote (X ++ String c_squote ""))))))
    by lia.
  rewrite (lexer_next_fuel_word _ lex c_squote _ Ein eq_refl).
  unfold build_word. cbv iota. cbn [build_word_loop]. rewrite Ein.
  change (Ascii.eqb c_squote c_squote) with true. cbv iota.
  unfold scan_until, lex_advance. rewrite Ein.
  change (Ascii.eqb c_squote c_newline) with false. cbv iota.
  cbn [lex_input lex_line lex_col lex_error_msg].
  destruct (scan_text_to_char c_squote X (lex_line lex) (lex_col lex + 1) "" ""
              Hq) as (l & k & Hs).
  rewrite Hs. cbn [lex_input lex_line lex_col lex_error_msg].
  change (Ascii.eqb c_squote c_newline) with false. cbv iota.
  cbn [String.length build_word_loop lex_input].
  change ("" ++ X) with X. unfold strdup. rewrite (c_str_no_nul X Hn).
  eexists. split; [reflexivity|]. split; [reflexivity | exact Herr].
Qed.

(** C6, as the code has it.  For any X without single quote (and, being a
    C string, without NUL), the line made of X between single quotes lexes
    to exactly one token followed by EOF, with no error; the text of that
    token is exactly X; its kind is the one the keyword table gives for X,
    so it is WORD unless X is one of the reserved words. *)
Theorem single_quoted_text_round_trips :
  forall X : string,
    has_char c_squote X = false ->
    no_nul X = true ->
    exists eof lex',
      lex_line_tokens (String c_squote (X ++ String c_squote ""))
      = Some ([mkToken (check_keyword X) (Some X) (-1) 1 1; eof], lex')
      /\ tok_type eof = TOK_EOF
      /\ lex_error_msg lex' = None
      /\ (~ In X (map fst keywords) -> check_keyword X = TOK_WORD).
Proof.
  intros X Hq Hn. unfold lex_line_tokens, lexer_tokenize, lexer_init.
  assert (Hin : c_str (String c_squote (X ++ String c_squote ""))
                = String c_squote (X ++ String c_squote "")).
  { apply c_str_no_nul. simpl. rewrite no_nul_append, Hn. reflexivity. }
  rewrite Hin. cbn [lex_input].
  replace (String.length (String c_squote (X ++ String c_squote "")) + 1)%nat
    with (S (S (String.length X + 1))).
  2:{ simpl. rewrite length_append. simpl. lia. }
  cbn [tokenize_loop]; rewrite heap_serves_all_at.
  destruct (lexer_next_squoted
              (mkLexer (String c_squote (X ++ String c_squote "")) 1 1 None)
              X eq_refl Hq Hn eq_refl) as (lex1 & Hnext & Hrest & Herr).
  rewrite Hnext. cbn [tok_type lex_line lex_col].
  assert (Hk : tok_eqb (check_keyword X) TOK_EOF = false).
  { unfold tok_eqb. destruct (TokenType_eq_dec _ _) as [E|]; [|reflexivity].
    now apply check_keyword_not_eof in E. }
  rewrite Hk, Herr, heap_serves_all_at. rewrite (lexer_next_empty lex1 Hrest).
  cbn [tok_type make_token]. change (tok_eqb TOK_EOF TOK_EOF) with true.
  cbv iota. eexists _, _. split; [reflexivity|].
  split; [reflexivity|]. split; [exact Herr|].
  intros Hnot. unfold check_keyword, keywords in *. simpl in *.
  repeat match goal with
         | |- context [String.eqb X ?k] =>
           destruct (String.eqb_spec X k); [exfalso; apply Hnot; subst; tauto|]
         end.
  reflexivity.
Qed.

(** C6, witness: the text [hello world]. *)
Lemma single_quoted_text_round_trips_witness :
  exists eof lex',
    lex_line_tokens (String c_squote ("hello world" ++ String c_squote ""))
    = Some ([mkToken (check_keyword "hello world") (Some "hello world")
               (-1) 1 1; eof], lex')
    /\ tok_type eof = TOK_EOF
    /\ lex_error_msg lex' = None
    /\ (~ In "hello world" (map fst keywords)
        -> check_keyword "hello world" = TOK_WORD).
Proof.
  apply (single_quoted_text_round_trips "hello world"); reflexivity.
Defined.

(** C6, counterexample.  The quoted text [if] contains no single quote, yet
    the one token it lexes to is the keyword IF, not a WORD. *)
Lemma single_quoted_keyword_is_not_a_word :
  exists lex',
    lex_line_tokens "'if'"
    = Some ([mkToken TOK_IF (Some "if") (-1) 1 1;
             mkToken TOK_EOF None (-1) 1 5], lex')
    /\ has_char c_squote "if" = false
    /\ TOK_IF <> TOK_WORD.
Proof.
  eexists. split; [vm_compute; reflexivity|].
  split; [reflexivity | discriminate].
Qed.

Fixpoint string_forallb (p : ascii -> bool) (s : string) : bool :=
  match s with
  | "" => true
  | String c r => p c && string_forallb p r
  end.

Lemma scan_text_all (stop : ascii -> bool) (W : string) :
  forall line col buf,
    string_forallb (fun c => negb (stop c)) W = true ->
    exists line' col',
      scan_text stop W line col buf = (("", line', col'), buf ++ W).
Proof.
  induction W as [|c W IH]; intros line col buf H; simpl in *.
  - exists line, col. now rewrite append_nil_r.
  - apply andb_true_iff in H as [Hc HW]. apply negb_true_iff in Hc.
    rewrite Hc.
    destruct (Ascii.eqb c c_newline).
    + destruct (IH (line + 1) 1 (buf ++ String c "") HW) as (l & k & E).
      exists l, k. now rewrite E, append_assoc.
    + destruct (IH line (col + 1) (buf ++ String c "") HW) as (l & k & E).
      exists l, k. now rewrite E, append_assoc.
Qed.

Lemma isdigit_differs (c x : ascii) :
  isdigit c = true -> isdigit x = false -> Ascii.eqb c x = false.
Proof.
  intros Hc Hx. destruct (Ascii.eqb_spec c x); [congruence | reflexivity].
Qed.

(** The ASCII digit of a number below ten. *)
Definition digit_char (d : nat) : ascii := ascii_of_nat (48 + d).

(** [lexer_next] on [N>&...]: one REDIR_DUP token whose fd is the digit and
    whose text is what follows, up to the first character of [dup_stop]. *)
Lemma lexer_next_fuel_fd_dup (fuel : nat) (lex : Lexer) (c : ascii) (r : string) :
  lex_input lex = String c (String ">" (String "&" r)) ->
  isdigit c = true ->
  lexer_next_fuel true (S fuel) lex
  = let '(lex2, dup_val) :=
      scan_until dup_stop
        (mkLexer r (lex_line lex) (lex_col lex + 1 + 1 + 1) (lex_error_msg lex))
        "" in
    Some (mkToken TOK_REDIR_DUP (Some (strdup dup_val))
            (Z.of_nat (nat_of_ascii c) - 48) (lex_line lex) (lex_col lex + 1),
          lex2).
Proof.
  intros Ein Hd.
  pose proof (isdigit_differs c c_space Hd eq_refl) as H1.
  pose proof (isdigit_differs c c_tab Hd eq_refl) as H2.
  pose proof (isdigit_differs c "#" Hd eq_refl) as H3.
  pose proof (isdigit_differs c c_newline Hd eq_refl) as H4.
  assert (Hadv : lex_advance lex
                 = mkLexer (String ">" (String "&" r)) (lex_line lex)
                     (lex_col lex + 1) (lex_error_msg lex)).
  { unfold lex_advance. now rewrite Ein, H4. }
  cbn [lexer_next_fuel].
  rewrite skip_whitespace_id by (rewrite Ein; auto).
  rewrite Ein, H3, H4, Hd, !Hadv.
  unfold lex_peek at 1 2. rewrite Ein. cbn [String.get].
  change (Ascii.eqb ">" ">") with true. cbn [orb andb].
  unfold lex_cur, lex_peek. cbn [lex_input String.get lex_col].
  change (Ascii.eqb ">" ">") with true.
  change (Ascii.eqb "&" ">") with false.
  change (Ascii.eqb "&" "&") with true. cbv iota.
  unfold lex_advance_n, lex_advance. cbn [lex_input lex_line lex_col lex_error_msg].
  change (Ascii.eqb ">" c_newline) with false.
  change (Ascii.eqb "&" c_newline) with false. cbv iota.
  cbn [lex_input lex_line lex_col lex_error_msg].
  destruct (scan_until dup_stop _ "") as [lex2 dup_val].
  reflexivity.
Qed.

(** The first half of C5: for a digit N and a word W free of the characters
    that stop the scan, [N>&W] lexes to one REDIR_DUP token with fd N and
    text W, followed by EOF. *)
Lemma fd_prefixed_gt_amp_is_a_dup (d : nat) (W : string) :
  (d < 10)%nat ->
  string_forallb (fun c => negb (dup_stop c)) W = true ->
  no_nul W = true ->
  exists eof lex',
    lex_line_tokens (String (digit_char d) (String ">" (String "&" W)))
    = Some ([mkToken TOK_REDIR_DUP (Some W) (Z.of_nat d) 1 2; eof], lex')
    /\ tok_type eof = TOK_EOF
    /\ lex_error_msg lex' = None.
Proof.
  intros Hd HW Hn. unfold lex_line_tokens, lexer_tokenize, lexer_init.
  assert (Hdig : isdigit (digit_char d) = true
                 /\ Z.of_nat (nat_of_ascii (digit_char d)) - 48 = Z.of_nat d
                 /\ Ascii.eqb (digit_char d) NUL = false).
  { do 10 (destruct d as [|d]; [vm_compute; auto|]). lia. }
  destruct Hdig as (Hdg & Hfd & Hnz).
  assert (Hin : c_str (String (digit_char d) (String ">" (String "&" W)))
                = String (digit_char d) (String ">" (String "&" W))).
  { apply c_str_no_nul. cbn [no_nul]. rewrite Hnz, Hn. reflexivity. }
  rewrite Hin. cbn [lex_input String.length Nat.add tokenize_loop]; rewrite heap_serves_all_at.
  unfold lexer_next at 1. cbn [lex_input String.length Nat.add].
  rewrite (lexer_next_fuel_fd_dup _
             (mkLexer (String (digit_char d) (String ">" (String "&" W)))
                1 1 None)
             (digit_char d) W eq_refl Hdg).
  cbn [lex_line lex_col lex_error_msg]. unfold scan_until.
  cbn [lex_input lex_line lex_col lex_error_msg].
  destruct (scan_text_all dup_stop W 1 (1 + 1 + 1 + 1) "" HW) as (l & k & Hs).
  rewrite Hs. cbn [tok_type]. change (tok_eqb TOK_REDIR_DUP TOK_EOF) with false.
  cbv iota. cbn [lex_error_msg].
  rewrite lexer_next_empty by reflexivity.
  cbn [tok_type make_token]. change (tok_eqb TOK_EOF TOK_EOF) with true.
  cbv iota. change ("" ++ W) with W. unfold strdup.
  rewrite (c_str_no_nul W Hn), Hfd.
  eexists _, _. split; [reflexivity|]. split; reflexivity.
Qed.

(** C5, the failing input.  The lexer has no case for [<&]: [0<&3] lexes to
    REDIR_IN (fd 0), then AMP, then the WORD 3, and no REDIR_DUP token. *)
Theorem fd_prefixed_lt_amp_is_not_a_dup :
  exists lex',
    lex_line_tokens "0<&3"
    = Some ([mkToken TOK_REDIR_IN (Some "<") 0 1 2;
             mkToken TOK_AMP (Some "&") (-1) 1 3;
             mkToken TOK_WORD (Some "3") (-1) 1 4;
             mkToken TOK_EOF None (-1) 1 5], lex')
    /\ lex_error_msg lex' = None.
Proof.
  eexists. split; vm_compute; reflexivity.
Qed.

(** *** Words, blanks and comments *)

(** A character that [build_word] copies into the word as it is. *)
Definition ordinary (c : ascii) : bool :=
  negb (word_break c || Ascii.eqb c c_squote || Ascii.eqb c c_dquote
        || Ascii.eqb c c_bslash || Ascii.eqb c NUL).

(** A word without quotes, escapes and operator characters, that starts
    neither with a digit nor with an exclamation mark. *)
Definition bare_word (w : string) : bool :=
  match w with
  | "" => false
  | String c _ => starts_word c && string_forallb ordinary w
  end.

(** The text of an optional comment at the end of a line. *)
Definition comment_text (tail : option string) : string :=
  match tail with
  | None => ""
  | Some X => String "#" X
  end.

(** The line made of the words, each after one space, then the comment. *)
Definition words_line (ws : list string) (tail : option string) : string :=
  fold_right (fun w s => String " " (w ++ s)) (comment_text tail) ws.

(** Text at which a word ends. *)
Definition ends_word (rest : string) : bool :=
  match rest with
  | "" => true
  | String c _ => word_break c
  end.

Lemma has_char_forallb (q : ascii) (X : string) :
  has_char q X = false ->
  string_forallb (fun c => negb (Ascii.eqb c q)) X = true.
Proof.
  induction X as [|c X IH]; simpl; [reflexivity|].
  intros H. apply orb_false_iff in H as [Hc HX].
  now rewrite Hc, (IH HX).
Qed.

Lemma word_break_not_quote (c : ascii) :
  word_break c = true ->
  Ascii.eqb c c_squote = false /\ Ascii.eqb c c_dquote = false
  /\ Ascii.eqb c c_bslash = false.
Proof.
  destruct c as [[] [] [] [] [] [] [] []]; vm_compute; intros H;
    repeat split; congruence.
Qed.

Lemma ordinary_spec (c : ascii) :
  ordinary c = true ->
  word_break c = false /\ Ascii.eqb c c_squote = false
  /\ Ascii.eqb c c_dquote = false /\ Ascii.eqb c c_bslash = false
  /\ Ascii.eqb c NUL = false.
Proof.
  unfold ordinary. intros H. apply negb_true_iff in H.
  repeat match type of H with
         | _ || _ = false => apply orb_false_iff in H; destruct H as [H ?]
         end.
  auto.
Qed.

Lemma ordinary_no_nul (w : string) :
  string_forallb ordinary w = true -> no_nul w = true.
Proof.
  induction w as [|c w IH]; simpl; [reflexivity|].
  intros H. apply andb_true_iff in H as [Hc Hw].
  destruct (ordinary_spec c Hc) as (_ & _ & _ & _ & Hn).
  now rewrite Hn, (IH Hw).
Qed.

Lemma build_word_loop_plain (w : string) :
  forall fuel lex buf rest,
    string_forallb ordinary w = true ->
    lex_input lex = w ++ rest ->
    ends_word rest = true ->
    (String.length w < fuel)%nat ->
    exists lex',
      build_word_loop fuel lex buf = Some (lex', buf ++ w)
      /\ lex_input lex' = rest
      /\ lex_error_msg lex' = lex_error_msg lex.
Proof.
  induction w as [|c w IH]; intros fuel lex buf rest Hw Hin Hrest Hfuel;
    (destruct fuel as [|fuel]; [simpl in Hfuel; lia|]);
    cbn [build_word_loop]; rewrite Hin; cbn [append].
  - rewrite append_nil_r. destruct rest as [|d rest'].
    + exists lex. auto.
    + simpl in Hrest.
      destruct (word_break_not_quote d Hrest) as (E1 & E2 & E3).
      rewrite E1, E2, E3, Hrest. exists lex. auto.
  - simpl in Hw. apply andb_true_iff in Hw as [Hc Hw].
    destruct (ordinary_spec c Hc) as (E0 & E1 & E2 & E3 & _).
    rewrite E1, E2, E3, E0.
    assert (Hadv : lex_input (lex_advance lex) = w ++ rest).
    { unfold lex_advance. rewrite Hin. cbn [append].
      destruct (Ascii.eqb c c_newline); reflexivity. }
    destruct (IH fuel (lex_advance lex) (buf ++ String c "") rest Hw Hadv
                Hrest ltac:(simpl in Hfuel; lia)) as (lex' & E & Hi & He).
    exists lex'. rewrite E, append_assoc. split; [reflexivity|].
    split; [exact Hi|]. now rewrite He, lex_advance_error.
Qed.

Lemma skip_whitespace_blank (lex : Lexer) (c : ascii) (r : string) :
  lex_input lex = String " " (String c r) ->
  Ascii.eqb c c_space = false ->
  Ascii.eqb c c_tab = false ->
  skip_whitespace lex
  = mkLexer (String c r) (lex_line lex) (lex_col lex + 1) (lex_error_msg lex).
Proof.
  intros Hin H1 H2. unfold skip_whitespace, scan_until. rewrite Hin.
  cbn [scan_text]. change (Ascii.eqb " " c_space) with true.
  cbn [orb negb]. change (Ascii.eqb " " c_newline) with false. cbv iota.
  cbn [scan_text]. rewrite H1, H2. reflexivity.
Qed.

Lemma starts_word_not_blank (c : ascii) :
  starts_word c = true ->
  Ascii.eqb c c_space = false /\ Ascii.eqb c c_tab = false.
Proof.
  unfold starts_word. intros H. apply negb_true_iff in H.
  repeat match type of H with
         | _ || _ = false => apply orb_false_iff in H; destruct H as [H ?]
         end.
  auto.
Qed.

(** One word after a blank. *)
Lemma lexer_next_blank_word (lex : Lexer) (w rest : string) :
  lex_input lex = String " " (w ++ rest) ->
  bare_word w = true ->
  ends_word rest = true ->
  exists lex',
    lexer_next true lex
    = Some (mkToken (check_keyword w) (Some w) (-1) (lex_line lex)
              (lex_col lex + 1), lex')
    /\ lex_input lex' = rest
    /\ lex_error_msg lex' = lex_error_msg lex.
Proof.
  intros Hin Hw Hrest. destruct w as [|c r]; [discriminate|].
  simpl in Hw. apply andb_true_iff in Hw as [Hc Hw].
  destruct (starts_word_not_blank c Hc) as [H1 H2].
  set (lexw := mkLexer (String c r ++ rest) (lex_line lex) (lex_col lex + 1)
                 (lex_error_msg lex)).
  assert (Hskip : skip_whitespace lex = lexw)
    by (apply (skip_whitespace_blank lex c (r ++ rest) Hin H1 H2)).
  assert (Hid : skip_whitespace lexw = lexw).
  { apply skip_whitespace_id. unfold lexw. cbn [lex_input append]. auto. }
  unfold lexer_next. rewrite Hin.
  replace (String.length (String " " (String c r ++ rest)) + 3)%nat
    with (S (S (S (String.length (String " " (String c r ++ rest))))))
    by lia.
  assert (Hsame : forall f,
             lexer_next_fuel true (S f) lex = lexer_next_fuel true (S f) lexw).
  { intros f. cbn [lexer_next_fuel]. rewrite Hskip, Hid. reflexivity. }
  rewrite Hsame.
  rewrite (lexer_next_fuel_word _ lexw c (r ++ rest) eq_refl Hc).
  unfold build_word. cbv iota.
  destruct (build_word_loop_plain (String c r)
              (S (S (String.length (String " " (String c r ++ rest)))))
              lexw "" rest)
    as (lex' & E & Hi & He).
  - simpl. now rewrite Hw.
  - reflexivity.
  - exact Hrest.
  - cbn [String.length append]. rewrite length_append. lia.
  - rewrite E. change ("" ++ String c r) with (String c r).
    unfold strdup. rewrite (c_str_no_nul (String c r))
      by (apply ordinary_no_nul; exact Hw).
    exists lex'. split; [reflexivity|]. split; [exact Hi | exact He].
Qed.

(** The end of the line: nothing, or a comment without a newline. *)
Lemma lexer_next_tail (lex : Lexer) (tail : option string) :
  lex_input lex = comment_text tail ->
  match tail with
  | None => True
  | Some X => has_char c_newline X = false
  end ->
  exists line col lex',
    lexer_next true lex = Some (make_token TOK_EOF None line col, lex')
    /\ lex_error_msg lex' = lex_error_msg lex.
Proof.
  intros Hin Htail. destruct tail as [X|]; cbn [comment_text] in Hin.
  - unfold lexer_next. rewrite Hin.
    replace (String.length (String "#" X) + 3)%nat
      with (S (S (String.length (String "#" X) + 1))) by lia.
    cbn [lexer_next_fuel].
    rewrite skip_whitespace_id by (rewrite Hin; auto).
    rewrite Hin. change (Ascii.eqb "#" "#") with true. cbv iota.
    unfold skip_comment, scan_until. rewrite Hin. cbn [scan_text].
    change (Ascii.eqb "#" c_newline) with false. cbv iota.
    destruct (scan_text_all (fun c => Ascii.eqb c c_newline) X
                (lex_line lex) (lex_col lex + 1) (String "#" "")
                (has_char_forallb c_newline X Htail)) as (l & k & E).
    change ("" ++ String "#" "") with (String "#" "").
    rewrite E. cbn [fst].
    rewrite skip_whitespace_id by reflexivity.
    cbn [lex_input lex_line lex_col]. eexists _, _, _.
    split; reflexivity.
  - rewrite (lexer_next_empty lex Hin). eexists _, _, _. split; reflexivity.
Qed.

Lemma words_line_ends_word (ws : list string) (tail : option string) :
  ends_word (words_line ws tail) = true.
Proof.
  destruct ws as [|w ws]; [destruct tail|]; reflexivity.
Qed.

Lemma tokenize_words (tail : option string) (ws : list string) :
  match tail with
  | None => True
  | Some X => has_char c_newline X = false
  end ->
  Forall (fun w => bare_word w = true) ws ->
  forall lex acc fuel,
    lex_input lex = words_line ws tail ->
    lex_error_msg lex = None ->
    (List.length ws < fuel)%nat ->
    exists toks lex',
      tokenize_loop heap_serves_all fuel lex acc = Some ((acc ++ toks)%list, lex')
      /\ map (fun t => (tok_type t, tok_value t)) toks
         = (map (fun w => (check_keyword w, Some w)) ws
            ++ [(TOK_EOF, None)])%list
      /\ lex_error_msg lex' = None.
Proof.
  intros Htail Hws. induction Hws as [|w ws Hw Hws IH];
    intros lex acc fuel Hin Herr Hfuel;
    (destruct fuel as [|fuel]; [simpl in Hfuel; lia|]);
    cbn [tokenize_loop]; rewrite heap_serves_all_at.
  - destruct (lexer_next_tail lex tail Hin Htail) as (l & k & lex' & E & He).
    rewrite E. cbn [tok_type make_token].
    change (tok_eqb TOK_EOF TOK_EOF) with true. cbv iota.
    exists [make_token TOK_EOF None l k], lex'.
    split; [reflexivity|]. split; [reflexivity|]. congruence.
  - cbn [words_line fold_right] in Hin. fold (words_line ws tail) in Hin.
    destruct (lexer_next_blank_word lex w (words_line ws tail) Hin Hw
                (words_line_ends_word ws tail)) as (lex1 & E & Hi & He).
    rewrite E. cbn [tok_type].
    assert (Hk : tok_eqb (check_keyword w) TOK_EOF = false).
    { unfold tok_eqb. destruct (TokenType_eq_dec _ _) as [Ek|]; [|reflexivity].
      now apply check_keyword_not_eof in Ek. }
    rewrite Hk. rewrite He, Herr.
    destruct (IH lex1 (toklist_add acc
                         (mkToken (check_keyword w) (Some w) (-1)
                            (lex_line lex) (lex_col lex + 1)))
                fuel Hi ltac:(congruence) ltac:(simpl in Hfuel; lia))
      as (toks & lex' & Et & Hm & Hn).
    exists (mkToken (check_keyword w) (Some w) (-1) (lex_line lex)
              (lex_col lex + 1) :: toks), lex'.
    split.
    + rewrite Et. unfold toklist_add. now rewrite <- app_assoc.
    + split; [|exact Hn]. cbn [map tok_type tok_value app]. now rewrite Hm.
Qed.

Lemma words_line_no_nul (ws : list string) (tail : option string) :
  Forall (fun w => bare_word w = true) ws ->
  no_nul (comment_text tail) = true ->
  no_nul (words_line ws tail) = true.
Proof.
  intros Hws Ht. induction Hws as [|w ws Hw Hws IH]; [exact Ht|].
  cbn [words_line fold_right]. fold (words_line ws tail).
  cbn [no_nul]. rewrite no_nul_append, IH.
  destruct w as [|c r]; [discriminate|]. cbn [bare_word] in Hw.
  apply andb_true_iff in Hw as [_ Hw]. now rewrite (ordinary_no_nul _ Hw).
Qed.

Lemma words_line_length (ws : list string) (tail : option string) :
  (List.length ws <= String.length (words_line ws tail))%nat.
Proof.
  induction ws as [|w ws IH]; simpl; [lia|].
  rewrite length_append. fold (words_line ws tail). lia.
Qed.

(** Blanks separate words and a hash sign starts a comment.  The line made
    of plain words, each after one space, and ended or not by a comment
    (which may touch the last word) lexes without error to one token per
    word, in order, each with the text of its word and the kind the keyword
    table gives it, followed by EOF; the comment leaves no token. *)
Theorem blanks_separate_words_and_comments_are_dropped :
  forall (ws : list string) (tail : option string),
    Forall (fun w => bare_word w = true) ws ->
    match tail with
    | None => True
    | Some X => has_char c_newline X = false /\ no_nul X = true
    end ->
    exists toks lex',
      lex_line_tokens (words_line ws tail) = Some (toks, lex')
      /\ map (fun t => (tok_type t, tok_value t)) toks
         = (map (fun w => (check_keyword w, Some w)) ws
            ++ [(TOK_EOF, None)])%list
      /\ lex_error_msg lex' = None.
Proof.
  intros ws tail Hws Htail.
  unfold lex_line_tokens, lexer_tokenize, lexer_init.
  rewrite (c_str_no_nul (words_line ws tail)).
  2:{ apply words_line_no_nul; [exact Hws|].
      destruct tail as [X|]; [|reflexivity]. simpl. now destruct Htail. }
  cbn [lex_input].
  destruct (tokenize_words tail ws) with
      (lex := mkLexer (words_line ws tail) 1 1 None) (acc := @nil Token)
      (fuel := (String.length (words_line ws tail) + 1)%nat)
    as (toks & lex' & E & Hm & He).
  - destruct tail as [X|]; [now destruct Htail | exact I].
  - exact Hws.
  - reflexivity.
  - reflexivity.
  - pose proof (words_line_length ws tail). lia.
  - exists toks, lex'. auto.
Qed.

Lemma blanks_separate_words_and_comments_are_dropped_witness :
  Forall (fun w => bare_word w = true) ["echo"; "if"; "a.txt"]
  /\ (has_char c_newline " note" = false /\ no_nul " note" = true)
  /\ exists toks lex',
      lex_line_tokens (words_line ["echo"; "if"; "a.txt"] (Some " note"))
      = Some (toks, lex')
      /\ map (fun t => (tok_type t, tok_value t)) toks
         = (map (fun w => (check_keyword w, Some w)) ["echo"; "if"; "a.txt"]
            ++ [(TOK_EOF, None)])%list
      /\ lex_error_msg lex' = None.
Proof.
  assert (Hws : Forall (fun w => bare_word w = true) ["echo"; "if"; "a.txt"])
    by (repeat constructor).
  split; [exact Hws|]. split; [split; reflexivity|].
  apply (blanks_separate_words_and_comments_are_dropped
           ["echo"; "if"; "a.txt"] (Some " note") Hws).
  split; reflexivity.
Defined.

(** *** Unterminated quotes *)

(** The position a lexer that stood at [line]:[col] has reached once it has
    read the text [s]: a newline starts the next line at column 1, any other
    character moves one column on. *)
Fixpoint position_after (s : string) (line col : Z) : Z * Z :=
  match s with
  | "" => (line, col)
  | String c r =>
    if Ascii.eqb c c_newline then position_after r (line + 1) 1
    else position_after r line (col + 1)
  end.

Lemma position_after_line (s : string) :
  forall line col,
    has_char c_newline s = false ->
    position_after s line col = (line, col + Z.of_nat (String.length s)).
Proof.
  induction s as [|c s IH]; intros line col H.
  - cbn [position_after String.length Z.of_nat]. now rewrite Z.add_0_r.
  - cbn [has_char] in H. apply orb_false_iff in H as [Hc H].
    cbn [position_after]. rewrite Hc.
    rewrite (IH line (col + 1) H). f_equal.
    cbn [String.length]. lia.
Qed.

Lemma scan_text_all_position (stop : ascii -> bool) (W : string) :
  forall line col buf,
    string_forallb (fun c => negb (stop c)) W = true ->
    scan_text stop W line col buf
    = (("", fst (position_after W line col), snd (position_after W line col)),
       buf ++ W).
Proof.
  induction W as [|c W IH]; intros line col buf H.
  - cbn [scan_text position_after fst snd]. now rewrite append_nil_r.
  - cbn [string_forallb] in H. apply andb_true_iff in H as [Hc H].
    apply negb_true_iff in Hc. cbn [scan_text position_after]. rewrite Hc.
    destruct (Ascii.eqb c c_newline); rewrite (IH _ _ _ H), append_assoc;
      reflexivity.
Qed.

Lemma scan_dquote_plain_position (X : string) :
  forall line col buf,
    has_char c_dquote X = false ->
    has_char c_bslash X = false ->
    scan_dquote X line col buf
    = (("", fst (position_after X line col), snd (position_after X line col)),
       buf ++ X).
Proof.
  induction X as [|c X IH]; intros line col buf Hq Hb.
  - cbn [scan_dquote position_after fst snd]. now rewrite append_nil_r.
  - cbn [has_char] in Hq, Hb.
    apply orb_false_iff in Hq as [Hc1 Hq].
    apply orb_false_iff in Hb as [Hc2 Hb].
    cbn [scan_dquote position_after]. rewrite Hc1, Hc2.
    destruct (Ascii.eqb c c_newline); rewrite (IH _ _ _ Hq Hb), append_assoc;
      reflexivity.
Qed.

(** A quote that is not closed is an error, and ends the token list without
    EOF.  For a line that opens a single quote, or a double quote, and never
    closes it, the lexer returns the one token of the text read so far and
    records the message for the unterminated quote with the line and the
    column at which the input ends: the position reached from 1:1 by reading
    the whole line, which on a line without newline is line 1 and the column
    after the last character. *)
Theorem unterminated_quote_is_reported :
  forall X : string,
    no_nul X = true ->
    (has_char c_squote X = false ->
     exists lex',
       lex_line_tokens (String c_squote X)
       = Some ([mkToken (check_keyword X) (Some X) (-1) 1 1], lex')
       /\ (lex_line lex', lex_col lex')
          = position_after (String c_squote X) 1 1
       /\ lex_error_msg lex'
          = Some (lexer_error_text (lex_line lex') (lex_col lex')
                    "unterminated single quote"))
    /\ (has_char c_dquote X = false ->
        has_char c_bslash X = false ->
        exists lex',
          lex_line_tokens (String c_dquote X)
          = Some ([mkToken (check_keyword X) (Some X) (-1) 1 1], lex')
          /\ (lex_line lex', lex_col lex')
             = position_after (String c_dquote X) 1 1
          /\ lex_error_msg lex'
             = Some (lexer_error_text (lex_line lex') (lex_col lex')
                       "unterminated double quote"))
    /\ (has_char c_newline X = false ->
        position_after (String c_squote X) 1 1
        = (1, Z.of_nat (String.length X) + 2)
        /\ position_after (String c_dquote X) 1 1
           = (1, Z.of_nat (String.length X) + 2)).
Proof.
  intros X Hn.
  assert (Hk : tok_eqb (check_keyword X) TOK_EOF = false).
  { unfold tok_eqb. destruct (TokenType_eq_dec _ _) as [E|]; [|reflexivity].
    now apply check_keyword_not_eof in E. }
  split; [|split].
  - intros Hq. unfold lex_line_tokens, lexer_tokenize, lexer_init.
    rewrite (c_str_no_nul (String c_squote X)) by (simpl; exact Hn).
    cbn [lex_input].
    replace (String.length (String c_squote X) + 1)%nat
      with (S (S (String.length X))) by (simpl; lia).
    cbn [tokenize_loop]; rewrite heap_serves_all_at.
    unfold lexer_next. cbn [lex_input].
    replace (String.length (String c_squote X) + 3)%nat
      with (S (S (S (S (String.length X))))) by (simpl; lia).
    rewrite (lexer_next_fuel_word _ (mkLexer (String c_squote X) 1 1 None)
               c_squote X eq_refl eq_refl).
    unfold build_word. cbv iota. cbn [build_word_loop lex_input].
    change (Ascii.eqb c_squote c_squote) with true. cbv iota.
    unfold scan_until, lex_advance. cbn [lex_input].
    change (Ascii.eqb c_squote c_newline) with false. cbv iota.
    cbn [lex_input lex_line lex_col lex_error_msg].
    rewrite (scan_text_all_position (fun x => Ascii.eqb x c_squote) X 1 (1 + 1)
               "" (has_char_forallb c_squote X Hq)).
    cbn [lex_input]. change ("" ++ X) with X.
    assert (Hs : strdup X = X) by (apply c_str_no_nul; exact Hn).
    rewrite !Hs.
    cbn [tok_type make_token lex_line lex_col]. rewrite Hk.
    unfold lex_error. cbn [lex_error_msg lex_input lex_line lex_col].
    eexists. split; [reflexivity|].
    cbn [lex_line lex_col position_after].
    change (Ascii.eqb c_squote c_newline) with false. cbv iota.
    split; [now destruct (position_after X 1 (1 + 1)) | reflexivity].
  - intros Hq Hb. unfold lex_line_tokens, lexer_tokenize, lexer_init.
    rewrite (c_str_no_nul (String c_dquote X)) by (simpl; exact Hn).
    cbn [lex_input].
    replace (String.length (String c_dquote X) + 1)%nat
      with (S (S (String.length X))) by (simpl; lia).
    cbn [tokenize_loop]; rewrite heap_serves_all_at.
    unfold lexer_next. cbn [lex_input].
    replace (String.length (String c_dquote X) + 3)%nat
      with (S (S (S (S (String.length X))))) by (simpl; lia).
    rewrite (lexer_next_fuel_word _ (mkLexer (String c_dquote X) 1 1 None)
               c_dquote X eq_refl eq_refl).
    unfold build_word. cbv iota. cbn [build_word_loop lex_input].
    change (Ascii.eqb c_dquote c_squote) with false.
    change (Ascii.eqb c_dquote c_dquote) with true. cbv iota.
    unfold lex_advance. cbn [lex_input].
    change (Ascii.eqb c_dquote c_newline) with false. cbv iota.
    cbn [lex_input lex_line lex_col lex_error_msg].
    rewrite (scan_dquote_plain_position X 1 (1 + 1) "" Hq Hb).
    change ("" ++ X) with X.
    assert (Hs : strdup X = X) by (apply c_str_no_nul; exact Hn).
    rewrite !Hs.
    cbn [tok_type make_token lex_line lex_col]. rewrite Hk.
    unfold lex_error. cbn [lex_error_msg lex_input lex_line lex_col].
    eexists. split; [reflexivity|].
    cbn [lex_line lex_col position_after].
    change (Ascii.eqb c_dquote c_newline) with false. cbv iota.
    split; [now destruct (position_after X 1 (1 + 1)) | reflexivity].
  - intros Hl. cbn [position_after].
    change (Ascii.eqb c_squote c_newline) with false.
    change (Ascii.eqb c_dquote c_newline) with false. cbv iota.
    rewrite (position_after_line X 1 (1 + 1) Hl).
    split; f_equal; lia.
Qed.

Lemma unterminated_quote_is_reported_witness :
  no_nul "abc def" = true
  /\ (has_char c_squote "abc def" = false ->
      exists lex',
        lex_line_tokens (String c_squote "abc def")
        = Some ([mkToken (check_keyword "abc def") (Some "abc def") (-1) 1 1],
                lex')
        /\ (lex_line lex', lex_col lex')
           = position_after (String c_squote "abc def") 1 1
        /\ lex_error_msg lex'
           = Some (lexer_error_text (lex_line lex') (lex_col lex')
                     "unterminated single quote"))
  /\ (has_char c_dquote "abc def" = false ->
      has_char c_bslash "abc def" = false ->
      exists lex',
        lex_line_tokens (String c_dquote "abc def")
        = Some ([mkToken (check_keyword "abc def") (Some "abc def") (-1) 1 1],
                lex')
        /\ (lex_line lex', lex_col lex')
           = position_after (String c_dquote "abc def") 1 1
        /\ lex_error_msg lex'
           = Some (lexer_error_text (lex_line lex') (lex_col lex')
                     "unterminated double quote"))
  /\ (has_char c_newline "abc def" = false ->
      position_after (String c_squote "abc def") 1 1
      = (1, Z.of_nat (String.length "abc def") + 2)
      /\ position_after (String c_dquote "abc def") 1 1
         = (1, Z.of_nat (String.length "abc def") + 2)).
Proof.
  split; [reflexivity|].
  apply (unterminated_quote_is_reported "abc def"). reflexivity.
Defined.

(** The line of the witness: its error is reported at line 1, column 9. *)
Lemma unterminated_quote_at_column_9 :
  exists lex',
    lex_line_tokens (String c_squote "abc def")
    = Some ([mkToken TOK_WORD (Some "abc def") (-1) 1 1], lex')
    /\ lex_error_msg lex'
       = Some "lexer error at 1:9: unterminated single quote".
Proof. eexists. split; vm_compute; reflexivity. Qed.

End Lex.

(* ===================================================================== *)
(** ** parser.c *)
(* ===================================================================== *)

Module Parse.
Import CStr Lex.
Local Open Scope string_scope.
Local Open Scope Z_scope.

(** parser.h: [enum ASTNodeType]. *)
Inductive ASTNodeType : Type :=
| NODE_COMMAND | NODE_PIPELINE | NODE_AND | NODE_OR | NODE_SEQUENCE
| NODE_BACKGROUND | NODE_NEGATE | NODE_SUBSHELL | NODE_IF | NODE_WHILE
| NODE_FOR | NODE_FUNCTION | NODE_BLOCK.

(** parser.h: [enum RedirType]. *)
Inductive RedirType : Type :=
| REDIR_INPUT | REDIR_OUTPUT | REDIR_APPEND | REDIR_HEREDOC
| REDIR_DUP_OUT | REDIR_DUP_IN.

(** [struct Redirection] without [next]: a chain of redirections is a list,
    head of the chain first. *)
Record Redirection : Type := mkRedir {
  redir_type : RedirType;
  redir_fd : Z;
  redir_target : string
}.

(** [struct CommandNode]; [argc] and [nassign] are the lengths of [argv] and
    [assignments]. *)
Record CommandNode : Type := mkCommand {
  argv : list string;
  redirs : list Redirection;
  assignments : list string
}.

Definition argc (cmd : CommandNode) : Z := Z.of_nat (List.length (argv cmd)).
Definition nassign (cmd : CommandNode) : Z :=
  Z.of_nat (List.length (assignments cmd)).

(** [struct ASTNode]: the tag and the member of the union it selects.  A
    child pointer may be NULL. *)
#[local] Unset Elimination Schemes.
Inductive ASTNode : Type :=
| NodeCommand (cmd : CommandNode)
| NodePipeline (commands : list (option ASTNode)) (negated : bool)
| NodeAnd (left right : option ASTNode)
| NodeOr (left right : option ASTNode)
| NodeSequence (left right : option ASTNode)
| NodeBackground (child : option ASTNode)
| NodeNegate (child : option ASTNode)
| NodeSubshell (child : option ASTNode)
| NodeIf (condition then_body else_body : option ASTNode)
| NodeWhile (condition body : option ASTNode)
| NodeFor (varname : string) (words : list string) (body : option ASTNode)
| NodeFunction (name : string) (body : option ASTNode)
| NodeBlock (child : option ASTNode).
#[local] Set Elimination Schemes.

Definition node_type (node : ASTNode) : ASTNodeType :=
  match node with
  | NodeCommand _ => NODE_COMMAND
  | NodePipeline _ _ => NODE_PIPELINE
  | NodeAnd _ _ => NODE_AND
  | NodeOr _ _ => NODE_OR
  | NodeSequence _ _ => NODE_SEQUENCE
  | NodeBackground _ => NODE_BACKGROUND
  | NodeNegate _ => NODE_NEGATE
  | NodeSubshell _ => NODE_SUBSHELL
  | NodeIf _ _ _ => NODE_IF
  | NodeWhile _ _ => NODE_WHILE
  | NodeFor _ _ _ => NODE_FOR
  | NodeFunction _ _ => NODE_FUNCTION
  | NodeBlock _ => NODE_BLOCK
  end.

(** [struct Parser]. *)
Record Parser : Type := mkParser {
  tokens : TokenList;
  pos : nat;
  error : option string;
  had_error : bool
}.

(** The outcome of a parse function: its result and the parser afterwards;
    [None] when the iteration bound of the model is exhausted. *)
Definition bind {A B : Type} (m : option A) (k : A -> option B) : option B :=
  match m with
  | None => None
  | Some a => k a
  end.

Notation "x <- e ;; k" := (bind e (fun x => k))
  (at level 61, e at next level, right associativity).
Notation "' pat <- e ;; k" := (bind e (fun pat => k))
  (at level 61, pat pattern, e at next level, right associativity).

(** The text of a token.  Every token the lexer builds, EOF apart, carries
    its text; the NULL of EOF is read as the empty text. *)
Definition tok_text (tok : Token) : string :=
  match tok_value tok with
  | Some s => s
  | None => ""
  end.

Definition eof_token : Token := make_token TOK_EOF None 0 0.

(** [cur_token]: past the end, the last token of the list. *)
Definition cur_token (parser : Parser) : Token :=
  let count := List.length (tokens parser) in
  if (count <=? pos parser)%nat
  then nth (count - 1) (tokens parser) eof_token
  else nth (pos parser) (tokens parser) eof_token.

Definition advance (parser : Parser) : Parser :=
  if (pos parser <? List.length (tokens parser))%nat
  then mkParser (tokens parser) (S (pos parser)) (error parser)
         (had_error parser)
  else parser.

Definition check (parser : Parser) (type : TokenType) : bool :=
  tok_eqb (tok_type (cur_token parser)) type.

Definition token_type_str (type : TokenType) : string :=
  match type with
  | TOK_WORD => "WORD" | TOK_PIPE => "PIPE" | TOK_AND => "AND"
  | TOK_OR => "OR" | TOK_SEMI => "SEMI" | TOK_AMP => "AMP"
  | TOK_REDIR_IN => "REDIR_IN" | TOK_REDIR_OUT => "REDIR_OUT"
  | TOK_REDIR_APPEND => "REDIR_APPEND"
  | TOK_REDIR_HEREDOC => "REDIR_HEREDOC" | TOK_REDIR_DUP => "REDIR_DUP"
  | TOK_LPAREN => "LPAREN" | TOK_RPAREN => "RPAREN"
  | TOK_NEWLINE => "NEWLINE" | TOK_IF => "IF" | TOK_THEN => "THEN"
  | TOK_ELIF => "ELIF" | TOK_ELSE => "ELSE" | TOK_FI => "FI"
  | TOK_WHILE => "WHILE" | TOK_FOR => "FOR" | TOK_DO => "DO"
  | TOK_DONE => "DONE" | TOK_IN => "IN" | TOK_FUNCTION => "FUNCTION"
  | TOK_RETURN => "RETURN" | TOK_LOCAL => "LOCAL" | TOK_LBRACE => "LBRACE"
  | TOK_RBRACE => "RBRACE" | TOK_BANG => "BANG" | TOK_EOF => "EOF"
  end.

(** [parser_error_at]: the first error is kept. *)
Definition parser_error_at (parser : Parser) (tok : Token) (msg : string)
    : Parser :=
  if had_error parser then parser else
  let buf :=
    if tok_eqb (tok_type tok) TOK_EOF
    then snprintf 256 ("parse error at end of input: " ++ msg)
    else snprintf 256
           ("parse error at line " ++ string_of_int (tok_line tok)
            ++ " col " ++ string_of_int (tok_col tok) ++ " near '"
            ++ match tok_value tok with
               | Some v => v
               | None => token_type_str (tok_type tok)
               end
            ++ "': " ++ msg) in
  mkParser (tokens parser) (pos parser) (Some (strdup buf)) true.

(** [expect]: the consumed token, or NULL with an error recorded. *)
Definition expect (parser : Parser) (type : TokenType)
    : option Token * Parser :=
  if check parser type then (Some (cur_token parser), advance parser)
  else
    let buf := snprintf 128 ("expected '" ++ token_type_str type ++ "'") in
    (None, parser_error_at parser (cur_token parser) buf).

(** [skip_newlines]. *)
Fixpoint skip_newlines (fuel : nat) (parser : Parser) : option Parser :=
  match fuel with
  | O => None
  | S fuel' =>
    if check parser TOK_NEWLINE then skip_newlines fuel' (advance parser)
    else Some parser
  end.

Definition is_redir (t : TokenType) : bool :=
  tok_eqb t TOK_REDIR_IN || tok_eqb t TOK_REDIR_OUT
  || tok_eqb t TOK_REDIR_APPEND || tok_eqb t TOK_REDIR_HEREDOC
  || tok_eqb t TOK_REDIR_DUP.

Definition at_command_start (parser : Parser) : bool :=
  let t := tok_type (cur_token parser) in
  tok_eqb t TOK_WORD || tok_eqb t TOK_IF || tok_eqb t TOK_WHILE
  || tok_eqb t TOK_FOR || tok_eqb t TOK_LBRACE || tok_eqb t TOK_LPAREN
  || tok_eqb t TOK_FUNCTION || tok_eqb t TOK_BANG || is_redir t.

(** The redirection type and default fd of an operator token; [None] for
    the [default:] case of the switch. *)
Definition redir_kind (op : Token) : option (RedirType * Z) :=
  match tok_type op with
  | TOK_REDIR_IN => Some (REDIR_INPUT, 0)
  | TOK_REDIR_OUT => Some (REDIR_OUTPUT, 1)
  | TOK_REDIR_APPEND => Some (REDIR_APPEND, 1)
  | TOK_REDIR_HEREDOC => Some (REDIR_HEREDOC, 0)
  | TOK_REDIR_DUP =>
    match tok_value op with
    | Some (String c _) =>
      if Ascii.eqb c "<" then Some (REDIR_DUP_IN, 0)
      else Some (REDIR_DUP_OUT, 1)
    | _ => Some (REDIR_DUP_OUT, 1)
    end
  | _ => None
  end.

(** [parse_redirection]: the parser and the chain [cmd->redirs] afterwards.
    The new node goes to the front of the chain. *)
Definition parse_redirection (parser : Parser) (chain : list Redirection)
    : Parser * list Redirection :=
  let op := cur_token parser in
  let parser := advance parser in
  match redir_kind op with
  | None =>
    (parser_error_at parser op "unexpected redirection operator", chain)
  | Some (rtype, default_fd) =>
    match expect parser TOK_WORD with
    | (None, parser') => (parser', chain)
    | (Some target, parser') =>
      let redir :=
        mkRedir rtype
          (if 0 <=? tok_redir_fd op then tok_redir_fd op else default_fd)
          (strdup (tok_text target)) in
      (parser', redir :: chain)
    end
  end.

(** The loop of [parse_simple_cmd]. *)
Fixpoint simple_cmd_loop (fuel : nat) (parser : Parser) (args : list string)
    (chain : list Redirection)
    : option (Parser * list string * list Redirection) :=
  match fuel with
  | O => None
  | S fuel' =>
    if had_error parser then Some (parser, args, chain) else
    let t := tok_type (cur_token parser) in
    if is_redir t then
      let '(parser', chain') := parse_redirection parser chain in
      simple_cmd_loop fuel' parser' args chain'
    else if tok_eqb t TOK_WORD then
      let tok := cur_token parser in
      simple_cmd_loop fuel' (advance parser)
        (args ++ [strdup (tok_text tok)])%list chain
    else Some (parser, args, chain)
  end.

(** [parse_simple_cmd].  The node is calloc-ed: no assignment is recorded. *)
Definition parse_simple_cmd (fuel : nat) (parser : Parser)
    : option (option ASTNode * Parser) :=
  '(parser', args, chain) <- simple_cmd_loop fuel parser [] [] ;;
  match args, chain with
  | [], [] =>
    Some (None, parser_error_at parser' (cur_token parser')
                  "expected a command")
  | _, _ => Some (Some (NodeCommand (mkCommand args chain [])), parser')
  end.

(** The result type of the parse functions that build a node. *)
Definition NodeResult : Type := option (option ASTNode * Parser).

(** [return NULL;] *)
Definition ret_null (parser : Parser) : NodeResult := Some (None, parser).

(** The functions below call [parse_list] on what follows a keyword or an
    opening bracket.  They take it as the parameter [list_rec]; [parse_list]
    ties the knot further down. *)
Section ParseFunctions.
Variable list_rec : Parser -> NodeResult.

(** [body = parse_list(parser); if (parser->had_error) return NULL;]
    between two [skip_newlines], as every compound command does. *)
Definition parse_body (fuel : nat) (parser : Parser)
    : option (option (option ASTNode) * Parser) :=
  parser <- skip_newlines fuel parser ;;
  '(body, parser) <- list_rec parser ;;
  if had_error parser then Some (None, parser) else
  parser <- skip_newlines fuel parser ;;
  Some (Some body, parser).

(** [condition; THEN; then_body] of an if or elif clause. *)
Definition parse_clause (fuel : nat) (parser : Parser)
    : option (option (option ASTNode * option ASTNode) * Parser) :=
  '(cond, parser) <- parse_body fuel parser ;;
  match cond with
  | None => Some (None, parser)
  | Some condition =>
    match expect parser TOK_THEN with
    | (None, parser) => Some (None, parser)
    | (Some _, parser) =>
      '(body, parser) <- parse_body fuel parser ;;
      match body with
      | None => Some (None, parser)
      | Some then_body => Some (Some (condition, then_body), parser)
      end
    end
  end.

(** [if (check(parser, TOK_ELSE)) { advance; else_body = parse_list; ... }]:
    the else body, which stays NULL without the keyword. *)
Definition parse_else (fuel : nat) (parser : Parser)
    : option (option (option ASTNode) * Parser) :=
  if check parser TOK_ELSE then parse_body fuel (advance parser)
  else Some (Some None, parser).

(** The [while (check(parser, TOK_ELIF))] loop of [parse_if] and the else
    part after it: the value left in the [else_body] of the node the loop
    started from. *)
Fixpoint parse_elif_chain (fuel : nat) (parser : Parser)
    : option (option (option ASTNode) * Parser) :=
  match fuel with
  | O => None
  | S fuel' =>
    if check parser TOK_ELIF then
      '(clause, parser) <- parse_clause fuel' (advance parser) ;;
      match clause with
      | None => Some (None, parser)
      | Some (condition, then_body) =>
        '(rest, parser) <- parse_elif_chain fuel' parser ;;
        match rest with
        | None => Some (None, parser)
        | Some else_body =>
          Some (Some (Some (NodeIf condition then_body else_body)), parser)
        end
      end
    else parse_else fuel parser
  end.

(** [parse_if].  The source writes out the first two elif clauses before its
    loop; each of them does what an iteration of the loop does. *)
Definition parse_if (fuel : nat) (parser : Parser) : NodeResult :=
  '(clause, parser) <- parse_clause fuel parser ;;
  match clause with
  | None => ret_null parser
  | Some (condition, then_body) =>
    '(rest, parser) <-
      (if check parser TOK_ELIF then
         '(clause2, parser) <- parse_clause fuel (advance parser) ;;
         match clause2 with
         | None => Some (None, parser)
         | Some (condition2, then_body2) =>
           '(rest2, parser) <-
             (if check parser TOK_ELIF then
                '(clause3, parser) <- parse_clause fuel (advance parser) ;;
                match clause3 with
                | None => Some (None, parser)
                | Some (condition3, then_body3) =>
                  '(rest3, parser) <- parse_elif_chain fuel parser ;;
                  match rest3 with
                  | None => Some (None, parser)
                  | Some else3 =>
                    Some (Some (Some (NodeIf condition3 then_body3 else3)),
                          parser)
                  end
                end
              else parse_else fuel parser) ;;
           match rest2 with
           | None => Some (None, parser)
           | Some else2 =>
             Some (Some (Some (NodeIf condition2 then_body2 else2)), parser)
           end
         end
       else parse_else fuel parser) ;;
    match rest with
    | None => ret_null parser
    | Some else_body =>
      match expect parser TOK_FI with
      | (None, parser) => ret_null parser
      | (Some _, parser) =>
        Some (Some (NodeIf condition then_body else_body), parser)
      end
    end
  end.

(** [parse_while]. *)
Definition parse_while (fuel : nat) (parser : Parser) : NodeResult :=
  '(cond, parser) <- parse_body fuel parser ;;
  match cond with
  | None => ret_null parser
  | Some condition =>
    match expect parser TOK_DO with
    | (None, parser) => ret_null parser
    | (Some _, parser) =>
      '(body, parser) <- parse_body fuel parser ;;
      match body with
      | None => ret_null parser
      | Some body =>
        match expect parser TOK_DONE with
        | (None, parser) => ret_null parser
        | (Some _, parser) => Some (Some (NodeWhile condition body), parser)
        end
      end
    end
  end.

(** The [while (check(parser, TOK_WORD))] loop of [parse_for]. *)
Fixpoint for_words_loop (fuel : nat) (parser : Parser) (words : list string)
    : option (Parser * list string) :=
  match fuel with
  | O => None
  | S fuel' =>
    if check parser TOK_WORD then
      for_words_loop fuel' (advance parser)
        (words ++ [strdup (tok_text (cur_token parser))])%list
    else Some (parser, words)
  end.

(** [parse_for]. *)
Definition parse_for (fuel : nat) (parser : Parser) : NodeResult :=
  parser <- skip_newlines fuel parser ;;
  match expect parser TOK_WORD with
  | (None, parser) => ret_null parser
  | (Some var, parser) =>
    let varname := strdup (tok_text var) in
    parser <- skip_newlines fuel parser ;;
    '(parser, words) <-
      (if check parser TOK_IN then
         '(parser, words) <- for_words_loop fuel (advance parser) [] ;;
         Some (if check parser TOK_SEMI || check parser TOK_NEWLINE
               then advance parser else parser, words)
       else Some (parser, [])) ;;
    parser <- skip_newlines fuel parser ;;
    match expect parser TOK_DO with
    | (None, parser) => ret_null parser
    | (Some _, parser) =>
      '(body, parser) <- parse_body fuel parser ;;
      match body with
      | None => ret_null parser
      | Some body =>
        match expect parser TOK_DONE with
        | (None, parser) => ret_null parser
        | (Some _, parser) => Some (Some (NodeFor varname words body), parser)
        end
      end
    end
  end.

(** [LBRACE list RBRACE], shared by function bodies and brace groups. *)
Definition parse_braced (fuel : nat) (parser : Parser) (close : TokenType)
    : option (option (option ASTNode) * Parser) :=
  '(body, parser) <- parse_body fuel parser ;;
  match body with
  | None => Some (None, parser)
  | Some body =>
    match expect parser close with
    | (None, parser) => Some (None, parser)
    | (Some _, parser) => Some (Some body, parser)
    end
  end.

(** [parse_function_body]. *)
Definition parse_function_body (fuel : nat) (parser : Parser) (name : string)
    : NodeResult :=
  let fname := strdup name in
  parser <- skip_newlines fuel parser ;;
  match expect parser TOK_LBRACE with
  | (None, parser) => ret_null parser
  | (Some _, parser) =>
    '(body, parser) <- parse_braced fuel parser TOK_RBRACE ;;
    match body with
    | None => ret_null parser
    | Some body => Some (Some (NodeFunction fname body), parser)
    end
  end.

(** [parse_function]. *)
Definition parse_function (fuel : nat) (parser : Parser) : NodeResult :=
  match expect parser TOK_WORD with
  | (None, parser) => ret_null parser
  | (Some name_tok, parser) =>
    if check parser TOK_LPAREN then
      match expect (advance parser) TOK_RPAREN with
      | (None, parser) => ret_null parser
      | (Some _, parser) =>
        parse_function_body fuel parser (tok_text name_tok)
      end
    else parse_function_body fuel parser (tok_text name_tok)
  end.

(** [parse_command]. *)
Definition parse_command (fuel : nat) (parser : Parser) : NodeResult :=
  let tok := cur_token parser in
  match tok_type tok with
  | TOK_IF => parse_if fuel (advance parser)
  | TOK_WHILE => parse_while fuel (advance parser)
  | TOK_FOR => parse_for fuel (advance parser)
  | TOK_FUNCTION => parse_function fuel (advance parser)
  | TOK_LBRACE =>
    '(body, parser) <- parse_braced fuel (advance parser) TOK_RBRACE ;;
    match body with
    | None => ret_null parser
    | Some body => Some (Some (NodeBlock body), parser)
    end
  | TOK_LPAREN =>
    '(body, parser) <- parse_braced fuel (advance parser) TOK_RPAREN ;;
    match body with
    | None => ret_null parser
    | Some body => Some (Some (NodeSubshell body), parser)
    end
  | TOK_WORD =>
    let next1 := nth (pos parser + 1) (tokens parser) eof_token in
    let next2 := nth (pos parser + 2) (tokens parser) eof_token in
    if (pos parser + 2 <? List.length (tokens parser))%nat
       && tok_eqb (tok_type next1) TOK_LPAREN
       && tok_eqb (tok_type next2) TOK_RPAREN
    then parse_function_body fuel (advance (advance (advance parser)))
           (tok_text tok)
    else parse_simple_cmd fuel parser
  | t =>
    if is_redir t then parse_simple_cmd fuel parser
    else ret_null (parser_error_at parser tok "unexpected token")
  end.

(** The [while (match(parser, TOK_PIPE))] loop of [parse_pipeline]. *)
Fixpoint pipeline_loop (fuel : nat) (parser : Parser)
    (cmds : list (option ASTNode)) (negated : bool) : NodeResult :=
  match fuel with
  | O => None
  | S fuel' =>
    if check parser TOK_PIPE then
      parser <- skip_newlines fuel' (advance parser) ;;
      '(cmd, parser) <- parse_command fuel' parser ;;
      if had_error parser then ret_null parser
      else pipeline_loop fuel' parser (cmds ++ [cmd])%list negated
    else Some (Some (NodePipeline cmds negated), parser)
  end.

(** [parse_pipeline]. *)
Definition parse_pipeline (fuel : nat) (parser : Parser) : NodeResult :=
  let negated := check parser TOK_BANG in
  let parser := if negated then advance parser else parser in
  '(first, parser) <- parse_command fuel parser ;;
  if had_error parser then ret_null parser
  else if negb (check parser TOK_PIPE) && negb negated
  then Some (first, parser)
  else pipeline_loop fuel parser [first] negated.

(** The [for (;;)] loop of [parse_list]. *)
Fixpoint list_loop (fuel : nat) (parser : Parser) (left : option ASTNode)
    : NodeResult :=
  match fuel with
  | O => None
  | S fuel' =>
    let continue_with (left : option ASTNode)
                      (make : option ASTNode -> option ASTNode -> ASTNode)
                      (parser : Parser) : NodeResult :=
      parser <- skip_newlines fuel' parser ;;
      if negb (at_command_start parser) then Some (left, parser) else
      '(rhs, parser) <- parse_pipeline fuel' parser ;;
      if had_error parser then ret_null parser
      else list_loop fuel' parser (Some (make left rhs)) in
    if check parser TOK_AND then
      continue_with left NodeAnd (advance parser)
    else if check parser TOK_OR then
      continue_with left NodeOr (advance parser)
    else if check parser TOK_AMP then
      continue_with (Some (NodeBackground left)) NodeSequence (advance parser)
    else if check parser TOK_SEMI || check parser TOK_NEWLINE then
      continue_with left NodeSequence (advance parser)
    else Some (left, parser)
  end.

(** The body of [parse_list]. *)
Definition parse_list_body (fuel : nat) (parser : Parser) : NodeResult :=
  parser <- skip_newlines fuel parser ;;
  if negb (at_command_start parser) then ret_null parser else
  '(lhs, parser) <- parse_pipeline fuel parser ;;
  if had_error parser then ret_null parser
  else list_loop fuel parser lhs.

End ParseFunctions.

(** [parse_list].  [fuel] bounds the nesting of compound commands; the
    loops inside one level run on a bound of their own. *)
Fixpoint parse_list (fuel : nat) (parser : Parser) : NodeResult :=
  match fuel with
  | O => None
  | S fuel' =>
    parse_list_body (parse_list fuel') (List.length (tokens parser) + 2)
      parser
  end.

(** [parse_program]. *)
Definition parse_program (fuel : nat) (parser : Parser) : NodeResult :=
  parser <- skip_newlines fuel parser ;;
  '(root, parser) <-
    (if negb (check parser TOK_EOF) then
       '(root, parser) <- parse_list fuel parser ;;
       Some (if had_error parser then None else Some root, parser)
     else Some (Some None, parser)) ;;
  match root with
  | None => ret_null parser
  | Some root =>
    parser <- skip_newlines fuel parser ;;
    if negb (check parser TOK_EOF) then
      ret_null (parser_error_at parser (cur_token parser)
                  "unexpected token after end of command")
    else Some (root, parser)
  end.

(** [parser_init]. *)
Definition parser_init (toks : TokenList) : Parser :=
  mkParser toks 0 None false.

(** [parser_parse]: no nesting is deeper than the number of tokens. *)
Definition parser_parse (parser : Parser) : NodeResult :=
  parse_program (List.length (tokens parser) + 2) parser.

(** [parser_error]. *)
Definition parser_error (parser : Parser) : option string := error parser.

(** [parse(lex(L))], as [parse_str] of the test suite chains them. *)
Definition parse_line (input : string) : option (option ASTNode * Parser) :=
  '(toks, _) <- lex_line_tokens input ;;
  parser_parse (parser_init toks).

(** *** Token lists that end with EOF *)

(** The list ends with an EOF token (the empty list reads as EOF). *)
Definition ends_with_eof (toks : TokenList) : Prop :=
  tok_type (List.last toks eof_token) = TOK_EOF.

(** Tokens left before the last one. *)
Definition remaining (parser : Parser) : nat :=
  (List.length (tokens parser) - 1 - pos parser)%nat.

(** The error message and the flag go together. *)
Definition err_inv (parser : Parser) : Prop :=
  if had_error parser
  then exists msg, error parser = Some msg /\ msg <> ""
  else error parser = None.

Lemma nth_last_index (l : TokenList) (d : Token) :
  nth (List.length l - 1) l d = List.last l d.
Proof.
  induction l as [|a l IH]; [reflexivity|].
  destruct l as [|b l]; [reflexivity|].
  change (List.last (a :: b :: l) d) with (List.last (b :: l) d).
  rewrite <- IH. simpl. now rewrite Nat.sub_0_r.
Qed.

Lemma cur_token_at_end (parser : Parser) :
  ends_with_eof (tokens parser) ->
  remaining parser = 0%nat ->
  tok_type (cur_token parser) = TOK_EOF.
Proof.
  unfold ends_with_eof, remaining, cur_token. intros Hw Hr.
  destruct (Nat.leb_spec (List.length (tokens parser)) (pos parser)).
  - now rewrite nth_last_index.
  - replace (pos parser) with (List.length (tokens parser) - 1)%nat by lia.
    now rewrite nth_last_index.
Qed.

Lemma tok_eqb_true (a b : TokenType) : tok_eqb a b = true <-> a = b.
Proof.
  unfold tok_eqb. destruct (TokenType_eq_dec a b); split; congruence.
Qed.

Lemma tok_eqb_false (a b : TokenType) : tok_eqb a b = false <-> a <> b.
Proof.
  unfold tok_eqb. destruct (TokenType_eq_dec a b); split; congruence.
Qed.

Lemma advance_tokens (parser : Parser) :
  tokens (advance parser) = tokens parser.
Proof. unfold advance. destruct (_ <? _)%nat; reflexivity. Qed.

Lemma advance_error (parser : Parser) :
  error (advance parser) = error parser
  /\ had_error (advance parser) = had_error parser.
Proof. unfold advance. destruct (_ <? _)%nat; auto. Qed.

Lemma advance_remaining_le (parser : Parser) :
  (remaining (advance parser) <= remaining parser)%nat.
Proof.
  unfold advance, remaining.
  destruct (Nat.ltb_spec (pos parser) (List.length (tokens parser)));
    simpl; lia.
Qed.

(** Consuming a token that is not EOF makes progress. *)
Lemma advance_remaining_lt (parser : Parser) :
  ends_with_eof (tokens parser) ->
  tok_type (cur_token parser) <> TOK_EOF ->
  (remaining (advance parser) < remaining parser)%nat.
Proof.
  intros Hw Hc.
  assert (Hr : remaining parser <> 0%nat).
  { intros Hr. apply Hc. now apply cur_token_at_end. }
  unfold advance, remaining in *.
  destruct (Nat.ltb_spec (pos parser) (List.length (tokens parser)));
    simpl; lia.
Qed.

Lemma check_type (parser : Parser) (t : TokenType) :
  check parser t = true -> tok_type (cur_token parser) = t.
Proof. unfold check. apply tok_eqb_true. Qed.

Lemma advance_checked (parser : Parser) (t : TokenType) :
  ends_with_eof (tokens parser) ->
  check parser t = true ->
  t <> TOK_EOF ->
  (remaining (advance parser) < remaining parser)%nat.
Proof.
  intros Hw Hc Ht. apply advance_remaining_lt; [exact Hw|].
  apply check_type in Hc. congruence.
Qed.

Lemma err_inv_advance (parser : Parser) :
  err_inv parser -> err_inv (advance parser).
Proof.
  unfold err_inv. destruct (advance_error parser) as [-> ->]. auto.
Qed.

Lemma strdup_snprintf_nonempty (c : ascii) (rest : string) :
  Ascii.eqb c NUL = false ->
  strdup (snprintf 256 (String c rest)) <> "".
Proof.
  intros Hc. unfold strdup, snprintf. simpl. rewrite Hc. discriminate.
Qed.

Lemma parser_error_at_spec (parser : Parser) (tok : Token) (msg : string) :
  err_inv parser ->
  let parser' := parser_error_at parser tok msg in
  tokens parser' = tokens parser /\ pos parser' = pos parser
  /\ had_error parser' = true /\ err_inv parser'.
Proof.
  intros Hinv. unfold parser_error_at.
  destruct (had_error parser) eqn:Hh.
  - repeat split; auto.
  - cbn [tokens pos had_error]. repeat split.
    unfold err_inv. cbn [had_error error]. eexists. split; [reflexivity|].
    destruct (tok_eqb (tok_type tok) TOK_EOF);
      apply strdup_snprintf_nonempty; reflexivity.
Qed.

Lemma remaining_same_pos (p q : Parser) :
  tokens q = tokens p -> pos q = pos p -> remaining q = remaining p.
Proof. unfold remaining. now intros -> ->. Qed.

(** *** Every parse function returns, and what it leaves behind *)

(** [q] is a state [p] can reach without touching the error state. *)
Definition quiet (p q : Parser) : Prop :=
  tokens q = tokens p /\ (remaining q <= remaining p)%nat
  /\ error q = error p /\ had_error q = had_error p.

(** [q] is a state [p] can reach. *)
Definition steps (p q : Parser) : Prop :=
  tokens q = tokens p /\ (remaining q <= remaining p)%nat /\ err_inv q.

Lemma quiet_steps (p q : Parser) : err_inv p -> quiet p q -> steps p q.
Proof.
  unfold quiet, steps, err_inv. intros Hi (Ht & Hr & He & Hh).
  rewrite He, Hh. auto.
Qed.

Lemma quiet_refl (p : Parser) : quiet p p.
Proof. unfold quiet. auto. Qed.

Lemma quiet_advance (p : Parser) : quiet p (advance p).
Proof.
  unfold quiet. destruct (advance_error p) as [He Hh].
  auto using advance_tokens, advance_remaining_le.
Qed.

Lemma skip_newlines_spec (fuel : nat) :
  forall p,
    ends_with_eof (tokens p) ->
    (remaining p < fuel)%nat ->
    exists q,
      skip_newlines fuel p = Some q /\ quiet p q
      /\ check q TOK_NEWLINE = false.
Proof.
  induction fuel as [|fuel IH]; intros p Hw Hf; [lia|].
  cbn [skip_newlines]. destruct (check p TOK_NEWLINE) eqn:Hc.
  - pose proof (advance_checked p TOK_NEWLINE Hw Hc ltac:(discriminate)) as Hlt.
    destruct (IH (advance p)) as (q & E & (Ht & Hr & He & Hh) & Hq);
      [now rewrite advance_tokens | lia |].
    exists q. split; [exact E|]. split; [|exact Hq].
    destruct (advance_error p) as [He' Hh'].
    unfold quiet. rewrite Ht, He, Hh, advance_tokens. repeat split; auto; lia.
  - exists p. auto using quiet_refl.
Qed.

Lemma expect_spec (p : Parser) (t : TokenType) :
  ends_with_eof (tokens p) ->
  err_inv p ->
  t <> TOK_EOF ->
  match expect p t with
  | (Some _, q) => quiet p q /\ (remaining q < remaining p)%nat
  | (None, q) => steps p q /\ had_error q = true
  end.
Proof.
  intros Hw Hi Ht. unfold expect. destruct (check p t) eqn:Hc.
  - split; [apply quiet_advance | now apply (advance_checked p t)].
  - destruct (parser_error_at_spec p (cur_token p)
                (snprintf 128 ("expected '" ++ token_type_str t ++ "'")) Hi)
      as (H1 & H2 & H3 & H4).
    unfold steps. rewrite (remaining_same_pos p _ H1 H2). auto.
Qed.

Lemma is_redir_not_eof (t : TokenType) : is_redir t = true -> t <> TOK_EOF.
Proof. intros H ->. discriminate. Qed.

Lemma parse_redirection_spec (p : Parser) (chain : list Redirection) :
  ends_with_eof (tokens p) ->
  err_inv p ->
  is_redir (tok_type (cur_token p)) = true ->
  let '(q, _) := parse_redirection p chain in
  steps p q /\ (remaining q < remaining p)%nat.
Proof.
  intros Hw Hi Hr. unfold parse_redirection.
  pose proof (advance_remaining_lt p Hw (is_redir_not_eof _ Hr)) as Hlt.
  pose proof (quiet_advance p) as (Ht & _ & He & Hh).
  assert (Hi' : err_inv (advance p)) by now apply err_inv_advance.
  destruct (redir_kind (cur_token p)) as [[rtype dfd]|].
  - pose proof (expect_spec (advance p) TOK_WORD) as Hx.
    rewrite Ht in Hx. specialize (Hx Hw Hi' ltac:(discriminate)).
    destruct (expect (advance p) TOK_WORD) as [[tok|] q].
    + destruct Hx as [(Ht2 & Hr2 & He2 & Hh2) Hlt2]. split; [|lia].
      unfold steps, err_inv in *. rewrite Ht2, Ht, He2, Hh2.
      repeat split; auto; lia.
    + destruct Hx as [(Ht2 & Hr2 & Hi2) _]. unfold steps.
      rewrite Ht2, Ht. repeat split; auto; lia.
  - destruct (parser_error_at_spec (advance p) (cur_token p)
                "unexpected redirection operator" Hi') as (H1 & H2 & H3 & H4).
    unfold steps. rewrite (remaining_same_pos _ _ H1 H2), H1, Ht.
    repeat split; auto; lia.
Qed.

Lemma simple_cmd_loop_spec (fuel : nat) :
  forall p args chain,
    ends_with_eof (tokens p) ->
    err_inv p ->
    (remaining p < fuel)%nat ->
    exists q args' chain',
      simple_cmd_loop fuel p args chain = Some (q, args', chain')
      /\ steps p q.
Proof.
  induction fuel as [|fuel IH]; intros p args chain Hw Hi Hf; [lia|].
  cbn [simple_cmd_loop]. destruct (had_error p) eqn:Hh.
  { eexists _, _, _. split; [reflexivity|]. unfold steps. auto. }
  destruct (is_redir (tok_type (cur_token p))) eqn:Hr.
  { pose proof (parse_redirection_spec p chain Hw Hi Hr) as Hs.
    destruct (parse_redirection p chain) as [q chain1].
    destruct Hs as [(Ht & Hr1 & Hi1) Hlt].
    destruct (IH q args chain1) as (q2 & a2 & c2 & E & (Ht2 & Hr2 & Hi2));
      [now rewrite Ht | exact Hi1 | lia |].
    exists q2, a2, c2. split; [exact E|]. unfold steps.
    rewrite Ht2, Ht. repeat split; auto; lia. }
  destruct (tok_eqb (tok_type (cur_token p)) TOK_WORD) eqn:Hwd.
  { pose proof (advance_checked p TOK_WORD Hw Hwd ltac:(discriminate)) as Hlt.
    destruct (IH (advance p) (args ++ [strdup (tok_text (cur_token p))])%list
                chain)
      as (q2 & a2 & c2 & E & (Ht2 & Hr2 & Hi2));
      [now rewrite advance_tokens | now apply err_inv_advance | lia |].
    exists q2, a2, c2. split; [exact E|]. unfold steps.
    rewrite Ht2, advance_tokens. repeat split; auto; lia. }
  eexists _, _, _. split; [reflexivity|]. unfold steps. auto.
Qed.

Section Specs.
Variable list_rec : Parser -> NodeResult.
Variable toks : TokenList.
Variable N : nat.
Hypothesis Heof : ends_with_eof toks.

(** A state of the parser over [toks] with no error recorded. *)
Definition ready (p : Parser) : Prop :=
  tokens p = toks /\ err_inv p /\ had_error p = false.

(** The call [m], started in [p], returns a value and a state that satisfy
    [Q]; the state is still over [toks] and no further from the end. *)
Definition okr {A : Type} (p : Parser) (m : option (A * Parser))
    (Q : A -> Parser -> Prop) : Prop :=
  exists a q,
    m = Some (a, q) /\ tokens q = toks /\ (remaining q <= remaining p)%nat
    /\ err_inv q /\ Q a q.

(** NULL is returned exactly when an error is recorded. *)
Definition flagged {A : Type} (r : option A) (q : Parser) : Prop :=
  match r with
  | None => had_error q = true
  | Some _ => had_error q = false
  end.

(** What [parse_list] leaves: a node and no error; or NULL and an error; or
    NULL and no error, at a token that starts no command. *)
Definition list_post (r : option ASTNode) (q : Parser) : Prop :=
  match r with
  | Some _ => had_error q = false
  | None =>
    had_error q = true
    \/ (had_error q = false /\ at_command_start q = false
        /\ check q TOK_NEWLINE = false)
  end.

Definition null_is_error (r : option ASTNode) (q : Parser) : Prop :=
  r = None -> had_error q = true.

Hypothesis Hrec :
  forall q, ready q -> (remaining q < N)%nat -> okr q (list_rec q) list_post.

Lemma ready_quiet (p q : Parser) :
  ready p -> quiet p q -> ready q /\ (remaining q <= remaining p)%nat.
Proof.
  unfold ready, quiet, err_inv. intros (Ht & Hi & Hh) (Ht2 & Hr & He & Hh2).
  rewrite Ht2, He, Hh2. auto.
Qed.

Lemma ready_advance (p : Parser) : ready p -> ready (advance p).
Proof. intros H. apply (ready_quiet p); [exact H | apply quiet_advance]. Qed.

Lemma ready_eof (p : Parser) : ready p -> ends_with_eof (tokens p).
Proof. intros (-> & _). exact Heof. Qed.

Ltac rdy :=
  unfold ready;
  repeat match goal with |- _ /\ _ => split end;
  match goal with
  | |- ends_with_eof (tokens ?p) =>
    replace (tokens p) with toks by congruence; exact Heof
  | |- _ => first [assumption | congruence | lia | discriminate | idtac]
  end.

Ltac done_ok :=
  unfold ret_null; eexists _, _; split; [reflexivity|];
  unfold flagged, null_is_error, list_post;
  repeat match goal with |- _ /\ _ => split end;
  first [assumption | congruence | lia | discriminate | tauto | idtac].

(** [advance] from a ready state. *)
Ltac adv p :=
  let T := fresh "T" in let I := fresh "I" in let H := fresh "H" in
  let L := fresh "L" in
  assert (ready (advance p)) as (T & I & H) by (apply ready_advance; rdy);
  pose proof (advance_remaining_le p) as L.

(** [advance] past a token just checked. *)
Ltac adv_lt p t Hc :=
  adv p;
  let L := fresh "L" in
  assert (L : (remaining (advance p) < remaining p)%nat)
    by (apply (advance_checked p t); [rdy | exact Hc | discriminate]).

(** Run [skip_newlines fuel p] at the head of the goal; [q] names the state
    it returns. *)
Ltac skipnl fuel p q :=
  let E := fresh "E" in let Hq := fresh "Hq" in let Hc := fresh "Hnl" in
  let T := fresh "T" in let I := fresh "I" in let H := fresh "H" in
  let L := fresh "L" in
  destruct (skip_newlines_spec fuel p) as (q & E & Hq & Hc); [rdy | rdy |];
  rewrite E; clear E; cbn [bind];
  destruct (ready_quiet p q ltac:(rdy) Hq) as [(T & I & H) L]; clear Hq.

(** Case analysis on [expect p t] at the head of the goal. *)
Ltac expecting p t q :=
  let Hx := fresh "Hx" in let tok := fresh "tok" in
  let T := fresh "T" in let I := fresh "I" in let H := fresh "H" in
  let L := fresh "L" in let L' := fresh "L" in
  pose proof (expect_spec p t ltac:(rdy) ltac:(rdy) ltac:(rdy)) as Hx;
  destruct (expect p t) as [[tok|] q];
  [ destruct Hx as [Hx L'];
    destruct (ready_quiet p q ltac:(rdy) Hx) as [(T & I & H) L]
  | destruct Hx as [(T & L & I) H] ].

(** Use the specification [lem] of the call at the head of the goal. *)
Ltac call lem r q :=
  let E := fresh "E" in let T := fresh "T" in let L := fresh "L" in
  let I := fresh "I" in let Q := fresh "Q" in
  destruct lem as (r & q & E & T & L & I & Q); [rdy..|];
  rewrite E; clear E; cbn [bind].

Lemma parse_body_ok (fuel : nat) (p : Parser) :
  ready p -> (S (remaining p) < fuel)%nat -> (remaining p < N)%nat ->
  okr p (parse_body list_rec fuel p) flagged.
Proof.
  intros (Tp & Ip & Hp) Hf HN. unfold parse_body.
  skipnl fuel p p1.
  call (Hrec p1) body p2.
  destruct (had_error p2) eqn:Hh2; [done_ok|].
  skipnl fuel p2 p3. done_ok.
Qed.

Lemma parse_clause_ok (fuel : nat) (p : Parser) :
  ready p -> (S (remaining p) < fuel)%nat -> (remaining p < N)%nat ->
  okr p (parse_clause list_rec fuel p) flagged.
Proof.
  intros (Tp & Ip & Hp) Hf HN. unfold parse_clause.
  call (parse_body_ok fuel p) cond p1.
  destruct cond as [cond|]; unfold flagged in Q; [|done_ok].
  expecting p1 TOK_THEN p2; [|done_ok].
  call (parse_body_ok fuel p2) body p3.
  destruct body as [body|]; unfold flagged in Q0; done_ok.
Qed.

Lemma parse_else_ok (fuel : nat) (p : Parser) :
  ready p -> (S (remaining p) < fuel)%nat -> (remaining p < N)%nat ->
  okr p (parse_else list_rec fuel p) flagged.
Proof.
  intros (Tp & Ip & Hp) Hf HN. unfold parse_else.
  destruct (check p TOK_ELSE) eqn:Hc; [|done_ok].
  adv p. call (parse_body_ok fuel (advance p)) body p1.
  destruct body; unfold flagged in Q; done_ok.
Qed.

Lemma parse_elif_chain_ok (fuel : nat) :
  forall p,
    ready p -> (S (remaining p) < fuel)%nat -> (remaining p < N)%nat ->
    okr p (parse_elif_chain list_rec fuel p) flagged.
Proof.
  induction fuel as [|fuel IH]; intros p (Tp & Ip & Hp) Hf HN; [lia|].
  cbn [parse_elif_chain].
  destruct (check p TOK_ELIF) eqn:Hc.
  - adv_lt p TOK_ELIF Hc.
    call (parse_clause_ok fuel (advance p)) clause p1.
    destruct clause as [[cond body]|]; unfold flagged in Q; [|done_ok].
    call (IH p1) rest p2.
    destruct rest; unfold flagged in Q0; done_ok.
  - destruct (parse_else_ok (S fuel) p) as (r & q & E & T & L & I & Q);
      [rdy..|].
    rewrite E. done_ok.
Qed.

Lemma parse_if_ok (fuel : nat) (p : Parser) :
  ready p -> (S (remaining p) < fuel)%nat -> (remaining p < N)%nat ->
  okr p (parse_if list_rec fuel p) flagged.
Proof.
  intros (Tp & Ip & Hp) Hf HN. unfold parse_if.
  call (parse_clause_ok fuel p) clause p1.
  destruct clause as [[cond body]|]; unfold flagged in Q; [|done_ok].
  assert (Hrest :
    okr p1
      (if check p1 TOK_ELIF then
         '(clause2, parser) <- parse_clause list_rec fuel (advance p1) ;;
         match clause2 with
         | None => Some (None, parser)
         | Some (condition2, then_body2) =>
           '(rest2, parser) <-
             (if check parser TOK_ELIF then
                '(clause3, parser) <-
                  parse_clause list_rec fuel (advance parser) ;;
                match clause3 with
                | None => Some (None, parser)
                | Some (condition3, then_body3) =>
                  '(rest3, parser) <- parse_elif_chain list_rec fuel parser ;;
                  match rest3 with
                  | None => Some (None, parser)
                  | Some else3 =>
                    Some (Some (Some (NodeIf condition3 then_body3 else3)),
                          parser)
                  end
                end
              else parse_else list_rec fuel parser) ;;
           match rest2 with
           | None => Some (None, parser)
           | Some else2 =>
             Some (Some (Some (NodeIf condition2 then_body2 else2)), parser)
           end
         end
       else parse_else list_rec fuel p1) flagged).
  { destruct (check p1 TOK_ELIF) eqn:Hc1; [|apply parse_else_ok; rdy].
    adv_lt p1 TOK_ELIF Hc1.
    call (parse_clause_ok fuel (advance p1)) clause2 p2.
    destruct clause2 as [[cond2 body2]|]; unfold flagged in Q0; [|done_ok].
    destruct (check p2 TOK_ELIF) eqn:Hc2.
    - adv_lt p2 TOK_ELIF Hc2.
      call (parse_clause_ok fuel (advance p2)) clause3 p3.
      destruct clause3 as [[cond3 body3]|]; unfold flagged in Q1;
        [|cbn [bind]; done_ok].
      call (parse_elif_chain_ok fuel p3) rest3 p4.
      destruct rest3; unfold flagged in Q2; cbn [bind]; done_ok.
    - call (parse_else_ok fuel p2) rest2 p3.
      destruct rest2; unfold flagged in Q1; done_ok. }
  call Hrest rest p2.
  destruct rest as [else_body|]; unfold flagged in Q0; [|done_ok].
  expecting p2 TOK_FI p3; done_ok.
Qed.

Lemma parse_while_ok (fuel : nat) (p : Parser) :
  ready p -> (S (remaining p) < fuel)%nat -> (remaining p < N)%nat ->
  okr p (parse_while list_rec fuel p) flagged.
Proof.
  intros (Tp & Ip & Hp) Hf HN. unfold parse_while.
  call (parse_body_ok fuel p) cond p1.
  destruct cond as [cond|]; unfold flagged in Q; [|done_ok].
  expecting p1 TOK_DO p2; [|done_ok].
  call (parse_body_ok fuel p2) body p3.
  destruct body as [body|]; unfold flagged in Q0; [|done_ok].
  expecting p3 TOK_DONE p4; done_ok.
Qed.

Lemma for_words_loop_spec (fuel : nat) :
  forall p words,
    ends_with_eof (tokens p) ->
    (remaining p < fuel)%nat ->
    exists q words',
      for_words_loop fuel p words = Some (q, words') /\ quiet p q.
Proof.
  induction fuel as [|fuel IH]; intros p words Hw Hf; [lia|].
  cbn [for_words_loop]. destruct (check p TOK_WORD) eqn:Hc.
  - pose proof (advance_checked p TOK_WORD Hw Hc ltac:(discriminate)) as Hlt.
    destruct (IH (advance p)
                (words ++ [strdup (tok_text (cur_token p))])%list)
      as (q & w & E & (Ht & Hr & He & Hh));
      [now rewrite advance_tokens | lia |].
    exists q, w. split; [exact E|].
    destruct (advance_error p) as [He' Hh'].
    unfold quiet. rewrite Ht, He, Hh, advance_tokens. repeat split; auto; lia.
  - exists p, words. auto using quiet_refl.
Qed.

Lemma parse_for_ok (fuel : nat) (p : Parser) :
  ready p -> (S (remaining p) < fuel)%nat -> (remaining p < N)%nat ->
  okr p (parse_for list_rec fuel p) flagged.
Proof.
  intros (Tp & Ip & Hp) Hf HN. unfold parse_for.
  skipnl fuel p p1.
  expecting p1 TOK_WORD p2; [|done_ok].
  skipnl fuel p2 p3.
  assert (Hwords : exists q words,
    (if check p3 TOK_IN then
       '(parser, words) <- for_words_loop fuel (advance p3) [] ;;
       Some (if check parser TOK_SEMI || check parser TOK_NEWLINE
             then advance parser else parser, words)
     else Some (p3, [])) = Some (q, words) /\ quiet p3 q).
  { destruct (check p3 TOK_IN) eqn:Hc; [|eauto using quiet_refl].
    destruct (for_words_loop_spec fuel (advance p3) [])
      as (q & w & E & Hq); [rewrite advance_tokens; rdy | |].
    { pose proof (advance_remaining_le p3). lia. }
    rewrite E. cbn [bind]. eexists _, _. split; [reflexivity|].
    pose proof (quiet_advance p3) as (A1 & A2 & A3 & A4).
    pose proof (quiet_advance q) as (B1 & B2 & B3 & B4).
    destruct Hq as (C1 & C2 & C3 & C4).
    destruct (check q TOK_SEMI || check q TOK_NEWLINE); unfold quiet;
      repeat split; try congruence; lia. }
  destruct Hwords as (p4 & words & E4 & Hq4). rewrite E4. cbn [bind].
  destruct (ready_quiet p3 p4 ltac:(rdy) Hq4) as [(T4 & I4 & H4) L4].
  skipnl fuel p4 p5.
  expecting p5 TOK_DO p6; [|done_ok].
  call (parse_body_ok fuel p6) body p7.
  destruct body as [body|]; unfold flagged in Q; [|done_ok].
  expecting p7 TOK_DONE p8; done_ok.
Qed.

Lemma parse_braced_ok (fuel : nat) (p : Parser) (close : TokenType) :
  ready p -> (S (remaining p) < fuel)%nat -> (remaining p < N)%nat ->
  close <> TOK_EOF ->
  okr p (parse_braced list_rec fuel p close) flagged.
Proof.
  intros (Tp & Ip & Hp) Hf HN Hcl. unfold parse_braced.
  call (parse_body_ok fuel p) body p1.
  destruct body as [body|]; unfold flagged in Q; [|done_ok].
  expecting p1 close p2; done_ok.
Qed.

Lemma parse_function_body_ok (fuel : nat) (p : Parser) (name : string) :
  ready p -> (S (remaining p) < fuel)%nat -> (remaining p < N)%nat ->
  okr p (parse_function_body list_rec fuel p name) flagged.
Proof.
  intros (Tp & Ip & Hp) Hf HN. unfold parse_function_body.
  skipnl fuel p p1.
  expecting p1 TOK_LBRACE p2; [|done_ok].
  call (parse_braced_ok fuel p2 TOK_RBRACE) body p3.
  destruct body as [body|]; unfold flagged in Q; done_ok.
Qed.

Lemma parse_function_ok (fuel : nat) (p : Parser) :
  ready p -> (S (remaining p) < fuel)%nat -> (remaining p < N)%nat ->
  okr p (parse_function list_rec fuel p) flagged.
Proof.
  intros (Tp & Ip & Hp) Hf HN. unfold parse_function.
  expecting p TOK_WORD p1; [|done_ok].
  destruct (check p1 TOK_LPAREN) eqn:Hc.
  - adv p1. expecting (advance p1) TOK_RPAREN p2; [|done_ok].
    destruct (parse_function_body_ok fuel p2 (tok_text tok))
      as (r & q & Eb & T' & L' & I' & Q); [rdy..|].
    rewrite Eb. done_ok.
  - destruct (parse_function_body_ok fuel p1 (tok_text tok))
      as (r & q & Eb & T' & L' & I' & Q); [rdy..|].
    rewrite Eb. done_ok.
Qed.

Lemma parse_simple_cmd_ok (fuel : nat) (p : Parser) :
  ready p -> (S (remaining p) < fuel)%nat ->
  okr p (parse_simple_cmd fuel p) null_is_error.
Proof.
  intros (Tp & Ip & Hp) Hf. unfold parse_simple_cmd.
  destruct (simple_cmd_loop_spec fuel p [] [])
    as (q & args & chain & El & (T & L & I)); [rdy..|].
  rewrite El. cbn [bind].
  destruct (parser_error_at_spec q (cur_token q) "expected a command" I)
    as (H1 & H2 & H3 & H4).
  pose proof (remaining_same_pos q _ H1 H2) as Hr.
  destruct args as [|a args]; [destruct chain as [|c chain]|]; done_ok.
Qed.

Lemma okr_from {A : Type} (p p1 : Parser) (m : option (A * Parser))
    (Q Q' : A -> Parser -> Prop) :
  (remaining p1 <= remaining p)%nat ->
  (forall a q, Q a q -> Q' a q) ->
  okr p1 m Q -> okr p m Q'.
Proof.
  intros Hle HQ (a & q & E & T & L & I & H).
  exists a, q. repeat split; auto. lia.
Qed.

Lemma flagged_null_is_error (r : option ASTNode) (q : Parser) :
  flagged r q -> null_is_error r q.
Proof. unfold flagged, null_is_error. destruct r; congruence. Qed.

Lemma parse_command_ok (fuel : nat) (p : Parser) :
  ready p -> (S (remaining p) < fuel)%nat -> (remaining p <= N)%nat ->
  okr p (parse_command list_rec fuel p) null_is_error.
Proof.
  intros (Tp & Ip & Hp) Hf HN. unfold parse_command.
  assert (Hlt : tok_type (cur_token p) <> TOK_EOF ->
                (remaining (advance p) < remaining p)%nat).
  { apply advance_remaining_lt. rdy. }
  adv p.
  destruct (tok_type (cur_token p)) eqn:Hty; cbn [is_redir tok_eqb orb];
    try (specialize (Hlt ltac:(discriminate)));
    try (apply parse_simple_cmd_ok; rdy);
    try (destruct (parser_error_at_spec p (cur_token p) "unexpected token" Ip)
           as (H1 & H2 & H3 & H4);
         pose proof (remaining_same_pos p _ H1 H2); done_ok).
  - (* WORD *)
    destruct ((pos p + 2 <? List.length (tokens p))%nat
              && tok_eqb (tok_type (nth (pos p + 1) (tokens p) eof_token))
                   TOK_LPAREN
              && tok_eqb (tok_type (nth (pos p + 2) (tokens p) eof_token))
                   TOK_RPAREN);
      [|apply parse_simple_cmd_ok; rdy].
    adv (advance p). adv (advance (advance p)).
    apply (okr_from p (advance (advance (advance p))) _ flagged);
      [lia | apply flagged_null_is_error|].
    apply parse_function_body_ok; rdy.
  - (* LPAREN *)
    call (parse_braced_ok fuel (advance p) TOK_RPAREN) body p1.
    destruct body; unfold flagged in Q; done_ok.
  - (* IF *)
    apply (okr_from p (advance p) _ flagged);
      [lia | apply flagged_null_is_error | apply parse_if_ok; rdy].
  - (* WHILE *)
    apply (okr_from p (advance p) _ flagged);
      [lia | apply flagged_null_is_error | apply parse_while_ok; rdy].
  - (* FOR *)
    apply (okr_from p (advance p) _ flagged);
      [lia | apply flagged_null_is_error | apply parse_for_ok; rdy].
  - (* FUNCTION *)
    apply (okr_from p (advance p) _ flagged);
      [lia | apply flagged_null_is_error | apply parse_function_ok; rdy].
  - (* LBRACE *)
    call (parse_braced_ok fuel (advance p) TOK_RBRACE) body p1.
    destruct body; unfold flagged in Q; done_ok.
Qed.

Lemma pipeline_loop_ok (fuel : nat) :
  forall p cmds negated,
    ready p -> (S (remaining p) < fuel)%nat -> (remaining p <= N)%nat ->
    okr p (pipeline_loop list_rec fuel p cmds negated) flagged.
Proof.
  induction fuel as [|fuel IH]; intros p cmds negated (Tp & Ip & Hp) Hf HN;
    [lia|].
  cbn [pipeline_loop]. destruct (check p TOK_PIPE) eqn:Hc; [|done_ok].
  adv_lt p TOK_PIPE Hc.
  skipnl fuel (advance p) p1.
  call (parse_command_ok fuel p1) cmd p2.
  destruct (had_error p2) eqn:Hh2; [done_ok|].
  destruct (IH p2 (cmds ++ [cmd])%list negated)
    as (r & q & Er & Tq & Lq & Iq & Qq); [rdy..|].
  rewrite Er. done_ok.
Qed.

Lemma parse_pipeline_ok (fuel : nat) (p : Parser) :
  ready p -> (S (remaining p) < fuel)%nat -> (remaining p <= N)%nat ->
  okr p (parse_pipeline list_rec fuel p) flagged.
Proof.
  intros (Tp & Ip & Hp) Hf HN. unfold parse_pipeline.
  adv p.
  assert (Hstart : exists p0,
    (if check p TOK_BANG then advance p else p) = p0
    /\ ready p0 /\ (remaining p0 <= remaining p)%nat).
  { destruct (check p TOK_BANG); eexists; (split; [reflexivity|]); split;
      rdy. }
  destruct Hstart as (p0 & -> & (T0 & I0 & H0) & L0).
  call (parse_command_ok fuel p0) cmd1 p1.
  destruct (had_error p1) eqn:Hh1; [done_ok|].
  destruct (negb (check p1 TOK_PIPE) && negb (check p TOK_BANG)).
  - destruct cmd1 as [cmd1|]; [done_ok|].
    unfold null_is_error in Q. specialize (Q eq_refl). congruence.
  - destruct (pipeline_loop_ok fuel p1 [cmd1] (check p TOK_BANG))
      as (r & q & Er & Tq & Lq & Iq & Qq); [rdy..|].
    rewrite Er. done_ok.
Qed.

Lemma list_loop_ok (fuel : nat) :
  forall p lhs,
    ready p -> (S (remaining p) < fuel)%nat -> (remaining p <= N)%nat ->
    okr p (list_loop list_rec fuel p (Some lhs)) flagged.
Proof.
  induction fuel as [|fuel IH]; intros p lhs (Tp & Ip & Hp) Hf HN; [lia|].
  cbn [list_loop].
  assert (Hcont : forall lhs' make,
    (remaining (advance p) < remaining p)%nat ->
    okr p
      (parser <- skip_newlines fuel (advance p) ;;
       if negb (at_command_start parser) then Some (Some lhs', parser) else
       '(rhs, parser) <- parse_pipeline list_rec fuel parser ;;
       if had_error parser then ret_null parser
       else list_loop list_rec fuel parser (Some (make (Some lhs') rhs)))
      flagged).
  { intros lhs' make Hlt. adv p.
    skipnl fuel (advance p) p1.
    destruct (negb (at_command_start p1)); [done_ok|].
    call (parse_pipeline_ok fuel p1) rhs p2.
    destruct (had_error p2) eqn:Hh2; [done_ok|].
    destruct (IH p2 (make (Some lhs') rhs))
      as (r & q & Er & Tq & Lq & Iq & Qq); [rdy..|].
    rewrite Er. done_ok. }
  destruct (check p TOK_AND) eqn:Hand.
  { apply Hcont. apply (advance_checked p TOK_AND); [rdy | auto | discriminate]. }
  destruct (check p TOK_OR) eqn:Hor.
  { apply Hcont. apply (advance_checked p TOK_OR); [rdy | auto | discriminate]. }
  destruct (check p TOK_AMP) eqn:Hamp.
  { apply (Hcont (NodeBackground (Some lhs)) NodeSequence).
    apply (advance_checked p TOK_AMP); [rdy | auto | discriminate]. }
  destruct (check p TOK_SEMI) eqn:Hsemi.
  { apply Hcont.
    apply (advance_checked p TOK_SEMI); [rdy | auto | discriminate]. }
  destruct (check p TOK_NEWLINE) eqn:Hnl.
  { apply Hcont.
    apply (advance_checked p TOK_NEWLINE); [rdy | auto | discriminate]. }
  cbn [orb]. done_ok.
Qed.

Lemma parse_list_body_ok (fuel : nat) (p : Parser) :
  ready p -> (S (remaining p) < fuel)%nat -> (remaining p <= N)%nat ->
  okr p (parse_list_body list_rec fuel p) list_post.
Proof.
  intros (Tp & Ip & Hp) Hf HN. unfold parse_list_body.
  skipnl fuel p p1.
  destruct (at_command_start p1) eqn:Hs; cbn [negb]; [|done_ok].
  call (parse_pipeline_ok fuel p1) lhs p2.
  destruct (had_error p2) eqn:Hh2; [done_ok|].
  destruct lhs as [lhs|]; [|unfold flagged in Q; congruence].
  destruct (list_loop_ok fuel p2 lhs) as (r & q & Er & Tq & Lq & Iq & Qq);
    [rdy..|].
  rewrite Er. unfold flagged in Qq. destruct r; done_ok.
Qed.

Lemma skip_newlines_noop (fuel : nat) (p : Parser) :
  check p TOK_NEWLINE = false -> skip_newlines (S fuel) p = Some p.
Proof. intros H. cbn [skip_newlines]. now rewrite H. Qed.

(** When a command starts at [p], the third outcome of [parse_list] is
    excluded. *)
Lemma parse_list_body_started (fuel : nat) (p : Parser) :
  ready p -> (S (remaining p) < fuel)%nat -> (remaining p <= N)%nat ->
  check p TOK_NEWLINE = false ->
  at_command_start p = true ->
  okr p (parse_list_body list_rec fuel p) flagged.
Proof.
  intros (Tp & Ip & Hp) Hf HN Hnl Hs. unfold parse_list_body.
  destruct fuel as [|fuel]; [lia|].
  rewrite (skip_newlines_noop fuel p Hnl). cbn [bind]. rewrite Hs. cbn [negb].
  call (parse_pipeline_ok (S fuel) p) lhs p2.
  destruct (had_error p2) eqn:Hh2; [done_ok|].
  destruct lhs as [lhs|]; [|unfold flagged in Q; congruence].
  destruct (list_loop_ok (S fuel) p2 lhs)
    as (r & q & Er & Tq & Lq & Iq & Qq); [rdy..|].
  rewrite Er. done_ok.
Qed.

End Specs.

Lemma remaining_bound (p : Parser) :
  (S (remaining p) < List.length (tokens p) + 2)%nat.
Proof. unfold remaining. lia. Qed.

Lemma parse_list_ok (toks : TokenList) (fuel : nat) :
  ends_with_eof toks ->
  forall p,
    ready toks p -> (remaining p < fuel)%nat ->
    okr toks p (parse_list fuel p) list_post.
Proof.
  intros Heof. induction fuel as [|fuel IH]; intros p Hp Hf; [lia|].
  cbn [parse_list].
  apply (parse_list_body_ok (parse_list fuel) toks (remaining p) Heof).
  - intros q Hq Hlt. apply IH; [exact Hq | lia].
  - exact Hp.
  - apply remaining_bound.
  - lia.
Qed.

Lemma parse_list_started (toks : TokenList) (fuel : nat) (p : Parser) :
  ends_with_eof toks ->
  ready toks p -> (remaining p < fuel)%nat ->
  check p TOK_NEWLINE = false ->
  at_command_start p = true ->
  okr toks p (parse_list fuel p) flagged.
Proof.
  intros Heof Hp Hf Hnl Hs. destruct fuel as [|fuel]; [lia|].
  cbn [parse_list].
  apply (parse_list_body_started (parse_list fuel) toks (remaining p) Heof);
    auto using remaining_bound.
  intros q Hq Hlt. apply parse_list_ok; [exact Heof | exact Hq | lia].
Qed.

(** A token list that holds no command: newlines, then EOF. *)
Fixpoint blank_tokens (toks : TokenList) : bool :=
  match toks with
  | [] => true
  | t :: more =>
    if tok_eqb (tok_type t) TOK_NEWLINE then blank_tokens more
    else tok_eqb (tok_type t) TOK_EOF
  end.

Lemma skipn_nth (l : TokenList) (d : Token) :
  forall n, (n < List.length l)%nat -> skipn n l = nth n l d :: skipn (S n) l.
Proof.
  induction l as [|a l IH]; intros n Hn; simpl in Hn; [lia|].
  destruct n as [|n]; [reflexivity|].
  cbn [skipn nth]. apply IH. lia.
Qed.

Lemma skip_newlines_blank (fuel : nat) :
  forall p q,
    ends_with_eof (tokens p) ->
    skip_newlines fuel p = Some q ->
    check q TOK_EOF = blank_tokens (skipn (pos p) (tokens p)).
Proof.
  induction fuel as [|fuel IH]; intros p q Hw; cbn [skip_newlines];
    [discriminate|].
  destruct (check p TOK_NEWLINE) eqn:Hc.
  - intros Hs.
    pose proof (advance_checked p TOK_NEWLINE Hw Hc ltac:(discriminate)) as Hlt.
    assert (Hpos : (pos p < List.length (tokens p))%nat)
      by (unfold remaining, advance in Hlt;
          destruct (Nat.ltb_spec (pos p) (List.length (tokens p)));
          simpl in Hlt; lia).
    rewrite (IH (advance p) q) by (rewrite ?advance_tokens; auto).
    rewrite (skipn_nth (tokens p) eof_token (pos p) Hpos).
    cbn [blank_tokens].
    assert (Hcur : cur_token p = nth (pos p) (tokens p) eof_token).
    { unfold cur_token.
      destruct (Nat.leb_spec (List.length (tokens p)) (pos p)); [lia|auto]. }
    unfold check in Hc. rewrite Hcur in Hc. rewrite Hc.
    unfold advance. apply Nat.ltb_lt in Hpos. rewrite Hpos. reflexivity.
  - intros Hs. injection Hs as <-.
    destruct (Nat.ltb_spec (pos p) (List.length (tokens p))) as [Hpos|Hpos].
    + rewrite (skipn_nth (tokens p) eof_token (pos p) Hpos).
      cbn [blank_tokens].
      assert (Hcur : cur_token p = nth (pos p) (tokens p) eof_token).
      { unfold cur_token.
        destruct (Nat.leb_spec (List.length (tokens p)) (pos p)); [lia|auto]. }
      unfold check in *. rewrite Hcur in *. now rewrite Hc.
    + rewrite skipn_all2 by lia. cbn [blank_tokens].
      unfold check. apply tok_eqb_true. apply cur_token_at_end; [exact Hw|].
      unfold remaining. lia.
Qed.

(** The three outcomes of [parser_parse] on a token list that ends with EOF:
    a tree and no error; no tree and a non-empty error message; or neither,
    which happens exactly on a list that holds no command. *)
Lemma parser_parse_outcomes (toks : TokenList) :
  ends_with_eof toks ->
  exists root q,
    parser_parse (parser_init toks) = Some (root, q)
    /\ ((exists node, root = Some node /\ had_error q = false
                      /\ parser_error q = None
                      /\ blank_tokens toks = false)
        \/ (root = None /\ had_error q = true
            /\ (exists msg, parser_error q = Some msg /\ msg <> "")
            /\ blank_tokens toks = false)
        \/ (root = None /\ had_error q = false /\ parser_error q = None
            /\ blank_tokens toks = true)).
Proof.
  intros Heof. unfold parser_parse, parse_program, parser_error.
  set (p0 := parser_init toks).
  set (fuel := (List.length (tokens p0) + 2)%nat).
  assert (Hp0 : ready toks p0) by (repeat split).
  assert (Hf0 : (S (remaining p0) < fuel)%nat) by apply remaining_bound.
  destruct (skip_newlines_spec fuel p0) as (p1 & E1 & Hq1 & Hnl1);
    [exact Heof | lia |].
  pose proof (skip_newlines_blank fuel p0 p1 Heof E1) as Hblank.
  change (skipn (pos p0) (tokens p0)) with toks in Hblank.
  rewrite E1. cbn [bind].
  destruct (ready_quiet toks p0 p1 Hp0 Hq1) as [(T1 & I1 & H1) L1].
  assert (Hnoop : forall p, check p TOK_NEWLINE = false ->
                            skip_newlines fuel p = Some p).
  { intros p Hc. unfold fuel. rewrite Nat.add_comm. apply skip_newlines_noop, Hc. }
  assert (Hfail : forall p,
    tokens p = toks -> err_inv p ->
    let q := parser_error_at p (cur_token p)
               "unexpected token after end of command" in
    had_error q = true /\ exists msg, error q = Some msg /\ msg <> "").
  { intros p Tp Ip q.
    destruct (parser_error_at_spec p (cur_token p)
                "unexpected token after end of command" Ip)
      as (_ & _ & Hh & Hi).
    split; [exact Hh|]. unfold err_inv in Hi. fold q in Hi, Hh.
    now rewrite Hh in Hi. }
  destruct (check p1 TOK_EOF) eqn:Heof1; cbn [negb bind].
  { (* nothing but newlines before EOF *)
    rewrite (Hnoop p1 Hnl1). cbn [bind]. rewrite Heof1. cbn [negb].
    eexists _, _. split; [reflexivity|]. right. right.
    unfold err_inv in I1. rewrite H1 in I1. auto. }
  destruct (at_command_start p1) eqn:Hs1.
  - destruct (parse_list_started toks fuel p1 Heof)
      as (root & p2 & E2 & T2 & L2 & I2 & Q2); [repeat split; auto | lia | auto..|].
    rewrite E2. cbn [bind].
    destruct root as [node|]; unfold flagged in Q2; rewrite Q2; cbn [bind].
    + destruct (skip_newlines_spec fuel p2) as (p3 & E3 & Hq3 & Hnl3);
        [now rewrite T2 | lia |].
      rewrite E3. cbn [bind].
      destruct (ready_quiet toks p2 p3 ltac:(repeat split; auto) Hq3)
        as [(T3 & I3 & H3) L3].
      destruct (check p3 TOK_EOF); cbn [negb].
      * eexists _, _. split; [reflexivity|]. left. exists node.
        unfold err_inv in I3. rewrite H3 in I3. auto.
      * eexists _, _. split; [reflexivity|]. right. left.
        destruct (Hfail p3 T3 I3) as [Hh Hm]. auto.
    + eexists _, _. split; [reflexivity|]. right. left.
      unfold err_inv in I2. rewrite Q2 in I2. auto.
  - (* a token that starts no command *)
    assert (E2 : parse_list fuel p1 = Some (None, p1)).
    { unfold fuel. rewrite Nat.add_comm. cbn [Nat.add parse_list].
      unfold parse_list_body.
      replace (List.length (tokens p1) + 2)%nat
        with (S (S (List.length (tokens p1)))) by lia.
      rewrite (skip_newlines_noop _ p1 Hnl1). cbn [bind].
      now rewrite Hs1. }
    rewrite E2. cbn [bind]. rewrite H1. cbn [bind].
    rewrite (Hnoop p1 Hnl1). cbn [bind]. rewrite Heof1. cbn [negb].
    eexists _, _. split; [reflexivity|]. right. left.
    destruct (Hfail p1 T1 I1) as [Hh Hm]. auto.
Qed.

Lemma lexed_without_error_ends_with_eof (L : string) (toks : TokenList)
    (lex' : Lexer) :
  lex_line_tokens L = Some (toks, lex') ->
  lex_error_msg lex' = None ->
  ends_with_eof toks.
Proof.
  intros Hlex Herr.
  destruct (lex_line_tokens_last L toks lex' Hlex Herr) as (pre & tok & -> & E).
  unfold ends_with_eof. now rewrite last_last.
Qed.

(** C7, as the code has it.  For the token list of any line the lexer
    accepts, [parser_parse] returns, with one of three outcomes: an AST and
    no error; no AST and a non-empty error message; or no AST and no error.
    The third outcome occurs exactly when the list holds no command (only
    newlines before EOF), as for an empty line. *)
Theorem parse_yields_ast_or_error_or_nothing :
  forall (L : string) (toks : TokenList) (lex' : Lexer),
    lex_line_tokens L = Some (toks, lex') ->
    lex_error_msg lex' = None ->
    exists root q,
      parser_parse (parser_init toks) = Some (root, q)
      /\ ((exists node, root = Some node /\ had_error q = false
                        /\ parser_error q = None
                        /\ blank_tokens toks = false)
          \/ (root = None /\ had_error q = true
              /\ (exists msg, parser_error q = Some msg /\ msg <> "")
              /\ blank_tokens toks = false)
          \/ (root = None /\ had_error q = false /\ parser_error q = None
              /\ blank_tokens toks = true)).
Proof.
  intros L toks lex' Hlex Herr. apply parser_parse_outcomes.
  exact (lexed_without_error_ends_with_eof L toks lex' Hlex Herr).
Qed.

(** C7, witness: the line [ls -la /tmp]. *)
Lemma parse_yields_ast_or_error_or_nothing_witness :
  exists toks lex',
    lex_line_tokens "ls -la /tmp" = Some (toks, lex')
    /\ lex_error_msg lex' = None
    /\ exists root q,
      parser_parse (parser_init toks) = Some (root, q)
      /\ ((exists node, root = Some node /\ had_error q = false
                        /\ parser_error q = None
                        /\ blank_tokens toks = false)
          \/ (root = None /\ had_error q = true
              /\ (exists msg, parser_error q = Some msg /\ msg <> "")
              /\ blank_tokens toks = false)
          \/ (root = None /\ had_error q = false /\ parser_error q = None
              /\ blank_tokens toks = true)).
Proof.
  eexists _, _. split; [vm_compute; reflexivity|]. split; [reflexivity|].
  eapply (parse_yields_ast_or_error_or_nothing "ls -la /tmp");
    [vm_compute; reflexivity | reflexivity].
Defined.

(** C7, counterexample.  The empty line lexes to EOF alone; parsing that
    list yields no AST and records no error. *)
Lemma parse_empty_line_yields_neither_ast_nor_error :
  exists lex' q,
    lex_line_tokens "" = Some ([make_token TOK_EOF None 1 1], lex')
    /\ lex_error_msg lex' = None
    /\ parser_parse (parser_init [make_token TOK_EOF None 1 1])
       = Some (None, q)
    /\ had_error q = false
    /\ parser_error q = None.
Proof.
  eexists _, _. split; [vm_compute; reflexivity|].
  split; [reflexivity|]. split; [vm_compute; reflexivity|].
  split; reflexivity.
Qed.

(** *** The redirection chain of a simple command *)

(** The redirection a redirection operator and its target word stand for. *)
Definition redirection_of (op target : Token) (rtype : RedirType)
    (default_fd : Z) : Redirection :=
  mkRedir rtype
    (if 0 <=? tok_redir_fd op then tok_redir_fd op else default_fd)
    (strdup (tok_text target)).

(** Following the words of the specification: the redirections of the simple
    command that starts the token list, in their order of appearance (first
    written first).  Words are arguments; an operator takes the word after
    it as its target; any other token ends the command. *)
Fixpoint redirs_in_order (toks : TokenList) : list Redirection :=
  match toks with
  | [] => []
  | t :: more =>
    if tok_eqb (tok_type t) TOK_WORD then redirs_in_order more
    else
      match redir_kind t, more with
      | Some (rtype, default_fd), target :: more' =>
        if tok_eqb (tok_type target) TOK_WORD
        then redirection_of t target rtype default_fd :: redirs_in_order more'
        else []
      | _, _ => []
      end
  end.

Lemma not_eof_in_range (p : Parser) :
  ends_with_eof (tokens p) ->
  tok_type (cur_token p) <> TOK_EOF ->
  (S (pos p) < List.length (tokens p))%nat.
Proof.
  intros Hw Hc.
  assert (Hr : remaining p <> 0%nat)
    by (intros Hr; apply Hc; now apply cur_token_at_end).
  unfold remaining in Hr. lia.
Qed.

Lemma cur_token_nth (p : Parser) :
  (pos p < List.length (tokens p))%nat ->
  cur_token p = nth (pos p) (tokens p) eof_token.
Proof.
  intros H. unfold cur_token.
  destruct (Nat.leb_spec (List.length (tokens p)) (pos p)); [lia | reflexivity].
Qed.

Lemma skipn_cur_token (p : Parser) :
  (pos p < List.length (tokens p))%nat ->
  skipn (pos p) (tokens p) = cur_token p :: skipn (S (pos p)) (tokens p).
Proof.
  intros H. rewrite (cur_token_nth p H). now apply skipn_nth.
Qed.

Lemma advance_pos (p : Parser) :
  (pos p < List.length (tokens p))%nat ->
  advance p = mkParser (tokens p) (S (pos p)) (error p) (had_error p).
Proof. intros H. unfold advance. apply Nat.ltb_lt in H. now rewrite H. Qed.

Lemma is_redir_kind (t : Token) :
  is_redir (tok_type t) = false -> redir_kind t = None.
Proof.
  unfold redir_kind. intros H.
  destruct (tok_type t); try reflexivity; vm_compute in H; discriminate.
Qed.

Lemma is_redir_has_kind (t : Token) :
  is_redir (tok_type t) = true -> exists k, redir_kind t = Some k.
Proof.
  unfold redir_kind. intros H.
  destruct (tok_type t); try (vm_compute in H; discriminate); eauto.
  destruct (tok_value t) as [[|c v]|]; eauto.
  destruct (Ascii.eqb c "<"); eauto.
Qed.

Lemma is_redir_not_word (t : TokenType) :
  is_redir t = true -> tok_eqb t TOK_WORD = false.
Proof. intros H. destruct t; try reflexivity. vm_compute in H. discriminate. Qed.

(** A redirection that parses without error is put in front of the chain;
    it stands for the operator at the current position and the word after
    it. *)
Lemma parse_redirection_chain (p q : Parser) (chain chain' : list Redirection) :
  ends_with_eof (tokens p) ->
  is_redir (tok_type (cur_token p)) = true ->
  had_error p = false ->
  parse_redirection p chain = (q, chain') ->
  had_error q = false ->
  tokens q = tokens p
  /\ exists r,
      chain' = r :: chain
      /\ redirs_in_order (skipn (pos p) (tokens p))
         = r :: redirs_in_order (skipn (pos q) (tokens q)).
Proof.
  intros Hw Hr Hh Hp Hq. unfold parse_redirection in Hp.
  pose proof (not_eof_in_range p Hw (is_redir_not_eof _ Hr)) as Hpos.
  pose proof (skipn_cur_token p ltac:(lia)) as Hskip.
  set (op := cur_token p) in *.
  assert (Hadv : advance p
                 = mkParser (tokens p) (S (pos p)) (error p) (had_error p))
    by (apply advance_pos; lia).
  set (p1 := mkParser (tokens p) (S (pos p)) (error p) (had_error p)) in *.
  rewrite Hadv in Hp.
  destruct (is_redir_has_kind _ Hr) as [[rtype dfd] Hk].
  rewrite Hk in Hp. unfold expect in Hp.
  destruct (check p1 TOK_WORD) eqn:Hc.
  - injection Hp as <- <-.
    assert (Hne : tok_type (cur_token p1) <> TOK_EOF)
      by (apply check_type in Hc; congruence).
    pose proof (not_eof_in_range p1 Hw Hne) as Hpos2.
    pose proof (skipn_cur_token p1 ltac:(lia)) as Hskip1.
    rewrite (advance_pos p1) by lia.
    cbn [tokens pos p1] in *.
    split; [reflexivity|]. eexists. split; [reflexivity|].
    rewrite Hskip, Hskip1. cbn [redirs_in_order].
    rewrite (is_redir_not_word _ Hr), Hk.
    unfold check in Hc. rewrite Hc. reflexivity.
  - injection Hp as <- <-. exfalso.
    unfold parser_error_at in Hq. cbn [had_error p1] in Hq.
    rewrite Hh in Hq. discriminate.
Qed.

(** The chain built by the loop of [parse_simple_cmd] holds the
    redirections of the command in the reverse of their order of
    appearance. *)
Lemma simple_cmd_loop_chain (fuel : nat) :
  forall p args chain q args' chain',
    ends_with_eof (tokens p) ->
    simple_cmd_loop fuel p args chain = Some (q, args', chain') ->
    had_error q = false ->
    chain' = (List.rev (redirs_in_order (skipn (pos p) (tokens p))) ++ chain)%list.
Proof.
  induction fuel as [|fuel IH]; intros p args chain q args' chain' Hw;
    cbn [simple_cmd_loop]; [discriminate|].
  destruct (had_error p) eqn:Hh.
  { intros E Hq. injection E as <- _ _. congruence. }
  destruct (is_redir (tok_type (cur_token p))) eqn:Hr.
  { destruct (parse_redirection p chain) as [p1 chain1] eqn:Hp.
    intros E Hq.
    assert (Hh1 : had_error p1 = false).
    { destruct fuel as [|fuel']; [discriminate|]. cbn [simple_cmd_loop] in E.
      destruct (had_error p1) eqn:Hh1; [|reflexivity].
      injection E as <- _ _. congruence. }
    destruct (parse_redirection_chain p p1 chain chain1 Hw Hr Hh Hp Hh1)
      as (Ht & r & -> & Horder).
    rewrite (IH p1 args (r :: chain) q args' chain'
               ltac:(now rewrite Ht) E Hq).
    rewrite Horder. cbn [List.rev]. now rewrite <- app_assoc. }
  destruct (tok_eqb (tok_type (cur_token p)) TOK_WORD) eqn:Hwd.
  { intros E Hq.
    assert (Hne : tok_type (cur_token p) <> TOK_EOF)
      by (apply tok_eqb_true in Hwd; congruence).
    pose proof (not_eof_in_range p Hw Hne) as Hpos.
    rewrite (IH (advance p) _ chain q args' chain'
               ltac:(now rewrite advance_tokens) E Hq).
    rewrite (skipn_cur_token p) by lia. cbn [redirs_in_order].
    rewrite Hwd. rewrite advance_pos by lia. reflexivity. }
  intros E Hq. injection E as <- _ <-.
  destruct (Nat.ltb_spec (pos p) (List.length (tokens p))) as [Hpos|Hpos].
  - rewrite (skipn_cur_token p Hpos). cbn [redirs_in_order].
    rewrite Hwd, (is_redir_kind _ Hr). reflexivity.
  - rewrite skipn_all2 by lia. reflexivity.
Qed.

(** The same for [parse_simple_cmd]. *)
Lemma parse_simple_cmd_chain (fuel : nat) (p q : Parser) (cmd : CommandNode) :
  ends_with_eof (tokens p) ->
  parse_simple_cmd fuel p = Some (Some (NodeCommand cmd), q) ->
  had_error q = false ->
  redirs cmd = List.rev (redirs_in_order (skipn (pos p) (tokens p))).
Proof.
  intros Hw Hp Hq. unfold parse_simple_cmd in Hp.
  destruct (simple_cmd_loop fuel p [] []) as [[[p1 args] chain]|] eqn:El;
    [|discriminate].
  cbn [bind] in Hp.
  assert (Hs : Some (Some (NodeCommand (mkCommand args chain [])), p1)
               = Some (Some (NodeCommand cmd), q)).
  { destruct args; [destruct chain|]; try exact Hp; discriminate. }
  injection Hs as <- <-. cbn [redirs].
  rewrite (simple_cmd_loop_chain fuel p [] [] p1 args chain Hw El Hq).
  now rewrite app_nil_r.
Qed.

(** [parse_simple_cmd] never fills the assignments of a command: every
    word, [NAME=VALUE] or not, goes to [argv]. *)
Lemma parse_simple_cmd_assignments_empty (fuel : nat) (p q : Parser)
    (cmd : CommandNode) :
  parse_simple_cmd fuel p = Some (Some (NodeCommand cmd), q) ->
  assignments cmd = [].
Proof.
  intros Hp. unfold parse_simple_cmd in Hp.
  destruct (simple_cmd_loop fuel p [] []) as [[[p1 args] chain]|];
    [|discriminate].
  cbn [bind] in Hp.
  assert (Hs : Some (Some (NodeCommand (mkCommand args chain [])), p1)
               = Some (Some (NodeCommand cmd), q)).
  { destruct args; [destruct chain|]; try exact Hp; discriminate. }
  injection Hs as Hcmd _. now subst cmd.
Qed.

(** *** The arguments of a simple command *)

(** The words of the simple command that starts the token list, in their
    order of appearance, without the target words of its redirections. *)
Fixpoint words_in_order (toks : TokenList) : list string :=
  match toks with
  | [] => []
  | t :: more =>
    if tok_eqb (tok_type t) TOK_WORD
    then strdup (tok_text t) :: words_in_order more
    else
      match redir_kind t, more with
      | Some _, target :: more' =>
        if tok_eqb (tok_type target) TOK_WORD then words_in_order more'
        else []
      | _, _ => []
      end
  end.

Lemma parse_redirection_words (p q : Parser) (chain chain' : list Redirection) :
  ends_with_eof (tokens p) ->
  is_redir (tok_type (cur_token p)) = true ->
  had_error p = false ->
  parse_redirection p chain = (q, chain') ->
  had_error q = false ->
  tokens q = tokens p
  /\ words_in_order (skipn (pos p) (tokens p))
     = words_in_order (skipn (pos q) (tokens q)).
Proof.
  intros Hw Hr Hh Hp Hq. unfold parse_redirection in Hp.
  pose proof (not_eof_in_range p Hw (is_redir_not_eof _ Hr)) as Hpos.
  pose proof (skipn_cur_token p ltac:(lia)) as Hskip.
  set (op := cur_token p) in *.
  assert (Hadv : advance p
                 = mkParser (tokens p) (S (pos p)) (error p) (had_error p))
    by (apply advance_pos; lia).
  set (p1 := mkParser (tokens p) (S (pos p)) (error p) (had_error p)) in *.
  rewrite Hadv in Hp.
  destruct (is_redir_has_kind _ Hr) as [[rtype dfd] Hk].
  rewrite Hk in Hp. unfold expect in Hp.
  destruct (check p1 TOK_WORD) eqn:Hc.
  - injection Hp as <- _.
    assert (Hne : tok_type (cur_token p1) <> TOK_EOF)
      by (apply check_type in Hc; congruence).
    pose proof (not_eof_in_range p1 Hw Hne) as Hpos2.
    pose proof (skipn_cur_token p1 ltac:(lia)) as Hskip1.
    rewrite (advance_pos p1) by lia.
    cbn [tokens pos p1] in *.
    split; [reflexivity|].
    rewrite Hskip, Hskip1. cbn [words_in_order].
    rewrite (is_redir_not_word _ Hr), Hk.
    unfold check in Hc. rewrite Hc. reflexivity.
  - injection Hp as <- _. exfalso.
    unfold parser_error_at in Hq. cbn [had_error p1] in Hq.
    rewrite Hh in Hq. discriminate.
Qed.

Lemma simple_cmd_loop_args (fuel : nat) :
  forall p args chain q args' chain',
    ends_with_eof (tokens p) ->
    simple_cmd_loop fuel p args chain = Some (q, args', chain') ->
    had_error q = false ->
    args' = (args ++ words_in_order (skipn (pos p) (tokens p)))%list.
Proof.
  induction fuel as [|fuel IH]; intros p args chain q args' chain' Hw;
    cbn [simple_cmd_loop]; [discriminate|].
  destruct (had_error p) eqn:Hh.
  { intros E Hq. injection E as <- _ _. congruence. }
  destruct (is_redir (tok_type (cur_token p))) eqn:Hr.
  { destruct (parse_redirection p chain) as [p1 chain1] eqn:Hp.
    intros E Hq.
    assert (Hh1 : had_error p1 = false).
    { destruct fuel as [|fuel']; [discriminate|]. cbn [simple_cmd_loop] in E.
      destruct (had_error p1) eqn:Hh1; [|reflexivity].
      injection E as <- _ _. congruence. }
    destruct (parse_redirection_words p p1 chain chain1 Hw Hr Hh Hp Hh1)
      as (Ht & Horder).
    rewrite (IH p1 args chain1 q args' chain' ltac:(now rewrite Ht) E Hq).
    now rewrite Horder. }
  destruct (tok_eqb (tok_type (cur_token p)) TOK_WORD) eqn:Hwd.
  { intros E Hq.
    assert (Hne : tok_type (cur_token p) <> TOK_EOF)
      by (apply tok_eqb_true in Hwd; congruence).
    pose proof (not_eof_in_range p Hw Hne) as Hpos.
    rewrite (IH (advance p) _ chain q args' chain'
               ltac:(now rewrite advance_tokens) E Hq).
    rewrite (skipn_cur_token p) by lia. cbn [words_in_order].
    rewrite Hwd. rewrite advance_pos by lia. cbn [pos tokens].
    now rewrite <- app_assoc. }
  intros E Hq. injection E as <- <- _.
  destruct (Nat.ltb_spec (pos p) (List.length (tokens p))) as [Hpos|Hpos].
  - rewrite (skipn_cur_token p Hpos). cbn [words_in_order].
    rewrite Hwd, (is_redir_kind _ Hr). now rewrite app_nil_r.
  - rewrite skipn_all2 by lia. now rewrite app_nil_r.
Qed.

(** The arguments of a parsed simple command are its words in their order
    of appearance: a word between or after redirections is an argument like
    any other, the word after a redirection operator is the target of the
    redirection and no argument, and no word is taken as an assignment. *)
Theorem arguments_keep_their_order_of_appearance :
  forall (fuel : nat) (p q : Parser) (cmd : CommandNode),
    ends_with_eof (tokens p) ->
    parse_simple_cmd fuel p = Some (Some (NodeCommand cmd), q) ->
    had_error q = false ->
    argv cmd = words_in_order (skipn (pos p) (tokens p))
    /\ argc cmd
       = Z.of_nat (List.length (words_in_order (skipn (pos p) (tokens p))))
    /\ assignments cmd = [].
Proof.
  intros fuel p q cmd Hw Hp Hq. unfold parse_simple_cmd in Hp.
  destruct (simple_cmd_loop fuel p [] []) as [[[p1 args] chain]|] eqn:El;
    [|discriminate].
  cbn [bind] in Hp.
  assert (Hs : Some (Some (NodeCommand (mkCommand args chain [])), p1)
               = Some (Some (NodeCommand cmd), q)).
  { destruct args; [destruct chain|]; try exact Hp; discriminate. }
  injection Hs as <- <-. unfold argc. cbn [argv assignments].
  rewrite (simple_cmd_loop_args fuel p [] [] p1 args chain Hw El Hq).
  auto.
Qed.

(** The parser state at the start of the line [sort -r < in.txt -u > out]. *)
Definition interleaved_line : Parser :=
  match lex_line_tokens "sort -r < in.txt -u > out" with
  | Some (toks, _) => parser_init toks
  | None => parser_init []
  end.

Lemma arguments_keep_their_order_of_appearance_witness :
  exists q cmd,
    ends_with_eof (tokens interleaved_line)
    /\ parse_simple_cmd 10 interleaved_line = Some (Some (NodeCommand cmd), q)
    /\ had_error q = false
    /\ words_in_order (skipn (pos interleaved_line) (tokens interleaved_line))
       = ["sort"; "-r"; "-u"]
    /\ argv cmd
       = words_in_order (skipn (pos interleaved_line) (tokens interleaved_line))
    /\ argc cmd
       = Z.of_nat (List.length
           (words_in_order
              (skipn (pos interleaved_line) (tokens interleaved_line))))
    /\ assignments cmd = [].
Proof.
  eexists _, _. split; [reflexivity|].
  split; [vm_compute; reflexivity|]. split; [reflexivity|].
  split; [vm_compute; reflexivity|].
  eapply (arguments_keep_their_order_of_appearance 10 interleaved_line);
    [reflexivity | vm_compute; reflexivity | reflexivity].
Defined.

End Parse.

(* ===================================================================== *)
(** ** env.c *)
(* ===================================================================== *)

Module Env.
Import CStr.
Local Open Scope string_scope.
Local Open Scope Z_scope.

(** shell.h: [ENV_HASH_SIZE]. *)
Definition ENV_HASH_SIZE : Z := 256.

(** [struct EnvEntry] without [next]. *)
Record EnvEntry : Type := mkEntry {
  key : string;
  value : string;
  exported : bool
}.

(** [struct EnvTable]: the bucket array (each bucket a chain, head first)
    and [count].  [environ] is the process environment block that [setenv]
    and [unsetenv] maintain for exported variables. *)
Record EnvTable : Type := mkEnv {
  buckets : list (list EnvEntry);
  count : Z;
  environ : list (string * string)
}.

(** [env_hash] (djb2): [unsigned long] arithmetic, then the bucket index. *)
Fixpoint env_hash_from (hash : Z) (s : string) : Z :=
  match s with
  | "" => hash
  | String c r =>
    env_hash_from ((hash * 33 + Z.of_nat (nat_of_ascii c)) mod 2 ^ 64) r
  end.

Definition env_hash (s : string) : nat :=
  Z.to_nat (env_hash_from 5381 s mod ENV_HASH_SIZE).

Definition bucket (env : EnvTable) (h : nat) : list EnvEntry :=
  nth h (buckets env) [].

(** Replace the bucket at index [h]. *)
Fixpoint set_bucket (h : nat) (chain : list EnvEntry)
    (bs : list (list EnvEntry)) : list (list EnvEntry) :=
  match bs, h with
  | [], _ => []
  | _ :: t, O => chain :: t
  | b :: t, S k => b :: set_bucket k chain t
  end.

(** An empty table ([calloc]). *)
Definition env_empty : EnvTable :=
  mkEnv (repeat [] (Z.to_nat ENV_HASH_SIZE)) 0 [].

Fixpoint chain_find (chain : list EnvEntry) (k : string) : option EnvEntry :=
  match chain with
  | [] => None
  | e :: more => if String.eqb (key e) k then Some e else chain_find more k
  end.

(** [env_get]. *)
Definition env_get (env : EnvTable) (k : string) : option string :=
  option_map value (chain_find (bucket env (env_hash k)) k).

(** [setenv(key, value, 1)] and [unsetenv(key)] on the environment block. *)
Fixpoint environ_unset (block : list (string * string)) (k : string)
    : list (string * string) :=
  match block with
  | [] => []
  | (k', v) :: more =>
    if String.eqb k' k then environ_unset more k
    else (k', v) :: environ_unset more k
  end.

Definition environ_set (block : list (string * string)) (k v : string)
    : list (string * string) :=
  (k, v) :: environ_unset block k.

(** Update the first entry of a chain whose key is [k]. *)
Fixpoint chain_update (chain : list EnvEntry) (k v : string) (exp : bool)
    : list EnvEntry :=
  match chain with
  | [] => []
  | e :: more =>
    if String.eqb (key e) k then mkEntry (key e) v exp :: more
    else e :: chain_update more k v exp
  end.

(** [env_set]: update in place, or prepend a new entry to the chain. *)
Definition env_set (env : EnvTable) (k v : string) (exp : bool) : EnvTable :=
  let h := env_hash k in
  let chain := bucket env h in
  let block := if exp then environ_set (environ env) k v else environ env in
  match chain_find chain k with
  | Some _ =>
    mkEnv (set_bucket h (chain_update chain k v exp) (buckets env))
      (count env) block
  | None =>
    mkEnv (set_bucket h (mkEntry k v exp :: chain) (buckets env))
      (count env + 1) block
  end.

Fixpoint chain_remove (chain : list EnvEntry) (k : string) : list EnvEntry :=
  match chain with
  | [] => []
  | e :: more =>
    if String.eqb (key e) k then more else e :: chain_remove more k
  end.

(** [env_unset]. *)
Definition env_unset (env : EnvTable) (k : string) : EnvTable :=
  let h := env_hash k in
  let chain := bucket env h in
  match chain_find chain k with
  | Some _ =>
    mkEnv (set_bucket h (chain_remove chain k) (buckets env))
      (count env - 1) (environ_unset (environ env) k)
  | None => env
  end.

(** The entry of a variable, with its [exported] flag. *)
Definition env_entry (env : EnvTable) (k : string) : option EnvEntry :=
  chain_find (bucket env (env_hash k)) k.

(** The part of [struct Shell] the expansion engine and the executor read
    and write.  [stderr] collects what the shell process prints on its
    standard error stream, oldest first. *)
Record Shell : Type := mkShell {
  env : EnvTable;
  last_status : Z;
  shell_pid : Z;
  interactive : bool;
  pos_params : option (list string);
  pos_count : Z;
  stderr : list string
}.

Definition with_env (sh : Shell) (e : EnvTable) : Shell :=
  mkShell e (last_status sh) (shell_pid sh) (interactive sh) (pos_params sh)
    (pos_count sh) (stderr sh).

Definition with_last_status (sh : Shell) (st : Z) : Shell :=
  mkShell (env sh) st (shell_pid sh) (interactive sh) (pos_params sh)
    (pos_count sh) (stderr sh).

(** [fprintf(stderr, ...)]. *)
Definition eprint (sh : Shell) (text : string) : Shell :=
  mkShell (env sh) (last_status sh) (shell_pid sh) (interactive sh)
    (pos_params sh) (pos_count sh) (stderr sh ++ [text]).

(** The scan [while p[0] is neither NUL nor a stop character, p++]: the
    text scanned and what is left. *)
Fixpoint span (stop : ascii -> bool) (s : string) : string * string :=
  match s with
  | "" => ("", "")
  | String c r =>
    if stop c then ("", s)
    else let '(a, b) := span stop r in (String c a, b)
  end.

(** [read_brace_body]: the body appended to [out], and the text from the
    closing brace on. *)
Fixpoint read_brace_body (s : string) (depth : nat) (out : string)
    : string * string :=
  match s with
  | "" => (out, "")
  | String c r =>
    match r with
    | String d r' =>
      if Ascii.eqb c "$" && Ascii.eqb d "{" then
        read_brace_body r' (S depth) (out ++ String c (String d ""))
      else if Ascii.eqb c "}" then
        match depth with
        | O => (out, s)
        | S k => read_brace_body r k (out ++ String c "")
        end
      else read_brace_body r depth (out ++ String c "")
    | "" =>
      if Ascii.eqb c "}" then
        match depth with
        | O => (out, s)
        | S k => read_brace_body r k (out ++ String c "")
        end
      else read_brace_body r depth (out ++ String c "")
    end
  end.

(** A value that is NULL or the empty string. *)
Definition unset_or_empty (val : option string) : bool :=
  match val with
  | None => true
  | Some "" => true
  | Some _ => false
  end.

Definition append_opt (result : string) (val : option string) : string :=
  match val with
  | Some v => result ++ v
  | None => result
  end.

(** Skip the closing brace. *)
Definition skip_close (s : string) : string :=
  match s with
  | String "}" r => r
  | _ => s
  end.

(** [expand_brace]: [p] is the text just after the opening brace.  Returns
    the text after the construct, the result buffer and the shell. *)
Definition expand_brace (sh : Shell) (p : string) (result : string)
    : string * string * Shell :=
  let '(varname, p1) :=
    span (fun c => Ascii.eqb c "}" || Ascii.eqb c ":") p in
  let val := env_get (env sh) varname in
  match p1 with
  | String ":" (String op p2) =>
    let '(body, p3) := read_brace_body p2 0 "" in
    let '(result', sh') :=
      if Ascii.eqb op "-" then
        (if unset_or_empty val then result ++ body
         else append_opt result val, sh)
      else if Ascii.eqb op "=" then
        if unset_or_empty val
        then (result ++ body, with_env sh (env_set (env sh) varname body false))
        else (append_opt result val, sh)
      else if Ascii.eqb op "+" then
        (if unset_or_empty val then result else result ++ body, sh)
      else if Ascii.eqb op "?" then
        if unset_or_empty val
        then (result,
              eprint sh ("vsh: " ++ varname ++ ": "
                         ++ (match body with
                             | "" => "parameter null or not set"
                             | _ => body
                             end) ++ String c_newline ""))
        else (append_opt result val, sh)
      else (append_opt result val, sh) in
    (skip_close p3, result', sh')
  | _ => (skip_close p1, append_opt result val, sh)
  end.

(** The main loop of [env_expand]; [fuel] bounds its iterations. *)
Fixpoint env_expand_loop (fuel : nat) (sh : Shell) (p : string)
    (result : string) : option (string * Shell) :=
  match fuel with
  | O => None
  | S fuel' =>
    match p with
    | "" => Some (result, sh)
    | String c p1 =>
      if negb (Ascii.eqb c "$") then
        env_expand_loop fuel' sh p1 (result ++ String c "")
      else
        match p1 with
        | "" => Some (result ++ "$", sh)
        | String d p2 =>
          if Ascii.eqb d "$" then
            env_expand_loop fuel' sh p2
              (result ++ snprintf 32 (string_of_int (shell_pid sh)))
          else if Ascii.eqb d "?" then
            env_expand_loop fuel' sh p2
              (result ++ snprintf 32 (string_of_int (last_status sh)))
          else if Ascii.eqb d "#" then
            env_expand_loop fuel' sh p2
              (result ++ snprintf 32 (string_of_int (pos_count sh)))
          else if Ascii.eqb d "!" then env_expand_loop fuel' sh p2 result
          else if isdigit d then
            let idx := Z.of_nat (nat_of_ascii d) - 48 in
            let result' :=
              if idx =? 0 then result ++ "vsh"
              else match pos_params sh with
                   | Some params =>
                     if idx <=? pos_count sh
                     then result ++ nth (Z.to_nat (idx - 1)) params ""
                     else result
                   | None => result
                   end in
            env_expand_loop fuel' sh p2 result'
          else if Ascii.eqb d "{" then
            let '(p3, result', sh') := expand_brace sh p2 result in
            env_expand_loop fuel' sh' p3 result'
          else if isalpha d || Ascii.eqb d "_" then
            let '(varname, p3) :=
              span (fun x => negb (isalnum x || Ascii.eqb x "_")) p1 in
            env_expand_loop fuel' sh p3
              (append_opt result (env_get (env sh) varname))
          else
            env_expand_loop fuel' sh p2 (result ++ String "$" (String d ""))
        end
    end
  end.

(** [env_expand]: every iteration consumes a character of the input. *)
Definition env_expand (sh : Shell) (input : string)
    : option (string * Shell) :=
  env_expand_loop (S (String.length input)) sh input "".

(** [strchr(s, c)]: the text before the first [c] and the text from it on;
    [None] when [c] does not occur. *)
Definition split_at (c : ascii) (s : string) : option (string * string) :=
  let '(a, b) := span (fun x => Ascii.eqb x c) s in
  match b with
  | "" => None
  | _ => Some (a, b)
  end.

(** [env_parse_assignment]: the key and the value of [NAME=VALUE]. *)
Definition env_parse_assignment (str : string) : option (string * string) :=
  match split_at "=" str with
  | None => None
  | Some ("", _) => None
  | Some (String c name_rest, String _ val) =>
    if negb (isalpha c) && negb (Ascii.eqb c "_") then None
    else if Lex.string_forallb (fun x => isalnum x || Ascii.eqb x "_")
              name_rest
    then Some (String c name_rest, val)
    else None
  | Some (_, "") => None
  end.

(** *** The expansion loop returns *)

Lemma span_spec (stop : ascii -> bool) (s : string) :
  s = fst (span stop s) ++ snd (span stop s)
  /\ (String.length (snd (span stop s)) <= String.length s)%nat.
Proof.
  induction s as [|c r [IH1 IH2]]; simpl; [auto|].
  destruct (stop c); simpl; [auto|].
  destruct (span stop r) as [a b]. simpl in *. split; [congruence | lia].
Qed.

Lemma read_brace_body_length (s : string) :
  forall depth out,
    (String.length (snd (read_brace_body s depth out)) <= String.length s)%nat.
Proof.
  induction s as [s IH] using (well_founded_induction
     (Wf_nat.well_founded_ltof _ String.length)).
  intros depth out. destruct s as [|c r]; simpl; [lia|].
  assert (Hr : forall k o,
    (String.length (snd (read_brace_body r k o)) <= String.length r)%nat)
    by (intros; apply IH; unfold Wf_nat.ltof; simpl; lia).
  destruct r as [|d r'].
  - destruct (Ascii.eqb c "}"); [destruct depth|]; simpl; try lia;
      eapply Nat.le_trans; try apply Hr; simpl; lia.
  - destruct (Ascii.eqb c "$" && Ascii.eqb d "{").
    + eapply Nat.le_trans; [apply IH; unfold Wf_nat.ltof; simpl; lia|].
      simpl; lia.
    + destruct (Ascii.eqb c "}"); [destruct depth|]; simpl; try lia;
        eapply Nat.le_trans; try apply Hr; simpl; lia.
Qed.

Lemma skip_close_length (s : string) :
  (String.length (skip_close s) <= String.length s)%nat.
Proof.
  unfold skip_close. destruct s as [|c r]; [lia|].
  destruct c as [[] [] [] [] [] [] [] []]; simpl; lia.
Qed.

Lemma expand_brace_length (sh : Shell) (p result : string) :
  (String.length (fst (fst (expand_brace sh p result))) <= String.length p)%nat.
Proof.
  unfold expand_brace.
  pose proof (span_spec (fun c => Ascii.eqb c "}" || Ascii.eqb c ":") p)
    as [_ Hs].
  destruct (span _ p) as [varname p1]. simpl in Hs.
  assert (Hdef : (String.length (skip_close p1) <= String.length p)%nat)
    by (pose proof (skip_close_length p1); lia).
  destruct p1 as [|c p1']; [exact Hdef|].
  destruct p1' as [|op p2];
    [destruct c as [[] [] [] [] [] [] [] []]; exact Hdef|].
  destruct c as [[] [] [] [] [] [] [] []]; try exact Hdef.
  pose proof (read_brace_body_length p2 0 "") as Hb.
  destruct (read_brace_body p2 0 "") as [body p3]. simpl in Hb.
  pose proof (skip_close_length p3) as Hk.
  destruct (Ascii.eqb op "-"); [simpl in *; lia|].
  destruct (Ascii.eqb op "=");
    [destruct (unset_or_empty _); simpl in *; lia|].
  destruct (Ascii.eqb op "+"); [simpl in *; lia|].
  destruct (Ascii.eqb op "?");
    [destruct (unset_or_empty _); simpl in *; lia|].
  simpl in *; lia.
Qed.

Lemma env_expand_loop_total (fuel : nat) :
  forall sh p result,
    (String.length p < fuel)%nat ->
    exists r sh', env_expand_loop fuel sh p result = Some (r, sh').
Proof.
  induction fuel as [|fuel IH]; intros sh p result Hf; [lia|].
  cbn [env_expand_loop].
  destruct p as [|c p1]; [eauto|]. simpl in Hf.
  destruct (negb (Ascii.eqb c "$")); [apply IH; lia|].
  destruct p1 as [|d p2]; [eauto|]. simpl in Hf.
  repeat match goal with
         | |- context [if ?b then _ else _] =>
           lazymatch b with
           | Ascii.eqb d "{" => fail
           | isalpha d || _ => fail
           | _ => destruct b; [apply IH; lia|]
           end
         end.
  destruct (Ascii.eqb d "{").
  { pose proof (expand_brace_length sh p2 result) as Hb.
    destruct (expand_brace sh p2 result) as [[p3 r'] sh']. simpl in Hb.
    apply IH. lia. }
  destruct (isalpha d || Ascii.eqb d "_"); [|apply IH; lia].
  pose proof (span_spec (fun x => negb (isalnum x || Ascii.eqb x "_"))
                (String d p2)) as [_ Hs].
  destruct (span _ (String d p2)) as [varname p3]. simpl in Hs.
  apply IH. lia.
Qed.

(** [env_expand] always returns. *)
Lemma env_expand_total (sh : Shell) (input : string) :
  exists r sh', env_expand sh input = Some (r, sh').
Proof. apply env_expand_loop_total. lia. Qed.

(** *** The result buffer is only appended to *)

Lemma expand_brace_prefix (sh : Shell) (p a result : string) :
  expand_brace sh p (a ++ result) =
  let '(p3, r', sh') := expand_brace sh p result in (p3, a ++ r', sh').
Proof.
  unfold expand_brace.
  destruct (span _ p) as [varname p1].
  assert (Hopt : forall v, append_opt (a ++ result) v = a ++ append_opt result v)
    by (intros [v|]; simpl; [apply append_assoc | reflexivity]).
  destruct p1 as [|c p1']; [now rewrite Hopt|].
  destruct p1' as [|op p2];
    [destruct c as [[] [] [] [] [] [] [] []]; now rewrite Hopt|].
  destruct c as [[] [] [] [] [] [] [] []]; try now rewrite Hopt.
  destruct (read_brace_body p2 0 "") as [body p3].
  rewrite !Hopt, !append_assoc.
  destruct (Ascii.eqb op "-"); [now destruct (unset_or_empty _)|].
  destruct (Ascii.eqb op "="); [now destruct (unset_or_empty _)|].
  destruct (Ascii.eqb op "+"); [now destruct (unset_or_empty _)|].
  destruct (Ascii.eqb op "?"); [now destruct (unset_or_empty _)|].
  reflexivity.
Qed.

(** With enough fuel the loop does not depend on the fuel, and a prefix of
    the result buffer is carried through unchanged. *)
Lemma env_expand_loop_ext (fuel : nat) :
  forall sh p result fuel' a,
    (String.length p < fuel)%nat ->
    (String.length p < fuel')%nat ->
    env_expand_loop fuel' sh p (a ++ result) =
    match env_expand_loop fuel sh p result with
    | Some (r, sh') => Some (a ++ r, sh')
    | None => None
    end.
Proof.
  induction fuel as [|fuel IH]; intros sh p result fuel' a Hf Hf'; [lia|].
  destruct fuel' as [|fuel']; [lia|].
  cbn [env_expand_loop].
  destruct p as [|c p1]; [reflexivity|]. simpl in Hf, Hf'.
  destruct (negb (Ascii.eqb c "$"));
    [rewrite append_assoc; apply IH; lia|].
  destruct p1 as [|d p2]; [now rewrite append_assoc|]. simpl in Hf, Hf'.
  destruct (Ascii.eqb d "$"); [rewrite append_assoc; apply IH; lia|].
  destruct (Ascii.eqb d "?"); [rewrite append_assoc; apply IH; lia|].
  destruct (Ascii.eqb d "#"); [rewrite append_assoc; apply IH; lia|].
  destruct (Ascii.eqb d "!"); [apply IH; lia|].
  destruct (isdigit d).
  { destruct (_ =? 0); [rewrite append_assoc; apply IH; lia|].
    destruct (pos_params sh) as [params|]; [|apply IH; lia].
    destruct (_ <=? _); [rewrite append_assoc|]; apply IH; lia. }
  destruct (Ascii.eqb d "{").
  { rewrite expand_brace_prefix.
    pose proof (expand_brace_length sh p2 result) as Hb.
    destruct (expand_brace sh p2 result) as [[p3 r'] sh']. simpl in Hb.
    apply IH; lia. }
  destruct (isalpha d || Ascii.eqb d "_");
    [|rewrite append_assoc; apply IH; lia].
  pose proof (span_spec (fun x => negb (isalnum x || Ascii.eqb x "_"))
                (String d p2)) as [_ Hs].
  destruct (span _ (String d p2)) as [varname p3]. simpl in Hs.
  assert (Hopt : forall v, append_opt (a ++ result) v = a ++ append_opt result v)
    by (intros [v|]; simpl; [apply append_assoc | reflexivity]).
  rewrite Hopt. apply IH; lia.
Qed.

(** Text without a dollar sign is copied to the result. *)
Lemma env_expand_loop_literal (pre : string) :
  forall fuel sh rest result,
    has_char "$" pre = false ->
    env_expand_loop (String.length pre + fuel) sh (pre ++ rest) result =
    env_expand_loop fuel sh rest (result ++ pre).
Proof.
  induction pre as [|c pre IH]; intros fuel sh rest result H.
  - simpl. now rewrite append_nil_r.
  - simpl in H. apply orb_false_iff in H as [Hc Hpre].
    cbn [String.length Nat.add append env_expand_loop].
    rewrite Hc. cbn [negb]. rewrite IH by exact Hpre.
    now rewrite append_assoc.
Qed.

(** *** The [:?] form of the brace expansion *)

Lemma span_stops_at (stop : ascii -> bool) (a : string) :
  forall c rest,
    Lex.string_forallb (fun x => negb (stop x)) a = true ->
    stop c = true ->
    span stop (a ++ String c rest) = (a, String c rest).
Proof.
  induction a as [|x a IH]; intros c rest Ha Hc; simpl.
  - now rewrite Hc.
  - simpl in Ha. apply andb_true_iff in Ha as [Hx Ha].
    apply negb_true_iff in Hx. rewrite Hx.
    now rewrite (IH c rest Ha Hc).
Qed.

Lemma read_brace_body_plain (body : string) :
  forall rest out,
    has_char "$" body = false ->
    has_char "}" body = false ->
    read_brace_body (body ++ String "}" rest) 0 out =
    (out ++ body, String "}" rest).
Proof.
  induction body as [|c body IH]; intros rest out Hd Hb.
  - simpl. rewrite append_nil_r. now destruct rest.
  - simpl in Hd, Hb.
    apply orb_false_iff in Hd as [Hc1 Hd].
    apply orb_false_iff in Hb as [Hc2 Hb].
    cbn [append read_brace_body].
    rewrite Hc1, Hc2. cbn [andb].
    destruct (body ++ String "}" rest) as [|d r'] eqn:E.
    + destruct body; discriminate.
    + rewrite <- E. rewrite IH by assumption.
      now rewrite append_assoc.
Qed.

(** The text [expand_brace] prints for [NAME:?message]. *)
Definition unset_message (NAME message : string) : string :=
  "vsh: " ++ NAME ++ ": "
  ++ (match message with
      | "" => "parameter null or not set"
      | _ => message
      end) ++ String c_newline "".

(** A text that [read_brace_body] reads as one body: each closing brace in
    it closes a construct that a dollar sign and an opening brace opened
    earlier in the text, and each construct opened in it is closed in it.
    [depth] is the number of constructs open where the text starts. *)
Fixpoint balanced (depth : nat) (s : string) : bool :=
  match s with
  | "" => Nat.eqb depth 0
  | String c r =>
    match r with
    | String d r' =>
      if Ascii.eqb c "$" && Ascii.eqb d "{" then balanced (S depth) r'
      else if Ascii.eqb c "}" then
        match depth with
        | O => false
        | S k => balanced k r
        end
      else balanced depth r
    | "" =>
      if Ascii.eqb c "}" then
        match depth with
        | O => false
        | S k => balanced k r
        end
      else balanced depth r
    end
  end.

(** One iteration of the loop of [env_expand], for an unread text [p] that
    is not empty: the shell, the unread text and the result buffer after
    it.  (On the empty text the loop is over, and nothing changes.) *)
Definition env_expand_step (sh : Shell) (p result : string)
    : Shell * string * string :=
  match p with
  | "" => (sh, "", result)
  | String c p1 =>
    if negb (Ascii.eqb c "$") then (sh, p1, result ++ String c "")
    else
      match p1 with
      | "" => (sh, "", result ++ "$")
      | String d p2 =>
        if Ascii.eqb d "$" then
          (sh, p2, result ++ snprintf 32 (string_of_int (shell_pid sh)))
        else if Ascii.eqb d "?" then
          (sh, p2, result ++ snprintf 32 (string_of_int (last_status sh)))
        else if Ascii.eqb d "#" then
          (sh, p2, result ++ snprintf 32 (string_of_int (pos_count sh)))
        else if Ascii.eqb d "!" then (sh, p2, result)
        else if isdigit d then
          let idx := Z.of_nat (nat_of_ascii d) - 48 in
          let result' :=
            if idx =? 0 then result ++ "vsh"
            else match pos_params sh with
                 | Some params =>
                   if idx <=? pos_count sh
                   then result ++ nth (Z.to_nat (idx - 1)) params ""
                   else result
                 | None => result
                 end in
          (sh, p2, result')
        else if Ascii.eqb d "{" then
          let '(p3, result', sh') := expand_brace sh p2 result in
          (sh', p3, result')
        else if isalpha d || Ascii.eqb d "_" then
          let '(varname, p3) :=
            span (fun x => negb (isalnum x || Ascii.eqb x "_")) p1 in
          (sh, p3, append_opt result (env_get (env sh) varname))
        else (sh, p2, result ++ String "$" (String d ""))
      end
  end.

(** The state of the loop after [n] iterations. *)
Fixpoint env_expand_steps (n : nat) (sh : Shell) (p result : string)
    : Shell * string * string :=
  match n with
  | O => (sh, p, result)
  | S k =>
    let '(sh', p', result') := env_expand_step sh p result in
    env_expand_steps k sh' p' result'
  end.

Lemma read_brace_body_balanced (body : string) :
  forall depth rest out,
    balanced depth body = true ->
    read_brace_body (body ++ String "}" rest) depth out =
    (out ++ body, String "}" rest).
Proof.
  induction body as [body IH] using (well_founded_induction
     (Wf_nat.well_founded_ltof _ String.length)).
  intros depth rest out Hb.
  assert (Hnil : forall out', read_brace_body (String "}" rest) 0 out'
                              = (out', String "}" rest)).
  { intros out'. cbn [read_brace_body].
    change (Ascii.eqb "}" "$") with false.
    change (Ascii.eqb "}" "}") with true. cbn [andb].
    now destruct rest. }
  destruct body as [|c r].
  - cbn [balanced] in Hb. apply Nat.eqb_eq in Hb. subst depth.
    cbn [append]. now rewrite Hnil, append_nil_r.
  - assert (Hr : forall k o, balanced k r = true ->
               read_brace_body (r ++ String "}" rest) k o
               = (o ++ r, String "}" rest)).
    { intros k o H. apply IH; [unfold Wf_nat.ltof; simpl; lia | exact H]. }
    destruct r as [|d r'].
    + cbn [balanced] in Hb. cbn [append read_brace_body].
      change (Ascii.eqb "}" "{") with false. rewrite andb_false_r.
      destruct (Ascii.eqb c "}").
      * destruct depth as [|k]; [discriminate|].
        cbn [balanced] in Hb. apply Nat.eqb_eq in Hb. subst k.
        apply Hnil.
      * cbn [balanced] in Hb. apply Nat.eqb_eq in Hb. subst depth.
        apply Hnil.
    + cbn [balanced] in Hb.
      change (String c (String d r') ++ String "}" rest)
        with (String c (String d (r' ++ String "}" rest))).
      cbn [read_brace_body].
      destruct (Ascii.eqb c "$" && Ascii.eqb d "{").
      * rewrite IH; [|unfold Wf_nat.ltof; simpl; lia | exact Hb].
        now rewrite append_assoc.
      * change (String d (r' ++ String "}" rest))
          with (String d r' ++ String "}" rest).
        destruct (Ascii.eqb c "}").
        -- destruct depth as [|k]; [discriminate|].
           etransitivity; [exact (Hr k (out ++ String c "") Hb)|].
           now rewrite append_assoc.
        -- etransitivity; [exact (Hr depth (out ++ String c "") Hb)|].
           now rewrite append_assoc.
Qed.

Lemma expand_brace_unset_message (sh : Shell) (NAME message rest result : string) :
  Lex.string_forallb
    (fun x => negb (Ascii.eqb x "}" || Ascii.eqb x ":")) NAME = true ->
  balanced 0 message = true ->
  unset_or_empty (env_get (env sh) NAME) = true ->
  expand_brace sh (NAME ++ ":?" ++ message ++ "}" ++ rest) result =
  (rest, result, eprint sh (unset_message NAME message)).
Proof.
  intros HN Hb Hu. unfold expand_brace.
  change (NAME ++ ":?" ++ message ++ "}" ++ rest)
    with (NAME ++ String ":" (String "?" (message ++ String "}" rest))).
  rewrite (span_stops_at _ NAME ":" _ HN eq_refl).
  rewrite (read_brace_body_balanced message 0 rest "" Hb).
  cbn [Ascii.eqb Bool.eqb append skip_close]. rewrite Hu.
  reflexivity.
Qed.

(** A word without a dollar sign expands to itself. *)
Lemma env_expand_plain (sh : Shell) (w : string) :
  has_char "$" w = false -> env_expand sh w = Some (w, sh).
Proof.
  intros H. unfold env_expand.
  replace (S (String.length w)) with (String.length w + 1)%nat by lia.
  rewrite <- (append_nil_r w) at 2.
  rewrite (env_expand_loop_literal w 1 sh "" "" H). reflexivity.
Qed.

(** *** The loop, one iteration at a time *)

Lemma env_expand_loop_step (fuel : nat) (sh : Shell) (p result : string) :
  p <> "" ->
  env_expand_loop (S (S fuel)) sh p result =
  let '(sh', p', result') := env_expand_step sh p result in
  env_expand_loop (S fuel) sh' p' result'.
Proof.
  intros Hp. remember (S fuel) as f eqn:Ef.
  destruct p as [|c p1]; [congruence|].
  cbn [env_expand_loop env_expand_step].
  destruct (negb (Ascii.eqb c "$")); [reflexivity|].
  destruct p1 as [|d p2]; [subst f; reflexivity|].
  repeat match goal with
         | |- context [if ?b then _ else _] =>
           lazymatch b with
           | Ascii.eqb d "{" => fail
           | isalpha d || _ => fail
           | _ => destruct b; [reflexivity|]
           end
         end.
  destruct (Ascii.eqb d "{").
  { now destruct (expand_brace sh p2 result) as [[p3 r'] sh']. }
  destruct (isalpha d || Ascii.eqb d "_"); [|reflexivity].
  now destruct (span _ (String d p2)) as [varname p3].
Qed.

Lemma env_expand_loop_steps (n : nat) :
  forall sh p result sh0 p0 r0 fuel,
    env_expand_steps n sh p result = (sh0, p0, r0) ->
    env_expand_loop (n + S fuel) sh p result
    = env_expand_loop (S fuel) sh0 p0 r0.
Proof.
  induction n as [|n IH]; intros sh p result sh0 p0 r0 fuel H.
  - cbn [env_expand_steps] in H. injection H as <- <- <-. reflexivity.
  - cbn [env_expand_steps] in H.
    destruct p as [|c p1].
    + cbn [env_expand_step] in H. rewrite <- (IH _ _ _ _ _ _ fuel H).
      rewrite (Nat.add_succ_r n fuel). reflexivity.
    + replace (S n + S fuel)%nat with (S (S (n + fuel))) by lia.
      rewrite env_expand_loop_step by discriminate.
      destruct (env_expand_step sh (String c p1) result) as [[sh' p'] r'].
      replace (S (n + fuel)) with (n + S fuel)%nat by lia.
      apply IH. exact H.
Qed.

Lemma env_expand_step_length (sh : Shell) (p result : string) :
  (String.length (snd (fst (env_expand_step sh p result)))
   <= String.length p)%nat.
Proof.
  destruct p as [|c p1]; cbn [env_expand_step]; [simpl; lia|].
  destruct (negb (Ascii.eqb c "$")); [simpl; lia|].
  destruct p1 as [|d p2]; [simpl; lia|].
  repeat match goal with
         | |- context [if ?b then _ else _] =>
           lazymatch b with
           | Ascii.eqb d "{" => fail
           | isalpha d || _ => fail
           | _ => destruct b; [simpl; lia|]
           end
         end.
  destruct (Ascii.eqb d "{").
  { pose proof (expand_brace_length sh p2 result) as Hb.
    destruct (expand_brace sh p2 result) as [[p3 r'] sh']. simpl in *. lia. }
  destruct (isalpha d || Ascii.eqb d "_"); [|simpl; lia].
  pose proof (span_spec (fun x => negb (isalnum x || Ascii.eqb x "_"))
                (String d p2)) as [_ Hs].
  destruct (span _ (String d p2)) as [varname p3]. simpl in *. lia.
Qed.

Lemma env_expand_steps_length (n : nat) :
  forall sh p result,
    (String.length (snd (fst (env_expand_steps n sh p result)))
     <= String.length p)%nat.
Proof.
  induction n as [|n IH]; intros sh p result; cbn [env_expand_steps];
    [simpl; lia|].
  pose proof (env_expand_step_length sh p result) as Hs.
  destruct (env_expand_step sh p result) as [[sh' p'] r']. simpl in Hs.
  eapply Nat.le_trans; [apply IH | exact Hs].
Qed.

(** Text without a dollar sign takes one iteration per character. *)
Lemma env_expand_steps_literal (pre : string) :
  forall sh rest result,
    has_char "$" pre = false ->
    env_expand_steps (String.length pre) sh (pre ++ rest) result
    = (sh, rest, result ++ pre).
Proof.
  induction pre as [|c pre IH]; intros sh rest result H.
  - simpl. now rewrite append_nil_r.
  - simpl in H. apply orb_false_iff in H as [Hc Hpre].
    cbn [String.length append env_expand_steps env_expand_step].
    rewrite Hc. cbn [negb]. rewrite IH by exact Hpre.
    now rewrite append_assoc.
Qed.

(** *** What the expansion prints *)

Lemma expand_brace_stderr (sh : Shell) (p result : string) :
  exists more,
    stderr (snd (expand_brace sh p result)) = (stderr sh ++ more)%list.
Proof.
  assert (Hsame : exists more, stderr sh = (stderr sh ++ more)%list)
    by (exists []; now rewrite app_nil_r).
  unfold expand_brace.
  destruct (span _ p) as [varname p1].
  destruct p1 as [|c p1']; [exact Hsame|].
  destruct p1' as [|op p2];
    [destruct c as [[] [] [] [] [] [] [] []]; exact Hsame|].
  destruct c as [[] [] [] [] [] [] [] []]; try exact Hsame.
  destruct (read_brace_body p2 0 "") as [body p3].
  destruct (Ascii.eqb op "-"); [exact Hsame|].
  destruct (Ascii.eqb op "=");
    [destruct (unset_or_empty _); exact Hsame|].
  destruct (Ascii.eqb op "+"); [exact Hsame|].
  destruct (Ascii.eqb op "?"); [|exact Hsame].
  destruct (unset_or_empty _); [|exact Hsame].
  cbn [snd eprint stderr]. eauto.
Qed.

Lemma env_expand_loop_stderr (fuel : nat) :
  forall sh p result r sh',
    env_expand_loop fuel sh p result = Some (r, sh') ->
    exists more, stderr sh' = (stderr sh ++ more)%list.
Proof.
  induction fuel as [|fuel IH]; intros sh p result r sh' H; [discriminate|].
  assert (Hsame : forall x : Shell, exists more,
             stderr x = (stderr x ++ more)%list)
    by (intros x; exists []; now rewrite app_nil_r).
  cbn [env_expand_loop] in H.
  destruct p as [|c p1]; [injection H as _ <-; apply Hsame|].
  destruct (negb (Ascii.eqb c "$")); [exact (IH _ _ _ _ _ H)|].
  destruct p1 as [|d p2]; [injection H as _ <-; apply Hsame|].
  repeat match type of H with
         | context [if ?b then _ else _] =>
           lazymatch b with
           | Ascii.eqb d "{" => fail
           | isalpha d || _ => fail
           | _ => destruct b; [exact (IH _ _ _ _ _ H)|]
           end
         end.
  destruct (Ascii.eqb d "{").
  { pose proof (expand_brace_stderr sh p2 result) as (m1 & H1).
    destruct (expand_brace sh p2 result) as [[p3 r'] sh1]. cbn [snd] in H1.
    destruct (IH _ _ _ _ _ H) as (m2 & H2).
    exists (m1 ++ m2)%list. now rewrite H2, H1, app_assoc. }
  destruct (isalpha d || Ascii.eqb d "_"); [|exact (IH _ _ _ _ _ H)].
  destruct (span _ (String d p2)) as [varname p3].
  exact (IH _ _ _ _ _ H).
Qed.

(** [env_expand] only adds to what the shell has printed. *)
Lemma env_expand_stderr (sh sh' : Shell) (input r : string) :
  env_expand sh input = Some (r, sh') ->
  exists more, stderr sh' = (stderr sh ++ more)%list.
Proof. apply env_expand_loop_stderr. Qed.

(** The expansion of a word in which the loop arrives, after [n] iterations,
    at [NAME:?message] in braces after a dollar sign, with [NAME] unset or
    empty: the message goes to the standard error stream, the construct adds
    nothing to the result, and the loop goes on with the rest of the
    word. *)
Lemma env_expand_unset_message (sh sh0 : Shell)
    (word NAME message suf r0 : string) (n : nat) :
  env_expand_steps n sh word ""
  = (sh0, "${" ++ NAME ++ ":?" ++ message ++ "}" ++ suf, r0) ->
  Lex.string_forallb
    (fun x => negb (Ascii.eqb x "}" || Ascii.eqb x ":")) NAME = true ->
  balanced 0 message = true ->
  unset_or_empty (env_get (env sh0) NAME) = true ->
  exists r sh',
    env_expand (eprint sh0 (unset_message NAME message)) suf = Some (r, sh')
    /\ env_expand sh word = Some (r0 ++ r, sh').
Proof.
  intros Hsteps HN Hb Hu.
  destruct (env_expand_total (eprint sh0 (unset_message NAME message)) suf)
    as (r & sh' & Hr).
  exists r, sh'. split; [exact Hr|].
  set (construct := "${" ++ NAME ++ ":?" ++ message ++ "}" ++ suf) in *.
  pose proof (env_expand_steps_length n sh word "") as Hlen.
  rewrite Hsteps in Hlen. cbn [fst snd] in Hlen.
  pose proof (env_expand_loop_steps n sh word "" sh0 construct r0
                (String.length word) Hsteps) as Hloop.
  unfold env_expand.
  pose proof (env_expand_loop_ext (n + S (String.length word)) sh word ""
                (S (String.length word)) "" ltac:(lia) ltac:(lia)) as He.
  change ("" ++ "") with "" in He. rewrite He, Hloop. clear He Hloop.
  assert (Hcons : env_expand_loop (S (String.length word)) sh0 construct r0
                  = Some (r0 ++ r, sh')).
  { rewrite <- (append_nil_r r0) at 1.
    rewrite (env_expand_loop_ext (S (String.length construct)) sh0 construct
               "" (S (String.length word)) r0 ltac:(lia) ltac:(lia)).
    unfold construct at 2.
    change ("${" ++ NAME ++ ":?" ++ message ++ "}" ++ suf)
      with (String "$" (String "{" (NAME ++ ":?" ++ message ++ "}" ++ suf))).
    cbn [env_expand_loop Ascii.eqb Bool.eqb negb isdigit nat_of_ascii].
    change (isdigit "{") with false. cbn iota.
    rewrite (expand_brace_unset_message sh0 NAME message suf _ HN Hb Hu).
    rewrite <- (append_nil_r "") at 1.
    rewrite (env_expand_loop_ext (S (String.length suf))
               (eprint sh0 (unset_message NAME message)) suf "" _ "").
    - unfold env_expand in Hr. rewrite Hr. reflexivity.
    - lia.
    - unfold construct. cbn [String.length]. rewrite !length_append.
      cbn [String.length]. lia. }
  rewrite Hcons. reflexivity.
Qed.

(** *** The hash table *)

Lemma env_hash_bound (k : string) : (env_hash k < 256)%nat.
Proof.
  unfold env_hash, ENV_HASH_SIZE.
  pose proof (Z.mod_pos_bound (env_hash_from 5381 k) 256 eq_refl). lia.
Qed.

Lemma set_bucket_length (h : nat) (c : list EnvEntry)
    (bs : list (list EnvEntry)) :
  List.length (set_bucket h c bs) = List.length bs.
Proof.
  revert h. induction bs as [|b t IH]; intros [|j]; simpl; auto.
Qed.

Lemma set_bucket_same (h : nat) (c : list EnvEntry)
    (bs : list (list EnvEntry)) :
  (h < List.length bs)%nat -> nth h (set_bucket h c bs) [] = c.
Proof.
  revert h. induction bs as [|b t IH]; intros [|j] H; simpl in *;
    try lia; auto. apply IH. lia.
Qed.

Lemma set_bucket_other (h h' : nat) (c : list EnvEntry)
    (bs : list (list EnvEntry)) :
  h <> h' -> nth h' (set_bucket h c bs) [] = nth h' bs [].
Proof.
  revert h h'. induction bs as [|b t IH]; intros [|j] [|j'] H; simpl;
    try congruence; auto.
Qed.

Lemma set_bucket_Forall (P : list EnvEntry -> Prop) (h : nat)
    (c : list EnvEntry) (bs : list (list EnvEntry)) :
  Forall P bs -> P c -> Forall P (set_bucket h c bs).
Proof.
  intros Hb Hc. revert h.
  induction Hb as [|b t Hb Ht IH]; intros [|j]; simpl; auto.
Qed.

Lemma chain_find_key (chain : list EnvEntry) (k : string) (e : EnvEntry) :
  chain_find chain k = Some e -> key e = k /\ In e chain.
Proof.
  induction chain as [|x more IH]; simpl; [discriminate|].
  destruct (String.eqb (key x) k) eqn:E.
  - intros H. injection H as <-. apply String.eqb_eq in E. auto.
  - intros H. destruct (IH H). auto.
Qed.

Lemma chain_find_none (chain : list EnvEntry) (k : string) :
  chain_find chain k = None <-> ~ In k (map key chain).
Proof.
  induction chain as [|x more IH]; simpl; [tauto|].
  destruct (String.eqb (key x) k) eqn:E.
  - apply String.eqb_eq in E. split; [discriminate | tauto].
  - apply String.eqb_neq in E. rewrite IH. tauto.
Qed.

Lemma chain_update_keys (chain : list EnvEntry) (k v : string) (x : bool) :
  map key (chain_update chain k v x) = map key chain.
Proof.
  induction chain as [|e more IH]; simpl; [reflexivity|].
  destruct (String.eqb (key e) k); simpl; congruence.
Qed.

Lemma chain_update_length (chain : list EnvEntry) (k v : string) (x : bool) :
  List.length (chain_update chain k v x) = List.length chain.
Proof.
  rewrite <- (length_map key), chain_update_keys. apply length_map.
Qed.

Lemma chain_update_same (chain : list EnvEntry) (k v : string) (x : bool)
    (e : EnvEntry) :
  chain_find chain k = Some e ->
  chain_find (chain_update chain k v x) k = Some (mkEntry k v x).
Proof.
  induction chain as [|y more IH]; simpl; [discriminate|].
  destruct (String.eqb (key y) k) eqn:E; simpl.
  - intros _. rewrite E. apply String.eqb_eq in E. now rewrite E.
  - rewrite E. exact IH.
Qed.

Lemma chain_update_other (chain : list EnvEntry) (k k' v : string)
    (x : bool) :
  k' <> k ->
  chain_find (chain_update chain k v x) k' = chain_find chain k'.
Proof.
  intros Hne. induction chain as [|y more IH]; simpl; [reflexivity|].
  destruct (String.eqb (key y) k) eqn:E; simpl.
  - apply String.eqb_eq in E.
    assert (En : String.eqb (key y) k' = false)
      by (apply String.eqb_neq; congruence).
    now rewrite En.
  - destruct (String.eqb (key y) k'); [reflexivity | exact IH].
Qed.

Lemma chain_remove_other (chain : list EnvEntry) (k k' : string) :
  k' <> k -> chain_find (chain_remove chain k) k' = chain_find chain k'.
Proof.
  intros Hne. induction chain as [|y more IH]; simpl; [reflexivity|].
  destruct (String.eqb (key y) k) eqn:E; simpl.
  - apply String.eqb_eq in E.
    assert (En : String.eqb (key y) k' = false)
      by (apply String.eqb_neq; congruence).
    now rewrite En.
  - destruct (String.eqb (key y) k'); [reflexivity | exact IH].
Qed.

Lemma chain_remove_keys (chain : list EnvEntry) (k : string) :
  NoDup (map key chain) ->
  NoDup (map key (chain_remove chain k))
  /\ ~ In k (map key (chain_remove chain k)).
Proof.
  induction chain as [|y more IH]; simpl; intros Hn.
  - split; [constructor | tauto].
  - inversion Hn as [|? ? Hy Hmore]; subst.
    destruct (String.eqb (key y) k) eqn:E.
    + apply String.eqb_eq in E. subst k. auto.
    + apply String.eqb_neq in E. destruct (IH Hmore) as [IH1 IH2].
      simpl. split.
      * constructor; [|exact IH1]. intros Hin. apply Hy.
        clear - Hin. induction more as [|z more IHm]; simpl in *; [tauto|].
        destruct (String.eqb (key z) k); simpl in *; tauto.
      * tauto.
Qed.

Lemma chain_remove_length (chain : list EnvEntry) (k : string)
    (e : EnvEntry) :
  chain_find chain k = Some e ->
  S (List.length (chain_remove chain k)) = List.length chain.
Proof.
  induction chain as [|y more IH]; simpl; [discriminate|].
  destruct (String.eqb (key y) k); [reflexivity|].
  intros H. simpl. now rewrite IH.
Qed.

Lemma env_set_entry (env : EnvTable) (k v : string) (x : bool) :
  List.length (buckets env) = 256%nat ->
  env_entry (env_set env k v x) k = Some (mkEntry k v x).
Proof.
  intros Hlen. pose proof (env_hash_bound k) as Hh.
  unfold env_entry, env_set, bucket.
  destruct (chain_find (nth (env_hash k) (buckets env) []) k) as [e|] eqn:E;
    cbn [buckets]; rewrite set_bucket_same by lia.
  - exact (chain_update_same _ k v x e E).
  - simpl. now rewrite String.eqb_refl.
Qed.

(** [env_get] after [env_set]: the variable set reads back as the value
    given, with the export flag given, and every other variable reads as
    before. *)
Theorem env_get_after_env_set :
  forall (env : EnvTable) (k v : string) (x : bool),
    List.length (buckets env) = 256%nat ->
    env_get (env_set env k v x) k = Some v
    /\ env_entry (env_set env k v x) k = Some (mkEntry k v x)
    /\ (forall k', k' <> k ->
                   env_get (env_set env k v x) k' = env_get env k').
Proof.
  intros env k v x Hlen.
  pose proof (env_hash_bound k) as Hh.
  pose proof (env_set_entry env k v x Hlen) as Hentry.
  split; [|split].
  - unfold env_get. unfold env_entry in Hentry. now rewrite Hentry.
  - exact Hentry.
  - intros k' Hne. unfold env_get, env_set, bucket.
    destruct (Nat.eq_dec (env_hash k) (env_hash k')) as [Eh|Eh].
    + rewrite <- Eh.
      destruct (chain_find (nth (env_hash k) (buckets env) []) k) as [e|] eqn:E;
        cbn [buckets]; rewrite set_bucket_same by lia.
      * now rewrite chain_update_other.
      * simpl. assert (En : String.eqb k k' = false)
          by (apply String.eqb_neq; congruence).
        now rewrite En.
    + destruct (chain_find (nth (env_hash k) (buckets env) []) k);
        cbn [buckets]; now rewrite set_bucket_other.
Qed.

Lemma env_get_after_env_set_witness :
  List.length (buckets env_empty) = 256%nat
  /\ env_get (env_set env_empty "PATH" "/bin" true) "PATH" = Some "/bin"
  /\ env_entry (env_set env_empty "PATH" "/bin" true) "PATH"
     = Some (mkEntry "PATH" "/bin" true)
  /\ (forall k', k' <> "PATH" ->
                 env_get (env_set env_empty "PATH" "/bin" true) k'
                 = env_get env_empty k').
Proof.
  split; [reflexivity|].
  apply (env_get_after_env_set env_empty "PATH" "/bin" true). reflexivity.
Defined.

(** *** The invariant of the table *)

(** The number of entries of a bucket array. *)
Definition entries (bs : list (list EnvEntry)) : nat :=
  List.length (List.concat bs).

(** A table in the state [env_set] and [env_unset] keep: 256 buckets, no key
    twice in a chain, and [count] the number of entries. *)
Definition table_ok (env : EnvTable) : Prop :=
  List.length (buckets env) = 256%nat
  /\ Forall (fun chain => NoDup (map key chain)) (buckets env)
  /\ count env = Z.of_nat (entries (buckets env)).

Lemma entries_set_bucket (h : nat) (c : list EnvEntry)
    (bs : list (list EnvEntry)) :
  (h < List.length bs)%nat ->
  (entries (set_bucket h c bs) + List.length (nth h bs [])
   = entries bs + List.length c)%nat.
Proof.
  unfold entries. revert h.
  induction bs as [|b t IH]; intros [|j] H; simpl in *; try lia.
  - rewrite !length_app. lia.
  - rewrite !length_app. specialize (IH j ltac:(lia)). lia.
Qed.

Lemma table_ok_bucket (env : EnvTable) (h : nat) :
  table_ok env -> NoDup (map key (nth h (buckets env) [])).
Proof.
  intros (_ & Hall & _).
  destruct (Nat.lt_ge_cases h (List.length (buckets env))) as [Hlt|Hge].
  - apply (proj1 (Forall_forall _ _) Hall). now apply nth_In.
  - rewrite nth_overflow by exact Hge. constructor.
Qed.

Lemma env_empty_ok : table_ok env_empty.
Proof.
  unfold table_ok, env_empty. cbn [buckets count].
  split; [reflexivity|]. split; [|reflexivity].
  apply Forall_forall. intros c Hc. apply repeat_spec in Hc. subst c.
  constructor.
Qed.

Lemma env_set_ok (env : EnvTable) (k v : string) (x : bool) :
  table_ok env -> table_ok (env_set env k v x).
Proof.
  intros Hok. pose proof (table_ok_bucket env (env_hash k) Hok) as Hnd.
  destruct Hok as (Hlen & Hall & Hcount).
  pose proof (env_hash_bound k) as Hh.
  unfold env_set, bucket in *.
  pose proof (entries_set_bucket (env_hash k)) as Hent.
  destruct (chain_find (nth (env_hash k) (buckets env) []) k) as [e|] eqn:E;
    unfold table_ok; cbn [buckets count]; rewrite set_bucket_length.
  - split; [exact Hlen|]. split.
    + apply set_bucket_Forall; [exact Hall|]. now rewrite chain_update_keys.
    + specialize (Hent (chain_update (nth (env_hash k) (buckets env) []) k v x)
                       (buckets env) ltac:(lia)).
      rewrite chain_update_length in Hent. lia.
  - split; [exact Hlen|]. split.
    + apply set_bucket_Forall; [exact Hall|]. simpl.
      constructor; [|exact Hnd]. now apply chain_find_none.
    + specialize (Hent (mkEntry k v x :: nth (env_hash k) (buckets env) [])
                       (buckets env) ltac:(lia)).
      simpl in Hent. lia.
Qed.

Lemma env_unset_ok (env : EnvTable) (k : string) :
  table_ok env -> table_ok (env_unset env k).
Proof.
  intros Hok. pose proof (table_ok_bucket env (env_hash k) Hok) as Hnd.
  pose proof Hok as (Hlen & Hall & Hcount).
  pose proof (env_hash_bound k) as Hh.
  unfold env_unset, bucket.
  destruct (chain_find (nth (env_hash k) (buckets env) []) k) as [e|] eqn:E;
    [|exact Hok].
  unfold table_ok; cbn [buckets count]; rewrite set_bucket_length.
  split; [exact Hlen|]. split.
  - apply set_bucket_Forall; [exact Hall|].
    apply chain_remove_keys. exact Hnd.
  - pose proof (entries_set_bucket (env_hash k)
                  (chain_remove (nth (env_hash k) (buckets env) []) k)
                  (buckets env) ltac:(lia)) as Hent.
    pose proof (chain_remove_length _ k e E). lia.
Qed.

(** [env_get] after [env_unset]: in a table with no key twice in a chain,
    the variable removed reads as unset, and every other variable reads as
    before; removing a variable that is not set changes nothing. *)
Theorem env_get_after_env_unset :
  forall (env : EnvTable) (k : string),
    table_ok env ->
    env_get (env_unset env k) k = None
    /\ (forall k', k' <> k ->
                   env_get (env_unset env k) k' = env_get env k')
    /\ (env_get env k = None -> env_unset env k = env).
Proof.
  intros env k Hok. pose proof (table_ok_bucket env (env_hash k) Hok) as Hnd.
  destruct Hok as (Hlen & Hall & Hcount).
  pose proof (env_hash_bound k) as Hh.
  unfold env_get, env_unset, bucket.
  destruct (chain_find (nth (env_hash k) (buckets env) []) k) as [e|] eqn:E.
  - split; [|split].
    + cbn [buckets]. rewrite set_bucket_same by lia.
      destruct (chain_remove_keys _ k Hnd) as [_ Hno].
      apply chain_find_none in Hno. now rewrite Hno.
    + intros k' Hne. cbn [buckets].
      destruct (Nat.eq_dec (env_hash k) (env_hash k')) as [Eh|Eh].
      * rewrite <- Eh. rewrite set_bucket_same by lia.
        now rewrite chain_remove_other.
      * now rewrite set_bucket_other.
    + discriminate.
  - split; [now rewrite E|]. split; reflexivity.
Qed.

Lemma env_get_after_env_unset_witness :
  table_ok (env_set env_empty "A" "1" false)
  /\ env_get (env_unset (env_set env_empty "A" "1" false) "A") "A" = None
  /\ (forall k', k' <> "A" ->
        env_get (env_unset (env_set env_empty "A" "1" false) "A") k'
        = env_get (env_set env_empty "A" "1" false) k')
  /\ (env_get (env_set env_empty "A" "1" false) "A" = None ->
      env_unset (env_set env_empty "A" "1" false) "A"
      = env_set env_empty "A" "1" false).
Proof.
  assert (Hok : table_ok (env_set env_empty "A" "1" false))
    by (apply env_set_ok; exact env_empty_ok).
  split; [exact Hok|].
  apply (env_get_after_env_unset (env_set env_empty "A" "1" false) "A" Hok).
Defined.

(** *** Assignments *)

(** A variable name: a letter or an underscore, then letters, digits and
    underscores. *)
Definition is_name (k : string) : bool :=
  match k with
  | "" => false
  | String c r =>
    (isalpha c || Ascii.eqb c "_")
    && Lex.string_forallb (fun x => isalnum x || Ascii.eqb x "_") r
  end.

Lemma span_snd_head (stop : ascii -> bool) (s : string) (c : ascii)
    (r : string) :
  snd (span stop s) = String c r -> stop c = true.
Proof.
  induction s as [|x s IH]; simpl; [discriminate|].
  destruct (stop x) eqn:E.
  - simpl. intros H. injection H as <- _. exact E.
  - destruct (span stop s) as [a b]. simpl in *. exact IH.
Qed.

Lemma name_char_is_not_eq (x : ascii) :
  isalnum x || Ascii.eqb x "_" = true -> Ascii.eqb x "=" = false.
Proof.
  destruct x as [[] [] [] [] [] [] [] []]; vm_compute; congruence.
Qed.

Lemma is_name_has_no_eq (k : string) :
  is_name k = true ->
  Lex.string_forallb (fun x => negb (Ascii.eqb x "=")) k = true.
Proof.
  destruct k as [|c r]; [discriminate|]. simpl.
  intros H. apply andb_true_iff in H as [Hc Hr].
  apply andb_true_iff. split.
  - apply negb_true_iff. apply name_char_is_not_eq.
    unfold isalnum. apply orb_true_iff in Hc as [Hc|Hc]; rewrite Hc;
      [reflexivity | apply orb_true_r].
  - clear Hc. induction r as [|x r IH]; [reflexivity|]. simpl in *.
    apply andb_true_iff in Hr as [Hx Hr]. rewrite (IH Hr).
    now rewrite (name_char_is_not_eq x Hx).
Qed.

(** [env_parse_assignment] accepts exactly the texts [NAME=VALUE] whose
    [NAME] is a variable name, and splits them at the first equals sign,
    whatever the value holds. *)
Theorem env_parse_assignment_splits_at_the_first_equals_sign :
  forall str k v : string,
    env_parse_assignment str = Some (k, v)
    <-> (str = k ++ "=" ++ v /\ is_name k = true).
Proof.
  intros str k v. unfold env_parse_assignment, split_at. split.
  - pose proof (span_spec (fun x => Ascii.eqb x "=") str) as [Hs _].
    pose proof (span_snd_head (fun x => Ascii.eqb x "=") str) as Hh.
    destruct (span (fun x => Ascii.eqb x "=") str) as [a b].
    cbn [fst snd] in *.
    destruct b as [|e val]; [discriminate|].
    specialize (Hh e val eq_refl). apply Ascii.eqb_eq in Hh. subst e.
    destruct a as [|c name_rest]; [discriminate|].
    destruct (negb (isalpha c) && negb (Ascii.eqb c "_")) eqn:Ec;
      [discriminate|].
    destruct (Lex.string_forallb _ name_rest) eqn:Er; [|discriminate].
    intros H. injection H as <- <-. split; [exact Hs|].
    simpl. rewrite Er, andb_true_r.
    destruct (isalpha c), (Ascii.eqb c "_"); simpl in *; congruence.
  - intros [-> Hk].
    change (k ++ "=" ++ v) with (k ++ String "=" v).
    rewrite (span_stops_at (fun x => Ascii.eqb x "=") k "=" v
               (is_name_has_no_eq k Hk) eq_refl).
    destruct k as [|c r]; [discriminate|]. simpl in Hk.
    apply andb_true_iff in Hk as [Hc Hr]. rewrite Hr.
    destruct (isalpha c), (Ascii.eqb c "_"); simpl in *;
      try reflexivity; discriminate.
Qed.

(** *** Exported variables *)

(** The loop of [env_export] over a chain: the first entry of the key gets
    the export flag. *)
Fixpoint chain_export (chain : list EnvEntry) (k : string) : list EnvEntry :=
  match chain with
  | [] => []
  | e :: more =>
    if String.eqb (key e) k then mkEntry (key e) (value e) true :: more
    else e :: chain_export more k
  end.

(** [env_export]. *)
Definition env_export (env : EnvTable) (k : string) : EnvTable :=
  let h := env_hash k in
  let chain := bucket env h in
  match chain_find chain k with
  | Some e =>
    mkEnv (set_bucket h (chain_export chain k) (buckets env)) (count env)
      (environ_set (environ env) (key e) (value e))
  | None => env
  end.

(** The entries the loops of [env_build_envp] visit, in order: bucket 0 to
    bucket 255, each chain from its head, exported entries only. *)
Definition exported_entries (env : EnvTable) : list EnvEntry :=
  flat_map (fun i => filter exported (bucket env i))
    (seq 0 (Z.to_nat ENV_HASH_SIZE)).

(** [env_build_envp]: one [KEY=VALUE] string per exported entry.
    Allocation is taken to succeed. *)
Definition env_build_envp (env : EnvTable) : list string :=
  map (fun e => key e ++ "=" ++ value e) (exported_entries env).

Lemma chain_export_keys (chain : list EnvEntry) (k : string) :
  map key (chain_export chain k) = map key chain.
Proof.
  induction chain as [|e more IH]; simpl; [reflexivity|].
  destruct (String.eqb (key e) k); simpl; congruence.
Qed.

Lemma chain_export_same (chain : list EnvEntry) (k : string) (e : EnvEntry) :
  chain_find chain k = Some e ->
  In (mkEntry k (value e) true) (chain_export chain k).
Proof.
  induction chain as [|y more IH]; simpl; [discriminate|].
  destruct (String.eqb (key y) k) eqn:E.
  - intros H. injection H as <-. apply String.eqb_eq in E. rewrite E.
    now left.
  - intros H. right. exact (IH H).
Qed.

(** Every entry sits in the bucket of its key. *)
Definition placed (env : EnvTable) : Prop :=
  forall i e, In e (nth i (buckets env) []) -> env_hash (key e) = i.

Lemma set_bucket_placed (env : EnvTable) (h : nat) (c : list EnvEntry)
    (n : Z) (block : list (string * string)) :
  placed env ->
  (forall e, In e c -> env_hash (key e) = h) ->
  placed (mkEnv (set_bucket h c (buckets env)) n block).
Proof.
  intros Hp Hc i e. cbn [buckets].
  destruct (Nat.eq_dec h i) as [<-|Hne].
  - destruct (Nat.lt_ge_cases h (List.length (buckets env))) as [Hlt|Hge].
    + rewrite set_bucket_same by exact Hlt. apply Hc.
    + rewrite nth_overflow by (rewrite set_bucket_length; exact Hge).
      intros [].
  - rewrite set_bucket_other by exact Hne. apply Hp.
Qed.

Lemma in_map_key (chain chain' : list EnvEntry) (e : EnvEntry) :
  map key chain' = map key chain -> In e chain' ->
  exists e', In e' chain /\ key e' = key e.
Proof.
  intros Hk Hin. apply (in_map key) in Hin. rewrite Hk in Hin.
  apply in_map_iff in Hin as (e' & He' & Hin). eauto.
Qed.

Lemma chain_remove_incl (chain : list EnvEntry) (k : string) (e : EnvEntry) :
  In e (chain_remove chain k) -> In e chain.
Proof.
  induction chain as [|y more IH]; simpl; [tauto|].
  destruct (String.eqb (key y) k); simpl; tauto.
Qed.

Lemma env_set_placed (env : EnvTable) (k v : string) (x : bool) :
  placed env -> placed (env_set env k v x).
Proof.
  intros Hp. unfold env_set, bucket.
  destruct (chain_find (nth (env_hash k) (buckets env) []) k) as [e0|];
    apply set_bucket_placed; try exact Hp; intros e Hin.
  - destruct (in_map_key _ _ e (chain_update_keys _ k v x) Hin)
      as (e' & Hin' & <-).
    exact (Hp _ _ Hin').
  - destruct Hin as [<-|Hin]; [reflexivity | exact (Hp _ _ Hin)].
Qed.

Lemma env_unset_placed (env : EnvTable) (k : string) :
  placed env -> placed (env_unset env k).
Proof.
  intros Hp. unfold env_unset, bucket.
  destruct (chain_find (nth (env_hash k) (buckets env) []) k) as [e0|];
    [|exact Hp].
  apply set_bucket_placed; [exact Hp|]. intros e Hin.
  exact (Hp _ _ (chain_remove_incl _ _ _ Hin)).
Qed.

Lemma env_export_placed (env : EnvTable) (k : string) :
  placed env -> placed (env_export env k).
Proof.
  intros Hp. unfold env_export, bucket.
  destruct (chain_find (nth (env_hash k) (buckets env) []) k) as [e0|];
    [|exact Hp].
  apply set_bucket_placed; [exact Hp|]. intros e Hin.
  destruct (in_map_key _ _ e (chain_export_keys _ k) Hin) as (e' & Hin' & <-).
  exact (Hp _ _ Hin').
Qed.

Lemma env_export_ok (env : EnvTable) (k : string) :
  table_ok env -> table_ok (env_export env k).
Proof.
  intros Hok. pose proof (table_ok_bucket env (env_hash k) Hok) as Hnd.
  pose proof Hok as (Hlen & Hall & Hcount).
  pose proof (env_hash_bound k) as Hh.
  unfold env_export, bucket.
  destruct (chain_find (nth (env_hash k) (buckets env) []) k) as [e|] eqn:E;
    [|exact Hok].
  unfold table_ok; cbn [buckets count]; rewrite set_bucket_length.
  split; [exact Hlen|]. split.
  - apply set_bucket_Forall; [exact Hall|]. now rewrite chain_export_keys.
  - pose proof (entries_set_bucket (env_hash k)
                  (chain_export (nth (env_hash k) (buckets env) []) k)
                  (buckets env) ltac:(lia)) as Hent.
    assert (Hl : List.length (chain_export (nth (env_hash k) (buckets env) []) k)
                 = List.length (nth (env_hash k) (buckets env) [])).
    { rewrite <- (length_map key), chain_export_keys. apply length_map. }
    lia.
Qed.

Lemma env_empty_placed : placed env_empty.
Proof.
  intros i e. unfold env_empty. cbn [buckets].
  destruct (Nat.lt_ge_cases i (Z.to_nat ENV_HASH_SIZE)) as [Hlt|Hge].
  - rewrite nth_repeat_lt by exact Hlt. intros [].
  - rewrite nth_overflow by (rewrite repeat_length; exact Hge). intros [].
Qed.

(** A run of [env_set], [env_unset] and [env_export] calls. *)
Inductive EnvOp : Type :=
| OpSet (k v : string) (x : bool)
| OpUnset (k : string)
| OpExport (k : string).

Definition env_apply (env : EnvTable) (op : EnvOp) : EnvTable :=
  match op with
  | OpSet k v x => env_set env k v x
  | OpUnset k => env_unset env k
  | OpExport k => env_export env k
  end.

(** The table reached from the empty one by a run of calls. *)
Definition env_after (ops : list EnvOp) : EnvTable :=
  fold_left env_apply ops env_empty.

Lemma env_after_ok (ops : list EnvOp) :
  table_ok (env_after ops) /\ placed (env_after ops).
Proof.
  unfold env_after.
  generalize env_empty_ok, env_empty_placed. generalize env_empty.
  induction ops as [|op more IH]; intros e He Hp; simpl; [auto|].
  apply IH; destruct op; simpl;
    auto using env_set_ok, env_unset_ok, env_export_ok,
               env_set_placed, env_unset_placed, env_export_placed.
Qed.

(** Starting from the empty table, whatever variables are set, unset and
    exported, [count] is the number of entries in the table, no chain holds
    a key twice, and every entry is in the bucket of its key. *)
Theorem env_count_is_the_number_of_entries :
  forall ops : list EnvOp,
    let env := env_after ops in
    count env = Z.of_nat (entries (buckets env))
    /\ Forall (fun chain => NoDup (map key chain)) (buckets env)
    /\ (forall i e, In e (nth i (buckets env) []) -> env_hash (key e) = i).
Proof.
  intros ops env. destruct (env_after_ok ops) as ((H1 & H2 & H3) & Hp).
  auto.
Qed.

Lemma in_exported_entries (env : EnvTable) (e : EnvEntry) :
  In e (exported_entries env) <->
  exists i, (i < 256)%nat /\ In e (nth i (buckets env) [])
            /\ exported e = true.
Proof.
  unfold exported_entries, bucket. rewrite in_flat_map. split.
  - intros (i & Hi & Hin). apply in_seq in Hi. apply filter_In in Hin.
    exists i. change (Z.to_nat ENV_HASH_SIZE) with 256%nat in Hi.
    split; [lia | exact Hin].
  - intros (i & Hi & Hin & Hx). exists i. split.
    + apply in_seq. change (Z.to_nat ENV_HASH_SIZE) with 256%nat. lia.
    + apply filter_In. auto.
Qed.

Lemma chain_find_unique (chain : list EnvEntry) (k : string)
    (e0 e : EnvEntry) :
  NoDup (map key chain) ->
  chain_find chain k = Some e0 -> In e chain -> key e = k -> e = e0.
Proof.
  induction chain as [|y more IH]; simpl; [discriminate|].
  intros Hn Hf Hin Hk. inversion Hn as [|? ? Hy Hmore]; subst.
  destruct (String.eqb (key y) (key e)) eqn:E.
  - injection Hf as <-. destruct Hin as [Hin|Hin]; [now symmetry|].
    apply String.eqb_eq in E. exfalso. apply Hy. rewrite E.
    now apply in_map.
  - destruct Hin as [->|Hin]; [now rewrite String.eqb_refl in E|].
    now apply IH.
Qed.

(** What [env_build_envp] lists.  In a table built by [env_set],
    [env_unset] and [env_export] calls: a variable set with the export flag
    is listed by [env_build_envp] as [KEY=VALUE]; so is a variable once
    [env_export] is called on it; and after a variable is set without the
    flag, no entry of the array is made from its key, while the environment
    block that [setenv] and [unsetenv] maintain is left as it was, with the
    value an earlier export may have put there. *)
Theorem env_build_envp_lists_the_exported_variables :
  forall (ops : list EnvOp) (k v : string),
    let env := env_after ops in
    In (k ++ "=" ++ v) (env_build_envp (env_set env k v true))
    /\ (env_get env k = Some v ->
        In (k ++ "=" ++ v) (env_build_envp (env_export env k)))
    /\ Forall (fun e => key e <> k) (exported_entries (env_set env k v false))
    /\ environ (env_set env k v false) = environ env.
Proof.
  intros ops k v env.
  destruct (env_after_ok ops) as (Hok & Hp). fold env in Hok, Hp.
  pose proof (env_hash_bound k) as Hh.
  pose proof Hok as (Hlen & _ & _).
  split; [|split; [|split]].
  4:{ unfold env_set.
      destruct (chain_find (bucket env (env_hash k)) k); reflexivity. }
  - unfold env_build_envp.
    change (k ++ "=" ++ v)
      with ((fun e => key e ++ "=" ++ value e) (mkEntry k v true)).
    apply in_map. apply in_exported_entries.
    exists (env_hash k). split; [exact Hh|]. split; [|reflexivity].
    pose proof (env_set_entry env k v true Hlen) as He.
    unfold env_entry, bucket in He.
    exact (proj2 (chain_find_key _ _ _ He)).
  - intros Hg. unfold env_get, bucket in Hg.
    destruct (chain_find (nth (env_hash k) (buckets env) []) k) as [e|] eqn:E;
      [|discriminate].
    injection Hg as Hv. unfold env_build_envp.
    change (k ++ "=" ++ v)
      with ((fun e => key e ++ "=" ++ value e) (mkEntry k v true)).
    apply in_map. apply in_exported_entries.
    exists (env_hash k). split; [exact Hh|]. split; [|reflexivity].
    unfold env_export, bucket. rewrite E. cbn [buckets].
    rewrite set_bucket_same by lia. rewrite <- Hv.
    exact (chain_export_same _ k e E).
  - apply Forall_forall. intros e Hin Hk.
    apply in_exported_entries in Hin as (i & Hi & Hin & Hx).
    pose proof (env_set_ok env k v false Hok) as Hok'.
    pose proof (env_set_placed env k v false Hp) as Hp'.
    pose proof (Hp' i e Hin) as Hi'. rewrite Hk in Hi'. subst i.
    pose proof (env_set_entry env k v false Hlen) as He.
    unfold env_entry, bucket in He.
    pose proof (chain_find_unique _ k _ e
                  (table_ok_bucket _ (env_hash k) Hok') He Hin Hk) as ->.
    discriminate.
Qed.

(** A variable exported and then set again without the flag: the array of
    [env_build_envp] no longer lists it, and the environment block still
    holds the exported value. *)
Lemma env_set_unexported_keeps_the_environment_block :
  let env := env_set (env_set env_empty "AZ" "v1" true) "AZ" "v2" false in
  env_build_envp env = []
  /\ environ env = [("AZ", "v1")]
  /\ env_get env "AZ" = Some "v2".
Proof. vm_compute. repeat split; reflexivity. Qed.

(** *** Expansion of the dollar constructs *)

Lemma env_expand_after_literal (sh : Shell) (pre rest : string) :
  has_char "$" pre = false ->
  env_expand sh (pre ++ rest)
  = env_expand_loop (S (String.length rest)) sh rest pre.
Proof.
  intros H. unfold env_expand.
  replace (S (String.length (pre ++ rest)))
    with (String.length pre + S (String.length rest))%nat
    by (rewrite length_append; lia).
  now rewrite (env_expand_loop_literal pre _ sh rest "" H).
Qed.

Lemma env_expand_loop_resume (fuel : nat) (sh : Shell) (suf acc : string) :
  (String.length suf < fuel)%nat ->
  env_expand_loop fuel sh suf acc =
  match env_expand sh suf with
  | Some (r, sh') => Some (acc ++ r, sh')
  | None => None
  end.
Proof.
  intros H. rewrite <- (append_nil_r acc) at 1.
  apply (env_expand_loop_ext (S (String.length suf)) sh suf "" fuel acc); lia.
Qed.

(** A brace construct in a word: the text before it is copied, the
    construct contributes what [expand_brace] appends, and the loop goes on
    with the text after the closing brace. *)
Lemma env_expand_brace_construct (sh sh1 : Shell)
    (pre inner suf out : string) :
  has_char "$" pre = false ->
  (forall result,
      expand_brace sh (inner ++ "}" ++ suf) result = (suf, result ++ out, sh1)) ->
  exists r sh',
    env_expand sh1 suf = Some (r, sh')
    /\ env_expand sh (pre ++ "${" ++ inner ++ "}" ++ suf)
       = Some (pre ++ out ++ r, sh').
Proof.
  intros Hpre Hb.
  destruct (env_expand_total sh1 suf) as (r & sh' & Hr).
  exists r, sh'. split; [exact Hr|].
  rewrite (env_expand_after_literal sh pre _ Hpre).
  change ("${" ++ inner ++ "}" ++ suf)
    with (String "$" (String "{" (inner ++ "}" ++ suf))).
  cbn [env_expand_loop Ascii.eqb Bool.eqb negb].
  change (isdigit "{") with false. cbn iota.
  rewrite Hb. rewrite env_expand_loop_resume.
  - rewrite Hr. now rewrite append_assoc.
  - cbn [String.length]. rewrite !length_append. cbn [String.length]. lia.
Qed.

(** The characters that may not occur in the name of a brace construct. *)
Definition brace_name (NAME : string) : bool :=
  Lex.string_forallb
    (fun x => negb (Ascii.eqb x "}" || Ascii.eqb x ":")) NAME.

(** A word without a dollar sign and without a closing brace. *)
Definition plain_text (w : string) : bool :=
  negb (has_char "$" w) && negb (has_char "}" w).

(** The value of a variable, the empty text when it is not set. *)
Definition value_or_empty (sh : Shell) (NAME : string) : string :=
  match env_get (env sh) NAME with
  | Some v => v
  | None => ""
  end.

Lemma append_opt_value (sh : Shell) (NAME result : string) :
  append_opt result (env_get (env sh) NAME)
  = result ++ value_or_empty sh NAME.
Proof.
  unfold value_or_empty. destruct (env_get (env sh) NAME); simpl;
    [reflexivity | now rewrite append_nil_r].
Qed.

Lemma plain_text_spec (w : string) :
  plain_text w = true -> has_char "$" w = false /\ has_char "}" w = false.
Proof.
  unfold plain_text. intros H. apply andb_true_iff in H as [H1 H2].
  now apply negb_true_iff in H1, H2.
Qed.

Lemma expand_brace_value (sh : Shell) (NAME suf result : string) :
  brace_name NAME = true ->
  expand_brace sh (NAME ++ "}" ++ suf) result
  = (suf, result ++ value_or_empty sh NAME, sh).
Proof.
  intros HN. unfold expand_brace.
  change (NAME ++ "}" ++ suf) with (NAME ++ String "}" suf).
  rewrite (span_stops_at _ NAME "}" suf HN eq_refl).
  cbn [skip_close]. now rewrite append_opt_value.
Qed.

Lemma expand_brace_operator (sh : Shell) (NAME word suf result : string)
    (op : ascii) :
  brace_name NAME = true ->
  plain_text word = true ->
  expand_brace sh (NAME ++ String ":" (String op (word ++ "}" ++ suf))) result
  = let val := env_get (env sh) NAME in
    let '(result', sh') :=
      if Ascii.eqb op "-" then
        (if unset_or_empty val then result ++ word
         else append_opt result val, sh)
      else if Ascii.eqb op "=" then
        if unset_or_empty val
        then (result ++ word, with_env sh (env_set (env sh) NAME word false))
        else (append_opt result val, sh)
      else if Ascii.eqb op "+" then
        (if unset_or_empty val then result else result ++ word, sh)
      else if Ascii.eqb op "?" then
        if unset_or_empty val
        then (result, eprint sh (unset_message NAME word))
        else (append_opt result val, sh)
      else (append_opt result val, sh) in
    (suf, result', sh').
Proof.
  intros HN Hw. destruct (plain_text_spec word Hw) as [Hd Hb].
  unfold expand_brace.
  rewrite (span_stops_at _ NAME ":" _ HN eq_refl).
  change (word ++ "}" ++ suf) with (word ++ String "}" suf).
  rewrite (read_brace_body_plain word suf "" Hd Hb).
  cbn [append skip_close]. unfold unset_message.
  destruct (Ascii.eqb op "-"); [reflexivity|].
  destruct (Ascii.eqb op "="); [now destruct (unset_or_empty _)|].
  destruct (Ascii.eqb op "+"); [reflexivity|].
  destruct (Ascii.eqb op "?"); [now destruct (unset_or_empty _)|].
  reflexivity.
Qed.

(** The forms that read a variable without changing the shell: [NAME] in
    braces expands to the value of the variable (nothing when unset);
    [NAME:-word] to [word] when the variable is unset or empty and to its
    value otherwise; [NAME:+word] to nothing when the variable is unset or
    empty and to [word] otherwise.  The rest of the word is expanded in the
    same shell state. *)
Theorem env_expand_default_and_alternative :
  forall (sh : Shell) (pre NAME word suf : string),
    has_char "$" pre = false ->
    brace_name NAME = true ->
    plain_text word = true ->
    exists r sh',
      env_expand sh suf = Some (r, sh')
      /\ env_expand sh (pre ++ "${" ++ NAME ++ "}" ++ suf)
         = Some (pre ++ value_or_empty sh NAME ++ r, sh')
      /\ env_expand sh (pre ++ "${" ++ NAME ++ ":-" ++ word ++ "}" ++ suf)
         = Some (pre ++ (if unset_or_empty (env_get (env sh) NAME)
                         then word else value_or_empty sh NAME) ++ r, sh')
      /\ env_expand sh (pre ++ "${" ++ NAME ++ ":+" ++ word ++ "}" ++ suf)
         = Some (pre ++ (if unset_or_empty (env_get (env sh) NAME)
                         then "" else word) ++ r, sh').
Proof.
  intros sh pre NAME word suf Hpre HN Hw.
  destruct (env_expand_total sh suf) as (r & sh' & Hr).
  exists r, sh'. split; [exact Hr|]. split; [|split].
  - destruct (env_expand_brace_construct sh sh pre NAME suf
                (value_or_empty sh NAME) Hpre) as (r1 & sh1 & Hr1 & H).
    { intros result. now apply expand_brace_value. }
    rewrite Hr in Hr1. injection Hr1 as <- <-. exact H.
  - destruct (env_expand_brace_construct sh sh pre (NAME ++ ":-" ++ word) suf
                (if unset_or_empty (env_get (env sh) NAME)
                 then word else value_or_empty sh NAME) Hpre)
      as (r1 & sh1 & Hr1 & H).
    { intros result. rewrite append_assoc.
      change ((":-" ++ word) ++ "}" ++ suf)
        with (String ":" (String "-" (word ++ "}" ++ suf))).
      rewrite (expand_brace_operator sh NAME word suf result "-" HN Hw).
      cbn [Ascii.eqb Bool.eqb]. cbv zeta.
      rewrite append_opt_value. now destruct (unset_or_empty _). }
    rewrite Hr in Hr1. injection Hr1 as <- <-.
    rewrite !append_assoc in H. exact H.
  - destruct (env_expand_brace_construct sh sh pre (NAME ++ ":+" ++ word) suf
                (if unset_or_empty (env_get (env sh) NAME)
                 then "" else word) Hpre)
      as (r1 & sh1 & Hr1 & H).
    { intros result. rewrite append_assoc.
      change ((":+" ++ word) ++ "}" ++ suf)
        with (String ":" (String "+" (word ++ "}" ++ suf))).
      rewrite (expand_brace_operator sh NAME word suf result "+" HN Hw).
      cbn [Ascii.eqb Bool.eqb]. cbv zeta.
      destruct (unset_or_empty _); [now rewrite append_nil_r | reflexivity]. }
    rewrite Hr in Hr1. injection Hr1 as <- <-.
    rewrite !append_assoc in H. exact H.
Qed.

(** A non-interactive shell with an empty table and no positional
    parameters. *)
Definition empty_shell : Shell := mkShell env_empty 0 1 false None 0 [].

Lemma env_expand_default_and_alternative_witness :
  has_char "$" "a" = false
  /\ brace_name "X" = true
  /\ plain_text "w" = true
  /\ exists r sh',
      env_expand empty_shell "b" = Some (r, sh')
      /\ env_expand empty_shell ("a" ++ "${" ++ "X" ++ "}" ++ "b")
         = Some ("a" ++ value_or_empty empty_shell "X" ++ r, sh')
      /\ env_expand empty_shell ("a" ++ "${" ++ "X" ++ ":-" ++ "w" ++ "}" ++ "b")
         = Some ("a" ++ (if unset_or_empty (env_get (env empty_shell) "X")
                         then "w" else value_or_empty empty_shell "X") ++ r,
                 sh')
      /\ env_expand empty_shell ("a" ++ "${" ++ "X" ++ ":+" ++ "w" ++ "}" ++ "b")
         = Some ("a" ++ (if unset_or_empty (env_get (env empty_shell) "X")
                         then "" else "w") ++ r, sh').
Proof.
  split; [reflexivity|]. split; [reflexivity|]. split; [reflexivity|].
  apply (env_expand_default_and_alternative empty_shell "a" "X" "w" "b");
    reflexivity.
Defined.

(** The assigning form: when the variable is unset or empty, [NAME:=word]
    in braces expands to [word] and sets the variable, unexported, to
    [word], so that it reads as [word] in the rest of the word and
    afterwards. *)
Theorem env_expand_assign_default :
  forall (sh : Shell) (pre NAME word suf : string),
    has_char "$" pre = false ->
    brace_name NAME = true ->
    plain_text word = true ->
    List.length (buckets (env sh)) = 256%nat ->
    unset_or_empty (env_get (env sh) NAME) = true ->
    let sh1 := with_env sh (env_set (env sh) NAME word false) in
    env_entry (env sh1) NAME = Some (mkEntry NAME word false)
    /\ exists r sh',
        env_expand sh1 suf = Some (r, sh')
        /\ env_expand sh (pre ++ "${" ++ NAME ++ ":=" ++ word ++ "}" ++ suf)
           = Some (pre ++ word ++ r, sh').
Proof.
  intros sh pre NAME word suf Hpre HN Hw Hlen Hu sh1. split.
  - exact (env_set_entry (env sh) NAME word false Hlen).
  - destruct (env_expand_brace_construct sh sh1 pre (NAME ++ ":=" ++ word) suf
                word Hpre) as (r & sh' & Hr & H).
    { intros result. rewrite append_assoc.
      change ((":=" ++ word) ++ "}" ++ suf)
        with (String ":" (String "=" (word ++ "}" ++ suf))).
      rewrite (expand_brace_operator sh NAME word suf result "=" HN Hw).
      cbn [Ascii.eqb Bool.eqb]. cbv zeta. now rewrite Hu. }
    exists r, sh'. split; [exact Hr|].
    rewrite !append_assoc in H. exact H.
Qed.

Lemma env_expand_assign_default_witness :
  has_char "$" "a" = false
  /\ brace_name "X" = true
  /\ plain_text "w" = true
  /\ List.length (buckets (env empty_shell)) = 256%nat
  /\ unset_or_empty (env_get (env empty_shell) "X") = true
  /\ (let sh1 :=
        with_env empty_shell (env_set (env empty_shell) "X" "w" false) in
      env_entry (env sh1) "X" = Some (mkEntry "X" "w" false)
      /\ exists r sh',
          env_expand sh1 "b" = Some (r, sh')
          /\ env_expand empty_shell
               ("a" ++ "${" ++ "X" ++ ":=" ++ "w" ++ "}" ++ "b")
             = Some ("a" ++ "w" ++ r, sh')).
Proof.
  split; [reflexivity|]. split; [reflexivity|]. split; [reflexivity|].
  split; [reflexivity|]. split; [reflexivity|].
  apply (env_expand_assign_default empty_shell "a" "X" "w" "b");
    reflexivity.
Defined.

(** [read_brace_body] over text without dollar signs and closing braces, at
    any depth. *)
Lemma read_brace_body_text (body : string) :
  forall rest depth out,
    has_char "$" body = false ->
    has_char "}" body = false ->
    read_brace_body (body ++ String "}" rest) depth out =
    match depth with
    | O => (out ++ body, String "}" rest)
    | S k => read_brace_body rest k (out ++ body ++ "}")
    end.
Proof.
  induction body as [|c body IH]; intros rest depth out Hd Hb.
  - cbn [append read_brace_body Ascii.eqb Bool.eqb andb].
    destruct rest as [|d rest'].
    + destruct depth; [now rewrite append_nil_r | reflexivity].
    + destruct depth; [now rewrite append_nil_r|].
      destruct d as [[] [] [] [] [] [] [] []]; reflexivity.
  - simpl in Hd, Hb.
    apply orb_false_iff in Hd as [Hc1 Hd].
    apply orb_false_iff in Hb as [Hc2 Hb].
    cbn [append read_brace_body].
    rewrite Hc1, Hc2. cbn [andb].
    destruct (body ++ String "}" rest) as [|d r'] eqn:E.
    + destruct body; discriminate.
    + rewrite <- E. rewrite IH by assumption.
      destruct depth; now rewrite !append_assoc.
Qed.

(** A default that is itself a brace construct is inserted as text: when
    [X] is unset or empty, [X:-] followed by [Y] in braces after a dollar
    sign, all inside braces, expands to the text of the inner construct,
    whatever the value of [Y]. *)
Theorem env_expand_nested_default_is_not_expanded :
  forall (sh : Shell) (pre X Y suf : string),
    has_char "$" pre = false ->
    brace_name X = true ->
    plain_text Y = true ->
    unset_or_empty (env_get (env sh) X) = true ->
    exists r sh',
      env_expand sh suf = Some (r, sh')
      /\ env_expand sh (pre ++ "${" ++ X ++ ":-" ++ "${" ++ Y ++ "}" ++ "}" ++ suf)
         = Some (pre ++ ("${" ++ Y ++ "}") ++ r, sh').
Proof.
  intros sh pre X Y suf Hpre HX HY Hu.
  destruct (plain_text_spec Y HY) as [Hd Hb].
  destruct (env_expand_brace_construct sh sh pre
              (X ++ ":-" ++ "${" ++ Y ++ "}") suf ("${" ++ Y ++ "}") Hpre)
    as (r & sh' & Hr & H).
  { intros result. rewrite append_assoc. unfold expand_brace.
    change ((":-" ++ "${" ++ Y ++ "}") ++ "}" ++ suf)
      with (String ":" (String "-"
              (String "$" (String "{" ((Y ++ "}") ++ String "}" suf))))).
    rewrite (span_stops_at _ X ":" _ HX eq_refl).
    cbn [read_brace_body Ascii.eqb Bool.eqb andb].
    rewrite append_assoc.
    change ("}" ++ String "}" suf) with (String "}" (String "}" suf)).
    rewrite (read_brace_body_text Y (String "}" suf) 1 _ Hd Hb).
    cbn [read_brace_body Ascii.eqb Bool.eqb andb].
    destruct suf as [|c suf'];
      cbn [Ascii.eqb Bool.eqb skip_close]; rewrite Hu; reflexivity. }
  exists r, sh'. split; [exact Hr|].
  rewrite !append_assoc in H. rewrite !append_assoc. exact H.
Qed.

Lemma env_expand_nested_default_is_not_expanded_witness :
  has_char "$" "a" = false
  /\ brace_name "X" = true
  /\ plain_text "Y" = true
  /\ unset_or_empty (env_get (env empty_shell) "X") = true
  /\ exists r sh',
      env_expand empty_shell "b" = Some (r, sh')
      /\ env_expand empty_shell
           ("a" ++ "${" ++ "X" ++ ":-" ++ "${" ++ "Y" ++ "}" ++ "}" ++ "b")
         = Some ("a" ++ ("${" ++ "Y" ++ "}") ++ r, sh').
Proof.
  split; [reflexivity|]. split; [reflexivity|]. split; [reflexivity|].
  split; [reflexivity|].
  apply (env_expand_nested_default_is_not_expanded empty_shell "a" "X" "Y" "b");
    reflexivity.
Defined.

(** Text that cannot continue a variable name: empty, or starting with a
    character that is neither a letter, a digit nor an underscore. *)
Definition ends_name (suf : string) : bool :=
  match suf with
  | "" => true
  | String c _ => negb (isalnum c || Ascii.eqb c "_")
  end.

Lemma name_start_char (d : ascii) :
  isalpha d || Ascii.eqb d "_" = true ->
  Ascii.eqb d "$" = false /\ Ascii.eqb d "?" = false
  /\ Ascii.eqb d "#" = false /\ Ascii.eqb d "!" = false
  /\ isdigit d = false /\ Ascii.eqb d "{" = false
  /\ isalnum d || Ascii.eqb d "_" = true.
Proof.
  destruct d as [[] [] [] [] [] [] [] []]; vm_compute; intros H;
    repeat split; congruence.
Qed.

Lemma span_name (NAME suf : string) :
  Lex.string_forallb (fun x => isalnum x || Ascii.eqb x "_") NAME = true ->
  ends_name suf = true ->
  span (fun x => negb (isalnum x || Ascii.eqb x "_")) (NAME ++ suf)
  = (NAME, suf).
Proof.
  intros HN Hs. induction NAME as [|c r IH]; cbn [append span].
  - destruct suf as [|d suf']; [reflexivity|]. unfold ends_name in Hs.
    cbn [span]. now rewrite Hs.
  - cbn [Lex.string_forallb] in HN. apply andb_true_iff in HN as [Hc Hr].
    rewrite Hc. cbn [negb]. now rewrite (IH Hr).
Qed.

(** A dollar sign followed by a variable name expands to the value of the
    variable, or to nothing when it is not set; the name extends over the
    letters, digits and underscores that follow. *)
Theorem env_expand_variable :
  forall (sh : Shell) (pre NAME suf : string),
    has_char "$" pre = false ->
    is_name NAME = true ->
    ends_name suf = true ->
    exists r sh',
      env_expand sh suf = Some (r, sh')
      /\ env_expand sh (pre ++ "$" ++ NAME ++ suf)
         = Some (pre ++ value_or_empty sh NAME ++ r, sh').
Proof.
  intros sh pre NAME suf Hpre HN Hs.
  destruct (env_expand_total sh suf) as (r & sh' & Hr).
  exists r, sh'. split; [exact Hr|].
  rewrite (env_expand_after_literal sh pre _ Hpre).
  destruct NAME as [|d n]; [discriminate|].
  pose proof HN as HN'. simpl in HN'.
  apply andb_true_iff in HN' as [Hd Hn].
  destruct (name_start_char d Hd) as (E1 & E2 & E3 & E4 & E5 & E6 & E7).
  change ("$" ++ String d n ++ suf) with (String "$" (String d (n ++ suf))).
  cbn [env_expand_loop Ascii.eqb Bool.eqb negb].
  rewrite E1, E2, E3, E4, E5, E6, Hd.
  change (String d (n ++ suf)) with (String d n ++ suf).
  rewrite (span_name (String d n) suf); [|simpl; now rewrite E7, Hn|exact Hs].
  rewrite append_opt_value, env_expand_loop_resume.
  - rewrite Hr. now rewrite append_assoc.
  - cbn [String.length]. rewrite !length_append. cbn [String.length]. lia.
Qed.

Lemma env_expand_variable_witness :
  has_char "$" "a" = false
  /\ is_name "HOME" = true
  /\ ends_name "/b" = true
  /\ exists r sh',
      env_expand empty_shell "/b" = Some (r, sh')
      /\ env_expand empty_shell ("a" ++ "$" ++ "HOME" ++ "/b")
         = Some ("a" ++ value_or_empty empty_shell "HOME" ++ r, sh').
Proof.
  split; [reflexivity|]. split; [reflexivity|]. split; [reflexivity|].
  apply (env_expand_variable empty_shell "a" "HOME" "/b"); reflexivity.
Defined.

(** The special parameters: a dollar sign followed by a question mark
    expands to the last exit status, by a second dollar sign to the process
    id of the shell, by a hash sign to the number of positional parameters,
    each as the text [snprintf] writes into a buffer of 32 bytes; followed
    by 0 it expands to [vsh]; a dollar sign that ends the word stays. *)
Theorem env_expand_special_parameters :
  forall (sh : Shell) (pre suf : string),
    has_char "$" pre = false ->
    exists r sh',
      env_expand sh suf = Some (r, sh')
      /\ env_expand sh (pre ++ "$?" ++ suf)
         = Some (pre ++ snprintf 32 (string_of_int (last_status sh)) ++ r, sh')
      /\ env_expand sh (pre ++ "$$" ++ suf)
         = Some (pre ++ snprintf 32 (string_of_int (shell_pid sh)) ++ r, sh')
      /\ env_expand sh (pre ++ "$#" ++ suf)
         = Some (pre ++ snprintf 32 (string_of_int (pos_count sh)) ++ r, sh')
      /\ env_expand sh (pre ++ "$0" ++ suf) = Some (pre ++ "vsh" ++ r, sh')
      /\ env_expand sh (pre ++ "$") = Some (pre ++ "$", sh).
Proof.
  intros sh pre suf Hpre.
  destruct (env_expand_total sh suf) as (r & sh' & Hr).
  exists r, sh'. split; [exact Hr|].
  assert (Hfuel : forall d : ascii,
             (String.length suf
              < String.length (String "$" (String d suf)))%nat)
    by (intros d; cbn [String.length]; lia).
  repeat split.
  - rewrite (env_expand_after_literal sh pre _ Hpre).
    change ("$?" ++ suf) with (String "$" (String "?" suf)).
    cbn [env_expand_loop Ascii.eqb Bool.eqb negb].
    rewrite env_expand_loop_resume by apply Hfuel.
    rewrite Hr. now rewrite append_assoc.
  - rewrite (env_expand_after_literal sh pre _ Hpre).
    change ("$$" ++ suf) with (String "$" (String "$" suf)).
    cbn [env_expand_loop Ascii.eqb Bool.eqb negb].
    rewrite env_expand_loop_resume by apply Hfuel.
    rewrite Hr. now rewrite append_assoc.
  - rewrite (env_expand_after_literal sh pre _ Hpre).
    change ("$#" ++ suf) with (String "$" (String "#" suf)).
    cbn [env_expand_loop Ascii.eqb Bool.eqb negb].
    rewrite env_expand_loop_resume by apply Hfuel.
    rewrite Hr. now rewrite append_assoc.
  - rewrite (env_expand_after_literal sh pre _ Hpre).
    change ("$0" ++ suf) with (String "$" (String "0" suf)).
    cbn [env_expand_loop Ascii.eqb Bool.eqb negb].
    change (isdigit "0") with true. cbv iota.
    change (Z.of_nat (nat_of_ascii "0") - 48 =? 0)%Z with true. cbv iota.
    rewrite env_expand_loop_resume by apply Hfuel.
    rewrite Hr. now rewrite append_assoc.
  - rewrite (env_expand_after_literal sh pre _ Hpre). reflexivity.
Qed.

Lemma env_expand_special_parameters_witness :
  has_char "$" "a" = false
  /\ exists r sh',
      env_expand empty_shell "b" = Some (r, sh')
      /\ env_expand empty_shell ("a" ++ "$?" ++ "b")
         = Some ("a" ++ snprintf 32 (string_of_int (last_status empty_shell))
                 ++ r, sh')
      /\ env_expand empty_shell ("a" ++ "$$" ++ "b")
         = Some ("a" ++ snprintf 32 (string_of_int (shell_pid empty_shell))
                 ++ r, sh')
      /\ env_expand empty_shell ("a" ++ "$#" ++ "b")
         = Some ("a" ++ snprintf 32 (string_of_int (pos_count empty_shell))
                 ++ r, sh')
      /\ env_expand empty_shell ("a" ++ "$0" ++ "b")
         = Some ("a" ++ "vsh" ++ r, sh')
      /\ env_expand empty_shell ("a" ++ "$") = Some ("a" ++ "$", empty_shell).
Proof.
  split; [reflexivity|].
  apply (env_expand_special_parameters empty_shell "a" "b"). reflexivity.
Defined.

End Env.

(* ===================================================================== *)
(** ** wildcard.c, builtins.c and executor.c *)
(* ===================================================================== *)

Module Exec.
Import CStr Lex Parse Env.
Local Open Scope string_scope.
Local Open Scope Z_scope.

(** *** Redirections (applied in a forked child) *)

(** The flag sets the redirections pass to [open]. *)
Inductive OpenFlags : Type :=
| O_RDONLY
| O_WRONLY_CREAT_TRUNC
| O_WRONLY_CREAT_APPEND.

(** What a child asks of its environment while it applies redirections. *)
Inductive Call : Type :=
| SysOpen (path : string) (flags : OpenFlags)
| SysDup2 (oldfd newfd : Z)
| SysClose (fd : Z)
| SayError (who : string)
| SayText (text : string).

(** The history of a process: its calls, oldest first, each with the value
    it returned. *)
Definition History : Type := list (Call * Z).

(** [atoi]. *)
Fixpoint atoi_digits (s : string) (acc : Z) : Z :=
  match s with
  | "" => acc
  | String c r =>
    if isdigit c then atoi_digits r (acc * 10 + (Z.of_nat (nat_of_ascii c) - 48))
    else acc
  end.

Definition atoi (s : string) : Z :=
  match snd (span (fun c => negb (isspace c)) s) with
  | String "-" r => - atoi_digits r 0
  | String "+" r => atoi_digits r 0
  | s' => atoi_digits s' 0
  end.

Section Redirections.
(** The answer of the operating system to a call, given the history. *)
Variable sys : History -> Call -> Z.

Definition syscall (h : History) (c : Call) : Z * History :=
  let r := sys h c in (r, (h ++ [(c, r)])%list).

(** [open] the target, [dup2] it onto [fd], [close] it. *)
Definition redirect_file (h : History) (target : string) (flags : OpenFlags)
    (fd : Z) : Z * History :=
  let '(src, h) := syscall h (SysOpen target flags) in
  if src <? 0 then (-1, snd (syscall h (SayError ("vsh: " ++ target))))
  else
    let '(d, h) := syscall h (SysDup2 src fd) in
    if d <? 0 then
      let h := snd (syscall h (SayError "vsh: dup2")) in
      (-1, snd (syscall h (SysClose src)))
    else (0, snd (syscall h (SysClose src))).

Definition redirect_dup (h : History) (target : string) (fd : Z)
    : Z * History :=
  let '(d, h) := syscall h (SysDup2 (atoi target) fd) in
  if d <? 0 then (-1, snd (syscall h (SayError "vsh: dup2")))
  else (0, h).

(** One iteration of the loop of [executor_apply_redirections]: 0 to go on,
    -1 for [return -1]. *)
Definition apply_redirection (h : History) (r : Redirection) : Z * History :=
  let fd := redir_fd r in
  match redir_type r with
  | REDIR_INPUT =>
    redirect_file h (redir_target r) O_RDONLY (if fd <? 0 then 0 else fd)
  | REDIR_OUTPUT =>
    redirect_file h (redir_target r) O_WRONLY_CREAT_TRUNC
      (if fd <? 0 then 1 else fd)
  | REDIR_APPEND =>
    redirect_file h (redir_target r) O_WRONLY_CREAT_APPEND
      (if fd <? 0 then 1 else fd)
  | REDIR_DUP_OUT => redirect_dup h (redir_target r) (if fd <? 0 then 1 else fd)
  | REDIR_DUP_IN => redirect_dup h (redir_target r) (if fd <? 0 then 0 else fd)
  | REDIR_HEREDOC =>
    (0, snd (syscall h (SayText "vsh: heredoc: not yet implemented")))
  end.

(** [executor_apply_redirections]: the chain is walked from its head. *)
Fixpoint executor_apply_redirections (redirs : list Redirection)
    (h : History) : Z * History :=
  match redirs with
  | [] => (0, h)
  | r :: next =>
    let '(st, h') := apply_redirection h r in
    if st <? 0 then (-1, h') else executor_apply_redirections next h'
  end.

End Redirections.

(** *** wildcard.c *)

(** [wildcard_has_magic]. *)
Fixpoint wildcard_has_magic (pattern : string) : bool :=
  match pattern with
  | "" => false
  | String c r =>
    if Ascii.eqb c "*" || Ascii.eqb c "?" || Ascii.eqb c "[" then true
    else if Ascii.eqb c c_bslash then
      match r with
      | String _ r' => wildcard_has_magic r'
      | "" => false
      end
    else wildcard_has_magic r
  end.

(** Drop the trailing slash [GLOB_MARK] adds to a directory. *)
Definition strip_mark (path : string) : string :=
  if (1 <? String.length path)%nat && Ascii.eqb (last_char path) "/"
  then substring 0 (String.length path - 1) path
  else path.

Fixpoint insert_sorted (x : string) (l : list string) : list string :=
  match l with
  | [] => [x]
  | y :: more =>
    if String.leb x y then x :: l else y :: insert_sorted x more
  end.

(** [qsort] with [strcmp]. *)
Definition sort_strings (l : list string) : list string :=
  fold_right insert_sorted [] l.

(** [wildcard_expand]; [glob] is the outcome of glob(3): the paths found,
    or [None] on failure. *)
Definition wildcard_expand (glob : string -> option (list string))
    (pattern : string) : list string :=
  if negb (wildcard_has_magic pattern) then []
  else match glob pattern with
       | None => []
       | Some paths => sort_strings (map strip_mark paths)
       end.

(** *** builtins.c *)

(** The names of [builtin_table], in the order of the table. *)
Definition builtin_names : list string :=
  [ "cd"; "exit"; "help"; "export"; "unset"; "alias"; "unalias"; "history";
    "jobs"; "fg"; "bg"; "source"; "."; "sysinfo"; "httpfetch"; "calc";
    "watch"; "pushd"; "popd"; "dirs"; "colors"; "pwd"; "echo"; "type";
    "return"; "local" ].

(** [builtins_is_builtin]. *)
Definition builtins_is_builtin (name : string) : bool :=
  existsb (String.eqb name) builtin_names.

(** [builtin_unset] (builtins/export.c): with fewer than two words the
    usage error; otherwise [env_unset] on [argv[1]] to [argv[argc - 1]], in
    order. *)
Definition builtin_unset (sh : Shell) (args : list string) : Z * Shell :=
  if (List.length args <? 2)%nat then
    (1, eprint sh ("vsh: unset: not enough arguments" ++ String c_newline ""))
  else (0, with_env sh (fold_left env_unset (tl args) (env sh))).

(** *** executor.c *)

(** The outcome of a [fork]: its failure, or what the parent observes once
    it has waited. *)
Inductive Forked (A : Type) : Type :=
| ForkFailed
| ForkDone (a : A).
Arguments ForkFailed {A}.
Arguments ForkDone {A} a.

Section Executor.
(** The handlers of the builtin table. *)
Variable builtin_handler : string -> Shell -> list string -> Z * Shell.
(** An external command: fork, the child (process group, signals,
    assignments, redirections, exec), job registration, foreground wait.
    The arguments are the command node and the expanded [argv]. *)
Variable os_external : Shell -> CommandNode -> list string -> Forked Z.
(** The pipes, forks and wait of a pipeline of two or more commands. *)
Variable os_pipeline : Shell -> list (option ASTNode) -> Forked Z.
(** A subshell: fork, run the child, wait. *)
Variable os_subshell : Shell -> option ASTNode -> Forked Z.
(** A background job: fork and job registration; the report [[id] pid]. *)
Variable os_background : Shell -> option ASTNode -> Forked string.
(** glob(3), getpwnam(3), the text of [%p]. *)
Variable os_glob : string -> option (list string).
Variable os_getpwnam : string -> option string.
Variable os_pointer_text : option ASTNode -> string.

(** [builtins_execute]. *)
Definition builtins_execute (sh : Shell) (args : list string) : Z * Shell :=
  match args with
  | name :: _ =>
    if builtins_is_builtin name then builtin_handler name sh args
    else (-1, sh)
  | [] => (-1, sh)
  end.

(** [env_expand_tilde]. *)
Definition env_expand_tilde (sh : Shell) (path : string) : string :=
  match path with
  | String "~" rest =>
    let var (name : string) : string :=
      match env_get (env sh) name with
      | Some v => v
      | None => ""
      end in
    match rest with
    | String "+" "" => var "PWD"
    | String "+" (String "/" _ as tail) => var "PWD" ++ tail
    | String "-" "" => var "OLDPWD"
    | String "-" (String "/" _ as tail) => var "OLDPWD" ++ tail
    | "" => var "HOME"
    | String "/" _ => var "HOME" ++ rest
    | _ =>
      let '(username, tail) := span (fun c => Ascii.eqb c "/") rest in
      match os_getpwnam username with
      | None => path
      | Some dir => dir ++ tail
      end
    end
  | _ => path
  end.

(** The second and third expansions of [expand_word], on the text that
    [env_expand] returned: tilde expansion when the text starts with a
    tilde, then wildcard expansion; the words the text contributes. *)
Definition expanded_fields (sh : Shell) (expanded : string) : list string :=
  let expanded :=
    match expanded with
    | String "~" _ => env_expand_tilde sh expanded
    | _ => expanded
    end in
  if wildcard_has_magic expanded then
    match wildcard_expand os_glob expanded with
    | [] => [expanded]
    | matches => matches
    end
  else [expanded].

(** [expand_word]: the three expansions of one word, in order; the words it
    contributes. *)
Definition expand_one (sh : Shell) (word : string)
    : option (list string * Shell) :=
  '(expanded, sh) <- env_expand sh word ;;
  Some (expanded_fields sh expanded, sh).

(** [expand_word] over the words of a command. *)
Fixpoint expand_words (sh : Shell) (words : list string)
    : option (list string * Shell) :=
  match words with
  | [] => Some ([], sh)
  | w :: more =>
    '(ws, sh) <- expand_one sh w ;;
    '(rest, sh) <- expand_words sh more ;;
    Some ((ws ++ rest)%list, sh)
  end.

(** The loop over [cmd->assignments]. *)
Fixpoint apply_assignments (sh : Shell) (assigns : list string) (exp : bool)
    : option Shell :=
  match assigns with
  | [] => Some sh
  | a :: more =>
    match env_parse_assignment a with
    | Some (k, v) =>
      '(exp_val, sh) <- env_expand sh v ;;
      apply_assignments (with_env sh (env_set (env sh) k exp_val exp)) more exp
    | None => apply_assignments sh more exp
    end
  end.

(** [executor_exec_command]. *)
Definition executor_exec_command (sh : Shell) (cmd : CommandNode)
    : option (Z * Shell) :=
  if (argc cmd =? 0) && (0 <? nassign cmd) then
    sh <- apply_assignments sh (assignments cmd) false ;;
    Some (0, with_last_status sh 0)
  else
    '(args, sh) <- expand_words sh (argv cmd) ;;
    match args with
    | [] => Some (0, with_last_status sh 0)
    | name :: _ =>
      if builtins_is_builtin name then
        let '(status, sh) := builtins_execute sh args in
        Some (status, with_last_status sh status)
      else
        match os_external sh cmd args with
        | ForkFailed => Some (1, with_last_status (eprint sh "vsh: fork") 1)
        | ForkDone status => Some (status, with_last_status sh status)
        end
    end.

(** The functions below call [executor_execute] on subtrees; they take it
    as the parameter [exec], and [executor_execute] ties the knot. *)
Section Nodes.
Variable exec : Shell -> option ASTNode -> option (Z * Shell).

(** [pipeline_execute] (pipeline.c). *)
Definition pipeline_execute (sh : Shell) (commands : list (option ASTNode))
    (negated : bool) : option (Z * Shell) :=
  let negate (status : Z) : Z :=
    if negated then (if status =? 0 then 1 else 0) else status in
  match commands with
  | [only] =>
    '(status, sh) <- exec sh only ;;
    Some (negate status, with_last_status sh (negate status))
  | _ =>
    match os_pipeline sh commands with
    | ForkFailed => Some (1, eprint sh "vsh: pipeline")
    | ForkDone status =>
      Some (negate status, with_last_status sh (negate status))
    end
  end.

(** [exec_and]. *)
Definition exec_and (sh : Shell) (lhs rhs : option ASTNode)
    : option (Z * Shell) :=
  '(status, sh) <- exec sh lhs ;;
  if status =? 0 then exec sh rhs else Some (status, sh).

(** [exec_or]. *)
Definition exec_or (sh : Shell) (lhs rhs : option ASTNode)
    : option (Z * Shell) :=
  '(status, sh) <- exec sh lhs ;;
  if negb (status =? 0) then exec sh rhs else Some (status, sh).

(** [exec_sequence]. *)
Definition exec_sequence (sh : Shell) (lhs rhs : option ASTNode)
    : option (Z * Shell) :=
  '(_, sh) <- exec sh lhs ;;
  exec sh rhs.

(** [exec_background]. *)
Definition exec_background (sh : Shell) (child : option ASTNode)
    : option (Z * Shell) :=
  match os_background sh child with
  | ForkFailed => Some (1, eprint sh "vsh: fork")
  | ForkDone report => Some (0, eprint sh report)
  end.

(** [exec_negate]. *)
Definition exec_negate (sh : Shell) (child : option ASTNode)
    : option (Z * Shell) :=
  '(status, sh) <- exec sh child ;;
  Some (if status =? 0 then 1 else 0, sh).

(** [exec_subshell]. *)
Definition exec_subshell (sh : Shell) (child : option ASTNode)
    : option (Z * Shell) :=
  match os_subshell sh child with
  | ForkFailed => Some (1, eprint sh "vsh: fork")
  | ForkDone status => Some (status, sh)
  end.

(** [exec_if]. *)
Definition exec_if (sh : Shell) (condition then_body else_body : option ASTNode)
    : option (Z * Shell) :=
  '(cond, sh) <- exec sh condition ;;
  if cond =? 0 then exec sh then_body
  else match else_body with
       | Some _ => exec sh else_body
       | None => Some (0, sh)
       end.

(** [exec_while]; [fuel] bounds the iterations. *)
Fixpoint exec_while (fuel : nat) (sh : Shell) (condition body : option ASTNode)
    (status : Z) : option (Z * Shell) :=
  match fuel with
  | O => None
  | S fuel' =>
    '(cond, sh) <- exec sh condition ;;
    if cond =? 0 then
      '(status, sh) <- exec sh body ;;
      exec_while fuel' sh condition body status
    else Some (status, sh)
  end.

(** The loop of [exec_for] over the matches of one word. *)
Fixpoint for_each_value (sh : Shell) (varname : string)
    (values : list string) (body : option ASTNode) (status : Z)
    : option (Z * Shell) :=
  match values with
  | [] => Some (status, sh)
  | v :: more =>
    '(status, sh) <-
      exec (with_env sh (env_set (env sh) varname v false)) body ;;
    for_each_value sh varname more body status
  end.

(** [exec_for]. *)
Fixpoint exec_for (sh : Shell) (varname : string) (words : list string)
    (body : option ASTNode) (status : Z) : option (Z * Shell) :=
  match words with
  | [] => Some (status, sh)
  | w :: more =>
    '(values, sh) <- expand_one sh w ;;
    '(status, sh) <- for_each_value sh varname values body status ;;
    exec_for sh varname more body status
  end.

(** [exec_function]. *)
Definition exec_function (sh : Shell) (name : string) (body : option ASTNode)
    : option (Z * Shell) :=
  let k := snprintf 256 ("func:" ++ name) in
  let ptr_buf := snprintf 32 (os_pointer_text body) in
  Some (0, with_env sh (env_set (env sh) k ptr_buf false)).

End Nodes.

(** [executor_execute].  [fuel] bounds the depth of the walk and the
    iterations of each while loop. *)
Fixpoint executor_execute (fuel : nat) (sh : Shell) (node : option ASTNode)
    : option (Z * Shell) :=
  match fuel with
  | O => None
  | S fuel' =>
    match node with
    | None => Some (0, sh)
    | Some n =>
      let exec := executor_execute fuel' in
      '(status, sh) <-
        match n with
        | NodeCommand cmd => executor_exec_command sh cmd
        | NodePipeline commands negated =>
          pipeline_execute exec sh commands negated
        | NodeAnd l r => exec_and exec sh l r
        | NodeOr l r => exec_or exec sh l r
        | NodeSequence l r => exec_sequence exec sh l r
        | NodeBackground child => exec_background sh child
        | NodeNegate child => exec_negate exec sh child
        | NodeSubshell child => exec_subshell sh child
        | NodeIf c t e => exec_if exec sh c t e
        | NodeWhile c b => exec_while exec fuel' sh c b 0
        | NodeFor v ws b => exec_for exec sh v ws b 0
        | NodeFunction name body => exec_function sh name body
        | NodeBlock child => exec sh child
        end ;;
      Some (status, with_last_status sh status)
    end
  end.

(** *** Simple commands *)

(** A word that none of the three expansions changes. *)
Definition plain_word (w : string) : bool :=
  negb (has_char "$" w) && negb (wildcard_has_magic w)
  && negb (match w with String "~" _ => true | _ => false end).

Lemma expand_one_plain (sh : Shell) (w : string) :
  plain_word w = true -> expand_one sh w = Some ([w], sh).
Proof.
  unfold plain_word. intros H.
  apply andb_true_iff in H as [H Ht]. apply andb_true_iff in H as [Hd Hm].
  apply negb_true_iff in Hd, Hm, Ht.
  unfold expand_one. rewrite (env_expand_plain sh w Hd). cbn [bind].
  unfold expanded_fields.
  replace (match w with String "~" _ => env_expand_tilde sh w | _ => w end)
    with w.
  - now rewrite Hm.
  - destruct w as [|c r]; [reflexivity|].
    destruct c as [[] [] [] [] [] [] [] []]; try reflexivity; discriminate.
Qed.

Lemma expand_words_plain (words : list string) :
  forall sh,
    Forall (fun w => plain_word w = true) words ->
    expand_words sh words = Some (words, sh).
Proof.
  induction words as [|w more IH]; intros sh H; [reflexivity|].
  inversion H as [|? ? Hw Hmore]; subst.
  cbn [expand_words]. rewrite (expand_one_plain sh w Hw). cbn [bind].
  rewrite (IH sh Hmore). reflexivity.
Qed.

(** A word always contributes at least one word. *)
Lemma expanded_fields_not_nil (sh : Shell) (expanded : string) :
  expanded_fields sh expanded <> [].
Proof.
  unfold expanded_fields.
  destruct (wildcard_has_magic _); [|discriminate].
  destruct (wildcard_expand os_glob _) eqn:E; [discriminate|].
  discriminate.
Qed.

Lemma expand_words_total (words : list string) :
  forall sh, exists args sh', expand_words sh words = Some (args, sh').
Proof.
  induction words as [|w more IH]; intros sh; cbn [expand_words]; [eauto|].
  unfold expand_one.
  destruct (env_expand_total sh w) as (e & sh1 & E). rewrite E. cbn [bind].
  destruct (IH sh1) as (rest & sh2 & E2). rewrite E2. cbn [bind]. eauto.
Qed.

Lemma expand_words_app (l1 : list string) :
  forall sh l2,
    expand_words sh (l1 ++ l2)%list =
    ('(a, sh1) <- expand_words sh l1 ;;
     '(b, sh2) <- expand_words sh1 l2 ;;
     Some ((a ++ b)%list, sh2)).
Proof.
  induction l1 as [|w l1 IH]; intros sh l2.
  - change ([] ++ l2)%list with l2. cbn [expand_words bind].
    destruct (expand_words sh l2) as [[b sh2]|]; reflexivity.
  - change ((w :: l1) ++ l2)%list with (w :: (l1 ++ l2))%list.
    cbn [expand_words].
    destruct (expand_one sh w) as [[ws sh1]|]; [|reflexivity]. cbn [bind].
    rewrite IH.
    destruct (expand_words sh1 l1) as [[a sh2]|]; [|reflexivity]. cbn [bind].
    destruct (expand_words sh2 l2) as [[b sh3]|]; [|reflexivity]. cbn [bind].
    now rewrite app_assoc.
Qed.

(** Expanding words only adds to what the shell has printed. *)
Lemma expand_words_stderr (words : list string) :
  forall sh args sh',
    expand_words sh words = Some (args, sh') ->
    exists more, stderr sh' = (stderr sh ++ more)%list.
Proof.
  induction words as [|w more IH]; intros sh args sh' H;
    cbn [expand_words] in H.
  - injection H as _ <-. exists []. now rewrite app_nil_r.
  - unfold expand_one in H.
    destruct (env_expand sh w) as [[e sh1]|] eqn:E; [|discriminate].
    cbn [bind] in H.
    destruct (expand_words sh1 more) as [[rest sh2]|] eqn:E2; [|discriminate].
    cbn [bind] in H. injection H as _ <-.
    destruct (env_expand_stderr sh sh1 w e E) as (m1 & H1).
    destruct (IH sh1 rest sh2 E2) as (m2 & H2).
    exists (m1 ++ m2)%list. now rewrite H2, H1, app_assoc.
Qed.

Lemma apply_assignments_total (assigns : list string) (exp : bool) :
  forall sh, exists sh', apply_assignments sh assigns exp = Some sh'.
Proof.
  induction assigns as [|a more IH]; intros sh; cbn [apply_assignments];
    [eauto|].
  destruct (env_parse_assignment a) as [[k v]|]; [|apply IH].
  destruct (env_expand_total sh v) as (val & sh1 & E). rewrite E.
  cbn [bind]. apply IH.
Qed.

(** The branch for bare assignments: a command without [argv] that holds
    assignments applies them unexported and returns 0. *)
Lemma bare_assignments_branch (sh : Shell) (cmd : CommandNode) :
  argv cmd = [] ->
  assignments cmd <> [] ->
  exists sh',
    apply_assignments sh (assignments cmd) false = Some sh'
    /\ executor_exec_command sh cmd = Some (0, with_last_status sh' 0).
Proof.
  intros Ha Hn. destruct (apply_assignments_total (assignments cmd) false sh)
    as [sh' E].
  exists sh'. split; [exact E|].
  unfold executor_exec_command, argc, nassign. rewrite Ha.
  destruct (assignments cmd) as [|a more] eqn:Ea; [congruence|].
  rewrite <- Ea in *.
  replace (0 <? Z.of_nat (List.length (assignments cmd))) with true
    by (rewrite Ea; cbn [List.length]; symmetry; apply Z.ltb_lt; lia).
  cbn [List.length Z.of_nat Z.eqb andb]. rewrite E. reflexivity.
Qed.

(** C2.  The line [FOO=bar] parses to a command whose [argv] is the word
    [FOO=bar] and whose assignments are empty, so executing it takes the
    path of an external command named [FOO=bar]: the shell environment is
    left as it was and the status is that of the attempted command. *)
Theorem bare_assignment_line_is_run_as_a_command :
  exists q cmd,
    parse_line "FOO=bar" = Some (Some (NodeCommand cmd), q)
    /\ had_error q = false
    /\ argv cmd = ["FOO=bar"]
    /\ assignments cmd = []
    /\ forall sh,
         executor_exec_command sh cmd =
         match os_external sh cmd ["FOO=bar"] with
         | ForkFailed => Some (1, with_last_status (eprint sh "vsh: fork") 1)
         | ForkDone status => Some (status, with_last_status sh status)
         end.
Proof.
  eexists _, _. split; [vm_compute; reflexivity|].
  split; [reflexivity|]. split; [reflexivity|]. split; [reflexivity|].
  intros sh.
  unfold executor_exec_command. cbn [argc nassign argv assignments List.length
    Z.of_nat Z.eqb Pos.of_succ_nat andb expand_words].
  rewrite (expand_one_plain sh "FOO=bar" eq_refl). cbn [bind app].
  reflexivity.
Qed.

(** C4.  Take a word in which the expansion loop, after some iterations,
    stands at [NAME:?message] in braces after a dollar sign, where [NAME]
    holds neither closing brace nor colon, [message] is any text that reads
    as one body, and [NAME] is unset or empty at that point.  The message
    (or [parameter null or not set] for an empty one) is printed on the
    standard error stream, the construct adds no text, and the expansion
    returns what it had built before the construct followed by the
    expansion of the text after it.  No failure is reported: every simple
    command that holds the word, at any place among its words, still runs
    with the words the expansions give, as a builtin or as an external
    command, in a shell that has printed the message, and its status is the
    status of that run. *)
Theorem unset_message_is_printed_and_the_command_still_runs :
  forall (sh sh0 : Shell) (word NAME message suf r0 : string) (n : nat),
    env_expand_steps n sh word ""
    = (sh0, "${" ++ NAME ++ ":?" ++ message ++ "}" ++ suf, r0) ->
    Lex.string_forallb
      (fun x => negb (Ascii.eqb x "}" || Ascii.eqb x ":")) NAME = true ->
    balanced 0 message = true ->
    unset_or_empty (env_get (env sh0) NAME) = true ->
    let sh1 := eprint sh0 (unset_message NAME message) in
    exists r sh2,
      env_expand sh1 suf = Some (r, sh2)
      /\ env_expand sh word = Some (r0 ++ r, sh2)
      /\ (forall (start : Shell) (before after args_before : list string)
                 (chain : list Redirection) (assigns : list string),
            expand_words start before = Some (args_before, sh) ->
            let cmd := mkCommand (before ++ word :: after)%list chain assigns in
            exists rest sh3 name more printed,
              expand_words sh2 after = Some (rest, sh3)
              /\ (args_before ++ expanded_fields sh2 (r0 ++ r) ++ rest)%list
                 = name :: more
              /\ stderr sh3
                 = (stderr sh0 ++ unset_message NAME message :: printed)%list
              /\ executor_exec_command start cmd =
                 if builtins_is_builtin name then
                   let '(status, sh4) :=
                     builtin_handler name sh3 (name :: more) in
                   Some (status, with_last_status sh4 status)
                 else
                   match os_external sh3 cmd (name :: more) with
                   | ForkFailed =>
                     Some (1, with_last_status (eprint sh3 "vsh: fork") 1)
                   | ForkDone status =>
                     Some (status, with_last_status sh3 status)
                   end).
Proof.
  intros sh sh0 word NAME message suf r0 n Hsteps HN Hb Hu sh1.
  destruct (env_expand_unset_message sh sh0 word NAME message suf r0 n
              Hsteps HN Hb Hu) as (r & sh2 & Hr & Hw).
  fold sh1 in Hr. exists r, sh2. split; [exact Hr|]. split; [exact Hw|].
  intros start before after args_before chain assigns Hbefore cmd.
  destruct (expand_words_total after sh2) as (rest & sh3 & Hafter).
  destruct (expanded_fields sh2 (r0 ++ r)) as [|f fields] eqn:Ef;
    [now apply expanded_fields_not_nil in Ef|].
  assert (Hargs : exists name more,
             (args_before ++ (f :: fields) ++ rest)%list = name :: more).
  { destruct args_before as [|a args]; simpl; eauto. }
  destruct Hargs as (name & more & Hargs).
  destruct (env_expand_stderr sh1 sh2 suf r Hr) as (m1 & H1).
  destruct (expand_words_stderr after sh2 rest sh3 Hafter) as (m2 & H2).
  exists rest, sh3, name, more, (m1 ++ m2)%list.
  split; [exact Hafter|]. split; [exact Hargs|]. split.
  { rewrite H2, H1. unfold sh1. cbn [eprint stderr].
    now rewrite <- !app_assoc. }
  unfold executor_exec_command.
  assert (Hc : (argc cmd =? 0) = false).
  { unfold argc, cmd. cbn [argv]. rewrite length_app. cbn [List.length].
    apply Z.eqb_neq. lia. }
  rewrite Hc. cbn [andb].
  unfold cmd at 1. cbn [argv].
  rewrite expand_words_app, Hbefore. cbn [bind expand_words].
  unfold expand_one. rewrite Hw. cbn [bind]. rewrite Hafter. cbn [bind].
  rewrite Ef, Hargs.
  unfold builtins_execute.
  destruct (builtins_is_builtin name); reflexivity.
Qed.

(** A builtin runs in the shell process on the expanded words alone: the
    redirections and the assignments of the command are not looked at, so
    two commands with the same words behave alike whatever redirections and
    assignments they carry. *)
Theorem builtins_ignore_redirections_and_assignments :
  forall (sh sh1 : Shell) (words rest : list string) (name : string)
         (chain : list Redirection) (assigns : list string),
    expand_words sh words = Some (name :: rest, sh1) ->
    builtins_is_builtin name = true ->
    executor_exec_command sh (mkCommand words chain assigns)
    = (let '(status, sh2) := builtin_handler name sh1 (name :: rest) in
       Some (status, with_last_status sh2 status)).
Proof.
  intros sh sh1 words rest name chain assigns He Hb.
  unfold executor_exec_command, argc. cbn [argv].
  destruct words as [|w more]; [discriminate|].
  change (Z.of_nat (List.length (w :: more)) =? 0) with false. cbn [andb].
  rewrite He. cbn [bind]. rewrite Hb.
  unfold builtins_execute. now rewrite Hb.
Qed.

(** *** And and Or *)

(** A simple command made of plain words, the first of which is the name of
    a builtin. *)
Definition builtin_command (cmd : CommandNode) (name : string) : Prop :=
  Forall (fun w => plain_word w = true) (argv cmd)
  /\ hd_error (argv cmd) = Some name
  /\ builtins_is_builtin name = true.

(** Executing such a command calls the handler of the builtin on the words
    of the command, in the shell as it stands, and stores the status. *)
Lemma executor_execute_builtin (fuel : nat) (sh : Shell) (cmd : CommandNode)
    (name : string) :
  builtin_command cmd name ->
  executor_execute (S fuel) sh (Some (NodeCommand cmd))
  = (let '(status, sh1) := builtin_handler name sh (argv cmd) in
     Some (status, with_last_status sh1 status)).
Proof.
  intros (Hplain & Hname & Hb).
  cbn [executor_execute]. unfold executor_exec_command, argc.
  destruct (argv cmd) as [|w more] eqn:Ea; [discriminate|].
  injection Hname as ->.
  change (Z.of_nat (List.length (name :: more)) =? 0) with false.
  cbn [andb]. rewrite (expand_words_plain (name :: more) sh Hplain).
  cbn [bind]. rewrite Hb. unfold builtins_execute. rewrite Hb.
  destruct (builtin_handler name sh (name :: more)) as [status sh1].
  reflexivity.
Qed.

(** C8.  Executing [And(L, R)] evaluates [L]; it evaluates [R], in the shell
    state [L] left, exactly when the status of [L] is 0, and otherwise stops
    with the state [L] left, whatever [R] is.  Executing [Or(L, R)]
    evaluates [L] and evaluates [R] exactly when the status of [L] is not 0.
    In both cases the status returned, which is also stored as the last
    status, is that of the last subtree evaluated; the node returns whenever
    the subtrees it evaluates return.  On builtin commands the evaluations
    show as calls of the handlers: [a && b] calls the handler of [a], and
    calls the handler of [b], in the shell [a] left, only when [a] returned
    0; [a || b] calls the handler of [b] only when [a] did not return 0. *)
Theorem and_or_short_circuit :
  (forall (fuel : nat) (sh : Shell) (L R : option ASTNode),
      executor_execute (S fuel) sh (Some (NodeAnd L R)) =
      match executor_execute fuel sh L with
      | None => None
      | Some (status, sh1) =>
        if status =? 0 then
          match executor_execute fuel sh1 R with
          | None => None
          | Some (status2, sh2) => Some (status2, with_last_status sh2 status2)
          end
        else Some (status, with_last_status sh1 status)
      end
      /\
      executor_execute (S fuel) sh (Some (NodeOr L R)) =
      match executor_execute fuel sh L with
      | None => None
      | Some (status, sh1) =>
        if status =? 0 then Some (status, with_last_status sh1 status)
        else
          match executor_execute fuel sh1 R with
          | None => None
          | Some (status2, sh2) => Some (status2, with_last_status sh2 status2)
          end
      end)
  /\
  (forall (fuel : nat) (sh : Shell) (a b : CommandNode) (na nb : string),
      builtin_command a na ->
      builtin_command b nb ->
      let L := Some (NodeCommand a) in
      let R := Some (NodeCommand b) in
      executor_execute (S (S fuel)) sh (Some (NodeAnd L R)) =
      (let '(status, sh1) := builtin_handler na sh (argv a) in
       if status =? 0 then
         let '(status2, sh2) :=
           builtin_handler nb (with_last_status sh1 status) (argv b) in
         Some (status2, with_last_status sh2 status2)
       else Some (status, with_last_status sh1 status))
      /\
      executor_execute (S (S fuel)) sh (Some (NodeOr L R)) =
      (let '(status, sh1) := builtin_handler na sh (argv a) in
       if status =? 0 then Some (status, with_last_status sh1 status)
       else
         let '(status2, sh2) :=
           builtin_handler nb (with_last_status sh1 status) (argv b) in
         Some (status2, with_last_status sh2 status2))).
Proof.
  assert (Hgen : forall fuel sh L R,
    executor_execute (S fuel) sh (Some (NodeAnd L R)) =
    match executor_execute fuel sh L with
    | None => None
    | Some (status, sh1) =>
      if status =? 0 then
        match executor_execute fuel sh1 R with
        | None => None
        | Some (status2, sh2) => Some (status2, with_last_status sh2 status2)
        end
      else Some (status, with_last_status sh1 status)
    end
    /\
    executor_execute (S fuel) sh (Some (NodeOr L R)) =
    match executor_execute fuel sh L with
    | None => None
    | Some (status, sh1) =>
      if status =? 0 then Some (status, with_last_status sh1 status)
      else
        match executor_execute fuel sh1 R with
        | None => None
        | Some (status2, sh2) => Some (status2, with_last_status sh2 status2)
        end
    end).
  { intros fuel sh L R. split.
    - cbn [executor_execute]. unfold exec_and, bind.
      destruct (executor_execute fuel sh L) as [[status sh1]|]; [|reflexivity].
      destruct (status =? 0); [|reflexivity].
      destruct (executor_execute fuel sh1 R) as [[status2 sh2]|]; reflexivity.
    - cbn [executor_execute]. unfold exec_or, bind.
      destruct (executor_execute fuel sh L) as [[status sh1]|]; [|reflexivity].
      destruct (status =? 0); cbn [negb]; [reflexivity|].
      destruct (executor_execute fuel sh1 R) as [[status2 sh2]|]; reflexivity. }
  split; [exact Hgen|].
  intros fuel sh a b na nb Ha Hb L R.
  destruct (Hgen (S fuel) sh L R) as [Hand Hor]. rewrite Hand, Hor.
  unfold L, R. rewrite (executor_execute_builtin fuel sh a na Ha).
  destruct (builtin_handler na sh (argv a)) as [status sh1].
  rewrite (executor_execute_builtin fuel (with_last_status sh1 status) b nb Hb).
  destruct (builtin_handler nb (with_last_status sh1 status) (argv b))
    as [status2 sh2].
  split; destruct (status =? 0); reflexivity.
Qed.

End Executor.

(** *** A concrete world *)

(** A shell with an empty environment. *)
Definition shell0 : Shell := mkShell env_empty 0 1 false None 0 [].

(** A builtin table in which [unset] is the handler of builtins/export.c
    and every other builtin succeeds without effect. *)
Definition builtin_table (name : string) (sh : Shell) (args : list string)
    : Z * Shell :=
  if String.eqb name "unset" then builtin_unset sh args else (0, sh).

(** An operating system that finds no external command (status 127), runs
    pipelines, subshells and background jobs with status 0, and has an
    empty file system and password database. *)
Definition no_external (sh : Shell) (cmd : CommandNode) (args : list string)
    : Forked Z := ForkDone 127.
Definition no_pipeline (sh : Shell) (cmds : list (option ASTNode))
    : Forked Z := ForkDone 0.
Definition no_subshell (sh : Shell) (child : option ASTNode) : Forked Z :=
  ForkDone 0.
Definition no_background (sh : Shell) (child : option ASTNode)
    : Forked string := ForkDone "[1] 2".
Definition no_glob (pattern : string) : option (list string) := None.
Definition no_getpwnam (user : string) : option string := None.
Definition no_pointer_text (node : option ASTNode) : string := "0x0".

(** [executor_execute] in that world. *)
Definition run (fuel : nat) (sh : Shell) (node : option ASTNode)
    : option (Z * Shell) :=
  executor_execute builtin_table no_external no_pipeline no_subshell
    no_background no_glob no_getpwnam no_pointer_text fuel sh node.

(** A builtin table that shows its calls: each builtin prints its words,
    joined by spaces, on the stream the model keeps; [cd] fails with status
    1 and every other builtin succeeds. *)
Definition telling_table (name : string) (sh : Shell) (args : list string)
    : Z * Shell :=
  (if String.eqb name "cd" then 1 else 0, eprint sh (String.concat " " args)).

(** A command line, lexed, parsed and executed with that table from the
    empty shell: the status, and the calls of the builtins in order. *)
Definition calls_of_line (line : string) : option (Z * list string) :=
  '(node, _) <- parse_line line ;;
  '(status, sh) <-
    executor_execute telling_table no_external no_pipeline no_subshell
      no_background no_glob no_getpwnam no_pointer_text 10 shell0 node ;;
  Some (status, stderr sh).

(** With the table of builtins/export.c, [unset] removes the variables it
    names and leaves the others. *)
Lemma builtin_unset_removes_the_named_variables :
  let sh :=
    with_env shell0
      (env_set (env_set (env_set env_empty "X" "1" false) "Y" "2" false)
         "Z" "3" false) in
  let '(status, sh') := builtin_unset sh ["unset"; "X"; "Z"] in
  status = 0
  /\ env_get (env sh') "X" = None
  /\ env_get (env sh') "Y" = Some "2"
  /\ env_get (env sh') "Z" = None
  /\ fst (builtin_unset sh ["unset"]) = 1.
Proof. vm_compute. repeat split; reflexivity. Qed.

(** C4, witness: the word [$A/${X:?no ${B} here}b] in a shell where [A]
    and [X] are unset; two iterations of the loop lead to the construct. *)
Lemma unset_message_is_printed_and_the_command_still_runs_witness :
  env_expand_steps 2 shell0 "$A/${X:?no ${B} here}b" ""
  = (shell0, "${" ++ "X" ++ ":?" ++ "no ${B} here" ++ "}" ++ "b", "/")
  /\ Lex.string_forallb
       (fun x => negb (Ascii.eqb x "}" || Ascii.eqb x ":")) "X" = true
  /\ balanced 0 "no ${B} here" = true
  /\ unset_or_empty (env_get (env shell0) "X") = true
  /\ (let sh1 := eprint shell0 (unset_message "X" "no ${B} here") in
      exists r sh2,
        env_expand sh1 "b" = Some (r, sh2)
        /\ env_expand shell0 "$A/${X:?no ${B} here}b" = Some ("/" ++ r, sh2)
        /\ (forall (start : Shell) (before after args_before : list string)
                   (chain : list Redirection) (assigns : list string),
              expand_words no_glob no_getpwnam start before
              = Some (args_before, shell0) ->
              let cmd :=
                mkCommand (before ++ "$A/${X:?no ${B} here}b" :: after)%list
                  chain assigns in
              exists rest sh3 name more printed,
                expand_words no_glob no_getpwnam sh2 after = Some (rest, sh3)
                /\ (args_before
                    ++ expanded_fields no_glob no_getpwnam sh2 ("/" ++ r)
                    ++ rest)%list = name :: more
                /\ stderr sh3
                   = (stderr shell0
                      ++ unset_message "X" "no ${B} here" :: printed)%list
                /\ executor_exec_command builtin_table no_external no_glob
                     no_getpwnam start cmd =
                   if builtins_is_builtin name then
                     let '(status, sh4) :=
                       builtin_table name sh3 (name :: more) in
                     Some (status, with_last_status sh4 status)
                   else
                     match no_external sh3 cmd (name :: more) with
                     | ForkFailed =>
                       Some (1, with_last_status (eprint sh3 "vsh: fork") 1)
                     | ForkDone status =>
                       Some (status, with_last_status sh3 status)
                     end)).
Proof.
  split; [reflexivity|]. split; [reflexivity|]. split; [reflexivity|].
  split; [reflexivity|].
  apply (unset_message_is_printed_and_the_command_still_runs
           builtin_table no_external no_glob no_getpwnam shell0 shell0
           "$A/${X:?no ${B} here}b" "X" "no ${B} here" "b" "/" 2);
    reflexivity.
Defined.

(** The command [echo] followed by that word: it runs, as a builtin, with
    the word [/b], in a shell that has printed the message. *)
Lemma unset_message_in_an_argument :
  exists sh',
    executor_exec_command builtin_table no_external no_glob no_getpwnam
      shell0 (mkCommand ["echo"; "$A/${X:?no ${B} here}b"] [] [])
    = Some (0, sh')
    /\ expand_words no_glob no_getpwnam shell0
         ["echo"; "$A/${X:?no ${B} here}b"]
       = Some (["echo"; "/b"], with_last_status sh' 0)
    /\ stderr sh' = ["vsh: X: no ${B} here" ++ String c_newline ""].
Proof. eexists. split; [|split]; vm_compute; reflexivity. Qed.

(** C4, counterexample.  The line [unset] followed by the word [${X:?oops}]
    in double quotes, in a shell where [X] is unset: the message is printed
    and the command returns status 0. *)
Lemma unset_message_does_not_fail_the_command :
  exists q cmd sh',
    parse_line ("unset " ++ String c_dquote ("${X:?oops}" ++ String c_dquote ""))
    = Some (Some (NodeCommand cmd), q)
    /\ had_error q = false
    /\ argv cmd = ["unset"; "${X:?oops}"]
    /\ unset_or_empty (env_get (env shell0) "X") = true
    /\ run 2 shell0 (Some (NodeCommand cmd)) = Some (0, sh')
    /\ stderr sh' = ["vsh: X: oops" ++ String c_newline ""].
Proof.
  eexists _, _, _. split; [vm_compute; reflexivity|].
  split; [reflexivity|]. split; [reflexivity|]. split; [reflexivity|].
  split; [vm_compute; reflexivity|]. reflexivity.
Qed.

(** *** And and Or, observed *)

(** C8, witness: [cd x] and [echo b] with the table that shows its calls.
    Under And the failing [cd] is the only call; under Or [echo] is called
    after it, in the shell [cd] left. *)
Lemma and_or_short_circuit_witness :
  builtin_command (mkCommand ["cd"; "x"] [] []) "cd"
  /\ builtin_command (mkCommand ["echo"; "b"] [] []) "echo"
  /\ executor_execute telling_table no_external no_pipeline no_subshell
       no_background no_glob no_getpwnam no_pointer_text 2 shell0
       (Some (NodeAnd (Some (NodeCommand (mkCommand ["cd"; "x"] [] [])))
                (Some (NodeCommand (mkCommand ["echo"; "b"] [] [])))))
     = Some (1, with_last_status (eprint shell0 "cd x") 1)
  /\ executor_execute telling_table no_external no_pipeline no_subshell
       no_background no_glob no_getpwnam no_pointer_text 2 shell0
       (Some (NodeOr (Some (NodeCommand (mkCommand ["cd"; "x"] [] [])))
                (Some (NodeCommand (mkCommand ["echo"; "b"] [] [])))))
     = Some (0, with_last_status
                  (eprint (with_last_status (eprint shell0 "cd x") 1)
                     "echo b") 0).
Proof.
  assert (Ha : builtin_command (mkCommand ["cd"; "x"] [] []) "cd")
    by (split; [repeat constructor | split; reflexivity]).
  assert (Hb : builtin_command (mkCommand ["echo"; "b"] [] []) "echo")
    by (split; [repeat constructor | split; reflexivity]).
  split; [exact Ha|]. split; [exact Hb|].
  exact (proj2 (and_or_short_circuit telling_table no_external no_pipeline
                  no_subshell no_background no_glob no_getpwnam
                  no_pointer_text)
           0%nat shell0 _ _ "cd" "echo" Ha Hb).
Defined.

(** The same on command lines: the right-hand command is called after a
    success of the left one under [&&] and after a failure under [||], and
    is not called otherwise. *)
Lemma and_or_lines_call_what_they_should :
  calls_of_line "echo a && echo b" = Some (0, ["echo a"; "echo b"])
  /\ calls_of_line "cd x && echo b" = Some (1, ["cd x"])
  /\ calls_of_line "cd x || echo b" = Some (0, ["cd x"; "echo b"])
  /\ calls_of_line "echo a || echo b" = Some (0, ["echo a"])
  /\ calls_of_line "cd x && echo b || echo c"
     = Some (0, ["cd x"; "echo c"]).
Proof. repeat split; vm_compute; reflexivity. Qed.

(** *** The order in which redirections are applied *)

Lemma executor_apply_redirections_app (sys : History -> Call -> Z)
    (l1 l2 : list Redirection) :
  forall h,
    executor_apply_redirections sys (l1 ++ l2)%list h =
    let '(st, h') := executor_apply_redirections sys l1 h in
    if st <? 0 then (-1, h') else executor_apply_redirections sys l2 h'.
Proof.
  induction l1 as [|r l1 IH]; intros h; [reflexivity|].
  change ((r :: l1) ++ l2)%list with (r :: (l1 ++ l2))%list.
  cbn [executor_apply_redirections].
  destruct (apply_redirection sys h r) as [st h1].
  destruct (st <? 0) eqn:E; [reflexivity|]. apply IH.
Qed.

(** C1.  The chain stored on a simple command holds its redirections in the
    reverse of their order of appearance, since [parse_redirection] prepends.
    Walking the chain from its head therefore applies the redirection written
    last first, and the one written first last, after all the others have
    succeeded. *)
Theorem redirections_are_applied_in_reverse_order_of_appearance :
  forall (sys : History -> Call -> Z) (fuel : nat) (p q : Parser)
         (cmd : CommandNode),
    ends_with_eof (tokens p) ->
    parse_simple_cmd fuel p = Some (Some (NodeCommand cmd), q) ->
    had_error q = false ->
    let written := redirs_in_order (skipn (pos p) (tokens p)) in
    redirs cmd = List.rev written
    /\ (forall init last h,
          written = (init ++ [last])%list ->
          executor_apply_redirections sys (redirs cmd) h =
          let '(st, h') := apply_redirection sys h last in
          if st <? 0 then (-1, h')
          else executor_apply_redirections sys (List.rev init) h')
    /\ (forall first rest h,
          written = first :: rest ->
          executor_apply_redirections sys (redirs cmd) h =
          let '(st, h') :=
            executor_apply_redirections sys (List.rev rest) h in
          if st <? 0 then (-1, h')
          else executor_apply_redirections sys [first] h').
Proof.
  intros sys fuel p q cmd Hw Hp Hq written.
  pose proof (parse_simple_cmd_chain fuel p q cmd Hw Hp Hq) as Hc.
  fold written in Hc. split; [exact Hc|]. split.
  - intros init last h E. rewrite Hc, E, rev_app_distr. reflexivity.
  - intros first rest h E. rewrite Hc, E. cbn [List.rev].
    apply executor_apply_redirections_app.
Qed.

(** An operating system on which every call succeeds: [open] returns the
    descriptor 3, the other calls return 0. *)
Definition sys_succeeds (h : History) (c : Call) : Z :=
  match c with
  | SysOpen _ _ => 3
  | _ => 0
  end.

(** The parser state at the start of the line [cmd > a.txt < b.txt]. *)
Definition two_redirections : Parser :=
  match lex_line_tokens "cmd > a.txt < b.txt" with
  | Some (toks, _) => parser_init toks
  | None => parser_init []
  end.

(** C1, witness: the line [cmd > a.txt < b.txt]. *)
Lemma redirections_are_applied_in_reverse_order_of_appearance_witness :
  exists q cmd,
    ends_with_eof (tokens two_redirections)
    /\ parse_simple_cmd 10 two_redirections = Some (Some (NodeCommand cmd), q)
    /\ had_error q = false
    /\ (let written :=
          redirs_in_order
            (skipn (pos two_redirections) (tokens two_redirections)) in
        redirs cmd = List.rev written
        /\ (forall init last h,
              written = (init ++ [last])%list ->
              executor_apply_redirections sys_succeeds (redirs cmd) h =
              let '(st, h') := apply_redirection sys_succeeds h last in
              if st <? 0 then (-1, h')
              else executor_apply_redirections sys_succeeds (List.rev init) h')
        /\ (forall first rest h,
              written = first :: rest ->
              executor_apply_redirections sys_succeeds (redirs cmd) h =
              let '(st, h') :=
                executor_apply_redirections sys_succeeds (List.rev rest) h in
              if st <? 0 then (-1, h')
              else executor_apply_redirections sys_succeeds [first] h')).
Proof.
  eexists _, _. split; [reflexivity|].
  split; [vm_compute; reflexivity|]. split; [reflexivity|].
  eapply (redirections_are_applied_in_reverse_order_of_appearance
            sys_succeeds 10 two_redirections);
    [reflexivity | vm_compute; reflexivity | reflexivity].
Defined.

(** C1, counterexample.  On the line [cmd > a.txt < b.txt] the chain of the
    parsed command starts with the input redirection, written last, and the
    child opens [b.txt] before [a.txt]. *)
Lemma redirection_written_last_is_applied_first :
  exists q cmd,
    parse_line "cmd > a.txt < b.txt" = Some (Some (NodeCommand cmd), q)
    /\ had_error q = false
    /\ argv cmd = ["cmd"]
    /\ redirs cmd = [mkRedir REDIR_INPUT 0 "b.txt";
                     mkRedir REDIR_OUTPUT 1 "a.txt"]
    /\ executor_apply_redirections sys_succeeds (redirs cmd) [] =
       (0, [(SysOpen "b.txt" O_RDONLY, 3); (SysDup2 3 0, 0); (SysClose 3, 0);
            (SysOpen "a.txt" O_WRONLY_CREAT_TRUNC, 3); (SysDup2 3 1, 0);
            (SysClose 3, 0)]).
Proof.
  eexists _, _. split; [vm_compute; reflexivity|].
  repeat split; reflexivity.
Qed.

Lemma builtins_ignore_redirections_and_assignments_witness :
  expand_words no_glob no_getpwnam shell0 ["echo"; "hi"]
  = Some (["echo"; "hi"], shell0)
  /\ builtins_is_builtin "echo" = true
  /\ executor_exec_command builtin_table no_external no_glob no_getpwnam
       shell0
       (mkCommand ["echo"; "hi"] [mkRedir REDIR_OUTPUT 1 "out.txt"] ["A=1"])
     = (let '(status, sh2) := builtin_table "echo" shell0 ["echo"; "hi"] in
        Some (status, with_last_status sh2 status)).
Proof.
  assert (He : expand_words no_glob no_getpwnam shell0 ["echo"; "hi"]
               = Some (["echo"; "hi"], shell0)) by reflexivity.
  split; [exact He|]. split; [reflexivity|].
  apply (builtins_ignore_redirections_and_assignments builtin_table
           no_external no_glob no_getpwnam shell0 shell0 ["echo"; "hi"]
           ["hi"] "echo" _ _ He).
  reflexivity.
Defined.

(** *** Failing redirections *)

Lemma syscall_extends (sys : History -> Call -> Z) (h : History) (c : Call) :
  exists calls, snd (syscall sys h c) = (h ++ calls)%list.
Proof. unfold syscall. cbn [snd]. eauto. Qed.

Lemma apply_redirection_outcome (sys : History -> Call -> Z) (h : History)
    (r : Redirection) :
  (fst (apply_redirection sys h r) = 0 \/ fst (apply_redirection sys h r) = -1)
  /\ exists calls, snd (apply_redirection sys h r) = (h ++ calls)%list.
Proof.
  assert (Hfile : forall target flags fd,
    (fst (redirect_file sys h target flags fd) = 0
     \/ fst (redirect_file sys h target flags fd) = -1)
    /\ exists calls,
        snd (redirect_file sys h target flags fd) = (h ++ calls)%list).
  { intros target flags fd. unfold redirect_file, syscall.
    destruct (sys h (SysOpen target flags) <? 0).
    - cbn [fst snd]. split; [auto|]. rewrite <- app_assoc. eauto.
    - destruct (sys _ (SysDup2 _ fd) <? 0); cbn [fst snd];
        (split; [auto|]); rewrite <- !app_assoc; eauto. }
  assert (Hdup : forall target fd,
    (fst (redirect_dup sys h target fd) = 0
     \/ fst (redirect_dup sys h target fd) = -1)
    /\ exists calls,
        snd (redirect_dup sys h target fd) = (h ++ calls)%list).
  { intros target fd. unfold redirect_dup, syscall.
    destruct (sys h (SysDup2 (atoi target) fd) <? 0); cbn [fst snd];
      (split; [auto|]); rewrite <- ?app_assoc; eauto. }
  unfold apply_redirection. destruct (redir_type r); auto.
  cbn [fst snd]. split; [auto|]. apply syscall_extends.
Qed.

(** [executor_apply_redirections] returns 0 or -1 and only adds calls to
    the history of the process.  It stops at the first redirection that
    fails: when the redirections before [r] in the chain succeed and [r]
    fails, the result is -1 and the history ends with the calls of [r],
    whatever redirections follow [r] in the chain. *)
Theorem redirections_stop_at_the_first_failure :
  forall (sys : History -> Call -> Z) (chain : list Redirection) (h : History),
    (fst (executor_apply_redirections sys chain h) = 0
     \/ fst (executor_apply_redirections sys chain h) = -1)
    /\ (exists calls,
          snd (executor_apply_redirections sys chain h) = (h ++ calls)%list)
    /\ (forall before r after h1,
          chain = (before ++ r :: after)%list ->
          executor_apply_redirections sys before h = (0, h1) ->
          fst (apply_redirection sys h1 r) = -1 ->
          executor_apply_redirections sys chain h
          = (-1, snd (apply_redirection sys h1 r))).
Proof.
  intros sys chain h. split; [|split].
  - revert h. induction chain as [|r chain IH]; intros h;
      cbn [executor_apply_redirections]; [auto|].
    destruct (apply_redirection sys h r) as [st h'].
    destruct (st <? 0); [auto | apply IH].
  - revert h. induction chain as [|r chain IH]; intros h;
      cbn [executor_apply_redirections].
    + exists []. now rewrite app_nil_r.
    + destruct (apply_redirection_outcome sys h r) as (_ & calls & Hc).
      destruct (apply_redirection sys h r) as [st h']. cbn [snd] in Hc.
      subst h'. destruct (st <? 0).
      * cbn [snd]. eauto.
      * destruct (IH (h ++ calls)%list) as (more & Hm). rewrite Hm.
        rewrite <- app_assoc. eauto.
  - intros before r after h1 -> Hb Hr.
    rewrite executor_apply_redirections_app, Hb.
    change (0 <? 0) with false. cbv iota.
    cbn [executor_apply_redirections].
    destruct (apply_redirection sys h1 r) as [st h2]. cbn [fst snd] in *.
    subst st. reflexivity.
Qed.

End Exec.

(* ========================================================================= *)
(** * shell.c: alias expansion *)
(* ========================================================================= *)

Module Alias.
Import CStr Env.
Local Open Scope string_scope.
Local Open Scope Z_scope.

(** shell.h: [ALIAS_HASH_SIZE]. *)
Definition ALIAS_HASH_SIZE : Z := 128.

(** [struct AliasEntry] without [next]. *)
Record AliasEntry : Type := mkAlias {
  name : string;
  value : string
}.

(** [struct AliasTable]: each bucket a chain, head first. *)
Record AliasTable : Type := mkTable {
  buckets : list (list AliasEntry);
  count : Z
}.

(** [alias_hash]: [unsigned] (32-bit) arithmetic, then the bucket index. *)
Fixpoint alias_hash_from (h : Z) (key : string) : Z :=
  match key with
  | "" => h
  | String c r =>
    alias_hash_from
      (((Z.shiftl h 5 mod 2 ^ 32 + h) mod 2 ^ 32
        + Z.of_nat (nat_of_ascii c)) mod 2 ^ 32) r
  end.

Definition alias_hash (key : string) : nat :=
  Z.to_nat (alias_hash_from 5381 key mod ALIAS_HASH_SIZE).

Fixpoint chain_lookup (chain : list AliasEntry) (word : string)
    : option string :=
  match chain with
  | [] => None
  | e :: next =>
    if String.eqb (name e) word then Some (value e)
    else chain_lookup next word
  end.

(** [alias_lookup]; a NULL table is [None]. *)
Definition alias_lookup (tbl : option AliasTable) (word : string)
    : option string :=
  match tbl with
  | None => None
  | Some t => chain_lookup (nth (alias_hash word) (buckets t) []) word
  end.

(** The loop of [expand_aliases]; [left] is the number of iterations the
    counter [depth] still allows.  Next to the line, the function returns
    the replacement texts it substituted, oldest first. *)
Fixpoint expand_loop (left : nat) (tbl : option AliasTable) (current : string)
    : string * list string :=
  match left with
  | O => (current, [])
  | S left' =>
    let '(leading, p) := span (fun c => negb (isspace c)) current in
    match p with
    | "" => (current, [])
    | _ =>
      let '(word, rest) := span isspace p in
      if (256 <=? String.length word)%nat then (current, [])
      else
        match alias_lookup tbl word with
        | None => (current, [])
        | Some replacement =>
          let newline := leading ++ replacement ++ rest in
          if (String.length replacement =? 0)%nat
             || negb (Ascii.eqb (last_char replacement) " ")
          then (newline, [replacement])
          else
            let '(out, log) := expand_loop left' tbl newline in
            (out, replacement :: log)
        end
    end
  end.

(** [expand_aliases] with the record of its substitutions.  Allocation is
    taken to succeed. *)
Definition expand_aliases_log (tbl : option AliasTable) (line : string)
    : string * list string :=
  match tbl, line with
  | None, _ => (line, [])
  | _, "" => (line, [])
  | _, _ => expand_loop 10 tbl (strdup line)
  end.

(** [expand_aliases]. *)
Definition expand_aliases (tbl : option AliasTable) (line : string) : string :=
  fst (expand_aliases_log tbl line).

(** A replacement after which the loop goes on: not empty, and ending with
    a space. *)
Definition invites_more (replacement : string) : bool :=
  negb (String.length replacement =? 0)%nat
  && Ascii.eqb (last_char replacement) " ".

Lemma expand_loop_log (left : nat) (tbl : option AliasTable) :
  forall current,
    (List.length (snd (expand_loop left tbl current)) <= left)%nat
    /\ forallb invites_more (removelast (snd (expand_loop left tbl current)))
       = true.
Proof.
  induction left as [|left IH]; intros current; cbn [expand_loop].
  - simpl. split; [lia | reflexivity].
  - destruct (span _ current) as [leading p].
    assert (Hstop : (List.length (@nil string) <= S left)%nat
                    /\ forallb invites_more (removelast (@nil string)) = true)
      by (simpl; split; [lia | reflexivity]).
    destruct p as [|c p']; [exact Hstop|].
    destruct (span isspace (String c p')) as [word rest].
    destruct (256 <=? String.length word)%nat; [exact Hstop|].
    destruct (alias_lookup tbl word) as [replacement|]; [|exact Hstop].
    destruct ((String.length replacement =? 0)%nat
              || negb (Ascii.eqb (last_char replacement) " ")) eqn:E.
    + simpl. split; [lia | reflexivity].
    + apply orb_false_iff in E as [E1 E2]. apply negb_false_iff in E2.
      specialize (IH (leading ++ replacement ++ rest)).
      destruct (expand_loop left tbl (leading ++ replacement ++ rest))
        as [out log].
      cbn [snd] in *. destruct IH as [IH1 IH2]. split.
      * simpl. lia.
      * destruct log as [|r log']; [reflexivity|].
        change (removelast (replacement :: r :: log'))
          with (replacement :: removelast (r :: log')).
        cbn [forallb]. rewrite IH2. unfold invites_more.
        now rewrite E1, E2.
Qed.

(** C10.  For every alias table and every input line, [expand_aliases]
    returns after at most 10 substitutions, and every substitution but the
    last was of a replacement that is not empty and ends with a space: a
    further substitution is attempted only after such a replacement. *)
Theorem expand_aliases_makes_at_most_ten_substitutions :
  forall (tbl : option AliasTable) (line : string),
    (List.length (snd (expand_aliases_log tbl line)) <= 10)%nat
    /\ forallb invites_more (removelast (snd (expand_aliases_log tbl line)))
       = true.
Proof.
  intros tbl line. unfold expand_aliases_log.
  destruct tbl as [t|]; [|simpl; split; [lia | reflexivity]].
  destruct line as [|c r]; [simpl; split; [lia | reflexivity]|].
  apply expand_loop_log.
Qed.

(** A table that holds the single alias [name = value]. *)
Definition single_alias (n v : string) : AliasTable :=
  mkTable (repeat [] (alias_hash n) ++ [[mkAlias n v]]) 1.

(** The bound is reached: with the alias [a] standing for [a ] the line
    [a] takes all 10 substitutions. *)
Lemma self_alias_takes_ten_substitutions :
  expand_aliases_log (Some (single_alias "a" "a ")) "a"
  = ("a          ", repeat "a " 10).
Proof. vm_compute. reflexivity. Qed.

(** A replacement that does not end with a space is the last one. *)
Lemma plain_alias_takes_one_substitution :
  expand_aliases_log (Some (single_alias "ll" "ls -l")) "ll /tmp"
  = ("ls -l /tmp", ["ls -l"]).
Proof. vm_compute. reflexivity. Qed.

(** *** builtins/alias.c: the table helpers *)

(** [alias_hash] of builtins/alias.c, a second copy of the hash. *)
Fixpoint builtin_hash_from (hash : Z) (str : string) : Z :=
  match str with
  | "" => hash
  | String c r =>
    builtin_hash_from
      (((Z.shiftl hash 5 mod 2 ^ 32 + hash) mod 2 ^ 32
        + Z.of_nat (nat_of_ascii c)) mod 2 ^ 32) r
  end.

Definition builtin_alias_hash (str : string) : nat :=
  Z.to_nat (builtin_hash_from 5381 str mod ALIAS_HASH_SIZE).

Fixpoint set_chain (h : nat) (chain : list AliasEntry)
    (bs : list (list AliasEntry)) : list (list AliasEntry) :=
  match bs, h with
  | [], _ => []
  | _ :: t, O => chain :: t
  | b :: t, S k => b :: set_chain k chain t
  end.

Fixpoint chain_set (chain : list AliasEntry) (n v : string)
    : list AliasEntry :=
  match chain with
  | [] => []
  | e :: next =>
    if String.eqb (name e) n then mkAlias (name e) v :: next
    else e :: chain_set next n v
  end.

(** [alias_set]: update in place, or prepend a new entry.  Allocation is
    taken to succeed. *)
Definition alias_set (table : AliasTable) (n v : string) : AliasTable :=
  let h := builtin_alias_hash n in
  let chain := nth h (buckets table) [] in
  match chain_lookup chain n with
  | Some _ => mkTable (set_chain h (chain_set chain n v) (buckets table))
                (count table)
  | None => mkTable (set_chain h (mkAlias n v :: chain) (buckets table))
              (count table + 1)
  end.

(** [alias_get]. *)
Definition alias_get (table : AliasTable) (n : string) : option string :=
  chain_lookup (nth (builtin_alias_hash n) (buckets table) []) n.

Fixpoint chain_drop (chain : list AliasEntry) (n : string)
    : list AliasEntry :=
  match chain with
  | [] => []
  | e :: next =>
    if String.eqb (name e) n then next else e :: chain_drop next n
  end.

(** [alias_remove]: whether an entry was removed, and the table. *)
Definition alias_remove (table : AliasTable) (n : string)
    : bool * AliasTable :=
  let h := builtin_alias_hash n in
  let chain := nth h (buckets table) [] in
  match chain_lookup chain n with
  | Some _ => (true, mkTable (set_chain h (chain_drop chain n) (buckets table))
                       (count table - 1))
  | None => (false, table)
  end.

(** The empty table ([calloc]). *)
Definition alias_empty : AliasTable :=
  mkTable (repeat [] (Z.to_nat ALIAS_HASH_SIZE)) 0.

Lemma hashes_agree (str : string) : builtin_alias_hash str = alias_hash str.
Proof.
  unfold builtin_alias_hash, alias_hash.
  assert (H : forall h, builtin_hash_from h str = alias_hash_from h str)
    by (induction str as [|c r IH]; intros h; simpl; auto).
  now rewrite H.
Qed.

Lemma alias_hash_bound (n : string) : (alias_hash n < 128)%nat.
Proof.
  unfold alias_hash, ALIAS_HASH_SIZE.
  pose proof (Z.mod_pos_bound (alias_hash_from 5381 n) 128 eq_refl). lia.
Qed.

Lemma set_chain_length (h : nat) (c : list AliasEntry)
    (bs : list (list AliasEntry)) :
  List.length (set_chain h c bs) = List.length bs.
Proof.
  revert h. induction bs as [|b t IH]; intros [|j]; simpl; auto.
Qed.

Lemma set_chain_same (h : nat) (c : list AliasEntry)
    (bs : list (list AliasEntry)) :
  (h < List.length bs)%nat -> nth h (set_chain h c bs) [] = c.
Proof.
  revert h. induction bs as [|b t IH]; intros [|j] H; simpl in *;
    try lia; auto. apply IH. lia.
Qed.

Lemma set_chain_other (h h' : nat) (c : list AliasEntry)
    (bs : list (list AliasEntry)) :
  h <> h' -> nth h' (set_chain h c bs) [] = nth h' bs [].
Proof.
  revert h h'. induction bs as [|b t IH]; intros [|j] [|j'] H; simpl;
    try congruence; auto.
Qed.

Lemma chain_set_same (chain : list AliasEntry) (n v v0 : string) :
  chain_lookup chain n = Some v0 ->
  chain_lookup (chain_set chain n v) n = Some v.
Proof.
  induction chain as [|e next IH]; simpl; [discriminate|].
  destruct (String.eqb (name e) n) eqn:E; simpl; now rewrite E.
Qed.

Lemma chain_set_other (chain : list AliasEntry) (n n' v : string) :
  n' <> n ->
  chain_lookup (chain_set chain n v) n' = chain_lookup chain n'.
Proof.
  intros Hne. induction chain as [|e next IH]; simpl; [reflexivity|].
  destruct (String.eqb (name e) n) eqn:E; simpl.
  - apply String.eqb_eq in E.
    assert (En : String.eqb (name e) n' = false)
      by (apply String.eqb_neq; congruence).
    now rewrite En.
  - destruct (String.eqb (name e) n'); [reflexivity | exact IH].
Qed.

(** An alias defined with [alias_set] is found, with the value given, both
    by [alias_get] and by the lookup of the shell, which hashes with its own
    copy of the hash function; the other aliases are found as before, and
    the two lookups agree on every table. *)
Theorem alias_lookup_after_alias_set :
  forall (table : AliasTable) (n v : string),
    List.length (buckets table) = 128%nat ->
    alias_get (alias_set table n v) n = Some v
    /\ alias_lookup (Some (alias_set table n v)) n = Some v
    /\ (forall n', n' <> n ->
                   alias_lookup (Some (alias_set table n v)) n'
                   = alias_lookup (Some table) n')
    /\ (forall t n', alias_lookup (Some t) n' = alias_get t n').
Proof.
  intros table n v Hlen.
  assert (Hagree : forall t n', alias_lookup (Some t) n' = alias_get t n').
  { intros t n'. unfold alias_lookup, alias_get.
    now rewrite <- (hashes_agree n'). }
  pose proof (alias_hash_bound n) as Hh.
  assert (Hget : alias_get (alias_set table n v) n = Some v).
  { unfold alias_get, alias_set. change builtin_alias_hash with alias_hash.
    destruct (chain_lookup (nth (alias_hash n) (buckets table) []) n)
      as [v0|] eqn:E; cbn [buckets]; rewrite set_chain_same by lia.
    - exact (chain_set_same _ n v v0 E).
    - simpl. now rewrite String.eqb_refl. }
  split; [exact Hget|]. split; [now rewrite Hagree|]. split; [|exact Hagree].
  intros n' Hne. unfold alias_lookup, alias_set.
  change builtin_alias_hash with alias_hash.
  destruct (Nat.eq_dec (alias_hash n) (alias_hash n')) as [Eh|Eh].
  - rewrite <- Eh.
    destruct (chain_lookup (nth (alias_hash n) (buckets table) []) n)
      as [v0|] eqn:E; cbn [buckets]; rewrite set_chain_same by lia.
    + now rewrite chain_set_other.
    + simpl. assert (En : String.eqb n n' = false)
        by (apply String.eqb_neq; congruence).
      now rewrite En.
  - destruct (chain_lookup (nth (alias_hash n) (buckets table) []) n);
      cbn [buckets]; now rewrite set_chain_other.
Qed.

Lemma alias_lookup_after_alias_set_witness :
  List.length (buckets alias_empty) = 128%nat
  /\ alias_get (alias_set alias_empty "ll" "ls -l") "ll" = Some "ls -l"
  /\ alias_lookup (Some (alias_set alias_empty "ll" "ls -l")) "ll"
     = Some "ls -l"
  /\ (forall n', n' <> "ll" ->
        alias_lookup (Some (alias_set alias_empty "ll" "ls -l")) n'
        = alias_lookup (Some alias_empty) n')
  /\ (forall t n', alias_lookup (Some t) n' = alias_get t n').
Proof.
  split; [reflexivity|].
  apply (alias_lookup_after_alias_set alias_empty "ll" "ls -l"). reflexivity.
Defined.

(** *** One substitution *)

Lemma span_all (stop : ascii -> bool) (a : string) :
  Lex.string_forallb (fun x => negb (stop x)) a = true ->
  span stop a = (a, "").
Proof.
  induction a as [|x a IH]; simpl; [reflexivity|].
  intros H. apply andb_true_iff in H as [Hx Ha].
  apply negb_true_iff in Hx. now rewrite Hx, (IH Ha).
Qed.

(** Text at which the first word of a line ends. *)
Definition ends_first_word (rest : string) : bool :=
  match rest with
  | "" => true
  | String c _ => isspace c
  end.

Lemma span_word (stop : ascii -> bool) (a rest : string) :
  Lex.string_forallb (fun x => negb (stop x)) a = true ->
  match rest with
  | "" => True
  | String c _ => stop c = true
  end ->
  span stop (a ++ rest) = (a, rest).
Proof.
  intros Ha Hr. destruct rest as [|c rest].
  - rewrite append_nil_r. now apply span_all.
  - now apply span_stops_at.
Qed.

Lemma blank_forallb (s : string) :
  Lex.string_forallb isspace s = true ->
  Lex.string_forallb (fun x => negb (negb (isspace x))) s = true.
Proof.
  induction s as [|c s IH]; simpl; [reflexivity|].
  intros H. apply andb_true_iff in H as [Hc Hs].
  now rewrite Hc, (IH Hs).
Qed.

(** [expand_aliases] looks up the first word of the line, after any leading
    white space.  When the word is no alias the line is returned as it is;
    when it is an alias whose value is empty or does not end with a space,
    the word is replaced by the value, once, and the white space before the
    word and the text after it are kept. *)
Theorem expand_aliases_replaces_the_first_word :
  forall (tbl : option AliasTable) (leading word rest : string),
    Lex.string_forallb isspace leading = true ->
    Lex.string_forallb (fun c => negb (isspace c)) word = true ->
    (0 < String.length word < 256)%nat ->
    ends_first_word rest = true ->
    no_nul (leading ++ word ++ rest) = true ->
    (alias_lookup tbl word = None ->
     expand_aliases tbl (leading ++ word ++ rest) = leading ++ word ++ rest)
    /\ (forall v,
          alias_lookup tbl word = Some v ->
          invites_more v = false ->
          expand_aliases tbl (leading ++ word ++ rest) = leading ++ v ++ rest).
Proof.
  intros tbl leading word rest Hl Hw Hlen Hr Hn.
  assert (Hloop : forall left,
    expand_loop (S left) tbl (leading ++ word ++ rest)
    = match alias_lookup tbl word with
      | None => (leading ++ word ++ rest, [])
      | Some v =>
        if (String.length v =? 0)%nat || negb (Ascii.eqb (last_char v) " ")
        then (leading ++ v ++ rest, [v])
        else let '(out, log) := expand_loop left tbl (leading ++ v ++ rest) in
             (out, v :: log)
      end).
  { intros left. cbn [expand_loop].
    assert (Hp : match word ++ rest with
                 | "" => True
                 | String c _ => negb (isspace c) = true
                 end).
    { destruct word as [|c w]; [simpl in Hlen; lia|]. simpl in Hw |- *.
      now apply andb_true_iff in Hw as [Hc _]. }
    rewrite (span_word (fun c => negb (isspace c)) leading (word ++ rest)
               (blank_forallb leading Hl) Hp).
    destruct (word ++ rest) as [|c0 r0] eqn:Ewr.
    { destruct word; [simpl in Hlen; lia | discriminate]. }
    rewrite <- Ewr.
    rewrite (span_word isspace word rest Hw).
    2:{ destruct rest; [exact I | exact Hr]. }
    replace (256 <=? String.length word)%nat with false
      by (symmetry; apply Nat.leb_gt; lia).
    reflexivity. }
  assert (Hline : exists c r, leading ++ word ++ rest = String c r).
  { destruct leading as [|c l]; [|simpl; eauto].
    destruct word as [|c w]; [simpl in Hlen; lia | simpl; eauto]. }
  destruct Hline as (c & r & Eline).
  assert (Hexp : expand_aliases_log tbl (leading ++ word ++ rest)
                 = match tbl with
                   | None => (leading ++ word ++ rest, [])
                   | Some _ => expand_loop 10 tbl (leading ++ word ++ rest)
                   end).
  { unfold expand_aliases_log. destruct tbl as [t|]; [|reflexivity].
    rewrite Eline at 1. unfold strdup. now rewrite (c_str_no_nul _ Hn). }
  unfold expand_aliases. rewrite Hexp. split.
  - intros Hnone. destruct tbl as [t|]; [|reflexivity].
    rewrite Hloop, Hnone. reflexivity.
  - intros v Hv Hi. destruct tbl as [t|]; [|discriminate].
    rewrite Hloop, Hv.
    replace ((String.length v =? 0)%nat
             || negb (Ascii.eqb (last_char v) " ")) with true.
    + reflexivity.
    + unfold invites_more in Hi.
      destruct (String.length v =? 0)%nat, (Ascii.eqb (last_char v) " ");
        simpl in *; congruence.
Qed.

Lemma expand_aliases_replaces_the_first_word_witness :
  Lex.string_forallb isspace "  " = true
  /\ Lex.string_forallb (fun c => negb (isspace c)) "ll" = true
  /\ (0 < String.length "ll" < 256)%nat
  /\ ends_first_word " /tmp" = true
  /\ no_nul ("  " ++ "ll" ++ " /tmp") = true
  /\ (alias_lookup (Some (alias_set alias_empty "ll" "ls -l")) "ll" = None ->
      expand_aliases (Some (alias_set alias_empty "ll" "ls -l"))
        ("  " ++ "ll" ++ " /tmp") = "  " ++ "ll" ++ " /tmp")
  /\ (forall v,
        alias_lookup (Some (alias_set alias_empty "ll" "ls -l")) "ll" = Some v ->
        invites_more v = false ->
        expand_aliases (Some (alias_set alias_empty "ll" "ls -l"))
          ("  " ++ "ll" ++ " /tmp") = "  " ++ v ++ " /tmp").
Proof.
  split; [reflexivity|]. split; [reflexivity|]. split; [simpl; lia|].
  split; [reflexivity|]. split; [reflexivity|].
  apply (expand_aliases_replaces_the_first_word
           (Some (alias_set alias_empty "ll" "ls -l")) "  " "ll" " /tmp");
    first [reflexivity | simpl; lia].
Defined.

End Alias.

(* ========================================================================= *)
(** * wildcard.c: the pattern matcher *)
(* ========================================================================= *)

Module Wildcard.
Import CStr.
Local Open Scope string_scope.

(** The loop of [match_bracket] over the members of a character class:
    whether [c] matched so far, and the text from the closing bracket
    on (or the empty text when the class is not closed). *)
Fixpoint bracket_loop (p : string) (c : ascii) (matched : bool)
    : bool * string :=
  match p with
  | "" => (matched, "")
  | String lo r =>
    if Ascii.eqb lo "]" then (matched, p)
    else
      match r with
      | String d (String hi r2) =>
        if Ascii.eqb d "-" && negb (Ascii.eqb hi "]") then
          bracket_loop r2 c
            (matched
             || ((nat_of_ascii lo <=? nat_of_ascii c)%nat
                 && (nat_of_ascii c <=? nat_of_ascii hi)%nat))
        else bracket_loop r c (matched || Ascii.eqb c lo)
      | _ => bracket_loop r c (matched || Ascii.eqb c lo)
      end
  end.

(** [match_bracket]: [p] is the text just after the opening bracket.  The
    result and the text after the closing bracket. *)
Definition match_bracket (p : string) (c : ascii) : bool * string :=
  let '(negate, p1) :=
    match p with
    | String n r =>
      if Ascii.eqb n "!" || Ascii.eqb n "^" then (true, r) else (false, p)
    | "" => (false, p)
    end in
  let '(matched, p2) := bracket_loop p1 c false in
  let p3 :=
    match p2 with
    | String e r => if Ascii.eqb e "]" then r else p2
    | "" => p2
    end in
  (if negate then negb matched else matched, p3).

(** The loop that skips a run of stars. *)
Fixpoint skip_stars (p : string) : string :=
  match p with
  | String c r => if Ascii.eqb c "*" then skip_stars r else p
  | "" => p
  end.

Definition is_empty (s : string) : bool :=
  match s with
  | "" => true
  | _ => false
  end.

(** The loop that tries a matcher on every suffix of the text, the empty
    one last. *)
Fixpoint try_suffixes (m : string -> option bool) (t : string)
    : option bool :=
  match m t with
  | None => None
  | Some true => Some true
  | Some false =>
    match t with
    | "" => Some false
    | String _ t' => try_suffixes m t'
    end
  end.

(** [wildcard_match]; [fuel] bounds the depth of the recursion. *)
Fixpoint wildcard_match_fuel (fuel : nat) (p s : string) : option bool :=
  match fuel with
  | O => None
  | S fuel' =>
    match p, s with
    | "", _ => Some (is_empty s)
    | _, "" => Some (is_empty (skip_stars p))
    | String pc p1, String sc s1 =>
      if Ascii.eqb pc c_bslash then
        match p1 with
        | "" => Some false
        | String d p2 =>
          if Ascii.eqb d sc then wildcard_match_fuel fuel' p2 s1
          else Some false
        end
      else if Ascii.eqb pc "?" then
        if Ascii.eqb sc "/" then Some false
        else wildcard_match_fuel fuel' p1 s1
      else if Ascii.eqb pc "[" then
        if Ascii.eqb sc "/" then Some false
        else
          let '(ok, p2) := match_bracket p1 sc in
          if ok then wildcard_match_fuel fuel' p2 s1 else Some false
      else if Ascii.eqb pc "*" then
        match skip_stars p1 with
        | "" => Some true
        | p2 => try_suffixes (wildcard_match_fuel fuel' p2) s
        end
      else if Ascii.eqb pc sc then wildcard_match_fuel fuel' p1 s1
      else Some false
    end
  end.

(** [wildcard_match] on two strings (neither NULL): every recursive call
    is on a shorter pattern. *)
Definition wildcard_match (pattern string : string) : option bool :=
  wildcard_match_fuel (S (String.length pattern)) pattern string.

(** *** The matcher returns *)

Lemma skip_stars_length (p : string) :
  (String.length (skip_stars p) <= String.length p)%nat.
Proof.
  induction p as [|c p IH]; simpl; [lia|].
  destruct (Ascii.eqb c "*"); simpl; lia.
Qed.

Lemma bracket_loop_length (p : string) :
  forall c matched,
    (String.length (snd (bracket_loop p c matched)) <= String.length p)%nat.
Proof.
  induction p as [p IH] using (well_founded_induction
     (Wf_nat.well_founded_ltof _ String.length)).
  intros c matched. destruct p as [|lo r]; cbn [bracket_loop]; [simpl; lia|].
  destruct (Ascii.eqb lo "]"); [simpl; lia|].
  assert (Hr : forall m,
    (String.length (snd (bracket_loop r c m)) <= String.length (String lo r))%nat).
  { intros m. etransitivity; [apply IH; unfold Wf_nat.ltof; simpl; lia|].
    simpl; lia. }
  destruct r as [|d r1]; [apply Hr|].
  destruct r1 as [|hi r2]; [apply Hr|].
  destruct (Ascii.eqb d "-" && negb (Ascii.eqb hi "]")); [|apply Hr].
  etransitivity; [apply IH; unfold Wf_nat.ltof; simpl; lia|]. simpl; lia.
Qed.

Lemma match_bracket_length (p : string) (c : ascii) :
  (String.length (snd (match_bracket p c)) <= String.length p)%nat.
Proof.
  unfold match_bracket.
  set (np := match p with
             | String n r =>
               if Ascii.eqb n "!" || Ascii.eqb n "^" then (true, r)
               else (false, p)
             | "" => (false, p)
             end).
  assert (Hnp : (String.length (snd np) <= String.length p)%nat).
  { unfold np. destruct p as [|d r]; [simpl; lia|].
    destruct (Ascii.eqb d "!" || Ascii.eqb d "^"); simpl; lia. }
  destruct np as [negate p1]. cbn [snd] in Hnp.
  pose proof (bracket_loop_length p1 c false) as Hb.
  destruct (bracket_loop p1 c false) as [m p2]. cbn [snd] in *.
  destruct p2 as [|d r]; [simpl in *; lia|].
  destruct (Ascii.eqb d "]"); simpl in *; lia.
Qed.

Lemma try_suffixes_total (m : string -> option bool) :
  (forall t, exists b, m t = Some b) ->
  forall t, exists b, try_suffixes m t = Some b.
Proof.
  intros Hm. induction t as [|c t IH]; cbn [try_suffixes];
    destruct (Hm "") as [b0 E0].
  - rewrite E0. destruct b0; eauto.
  - destruct (Hm (String c t)) as [b E]. rewrite E. destruct b; eauto.
Qed.

Lemma wildcard_match_fuel_total (fuel : nat) :
  forall p s,
    (String.length p < fuel)%nat ->
    exists b, wildcard_match_fuel fuel p s = Some b.
Proof.
  induction fuel as [|fuel IH]; intros p s Hf; [lia|].
  cbn [wildcard_match_fuel].
  destruct p as [|pc p1]; [eauto|]. destruct s as [|sc s1]; [eauto|].
  simpl in Hf.
  destruct (Ascii.eqb pc c_bslash).
  { destruct p1 as [|d p2]; [eauto|].
    destruct (Ascii.eqb d sc); [apply IH; simpl in Hf; lia | eauto]. }
  destruct (Ascii.eqb pc "?").
  { destruct (Ascii.eqb sc "/"); [eauto | apply IH; lia]. }
  destruct (Ascii.eqb pc "[").
  { destruct (Ascii.eqb sc "/"); [eauto|].
    pose proof (match_bracket_length p1 sc) as Hb.
    destruct (match_bracket p1 sc) as [ok p2]. cbn [snd] in Hb.
    destruct ok; [apply IH; lia | eauto]. }
  destruct (Ascii.eqb pc "*").
  { pose proof (skip_stars_length p1) as Hs.
    destruct (skip_stars p1) as [|d p2] eqn:E; [eauto|].
    apply try_suffixes_total. intros t. apply IH. lia. }
  destruct (Ascii.eqb pc sc); [apply IH; lia | eauto].
Qed.

(** [wildcard_match] returns for every pattern and every text, and the
    empty text is matched exactly by the patterns made of stars only. *)
Theorem wildcard_match_returns :
  forall pattern text : string,
    (exists b, wildcard_match pattern text = Some b)
    /\ wildcard_match pattern "" = Some (is_empty (skip_stars pattern)).
Proof.
  intros pattern text. split.
  - apply wildcard_match_fuel_total. lia.
  - unfold wildcard_match. cbn [wildcard_match_fuel].
    destruct pattern; reflexivity.
Qed.

(** *** Patterns without special characters *)

(** A pattern character that stands for itself. *)
Definition literal (c : ascii) : bool :=
  negb (Ascii.eqb c c_bslash || Ascii.eqb c "?" || Ascii.eqb c "["
        || Ascii.eqb c "*").

Lemma literal_spec (c : ascii) :
  literal c = true ->
  Ascii.eqb c c_bslash = false /\ Ascii.eqb c "?" = false
  /\ Ascii.eqb c "[" = false /\ Ascii.eqb c "*" = false.
Proof.
  unfold literal. intros H. apply negb_true_iff in H.
  repeat match type of H with
         | _ || _ = false => apply orb_false_iff in H; destruct H as [H ?]
         end.
  auto.
Qed.

Lemma wildcard_match_fuel_literal (p : string) :
  forall fuel s,
    Lex.string_forallb literal p = true ->
    (String.length p < fuel)%nat ->
    wildcard_match_fuel fuel p s = Some (String.eqb p s).
Proof.
  induction p as [|c p IH]; intros fuel s Hp Hf;
    (destruct fuel as [|fuel]; [simpl in Hf; lia|]);
    cbn [wildcard_match_fuel].
  - destruct s; reflexivity.
  - simpl in Hp. apply andb_true_iff in Hp as [Hc Hp].
    destruct (literal_spec c Hc) as (E1 & E2 & E3 & E4).
    destruct s as [|sc s1].
    + cbn [skip_stars]. rewrite E4. reflexivity.
    + rewrite E1, E2, E3, E4. cbn [String.eqb].
      destruct (Ascii.eqb c sc); [|reflexivity].
      apply IH; [exact Hp | simpl in Hf; lia].
Qed.

(** A pattern without backslash, question mark, bracket and star matches
    exactly the text equal to it. *)
Theorem literal_pattern_matches_only_itself :
  forall pattern text : string,
    Lex.string_forallb literal pattern = true ->
    wildcard_match pattern text = Some (String.eqb pattern text).
Proof.
  intros pattern text H. apply wildcard_match_fuel_literal; [exact H | lia].
Qed.

Lemma literal_pattern_matches_only_itself_witness :
  Lex.string_forallb literal "main.c" = true
  /\ wildcard_match "main.c" "main.o" = Some (String.eqb "main.c" "main.o").
Proof.
  split; [reflexivity|].
  apply (literal_pattern_matches_only_itself "main.c" "main.o"). reflexivity.
Defined.

(** *** Stars *)

Lemma skip_stars_literal (P : string) :
  Lex.string_forallb literal P = true -> skip_stars P = P.
Proof.
  destruct P as [|c P]; [reflexivity|]. simpl. intros H.
  apply andb_true_iff in H as [Hc _].
  destruct (literal_spec c Hc) as (_ & _ & _ & E). now rewrite E.
Qed.

Lemma append_eq_nil (a b : string) : a ++ b = "" -> a = "" /\ b = "".
Proof. destruct a; simpl; [auto | discriminate]. Qed.

Lemma try_suffixes_spec (m : string -> option bool) (P : string) :
  (forall t, m t = Some (String.eqb P t)) ->
  forall s,
    (exists b, try_suffixes m s = Some b)
    /\ (try_suffixes m s = Some true <-> exists a, s = a ++ P).
Proof.
  intros Hm. induction s as [|c s [IHt IH]]; cbn [try_suffixes]; rewrite Hm.
  - destruct (String.eqb_spec P "") as [->|Hne].
    + split; [eauto|]. split; [exists ""; reflexivity | reflexivity].
    + split; [eauto|]. split; [discriminate|].
      intros (a & Ha). symmetry in Ha. apply append_eq_nil in Ha. tauto.
  - destruct (String.eqb_spec P (String c s)) as [->|Hne].
    + split; [eauto|]. split; [exists ""; reflexivity | reflexivity].
    + split; [exact IHt|]. rewrite IH. split.
      * intros (a & ->). exists (String c a). reflexivity.
      * intros (a & Ha). destruct a as [|d a]; simpl in Ha.
        -- congruence.
        -- injection Ha as _ ->. eauto.
Qed.

(** A star matches any run of characters, slashes and a leading dot
    included.  For [P] without special characters, the pattern [P] followed
    by a star matches exactly the texts that start with [P], and the pattern
    made of a star followed by [P] exactly the texts that end with [P]. *)
Theorem star_matches_any_prefix_or_suffix :
  forall P text : string,
    Lex.string_forallb literal P = true ->
    (wildcard_match (P ++ "*") text = Some true <-> exists b, text = P ++ b)
    /\ (wildcard_match ("*" ++ P) text = Some true
        <-> exists a, text = a ++ P).
Proof.
  intros P text HP. split.
  - unfold wildcard_match.
    assert (H : forall fuel s,
      (String.length (P ++ "*") < fuel)%nat ->
      (wildcard_match_fuel fuel (P ++ "*") s = Some true
       <-> exists b, s = P ++ b)).
    { clear text. induction P as [|c P IH]; intros fuel s Hf;
        (destruct fuel as [|fuel]; [simpl in Hf; lia|]).
      - cbn [append wildcard_match_fuel].
        destruct s as [|sc s1]; cbn; split; eauto.
      - simpl in HP. apply andb_true_iff in HP as [Hc HP].
        destruct (literal_spec c Hc) as (E1 & E2 & E3 & E4).
        cbn [append wildcard_match_fuel]. destruct s as [|sc s1].
        + cbn [skip_stars]. rewrite E4. cbn [is_empty].
          split; [discriminate | intros (b & Hb); discriminate].
        + rewrite E1, E2, E3, E4.
          destruct (Ascii.eqb_spec c sc) as [->|Hne].
          * rewrite (IH HP fuel s1 ltac:(simpl in Hf; lia)). split.
            -- intros (b & ->). exists b. reflexivity.
            -- intros (b & Hb). injection Hb as ->. eauto.
          * split; [discriminate|]. intros (b & Hb). congruence. }
    apply H. lia.
  - unfold wildcard_match. cbn [append String.length].
    remember (S (String.length P)) as f eqn:Ef.
    cbn [wildcard_match_fuel].
    destruct text as [|sc s1].
    + cbn [skip_stars]. change (Ascii.eqb "*" "*") with true. cbv iota.
      rewrite (skip_stars_literal P HP). destruct P as [|c P]; cbn [is_empty].
      * split; [exists ""; reflexivity | reflexivity].
      * split; [discriminate|]. intros (a & Ha). symmetry in Ha.
        apply append_eq_nil in Ha. destruct Ha; discriminate.
    + change (Ascii.eqb "*" c_bslash) with false.
      change (Ascii.eqb "*" "?") with false.
      change (Ascii.eqb "*" "[") with false.
      change (Ascii.eqb "*" "*") with true. cbv iota.
      rewrite (skip_stars_literal P HP). destruct P as [|c P].
      * split; [|reflexivity]. intros _. exists (String sc s1).
        now rewrite append_nil_r.
      * apply (try_suffixes_spec _ (String c P)).
        intros t. apply wildcard_match_fuel_literal; [exact HP | lia].
Qed.

Lemma star_matches_any_prefix_or_suffix_witness :
  Lex.string_forallb literal ".c" = true
  /\ (wildcard_match (".c" ++ "*") "src/.hidden.c" = Some true
      <-> exists b, "src/.hidden.c" = ".c" ++ b)
  /\ (wildcard_match ("*" ++ ".c") "src/.hidden.c" = Some true
      <-> exists a, "src/.hidden.c" = a ++ ".c").
Proof.
  split; [reflexivity|].
  apply (star_matches_any_prefix_or_suffix ".c" "src/.hidden.c"). reflexivity.
Defined.

(** *** Question marks and character classes *)

(** The pattern made of [n] question marks. *)
Fixpoint question_marks (n : nat) : string :=
  match n with
  | O => ""
  | S k => String "?" (question_marks k)
  end.

Lemma question_marks_length (n : nat) :
  String.length (question_marks n) = n.
Proof. induction n; simpl; congruence. Qed.

Lemma wildcard_match_fuel_question_marks (n : nat) :
  forall fuel s,
    (n < fuel)%nat ->
    wildcard_match_fuel fuel (question_marks n) s
    = Some ((String.length s =? n)%nat && negb (has_char "/" s)).
Proof.
  induction n as [|n IH]; intros fuel s Hf;
    (destruct fuel as [|fuel]; [lia|]);
    cbn [question_marks wildcard_match_fuel].
  - destruct s; reflexivity.
  - destruct s as [|sc s1]; [reflexivity|].
    change (Ascii.eqb "?" c_bslash) with false.
    change (Ascii.eqb "?" "?") with true. cbv iota.
    cbn [String.length has_char Nat.eqb].
    destruct (Ascii.eqb sc "/"); cbn [orb negb].
    + now rewrite andb_false_r.
    + apply IH. lia.
Qed.

(** A question mark matches any one character but the slash: the pattern
    of [n] question marks matches exactly the texts of [n] characters that
    hold no slash. *)
Theorem question_marks_match_by_length :
  forall (n : nat) (text : string),
    wildcard_match (question_marks n) text
    = Some ((String.length text =? n)%nat && negb (has_char "/" text)).
Proof.
  intros n text. unfold wildcard_match.
  apply wildcard_match_fuel_question_marks.
  rewrite question_marks_length. lia.
Qed.

(** Whether [c] lies between [lo] and [hi] as unsigned characters. *)
Definition in_range (lo hi c : ascii) : bool :=
  (nat_of_ascii lo <=? nat_of_ascii c)%nat
  && (nat_of_ascii c <=? nat_of_ascii hi)%nat.

Lemma bracket_loop_range (lo hi c : ascii) (matched : bool) (rest : string) :
  Ascii.eqb lo "]" = false ->
  Ascii.eqb hi "]" = false ->
  bracket_loop (String lo (String "-" (String hi (String "]" rest)))) c matched
  = (matched || in_range lo hi c, String "]" rest).
Proof.
  intros H1 H4. cbn [bracket_loop]. rewrite H1, H4.
  change (Ascii.eqb "-" "-") with true. cbn [andb negb bracket_loop].
  change (Ascii.eqb "]" "]") with true. reflexivity.
Qed.

Lemma match_bracket_range (lo hi c : ascii) (rest : string) :
  Ascii.eqb lo "]" = false ->
  Ascii.eqb lo "!" = false ->
  Ascii.eqb lo "^" = false ->
  Ascii.eqb hi "]" = false ->
  match_bracket (String lo (String "-" (String hi (String "]" rest)))) c
  = (in_range lo hi c, rest)
  /\ match_bracket
       (String "!" (String lo (String "-" (String hi (String "]" rest))))) c
     = (negb (in_range lo hi c), rest)
  /\ match_bracket
       (String "^" (String lo (String "-" (String hi (String "]" rest))))) c
     = (negb (in_range lo hi c), rest).
Proof.
  intros H1 H2 H3 H4. unfold match_bracket. rewrite H2, H3.
  change (Ascii.eqb "!" "!") with true.
  change (Ascii.eqb "^" "!") with false.
  change (Ascii.eqb "^" "^") with true. cbn [orb].
  rewrite (bracket_loop_range lo hi c false rest H1 H4).
  change (Ascii.eqb "]" "]") with true. cbn [orb]. auto.
Qed.

(** A class made of one range matches the characters of the range, a class
    that starts with an exclamation mark or a caret the characters outside
    it; neither matches the slash. *)
Theorem character_class_matches_its_range :
  forall lo hi c : ascii,
    Ascii.eqb lo "]" = false ->
    Ascii.eqb lo "!" = false ->
    Ascii.eqb lo "^" = false ->
    Ascii.eqb hi "]" = false ->
    wildcard_match (String "[" (String lo (String "-" (String hi "]"))))
      (String c "")
    = Some (negb (Ascii.eqb c "/") && in_range lo hi c)
    /\ wildcard_match
         (String "[" (String "!" (String lo (String "-" (String hi "]")))))
         (String c "")
       = Some (negb (Ascii.eqb c "/") && negb (in_range lo hi c))
    /\ wildcard_match
         (String "[" (String "^" (String lo (String "-" (String hi "]")))))
         (String c "")
       = Some (negb (Ascii.eqb c "/") && negb (in_range lo hi c)).
Proof.
  intros lo hi c H1 H2 H3 H4.
  destruct (match_bracket_range lo hi c "" H1 H2 H3 H4) as (B1 & B2 & B3).
  assert (Hstep : forall fuel p2 ok,
    match_bracket p2 c = (ok, "") ->
    wildcard_match_fuel (S (S fuel)) (String "[" p2) (String c "")
    = Some (negb (Ascii.eqb c "/") && ok)).
  { intros fuel p2 ok Hb.
    change (wildcard_match_fuel (S (S fuel)) (String "[" p2) (String c ""))
      with (if Ascii.eqb c "/" then Some false
            else let '(ok, p3) := match_bracket p2 c in
                 if ok then wildcard_match_fuel (S fuel) p3 ""
                 else Some false).
    rewrite Hb. destruct (Ascii.eqb c "/"); [reflexivity|].
    destruct ok; reflexivity. }
  unfold wildcard_match. cbn [String.length].
  rewrite (Hstep _ _ _ B1), (Hstep _ _ _ B2), (Hstep _ _ _ B3). auto.
Qed.

Lemma character_class_matches_its_range_witness :
  Ascii.eqb "a" "]" = false
  /\ Ascii.eqb "a" "!" = false
  /\ Ascii.eqb "a" "^" = false
  /\ Ascii.eqb "z" "]" = false
  /\ wildcard_match (String "[" (String "a" (String "-" (String "z" "]"))))
       (String "q" "")
     = Some (negb (Ascii.eqb "q" "/") && in_range "a" "z" "q")
  /\ wildcard_match
       (String "[" (String "!" (String "a" (String "-" (String "z" "]")))))
       (String "q" "")
     = Some (negb (Ascii.eqb "q" "/") && negb (in_range "a" "z" "q"))
  /\ wildcard_match
       (String "[" (String "^" (String "a" (String "-" (String "z" "]")))))
       (String "q" "")
     = Some (negb (Ascii.eqb "q" "/") && negb (in_range "a" "z" "q")).
Proof.
  split; [reflexivity|]. split; [reflexivity|]. split; [reflexivity|].
  split; [reflexivity|].
  apply (character_class_matches_its_range "a" "z" "q"); reflexivity.
Defined.

End Wildcard.

(* ========================================================================= *)
(** * job_control.c: the job table *)
(* ========================================================================= *)

Module Jobs.
Import CStr.
Local Open Scope string_scope.
Local Open Scope Z_scope.

(** shell.h: [enum JobState]. *)
Inductive JobState : Type :=
| JOB_RUNNING | JOB_STOPPED | JOB_DONE | JOB_KILLED.

(** [struct Job] without [next]; [npids] is the length of [pids]. *)
Record Job : Type := mkJob {
  id : Z;
  pgid : Z;
  pids : list Z;
  state : JobState;
  command : string;
  notified : bool;
  foreground : bool
}.

(** [struct JobTable]: the list from [head], and [next_id]. *)
Record JobTable : Type := mkJobs {
  head : list Job;
  next_id : Z
}.

(** The table [job_control_init] sets up. *)
Definition job_table_init : JobTable := mkJobs [] 1.

(** [job_add]: the new job and the table.  Allocation is taken to succeed;
    the counter is an [int] that is taken not to overflow. *)
Definition job_add (jobs : JobTable) (pg : Z) (ps : list Z)
    (cmd : option string) (fg : bool) : Job * JobTable :=
  let job :=
    mkJob (next_id jobs) pg ps JOB_RUNNING
      (strdup (match cmd with Some c => c | None => "" end)) false fg in
  (job, mkJobs (job :: head jobs) (next_id jobs + 1)).

Fixpoint remove_id (l : list Job) (job_id : Z) : list Job :=
  match l with
  | [] => []
  | j :: next => if id j =? job_id then next else j :: remove_id next job_id
  end.

(** [job_remove]. *)
Definition job_remove (jobs : JobTable) (job_id : Z) : JobTable :=
  mkJobs (remove_id (head jobs) job_id) (next_id jobs).

(** [job_find_by_id]. *)
Definition job_find_by_id (jobs : JobTable) (job_id : Z) : option Job :=
  find (fun j => id j =? job_id) (head jobs).

(** [job_find_by_pgid]. *)
Definition job_find_by_pgid (jobs : JobTable) (pg : Z) : option Job :=
  find (fun j => pgid j =? pg) (head jobs).

(** [job_find_by_pid]. *)
Definition job_find_by_pid (jobs : JobTable) (pid : Z) : option Job :=
  find (fun j => existsb (Z.eqb pid) (pids j)) (head jobs).

(** The loop of [job_most_recent]: a later job replaces the best one only
    when its id is greater. *)
Fixpoint most_recent_from (l : list Job) (best : option Job) : option Job :=
  match l with
  | [] => best
  | j :: next =>
    most_recent_from next
      (match best with
       | None => Some j
       | Some b => if id b <? id j then Some j else best
       end)
  end.

(** [job_most_recent]. *)
Definition job_most_recent (jobs : JobTable) : option Job :=
  most_recent_from (head jobs) None.

(** What the macros of <sys/wait.h> tell of a status. *)
Inductive WaitStatus : Type :=
| WStopped | WContinued | WExited (code : Z) | WSignaled (sig : Z).

(** The loop that zeroes the first occurrence of [pid]. *)
Fixpoint zero_pid (ps : list Z) (pid : Z) : list Z :=
  match ps with
  | [] => []
  | p :: more => if p =? pid then 0 :: more else p :: zero_pid more pid
  end.

(** The update [job_update_status] makes to the job it found. *)
Definition update_job (job : Job) (pid : Z) (status : WaitStatus) : Job :=
  match status with
  | WStopped =>
    mkJob (id job) (pgid job) (pids job) JOB_STOPPED (command job) false
      (foreground job)
  | WContinued =>
    mkJob (id job) (pgid job) (pids job) JOB_RUNNING (command job) false
      (foreground job)
  | WExited _ | WSignaled _ =>
    let ps := zero_pid (pids job) pid in
    if forallb (Z.eqb 0) ps then
      mkJob (id job) (pgid job) ps
        (match status with WSignaled _ => JOB_KILLED | _ => JOB_DONE end)
        (command job) false (foreground job)
    else
      mkJob (id job) (pgid job) ps (state job) (command job) (notified job)
        (foreground job)
  end.

(** The job [job_find_by_pid] returns is updated in place. *)
Fixpoint update_first (l : list Job) (pid : Z) (status : WaitStatus)
    : list Job :=
  match l with
  | [] => []
  | j :: next =>
    if existsb (Z.eqb pid) (pids j) then update_job j pid status :: next
    else j :: update_first next pid status
  end.

(** [job_update_status]. *)
Definition job_update_status (jobs : JobTable) (pid : Z)
    (status : WaitStatus) : JobTable :=
  mkJobs (update_first (head jobs) pid status) (next_id jobs).

(** *** Job ids *)

(** A run of calls on the job table. *)
Inductive JobOp : Type :=
| JAdd (pg : Z) (ps : list Z) (cmd : option string) (fg : bool)
| JRemove (job_id : Z)
| JUpdate (pid : Z) (status : WaitStatus).

Definition job_apply (jobs : JobTable) (op : JobOp) : JobTable :=
  match op with
  | JAdd pg ps cmd fg => snd (job_add jobs pg ps cmd fg)
  | JRemove job_id => job_remove jobs job_id
  | JUpdate pid status => job_update_status jobs pid status
  end.

(** The table reached from the initial one by a run of calls. *)
Definition jobs_after (ops : list JobOp) : JobTable :=
  fold_left job_apply ops job_table_init.

(** No id twice in the list, and every id below [next_id]. *)
Definition jobs_ok (jobs : JobTable) : Prop :=
  NoDup (map id (head jobs))
  /\ Forall (fun j => id j < next_id jobs) (head jobs).

Lemma remove_id_incl (l : list Job) (i : Z) (j : Job) :
  In j (remove_id l i) -> In j l.
Proof.
  induction l as [|x l IH]; simpl; [tauto|].
  destruct (id x =? i); simpl; tauto.
Qed.

Lemma remove_id_NoDup (l : list Job) (i : Z) :
  NoDup (map id l) ->
  NoDup (map id (remove_id l i)) /\ ~ In i (map id (remove_id l i)).
Proof.
  induction l as [|x l IH]; simpl; intros Hn.
  - split; [constructor | tauto].
  - inversion Hn as [|? ? Hx Hl]; subst.
    destruct (Z.eqb_spec (id x) i) as [<-|Hne]; [auto|].
    destruct (IH Hl) as [IH1 IH2]. simpl. split.
    + constructor; [|exact IH1]. intros Hin. apply Hx.
      apply in_map_iff in Hin as (j & Hj & Hin).
      apply in_map_iff. exists j. split; [exact Hj|].
      exact (remove_id_incl _ _ _ Hin).
    + tauto.
Qed.

Lemma update_first_ids (l : list Job) (pid : Z) (status : WaitStatus) :
  map id (update_first l pid status) = map id l.
Proof.
  induction l as [|x l IH]; simpl; [reflexivity|].
  destruct (existsb (Z.eqb pid) (pids x)); simpl; [|congruence].
  f_equal. unfold update_job.
  destruct status; try reflexivity;
    destruct (forallb (Z.eqb 0) (zero_pid (pids x) pid)); reflexivity.
Qed.

Lemma Forall_ids (l l' : list Job) (n : Z) :
  map id l' = map id l ->
  Forall (fun j => id j < n) l -> Forall (fun j => id j < n) l'.
Proof.
  intros Hm Hl. apply Forall_forall. intros j Hj.
  apply (in_map id) in Hj. rewrite Hm in Hj.
  apply in_map_iff in Hj as (j' & <- & Hj').
  exact (proj1 (Forall_forall _ _) Hl j' Hj').
Qed.

Lemma job_apply_ok (jobs : JobTable) (op : JobOp) :
  jobs_ok jobs -> jobs_ok (job_apply jobs op).
Proof.
  intros [Hn Hb]. destruct op as [pg ps cmd fg|i|pid status];
    unfold jobs_ok; simpl.
  - split.
    + constructor; [|exact Hn]. intros Hin.
      apply in_map_iff in Hin as (j & Hj & Hin).
      pose proof (proj1 (Forall_forall _ _) Hb j Hin) as Hlt.
      cbv beta in Hlt. lia.
    + constructor; [simpl; lia|].
      eapply Forall_impl; [|exact Hb]. simpl. intros; lia.
  - split; [apply remove_id_NoDup; exact Hn|].
    apply Forall_forall. intros j Hj.
    exact (proj1 (Forall_forall _ _) Hb j (remove_id_incl _ _ _ Hj)).
  - rewrite update_first_ids. split; [exact Hn|].
    exact (Forall_ids _ _ _ (update_first_ids _ pid status) Hb).
Qed.

Lemma jobs_after_ok (ops : list JobOp) : jobs_ok (jobs_after ops).
Proof.
  unfold jobs_after.
  assert (H0 : jobs_ok job_table_init)
    by (split; simpl; constructor).
  revert H0. generalize job_table_init.
  induction ops as [|op ops IH]; intros t Ht; simpl; [exact Ht|].
  apply IH. now apply job_apply_ok.
Qed.

Lemma most_recent_kept (l : list Job) (b : Job) :
  Forall (fun j => id j < id b) l -> most_recent_from l (Some b) = Some b.
Proof.
  induction l as [|x l IH]; intros H; simpl; [reflexivity|].
  inversion H as [|? ? Hx Hl]; subst.
  replace (id b <? id x) with false by (symmetry; apply Z.ltb_ge; lia).
  now apply IH.
Qed.

Lemma find_id_none (l : list Job) (i : Z) :
  ~ In i (map id l) -> find (fun j => id j =? i) l = None.
Proof.
  induction l as [|x l IH]; simpl; [reflexivity|]. intros H.
  destruct (Z.eqb_spec (id x) i); [tauto|]. apply IH. tauto.
Qed.

Lemma find_remove_other (l : list Job) (i i' : Z) :
  i' <> i ->
  find (fun j => id j =? i') (remove_id l i) = find (fun j => id j =? i') l.
Proof.
  intros Hne. induction l as [|x l IH]; simpl; [reflexivity|].
  destruct (Z.eqb_spec (id x) i) as [E|E]; simpl.
  - destruct (Z.eqb_spec (id x) i'); [lia | reflexivity].
  - destruct (id x =? i'); [reflexivity | exact IH].
Qed.

(** Job ids are fresh.  After any run of calls on the table, [job_add]
    gives the new job the id [next_id], which no job of the table has; the
    new job is the one [job_find_by_id] returns for that id and the one
    [job_most_recent] returns, and the other ids find the jobs they found
    before. *)
Theorem job_add_gives_a_fresh_id :
  forall (ops : list JobOp) (pg : Z) (ps : list Z) (cmd : option string)
         (fg : bool),
    let jobs := jobs_after ops in
    let job := fst (job_add jobs pg ps cmd fg) in
    let jobs' := snd (job_add jobs pg ps cmd fg) in
    id job = next_id jobs
    /\ job_find_by_id jobs (id job) = None
    /\ job_find_by_id jobs' (id job) = Some job
    /\ job_most_recent jobs' = Some job
    /\ NoDup (map id (head jobs'))
    /\ (forall i, i <> id job ->
                  job_find_by_id jobs' i = job_find_by_id jobs i).
Proof.
  intros ops pg ps cmd fg jobs job jobs'.
  pose proof (jobs_after_ok ops) as Hok. fold jobs in Hok.
  pose proof (job_apply_ok jobs (JAdd pg ps cmd fg) Hok) as [Hn' _].
  destruct Hok as [Hn Hb].
  subst job jobs'. unfold job_add, job_find_by_id, job_most_recent.
  cbn [fst snd head id find most_recent_from].
  split; [reflexivity|]. split; [|split; [|split; [|split]]].
  - apply find_id_none. intros Hin.
    apply in_map_iff in Hin as (j & Hj & Hin).
    pose proof (proj1 (Forall_forall _ _) Hb j Hin) as Hlt.
    cbv beta in Hlt. lia.
  - now rewrite Z.eqb_refl.
  - apply most_recent_kept. exact Hb.
  - exact Hn'.
  - intros i Hne. destruct (Z.eqb_spec (next_id jobs) i); [congruence|].
    reflexivity.
Qed.

(** [job_remove] forgets the job of the id given and no other: after any
    run of calls on the table, the id removed finds no job, and the other
    ids find the jobs they found before. *)
Theorem job_remove_forgets_only_that_job :
  forall (ops : list JobOp) (i : Z),
    let jobs := jobs_after ops in
    job_find_by_id (job_remove jobs i) i = None
    /\ (forall i', i' <> i ->
                   job_find_by_id (job_remove jobs i) i'
                   = job_find_by_id jobs i').
Proof.
  intros ops i jobs. destruct (jobs_after_ok ops) as [Hn _]. fold jobs in Hn.
  unfold job_find_by_id, job_remove. cbn [head]. split.
  - apply find_id_none. apply remove_id_NoDup. exact Hn.
  - intros i' Hne. now apply find_remove_other.
Qed.

(** *** The processes of a job *)

(** A status that reports the end of a process. *)
Definition reaped (status : WaitStatus) : bool :=
  match status with
  | WExited _ | WSignaled _ => true
  | _ => false
  end.

(** The state of a job whose last process ended with [status]. *)
Definition final_state (status : WaitStatus) : JobState :=
  match status with
  | WSignaled _ => JOB_KILLED
  | _ => JOB_DONE
  end.

Lemma zero_pid_keeps (ps : list Z) (pid q : Z) :
  In q ps -> q <> pid -> In q (zero_pid ps pid).
Proof.
  induction ps as [|p ps IH]; simpl; [tauto|].
  intros [->|Hin] Hne.
  - destruct (Z.eqb_spec q pid); [tauto | now left].
  - destruct (p =? pid); simpl; auto.
Qed.

Lemma zero_pid_all_zero (zeros zeros' : list Z) (pid : Z) :
  Forall (eq 0) zeros -> Forall (eq 0) zeros' ->
  Forall (eq 0) (zero_pid (zeros ++ pid :: zeros') pid).
Proof.
  intros Hz Hz'. induction Hz as [|z zeros Hz0 Hz IH]; simpl.
  - rewrite Z.eqb_refl. constructor; [reflexivity | exact Hz'].
  - subst z. destruct (Z.eqb_spec 0 pid) as [<-|Hne].
    + constructor; [reflexivity|]. apply Forall_app. split; [exact Hz|].
      constructor; [reflexivity | exact Hz'].
    + constructor; [reflexivity | exact IH].
Qed.

Lemma update_first_at (before after : list Job) (job : Job) (pid : Z)
    (status : WaitStatus) :
  Forall (fun b => existsb (Z.eqb pid) (pids b) = false) before ->
  In pid (pids job) ->
  update_first (before ++ job :: after) pid status
  = (before ++ update_job job pid status :: after)%list
  /\ find (fun j => existsb (Z.eqb pid) (pids j)) (before ++ job :: after)
     = Some job.
Proof.
  intros Hb Hin.
  assert (Hj : existsb (Z.eqb pid) (pids job) = true).
  { apply existsb_exists. exists pid. split; [exact Hin | apply Z.eqb_refl]. }
  induction Hb as [|b before Hb0 Hb IH]; simpl.
  - now rewrite Hj.
  - rewrite Hb0. destruct IH as [IH1 IH2]. now rewrite IH1, IH2.
Qed.

(** A job made of several processes ends with its last process.  When a
    process of the job is reported as exited or killed, its pid is zeroed
    in the job; while another process of the job remains, the state of the
    job and its notification flag stay as they are; when it was the last
    one, the job becomes done (killed, for a signal) and is marked as not
    yet notified. *)
Theorem job_is_done_when_its_last_process_ends :
  forall (jobs : JobTable) (before after : list Job) (job : Job) (pid : Z)
         (status : WaitStatus),
    head jobs = (before ++ job :: after)%list ->
    Forall (fun b => existsb (Z.eqb pid) (pids b) = false) before ->
    In pid (pids job) ->
    reaped status = true ->
    let job' := update_job job pid status in
    job_find_by_pid jobs pid = Some job
    /\ head (job_update_status jobs pid status)
       = (before ++ job' :: after)%list
    /\ pids job' = zero_pid (pids job) pid
    /\ ((exists q, In q (pids job) /\ q <> 0 /\ q <> pid) ->
        state job' = state job /\ notified job' = notified job)
    /\ (forall zeros zeros',
          pids job = (zeros ++ pid :: zeros')%list ->
          Forall (eq 0) zeros -> Forall (eq 0) zeros' ->
          state job' = final_state status /\ notified job' = false).
Proof.
  intros jobs before after job pid status Hh Hb Hin Hr job'.
  destruct (update_first_at before after job pid status Hb Hin) as [Hu Hf].
  unfold job_find_by_pid, job_update_status. cbn [head]. rewrite Hh.
  split; [exact Hf|]. split; [exact Hu|].
  subst job'. unfold update_job.
  destruct status as [| |code|sig]; try discriminate.
  - split; [destruct (forallb _ _); reflexivity|]. split.
    + intros (q & Hq & Hq0 & Hqp).
      assert (E : forallb (Z.eqb 0) (zero_pid (pids job) pid) = false).
      { destruct (forallb _ _) eqn:E; [|reflexivity].
        pose proof (proj1 (forallb_forall _ _) E q
                      (zero_pid_keeps _ _ _ Hq Hqp)) as H0.
        apply Z.eqb_eq in H0. congruence. }
      rewrite E. auto.
    + intros zeros zeros' Hp Hz Hz'.
      assert (E : forallb (Z.eqb 0) (zero_pid (pids job) pid) = true).
      { apply forallb_forall. intros x Hx. apply Z.eqb_eq.
        rewrite Hp in Hx.
        exact (proj1 (Forall_forall _ _)
                 (zero_pid_all_zero zeros zeros' pid Hz Hz') x Hx). }
      rewrite E. auto.
  - split; [destruct (forallb _ _); reflexivity|]. split.
    + intros (q & Hq & Hq0 & Hqp).
      assert (E : forallb (Z.eqb 0) (zero_pid (pids job) pid) = false).
      { destruct (forallb _ _) eqn:E; [|reflexivity].
        pose proof (proj1 (forallb_forall _ _) E q
                      (zero_pid_keeps _ _ _ Hq Hqp)) as H0.
        apply Z.eqb_eq in H0. congruence. }
      rewrite E. auto.
    + intros zeros zeros' Hp Hz Hz'.
      assert (E : forallb (Z.eqb 0) (zero_pid (pids job) pid) = true).
      { apply forallb_forall. intros x Hx. apply Z.eqb_eq.
        rewrite Hp in Hx.
        exact (proj1 (Forall_forall _ _)
                 (zero_pid_all_zero zeros zeros' pid Hz Hz') x Hx). }
      rewrite E. auto.
Qed.

(** A table that holds one job of two processes. *)
Definition pipeline_table : JobTable :=
  snd (job_add job_table_init 100 [100; 101] (Some "a | b") false).

Definition pipeline_job : Job :=
  fst (job_add job_table_init 100 [100; 101] (Some "a | b") false).

Lemma job_is_done_when_its_last_process_ends_witness :
  head pipeline_table = ([] ++ pipeline_job :: [])%list
  /\ Forall (fun b => existsb (Z.eqb 101) (pids b) = false) []
  /\ In 101 (pids pipeline_job)
  /\ reaped (WExited 0) = true
  /\ (let job' := update_job pipeline_job 101 (WExited 0) in
      job_find_by_pid pipeline_table 101 = Some pipeline_job
      /\ head (job_update_status pipeline_table 101 (WExited 0))
         = ([] ++ job' :: [])%list
      /\ pids job' = zero_pid (pids pipeline_job) 101
      /\ ((exists q, In q (pids pipeline_job) /\ q <> 0 /\ q <> 101) ->
          state job' = state pipeline_job
          /\ notified job' = notified pipeline_job)
      /\ (forall zeros zeros',
            pids pipeline_job = (zeros ++ 101 :: zeros')%list ->
            Forall (eq 0) zeros -> Forall (eq 0) zeros' ->
            state job' = final_state (WExited 0) /\ notified job' = false)).
Proof.
  split; [reflexivity|]. split; [constructor|].
  split; [simpl; auto|]. split; [reflexivity|].
  apply (job_is_done_when_its_last_process_ends pipeline_table [] []
           pipeline_job 101 (WExited 0));
    [reflexivity | constructor | simpl; auto | reflexivity].
Defined.

End Jobs.

(* ========================================================================= *)
(** * safe_string.c: the bounds-checked string buffer *)
(* ========================================================================= *)

Module SStr.
Import CStr.
Local Open Scope string_scope.
Local Open Scope Z_scope.

(** safe_string.h: [SSTR_INIT_CAP]. *)
Definition SSTR_INIT_CAP : Z := 64.

(** [size_t] is 64 bits wide. *)
Definition size_wrap (z : Z) : Z := z mod 2 ^ 64.

(** [struct SafeString].  [data] holds the [len] bytes before the
    terminating NUL; [cap] is the size of the allocation. *)
Record SafeString : Type := mkSStr {
  data : string;
  cap : Z
}.

Definition len (s : SafeString) : Z := Z.of_nat (String.length (data s)).

(** [sstr_new]; [malloc_ok] is the outcome of the allocations. *)
Definition sstr_new (malloc_ok : bool) (initial_cap : Z) : option SafeString :=
  if malloc_ok
  then Some (mkSStr "" (if initial_cap <? SSTR_INIT_CAP then SSTR_INIT_CAP
                        else initial_cap))
  else None.

(** [sstr_from]. *)
Definition sstr_from (malloc_ok : bool) (cstr : option string)
    : option SafeString :=
  match cstr with
  | None => sstr_new malloc_ok SSTR_INIT_CAP
  | Some text =>
    let n := Z.of_nat (String.length (c_str text)) in
    let c := size_wrap (n + 1) in
    if malloc_ok
    then Some (mkSStr (c_str text) (if c <? SSTR_INIT_CAP then SSTR_INIT_CAP
                                    else c))
    else None
  end.

(** The doubling loop of [sstr_ensure]; [None] when the bound on its
    iterations is exhausted. *)
Fixpoint grow (fuel : nat) (new_cap required : Z) : option Z :=
  match fuel with
  | O => None
  | S fuel' =>
    if new_cap <? required then grow fuel' (size_wrap (new_cap * 2)) required
    else Some new_cap
  end.

(** [sstr_ensure]; [realloc_ok] is the outcome of [realloc].  After 64
    doublings the capacity has wrapped around to 0 and the loop of the
    source no longer ends: the result is then [None]. *)
Definition sstr_ensure (realloc_ok : bool) (s : SafeString) (needed : Z)
    : option (bool * SafeString) :=
  let required := size_wrap (size_wrap (len s + needed) + 1) in
  if required <=? cap s then Some (true, s)
  else
    match grow 65 (size_wrap (cap s * 2)) required with
    | None => None
    | Some new_cap =>
      if realloc_ok then Some (true, mkSStr (data s) new_cap)
      else Some (false, s)
    end.

(** [sstr_append]; a NULL [cstr] is [None]. *)
Definition sstr_append (realloc_ok : bool) (s : SafeString)
    (cstr : option string) : option (bool * SafeString) :=
  match cstr with
  | None => Some (true, s)
  | Some text =>
    let add := c_str text in
    match sstr_ensure realloc_ok s (Z.of_nat (String.length add)) with
    | None => None
    | Some (false, s') => Some (false, s')
    | Some (true, s') => Some (true, mkSStr (data s' ++ add) (cap s'))
    end
  end.

(** [sstr_append_char]. *)
Definition sstr_append_char (realloc_ok : bool) (s : SafeString) (c : ascii)
    : option (bool * SafeString) :=
  match sstr_ensure realloc_ok s 1 with
  | None => None
  | Some (false, s') => Some (false, s')
  | Some (true, s') => Some (true, mkSStr (data s' ++ String c "") (cap s'))
  end.

(** The first [n] bytes of a text, and the text without them. *)
Fixpoint take (n : nat) (s : string) : string :=
  match n, s with
  | S k, String c r => String c (take k r)
  | _, _ => ""
  end.

Fixpoint drop (n : nat) (s : string) : string :=
  match n, s with
  | S k, String _ r => drop k r
  | _, _ => s
  end.

(** [sstr_truncate]. *)
Definition sstr_truncate (s : SafeString) (n : Z) : SafeString :=
  if n <? len s then mkSStr (take (Z.to_nat n) (data s)) (cap s) else s.

(** [sstr_clear]. *)
Definition sstr_clear (s : SafeString) : SafeString := mkSStr "" (cap s).


(** [sstr_set]. *)
Definition sstr_set (realloc_ok : bool) (s : SafeString)
    (cstr : option string) : option (bool * SafeString) :=
  sstr_append realloc_ok (sstr_clear s) cstr.

(** [sstr_insert_char]. *)
Definition sstr_insert_char (realloc_ok : bool) (s : SafeString) (pos : Z)
    (c : ascii) : option (bool * SafeString) :=
  if len s <? pos then Some (false, s)
  else
    match sstr_ensure realloc_ok s 1 with
    | None => None
    | Some (false, s') => Some (false, s')
    | Some (true, s') =>
      Some (true,
            mkSStr (take (Z.to_nat pos) (data s')
                    ++ String c (drop (Z.to_nat pos) (data s')))
              (cap s'))
    end.

(** [sstr_delete].  When [pos + n] wraps around, the source address of
    the [memmove] is computed past the end of the address space: the
    behaviour is undefined, and the result is [None]. *)
Definition sstr_delete (s : SafeString) (pos n : Z) : option SafeString :=
  if len s <=? pos then Some s
  else if 2 ^ 64 <=? pos + n then None
  else
    let n := if len s <? pos + n then len s - pos else n in
    Some (mkSStr (take (Z.to_nat pos) (data s)
                  ++ drop (Z.to_nat (pos + n)) (data s))
            (cap s)).

(** *** Growth *)

Lemma grow_spec (fuel : nat) :
  forall c required,
    0 < c ->
    required <= 2 ^ 63 ->
    required <= c * 2 ^ Z.of_nat fuel ->
    exists nc,
      grow (S fuel) c required = Some nc
      /\ required <= nc /\ c <= nc /\ (nc = c \/ nc < 2 * required).
Proof.
  induction fuel as [|fuel IH]; intros c required Hc Hr Hf;
    cbn [grow]; destruct (Z.ltb_spec c required) as [Hlt|Hge].
  - simpl in Hf. lia.
  - exists c. repeat split; lia.
  - assert (Hw : size_wrap (c * 2) = c * 2)
      by (unfold size_wrap; apply Z.mod_small; lia).
    rewrite Hw.
    destruct (IH (c * 2) required ltac:(lia) Hr) as (nc & E & H1 & H2 & H3).
    { rewrite Nat2Z.inj_succ, Z.pow_succ_r in Hf by lia. lia. }
    exists nc. rewrite <- E. split; [reflexivity|].
    repeat split; lia.
  - exists c. repeat split; lia.
Qed.

(** A buffer in the state the functions keep: the text and its terminator
    fit in the allocation, which is not empty and far from overflow. *)
Definition sstr_ok (s : SafeString) : Prop :=
  len s + 1 <= cap s /\ cap s <= 2 ^ 62.

Lemma sstr_ensure_spec (realloc_ok : bool) (s : SafeString) (needed : Z) :
  sstr_ok s ->
  0 <= needed <= 2 ^ 61 ->
  exists ok s',
    sstr_ensure realloc_ok s needed = Some (ok, s')
    /\ data s' = data s
    /\ cap s <= cap s'
    /\ (ok = true ->
        len s + needed + 1 <= cap s' /\ cap s' < 2 ^ 64
        /\ (cap s' = cap s \/ cap s' < 2 * (len s + needed + 1)))
    /\ (ok = false ->
        s' = s /\ realloc_ok = false /\ cap s < len s + needed + 1).
Proof.
  intros [Hl Hc] Hn. unfold sstr_ensure.
  assert (Hlen : 0 <= len s) by (unfold len; lia).
  assert (Hw : size_wrap (size_wrap (len s + needed) + 1)
               = len s + needed + 1).
  { unfold size_wrap. rewrite (Z.mod_small (len s + needed)) by lia.
    apply Z.mod_small. lia. }
  rewrite Hw.
  destruct (Z.leb_spec (len s + needed + 1) (cap s)) as [Hfit|Hbig].
  - exists true, s. repeat split; try lia; try discriminate.
  - assert (Hw2 : size_wrap (cap s * 2) = cap s * 2)
      by (unfold size_wrap; apply Z.mod_small; lia).
    rewrite Hw2.
    destruct (grow_spec 64 (cap s * 2) (len s + needed + 1))
      as (nc & E & H1 & H2 & H3); try lia.
    rewrite E. destruct realloc_ok.
    + exists true, (mkSStr (data s) nc). cbn [data cap].
      repeat split; try lia; try discriminate.
    + exists false, s. repeat split; try lia; try discriminate.
Qed.



(** *** Insertion and deletion *)

Lemma take_drop (n : nat) (s : string) : take n s ++ drop n s = s.
Proof.
  revert s. induction n as [|n IH]; intros [|c r]; simpl; auto.
  now rewrite IH.
Qed.

Lemma take_length (n : nat) (s : string) :
  (n <= String.length s)%nat -> String.length (take n s) = n.
Proof.
  revert s. induction n as [|n IH]; intros [|c r] H; simpl in *;
    try lia; auto. rewrite IH; lia.
Qed.

Lemma take_append (a b : string) : take (String.length a) (a ++ b) = a.
Proof. induction a as [|c a IH]; simpl; [now destruct b | now rewrite IH]. Qed.

Lemma drop_append (a b : string) : drop (String.length a) (a ++ b) = b.
Proof. induction a as [|c a IH]; simpl; auto. Qed.

Lemma drop_insert (a b : string) (c : ascii) :
  drop (S (String.length a)) (a ++ String c b) = b.
Proof. induction a as [|x a IH]; simpl; auto. Qed.

Lemma drop_all (n : nat) (s : string) :
  (String.length s <= n)%nat -> drop n s = "".
Proof.
  revert s. induction n as [|n IH]; intros [|c r] H; simpl in *;
    try lia; auto. apply IH. lia.
Qed.

(** [sstr_delete] undoes [sstr_insert_char], and clamps a count that runs
    past the end.  On a buffer whose text fits its allocation, inserting a
    character at a position within the text succeeds, makes the text one
    longer and keeps it within the allocation, and deleting one character at
    that position gives the old text back; deleting from a position within
    the text a count that reaches or passes its end removes the text from
    that position on. *)
Theorem sstr_delete_undoes_sstr_insert_char :
  forall (s : SafeString) (pos : Z) (c : ascii),
    sstr_ok s ->
    0 <= pos <= len s ->
    (exists s1 s2,
        sstr_insert_char true s pos c = Some (true, s1)
        /\ len s1 = len s + 1
        /\ len s1 + 1 <= cap s1
        /\ sstr_delete s1 pos 1 = Some s2
        /\ data s2 = data s)
    /\ (forall n,
          pos < len s -> len s <= pos + n < 2 ^ 64 ->
          sstr_delete s pos n
          = Some (mkSStr (take (Z.to_nat pos) (data s)) (cap s))).
Proof.
  intros s pos c Hok Hpos. split.
  - unfold sstr_insert_char.
    replace (len s <? pos) with false by (symmetry; apply Z.ltb_ge; lia).
    destruct (sstr_ensure_spec true s 1 Hok ltac:(lia))
      as (ok & s0 & E & Hd & Hc & Ht & Hf).
    rewrite E. destruct ok; [|destruct (Hf eq_refl) as (_ & ? & _); discriminate].
    destruct (Ht eq_refl) as (H1 & H2 & H3).
    set (a := take (Z.to_nat pos) (data s)).
    set (b := drop (Z.to_nat pos) (data s)).
    assert (Hab : a ++ b = data s) by apply take_drop.
    assert (Hla : String.length a = Z.to_nat pos).
    { apply take_length. unfold len in Hpos. lia. }
    rewrite Hd. fold a b.
    set (s1 := mkSStr (a ++ String c b) (cap s0)).
    assert (Hlen1 : len s1 = len s + 1).
    { unfold len, s1. cbn [data]. rewrite <- Hab, !length_append.
      cbn [String.length]. lia. }
    assert (Hdel : sstr_delete s1 pos 1 = Some (mkSStr (a ++ b) (cap s0))).
    { unfold sstr_delete. rewrite Hlen1.
      replace (len s + 1 <=? pos) with false
        by (symmetry; apply Z.leb_gt; lia).
      replace (2 ^ 64 <=? pos + 1) with false.
      2:{ symmetry. apply Z.leb_gt. destruct Hok. lia. }
      replace (len s + 1 <? pos + 1) with false
        by (symmetry; apply Z.ltb_ge; lia).
      unfold s1. cbn [data cap]. f_equal. f_equal. rewrite <- Hla.
      rewrite take_append.
      replace (Z.to_nat (pos + 1)) with (S (String.length a)) by lia.
      now rewrite drop_insert. }
    exists s1, (mkSStr (a ++ b) (cap s0)).
    split; [reflexivity|]. split; [exact Hlen1|].
    split; [rewrite Hlen1; unfold s1; cbn [cap]; lia|].
    split; [exact Hdel | exact Hab].
  - intros n Hlt Hn. unfold sstr_delete.
    replace (len s <=? pos) with false by (symmetry; apply Z.leb_gt; lia).
    replace (2 ^ 64 <=? pos + n) with false
      by (symmetry; apply Z.leb_gt; lia).
    assert (Hdrop : forall m, len s <= pos + m ->
              drop (Z.to_nat (pos + m)) (data s) = "").
    { intros m Hm. apply drop_all. unfold len in Hm. lia. }
    destruct (len s <? pos + n).
    + rewrite Hdrop by lia. now rewrite append_nil_r.
    + rewrite Hdrop by lia. now rewrite append_nil_r.
Qed.

Lemma sstr_delete_undoes_sstr_insert_char_witness :
  sstr_ok (mkSStr "helo" 64)
  /\ 0 <= 3 <= len (mkSStr "helo" 64)
  /\ (exists s1 s2,
        sstr_insert_char true (mkSStr "helo" 64) 3 "l" = Some (true, s1)
        /\ len s1 = len (mkSStr "helo" 64) + 1
        /\ len s1 + 1 <= cap s1
        /\ sstr_delete s1 3 1 = Some s2
        /\ data s2 = data (mkSStr "helo" 64))
  /\ (forall n,
        3 < len (mkSStr "helo" 64) ->
        len (mkSStr "helo" 64) <= 3 + n < 2 ^ 64 ->
        sstr_delete (mkSStr "helo" 64) 3 n
        = Some (mkSStr (take (Z.to_nat 3) (data (mkSStr "helo" 64)))
                  (cap (mkSStr "helo" 64)))).
Proof.
  assert (Hok : sstr_ok (mkSStr "helo" 64))
    by (unfold sstr_ok, len; simpl; lia).
  split; [exact Hok|]. split; [unfold len; simpl; lia|].
  apply (sstr_delete_undoes_sstr_insert_char (mkSStr "helo" 64) 3 "l" Hok).
  unfold len; simpl; lia.
Defined.

End SStr.
